(** * RooFit normalization helpers

    A shallow embedding of [roofit/roofitcore/src/NormalizationHelpers.cxx]:
    the memoised reachability checker [GraphChecker], the propagation of
    normalization sets [treeNodeServerListAndNormSets], the graph rewrite
    [unfoldIntegrals], its inverse [foldIntegrals], and the scope-bound
    [NormalizationIntegralUnfolder].

    The computation graph is a heap of [RooAbsArg] records addressed by
    [DataKey].  C++ control effects are explicit: a computation returns an
    [outcome], which is a value, a thrown exception, or the exhaustion of the
    recursion budget that stands for the C++ call stack. *)

From stdpp Require Import base gmap sets list strings sorting relations.

(** ** Keys, messages and outcomes *)

(** [RooFit::Detail::DataKey]: the stable identity of a node.  A node's name
    ([GetName]) is identified with its key. *)
Abbreviation DataKey := nat.

(** The pieces streamed into a [std::stringstream]. *)
Inductive MsgPart :=
  | Str (s : string)
  | ClassName (n : DataKey)
  | GetName (n : DataKey)
  | PrintValue (l : list DataKey).

Inductive exn :=
  | out_of_range
  | runtime_error (errMsg : list MsgPart)
  | null_dereference
  | assertion_failure.

Inductive outcome (A : Type) :=
  | Done (a : A)
  | Throw (e : exn)
  | OutOfFuel.
Arguments Done {A} a.
Arguments Throw {A} e.
Arguments OutOfFuel {A}.

#[global] Instance outcome_ret : MRet outcome := λ A a, Done a.
#[global] Instance outcome_bind : MBind outcome := λ A B f m,
  match m with
  | Done a => f a
  | Throw e => Throw e
  | OutOfFuel => OutOfFuel
  end.

(** A range-based [for] loop whose body may throw. *)
Fixpoint forEach {A S : Type} (body : S → A → outcome S) (l : list A) (s : S)
  : outcome S :=
  match l with
  | [] => Done s
  | x :: l' => s' ← body s x; forEach body l' s'
  end.

(** ** Nodes and graphs *)

(** The results of [dynamic_cast<RooAbsPdf*>] and
    [dynamic_cast<RooAbsCachedPdf*>]; a cached pdf is a pdf. *)
Inductive Kind := OtherArg | AbsPdf | AbsCachedPdf.

Definition isPdf (k : Kind) : bool :=
  match k with OtherArg => false | _ => true end.
Definition isCachedPdf (k : Kind) : bool :=
  match k with AbsCachedPdf => true | _ => false end.

(** The part of a [RooAbsArg] the helpers consult.  [serverList] holds, for
    each server, whether the edge is a value edge ([isValueServer]).
    [attributes] is the set of names [k] for which the string attribute
    [ORIGNAME:k] is set.  [evaluated] lists the normalization sets [getVal]
    has been called with.  [wrapped] is set on a [RooNormalizedPdf] and
    holds the pdf and normalization set it was constructed with. *)
Record RooAbsArg := mkArg {
  kind : Kind;
  isDerived : bool;
  isFundamental : bool;
  selfNormalized : bool;
  fillNormSetForServer : list DataKey → DataKey → option (list DataKey);
  serverList : list (DataKey * bool);
  attributes : gset DataKey;
  evaluated : list (list DataKey);
  wrapped : option (DataKey * list DataKey)
}.

Abbreviation Graph := (gmap DataKey RooAbsArg).

Definition edges (g : Graph) (n : DataKey) : list (DataKey * bool) :=
  from_option serverList [] (g !! n).

(** [node->servers()] *)
Definition servers (g : Graph) (n : DataKey) : list DataKey :=
  (edges g n).*1.

(** [node->clients()]: the inverse of the server relation. *)
Definition clients (g : Graph) (n : DataKey) : list DataKey :=
  filter (λ c, n ∈ servers g c) (map_to_list g).*1.

(** ** Collections *)

(** [RooArgSet::add]: a set keeps one element per name. *)
Definition RooArgSet_add (x : DataKey) (s : list DataKey) : list DataKey :=
  if bool_decide (x ∈ s) then s else s ++ [x].

(** [RooArgSet{list}] *)
Definition RooArgSet_of (l : list DataKey) : list DataKey :=
  foldl (λ s x, RooArgSet_add x s) [] l.

(** [RooArgSet::find] *)
Definition RooArgSet_find (x : DataKey) (s : list DataKey) : option DataKey :=
  if bool_decide (x ∈ s) then Some x else None.

(** [RooAbsCollection::sort]: by name. *)
Definition sort (l : list DataKey) : list DataKey := merge_sort Nat.le l.

(** [RooAbsCollection::hasSameLayout]: the same names in the same order. *)
Definition hasSameLayout (a b : list DataKey) : bool := bool_decide (a = b).

(** [std::unique]: drop an element equal to its successor. *)
Fixpoint unique (l : list DataKey) : list DataKey :=
  match l with
  | [] => []
  | x :: l' =>
      match l' with
      | y :: _ => if bool_decide (x = y) then unique l' else x :: unique l'
      | [] => [x]
      end
  end.

(** [std::sort] followed by [l.erase(std::unique(...), l.end())]. *)
Definition sortUnique (l : list DataKey) : list DataKey :=
  unique (merge_sort Nat.le l).

(** [std::map::emplace]: no effect on a key already present. *)
Definition emplace `{Countable K} {V} (k : K) (v : V) (m : gmap K V) : gmap K V :=
  match m !! k with
  | Some _ => m
  | None => <[k := v]> m
  end.

(** ** GraphChecker *)

Abbreviation ServerLists := (gmap DataKey (list DataKey)).

Record GraphChecker := mkChecker {
  _serverLists : gmap DataKey (list DataKey);
  _results : gmap (DataKey * DataKey) bool
}.

(** Modelled from the spec: [RooAbsArg::treeNodeServerList], which is
    called by the constructor of the checker and defined elsewhere.  It
    appends to [lst] every node reached from [arg] along server edges,
    [arg] included, skipping non-value edges when [valueOnly] is set; the
    constructor asks for branch and leaf nodes alike and passes [false] for
    [valueOnly].  The result is a [RooArgList], so a node reached along two
    paths is listed twice. *)
Fixpoint treeNodeServerList (fuel : nat) (g : Graph) (valueOnly : bool)
    (arg : DataKey) (lst : list DataKey) : outcome (list DataKey) :=
  match fuel with
  | 0 => OutOfFuel
  | S fuel' =>
      forEach (λ lst e,
                 if valueOnly && negb e.2 then Done lst
                 else treeNodeServerList fuel' g valueOnly e.1 lst)
              (edges g arg) (lst ++ [arg])
  end.

(** [_serverLists[node]] and [_serverLists[node].push_back(server)] *)
Definition touch (node : DataKey) (m : gmap DataKey (list DataKey))
  : gmap DataKey (list DataKey) :=
  match m !! node with
  | Some _ => m
  | None => <[node := []]> m
  end.

Definition push_back (node server : DataKey) (m : gmap DataKey (list DataKey))
  : gmap DataKey (list DataKey) :=
  <[node := default [] (m !! node) ++ [server]]> m.

Definition collectServers (g : Graph) (nodesSet : list DataKey)
  : gmap DataKey (list DataKey) :=
  foldl (λ m node, foldl (λ m server, push_back node server m)
                         (touch node m) (servers g node))
        ∅ nodesSet.

(** [GraphChecker::GraphChecker(topNode)] *)
Definition GraphChecker_new (fuel : nat) (g : Graph) (topNode : DataKey)
  : outcome GraphChecker :=
  nodes ← treeNodeServerList fuel g false topNode [];
  let nodesSet := RooArgSet_of nodes in
  let lists := collectServers g nodesSet in
  Done (mkChecker (sortUnique <$> lists) ∅).

(** The loop of [dependsOn] over the servers of [arg]; [rec] is the
    recursive call. *)
Fixpoint dependsOn_servers
    (rec : gmap (DataKey * DataKey) bool → DataKey →
           outcome (bool * gmap (DataKey * DataKey) bool))
    (p : DataKey * DataKey) (l : list DataKey)
    (results : gmap (DataKey * DataKey) bool)
  : outcome (bool * gmap (DataKey * DataKey) bool) :=
  match l with
  | [] => Done (false, emplace p false results)
  | server :: l' =>
      '(t, results) ← rec results server;
      let results := emplace (server, p.2) t results in
      if t : bool then Done (true, results)
      else dependsOn_servers rec p l' results
  end.

(** [GraphChecker::dependsOn(arg, testArg)], with the checker's mutable
    [_results] passed through. *)
Fixpoint dependsOn_results (fuel : nat) (lists : gmap DataKey (list DataKey))
    (testArg : DataKey) (results : gmap (DataKey * DataKey) bool)
    (arg : DataKey) : outcome (bool * gmap (DataKey * DataKey) bool) :=
  match fuel with
  | 0 => OutOfFuel
  | S fuel' =>
      match results !! (arg, testArg) with
      | Some found => Done (found, results)
      | None =>
          if bool_decide (arg = testArg) then Done (true, results)
          else
            match lists !! arg with
            | None => Throw out_of_range
            | Some serverList =>
                if bool_decide (testArg ∈ serverList)
                then Done (true, emplace (arg, testArg) true results)
                else dependsOn_servers (dependsOn_results fuel' lists testArg)
                       (arg, testArg) serverList results
            end
      end
  end.

Definition dependsOn (fuel : nat) (checker : GraphChecker)
    (arg testArg : DataKey) : outcome (bool * GraphChecker) :=
  '(t, results) ← dependsOn_results fuel (_serverLists checker) testArg
                    (_results checker) arg;
  Done (t, mkChecker (_serverLists checker) results).

(** ** Access to nodes *)

(** What a key that addresses no node stands for: a fundamental leaf. *)
Definition nullArg : RooAbsArg :=
  mkArg OtherArg false true false (λ _ _, None) [] ∅ [] None.

Definition argAt (g : Graph) (n : DataKey) : RooAbsArg := default nullArg (g !! n).

Definition set_serverList (l : list (DataKey * bool)) (a : RooAbsArg) : RooAbsArg :=
  mkArg (kind a) (isDerived a) (isFundamental a) (selfNormalized a)
        (fillNormSetForServer a) l (attributes a) (evaluated a) (wrapped a).

Definition set_attributes (s : gset DataKey) (a : RooAbsArg) : RooAbsArg :=
  mkArg (kind a) (isDerived a) (isFundamental a) (selfNormalized a)
        (fillNormSetForServer a) (serverList a) s (evaluated a) (wrapped a).

Definition set_evaluated (e : list (list DataKey)) (a : RooAbsArg) : RooAbsArg :=
  mkArg (kind a) (isDerived a) (isFundamental a) (selfNormalized a)
        (fillNormSetForServer a) (serverList a) (attributes a) e (wrapped a).

(** [arg->setAttribute("ORIGNAME:" + name, value)] *)
Definition setAttribute (arg name : DataKey) (value : bool) (g : Graph) : Graph :=
  alter (λ a, set_attributes
                (if value then {[name]} ∪ attributes a
                 else attributes a ∖ {[name]}) a) arg g.

(** Modelled from the spec: [RooAbsPdf::getVal(normSet)], of which only the
    side effect matters here: the pdf materialises its caches for this
    normalization set. *)
Definition getVal (pdf : DataKey) (normSet : list DataKey) (g : Graph) : Graph :=
  alter (λ a, set_evaluated (evaluated a ++ [normSet]) a) pdf g.

(** ** Propagation of normalization sets *)

(** The state [treeNodeServerListAndNormSets] works on: the collection
    [list], the table [normSets], and, as ghost state, the arguments of the
    calls that got past the first test, in order. *)
Record Walk := mkWalk {
  w_list : list DataKey;
  w_normSets : gmap DataKey (list DataKey);
  w_entered : list DataKey
}.

Definition newline : string := String (Ascii.ascii_of_nat 10) EmptyString.

(** The text of the [std::runtime_error] thrown on a conflict. *)
Definition conflictMessage (server : DataKey) (serverNormSet : list DataKey)
    (arg : DataKey) (found : list DataKey) : list MsgPart :=
  [ ClassName server; Str "::"; GetName server;
    Str " is requested to be evaluated with two different normalization sets in the same model!";
    Str " This is not supported yet. The conflicting norm sets are:";
    Str newline; Str "    RooArgSet";
    PrintValue serverNormSet;
    Str " requested by "; ClassName arg; Str "::"; GetName arg;
    Str newline; Str "    RooArgSet";
    PrintValue found;
    Str " first requested by other client" ].

(** The normalization set [arg] hands to [server]:
    [fillNormSetForServer], sorted when it is given, else [normSet]. *)
Definition serverNormSetFor (g : Graph) (arg : DataKey)
    (normSet : list DataKey) (server : DataKey) : list DataKey :=
  let differentSet := sort <$> fillNormSetForServer (argAt g arg) normSet server in
  default normSet differentSet.

(** The body of the loop over [arg.servers()]; [rec] is the recursive call. *)
Definition visitServer
    (rec : DataKey → list DataKey → Walk → outcome Walk)
    (g : Graph) (arg : DataKey) (normSet : list DataKey)
    (st : Walk) (e : DataKey * bool) : outcome Walk :=
  let server := e.1 in
  if negb e.2 then Done st
  else
    let serverNormSet := serverNormSetFor g arg normSet server in
    match w_normSets st !! server with
    | Some found =>
        if negb (length found =? length serverNormSet)
           || negb (hasSameLayout serverNormSet found)
        then Throw (runtime_error (conflictMessage server serverNormSet arg found))
        else Done st
    | None => rec server serverNormSet st
    end.

(** [treeNodeServerListAndNormSets(arg, list, normSet, normSets, checker)];
    the checker is not used by the function. *)
Fixpoint treeNodeServerListAndNormSets (fuel : nat) (g : Graph)
    (arg : DataKey) (normSet : list DataKey) (st : Walk) : outcome Walk :=
  match fuel with
  | 0 => OutOfFuel
  | S fuel' =>
      match w_normSets st !! arg with
      | Some _ => Done st
      | None =>
          let lst := RooArgSet_add arg (w_list st) in
          let normSets :=
            if isPdf (kind (argAt g arg))
            then <[arg := normSet]> (w_normSets st)
            else w_normSets st in
          let st := mkWalk lst normSets (w_entered st ++ [arg]) in
          if isDerived (argAt g arg) && negb (isFundamental (argAt g arg))
          then forEach (visitServer (treeNodeServerListAndNormSets fuel' g)
                          g arg normSet)
                       (edges g arg) st
          else Done st
      end
  end.

(** ** Rewriting the graph *)

(** Modelled from the spec: the look-up behind [redirectServers], a match
    of the origin marker against the name of the old server: the element of
    [newSet] that carries the marker [ORIGNAME:<name of the old server>]. *)
Definition findNewServer (g : Graph) (newSet : list DataKey) (oldServer : DataKey)
  : option DataKey :=
  head (filter (λ n, oldServer ∈ attributes (argAt g n)) newSet).

(** Modelled from the spec: [RooAbsArg::redirectServers(newSet, false, true)],
    the client-side edge rewrite: every server of [client] for which
    [newSet] holds a replacement is replaced by it, in place. *)
Definition redirectServers (g : Graph) (client : DataKey) (newSet : list DataKey)
  : Graph :=
  alter (λ a, set_serverList
                (map (λ e, (default e.1 (findNewServer g newSet e.1), e.2))
                     (serverList a)) a) client g.

(** Modelled from the spec: [RooAbsArg::recursiveRedirectServers]: the node
    redirects its own servers and then every node it now reaches does. *)
Fixpoint recursiveRedirectServers (fuel : nat) (newSet : list DataKey)
    (g : Graph) (node : DataKey) : outcome Graph :=
  match fuel with
  | 0 => OutOfFuel
  | S fuel' =>
      let g := redirectServers g node newSet in
      forEach (recursiveRedirectServers fuel' newSet) (servers g node) g
  end.

(** Modelled from the spec: [std::make_unique<RooNormalizedPdf>(pdf, normSet)]:
    a new node that carries the wrapped pdf and the normalization set and
    has the pdf as its server. *)
Definition RooNormalizedPdf_new (g : Graph) (pdf : DataKey)
    (normSet : list DataKey) : DataKey * Graph :=
  let w := fresh (dom g) in
  (w, <[w := mkArg AbsPdf true false true (λ _ _, None) [(pdf, true)] ∅ []
                   (Some (pdf, normSet))]> g).

(** Modelled from the spec: [std::make_unique<RooAddition>("_dummy", "_dummy",
    RooArgList{topNode})], the pass-through aggregator over the top node. *)
Definition RooAddition_new (g : Graph) (topNode : DataKey) : DataKey * Graph :=
  let w := fresh (dom g) in
  (w, <[w := mkArg OtherArg true false false (λ _ _, None) [(topNode, true)] ∅ []
                   None]> g).

(** What [unfoldIntegrals] reads and writes besides its return value. *)
Record Rewrite := mkRewrite {
  graph : Graph;
  replacedArgs : list DataKey;
  newArgs : list DataKey;
  newNodes : list DataKey
}.

(** The body of the loop over [originalClients]: a cached pdf is left
    alone, any other client redirects its servers. *)
Definition redirectStep (newArg : DataKey) (g : Graph) (client : DataKey) : Graph :=
  if isCachedPdf (kind (argAt g client)) then g
  else redirectServers g client [newArg].

(** The lambda [replaceArg(newArg, oldArg)]. *)
Definition replaceArg (nodes : list DataKey) (newArg oldArg : DataKey)
    (st : Rewrite) : Rewrite :=
  let g := setAttribute newArg oldArg true (graph st) in
  let originalClients := filter (λ client, client ∈ nodes) (clients g oldArg) in
  let g := foldl (redirectStep newArg) g originalClients in
  let replacedArgs := RooArgSet_add oldArg (replacedArgs st) in
  let newArgs := RooArgSet_add newArg (newArgs st) in
  let g := setAttribute newArg oldArg false g in
  mkRewrite g replacedArgs newArgs (newNodes st).

(** The body of the loop over [nodes] that wraps the pdfs. *)
Definition wrapNode (nodes : list DataKey)
    (normSets : gmap DataKey (list DataKey)) (st : Rewrite) (node : DataKey)
  : outcome Rewrite :=
  if isPdf (kind (argAt (graph st) node)) then
    match normSets !! node with
    | None => Throw out_of_range
    | Some currNormSet =>
        if bool_decide (currNormSet = []) then Done st
        else
          let g := getVal node currNormSet (graph st) in
          let st := mkRewrite g (replacedArgs st) (newArgs st) (newNodes st) in
          if selfNormalized (argAt g node) && negb (isCachedPdf (kind (argAt g node)))
          then Done st
          else
            let '(normalizedPdf, g) := RooNormalizedPdf_new g node currNormSet in
            let st := mkRewrite g (replacedArgs st) (newArgs st) (newNodes st) in
            let st := replaceArg nodes normalizedPdf node st in
            Done (mkRewrite (graph st) (replacedArgs st) (newArgs st)
                            (newNodes st ++ [normalizedPdf]))
    end
  else Done st.

(** The inner loop of the cleaning pass: keep [narg] when the node depends
    on it, taking the instance found in [nodes]. *)
Definition keepIfDependent (fuel : nat) (nodes : list DataKey) (key : DataKey)
    (st : GraphChecker * list DataKey) (narg : DataKey)
  : outcome (GraphChecker * list DataKey) :=
  '(t, checker) ← dependsOn fuel st.1 key narg;
  if t : bool then
    match RooArgSet_find narg nodes with
    | Some found => Done (checker, RooArgSet_add found st.2)
    | None => Throw null_dereference
    end
  else Done (checker, st.2).

(** "Clean normsets of the variables that the arg does not depend on". *)
Definition cleanNormSets (fuel : nat) (nodes : list DataKey)
    (checker : GraphChecker) (normSets : gmap DataKey (list DataKey))
  : outcome (GraphChecker * gmap DataKey (list DataKey)) :=
  forEach (λ st item,
             if bool_decide (item.2 = []) then Done st
             else
               '(checker, actualNormSet) ←
                  forEach (keepIfDependent fuel nodes item.1) item.2 (st.1, []);
               Done (checker, <[item.1 := actualNormSet]> st.2))
          (map_to_list normSets) (checker, normSets).

(** [unfoldIntegrals(topNode, normSet, normSets, replacedArgs, newArgs)]:
    the new nodes are returned in [newNodes]. *)
Definition unfoldIntegrals (fuel : nat) (topNode : DataKey)
    (normSet : list DataKey) (normSets : gmap DataKey (list DataKey))
    (st : Rewrite) : outcome (gmap DataKey (list DataKey) * Rewrite) :=
  if bool_decide (normSet = []) then Done (normSets, st)
  else
    checker ← GraphChecker_new fuel (graph st) topNode;
    let normSetSorted := sort normSet in
    walk ← treeNodeServerListAndNormSets fuel (graph st) topNode normSetSorted
              (mkWalk [] normSets []);
    let nodes := w_list walk in
    '(_, normSets) ← cleanNormSets fuel nodes checker (w_normSets walk);
    st ← forEach (wrapNode nodes normSets) nodes st;
    Done (normSets, st).

(** [foldIntegrals(topNode, replacedArgs, newArgs)] *)
Definition foldIntegrals (fuel : nat) (topNode : DataKey)
    (replacedArgs newArgs : list DataKey) (g : Graph) : outcome Graph :=
  if negb (length replacedArgs =? length newArgs) then Throw assertion_failure
  else
    let g := foldl (λ g p, setAttribute p.1 p.2 true g) g (zip replacedArgs newArgs) in
    g ← recursiveRedirectServers fuel replacedArgs g topNode;
    Done (foldl (λ g p, setAttribute p.1 p.2 false g) g (zip replacedArgs newArgs)).

(** ** NormalizationIntegralUnfolder *)

Record NormalizationIntegralUnfolder := mkUnfolder {
  _topNodeWrapper : DataKey;
  _ownedComponents : list DataKey;
  _normSetWasEmpty : bool;
  _normSets : gmap DataKey (list DataKey);
  _replacedArgs : list DataKey;
  _newArgs : list DataKey;
  _arg : DataKey
}.

(** The constructor; the graph is the heap it works in.  [_arg] is the
    first element of the aggregator's list, that is, its first server. *)
Definition NormalizationIntegralUnfolder_new (fuel : nat) (g : Graph)
    (topNode : DataKey) (normSet : list DataKey)
  : outcome (NormalizationIntegralUnfolder * Graph) :=
  let '(topNodeWrapper, g) := RooAddition_new g topNode in
  let normSetWasEmpty := bool_decide (normSet = []) in
  '(normSets, st) ← unfoldIntegrals fuel topNodeWrapper normSet ∅
                      (mkRewrite g [] [] []);
  let ownedArgs := newNodes st in
  let arg := default topNode (head (servers (graph st) topNodeWrapper)) in
  Done (mkUnfolder topNodeWrapper ownedArgs normSetWasEmpty normSets
                   (replacedArgs st) (newArgs st) arg,
        graph st).

(** The body of the destructor; deleting the sets of the table leaves it
    without content. *)
Definition NormalizationIntegralUnfolder_dtor (fuel : nat)
    (this : NormalizationIntegralUnfolder) (g : Graph)
  : outcome (NormalizationIntegralUnfolder * Graph) :=
  if _normSetWasEmpty this then Done (this, g)
  else
    g ← foldIntegrals fuel (_topNodeWrapper this) (_replacedArgs this)
          (_newArgs this) g;
    Done (mkUnfolder (_topNodeWrapper this) (_ownedComponents this)
                     (_normSetWasEmpty this) ∅ (_replacedArgs this)
                     (_newArgs this) (_arg this),
          g).

(** Modelled from the spec: the destruction of the members after the body
    of the destructor: the aggregator and the wrapper nodes it owns go out
    of existence. *)
Definition releaseMembers (this : NormalizationIntegralUnfolder) (g : Graph)
  : Graph :=
  foldr delete g (_topNodeWrapper this :: _ownedComponents this).

(** Destruction of the unfolder: the body, then the members. *)
Definition NormalizationIntegralUnfolder_delete (fuel : nat)
    (this : NormalizationIntegralUnfolder) (g : Graph) : outcome Graph :=
  '(this, g) ← NormalizationIntegralUnfolder_dtor fuel this g;
  Done (releaseMembers this g).

(** ** Example graphs *)

Definition leaf : RooAbsArg :=
  mkArg OtherArg false true false (λ _ _, None) [] ∅ [] None.

Definition func (srv : list (DataKey * bool)) : RooAbsArg :=
  mkArg OtherArg true false false (λ _ _, None) srv ∅ [] None.

Definition pdf (srv : list (DataKey * bool)) : RooAbsArg :=
  mkArg AbsPdf true false false (λ _ _, None) srv ∅ [] None.

Definition selfNormalizedPdf (srv : list (DataKey * bool)) : RooAbsArg :=
  mkArg AbsPdf true false true (λ _ _, None) srv ∅ [] None.

Definition cachedPdf (srv : list (DataKey * bool)) : RooAbsArg :=
  mkArg AbsCachedPdf true false true (λ _ _, None) srv ∅ [] None.

(** A pdf that hands the normalization set [s] to each of its servers. *)
Definition pdfWithNormSet (s : list DataKey) (srv : list (DataKey * bool))
  : RooAbsArg :=
  mkArg AbsPdf true false false (λ _ _, Some s) srv ∅ [] None.

(** The diamond A→{B,C}, B→D, C→D with A=4, B=3, C=2, D=1. *)
Definition diamondGraph : Graph :=
  <[4 := func [(3, true); (2, true)]]>
  (<[3 := func [(1, true)]]>
  (<[2 := func [(1, true)]]>
  (<[1 := leaf]> ∅))).

(** A self-normalized pdf 2 over the variable 1, used by the function 3. *)
Definition selfNormalizedGraph : Graph :=
  <[3 := func [(2, true)]]> (<[2 := selfNormalizedPdf [(1, true)]]> (<[1 := leaf]> ∅)).

(** The pdf 2 over the variable 1 has three clients: the function 3, the
    cached pdf 4 and the function 5. *)
Definition clientsGraph : Graph :=
  <[5 := func [(2, true)]]>
  (<[4 := cachedPdf [(2, true)]]>
  (<[3 := func [(2, true); (1, true)]]>
  (<[2 := pdf [(1, true)]]>
  (<[1 := leaf]> ∅)))).

(** The pdfs 4 and 3 share the function 2 of the variable 1; the pdf 5 is
    their sum. *)
Definition sharedFunctionGraph : Graph :=
  <[5 := pdf [(4, true); (3, true)]]>
  (<[4 := pdf [(2, true)]]>
  (<[3 := pdf [(2, true)]]>
  (<[2 := func [(1, true)]]>
  (<[1 := leaf]> ∅)))).

(** The state of the propagation over [sharedFunctionGraph] from 5. *)
Definition sharedFunctionWalk : Walk :=
  mkWalk [5; 4; 2; 1; 3]
         (<[3 := [1]]> (<[4 := [1]]> (<[5 := [1]]> ∅)))
         [5; 4; 2; 1; 3; 2; 1].

(** The pdf 1 is reached through 3, which hands it the set {7}, and through
    2, which hands it the set {8}. *)
Definition conflictGraph : Graph :=
  <[4 := func [(3, true); (2, true)]]>
  (<[3 := pdfWithNormSet [7] [(1, true)]]>
  (<[2 := pdfWithNormSet [8] [(1, true)]]>
  (<[1 := pdf [(7, true); (8, true)]]>
  (<[7 := leaf]> (<[8 := leaf]> ∅))))).

(** [clientsGraph] with the wrapper 6 of the pdf 2 constructed. *)
Definition wrappedClientsGraph : Rewrite :=
  mkRewrite (RooNormalizedPdf_new clientsGraph 2 [1]).2 [] [] [].

(** The pdf 2 has the variable 1 as a server through a non-value edge
    only. *)
Definition shapeOnlyGraph : Graph :=
  <[2 := pdf [(1, false)]]> (<[1 := leaf]> ∅).

(** The snapshot the checker takes of the diamond. *)
Definition diamondLists : gmap DataKey (list DataKey) :=
  <[4 := [2; 3]]> (<[3 := [1]]> (<[2 := [1]]> (<[1 := []]> ∅))).

(** ** Specification vocabulary for the checker *)

(** One server edge of the snapshot. *)
Definition edge (lists : gmap DataKey (list DataKey)) (a b : DataKey) : Prop :=
  ∃ l, lists !! a = Some l ∧ b ∈ l.

(** [b] is reached from [a] along zero or more server edges. *)
Definition reachable (lists : gmap DataKey (list DataKey)) : relation DataKey :=
  rtc (edge lists).

(** Every server recorded in a server list is a key of the map. *)
Definition closed (lists : gmap DataKey (list DataKey)) : Prop :=
  ∀ a l b, lists !! a = Some l → b ∈ l → is_Some (lists !! b).

(** Acyclicity, witnessed by a rank that decreases along every edge. *)
Definition ranked (rank : DataKey → nat)
    (lists : gmap DataKey (list DataKey)) : Prop :=
  ∀ a b, edge lists a b → rank b < rank a.

(** Every memoised answer is the right one. *)
Definition sound (lists : gmap DataKey (list DataKey))
    (results : gmap (DataKey * DataKey) bool) : Prop :=
  ∀ a b v, results !! (a, b) = Some v → (v = true ↔ reachable lists a b).

(** ** Specification vocabulary for the rewrite *)

(** A server list in which [old] has been replaced by [new], in place. *)
Definition substServer (old new : DataKey) (l : list (DataKey * bool))
  : list (DataKey * bool) :=
  map (λ e, (if bool_decide (e.1 = old) then new else e.1, e.2)) l.

(** The graph in which the clients listed in [l] that are not cached pdfs
    have had [old] replaced by [new] among their servers. *)
Definition redirected (l : list DataKey) (old new : DataKey) (g : Graph) : Graph :=
  map_imap (λ n a,
              Some (if bool_decide (n ∈ l) && negb (isCachedPdf (kind a))
                    then set_serverList (substServer old new (serverList a)) a
                    else a)) g.

(** What a call of [dependsOn] for [testArg] delivers. *)
Definition answers (lists : gmap DataKey (list DataKey)) (testArg : DataKey)
    (r : outcome (bool * gmap (DataKey * DataKey) bool)) (a : DataKey) : Prop :=
  ∃ t results', r = Done (t, results') ∧ sound lists results' ∧
                (t = true ↔ reachable lists a testArg).

(** The map under construction in the constructor: its keys are the nodes
    seen so far and each list holds the servers of its node. *)
Definition collected (g : Graph) (seen : list DataKey)
    (m : gmap DataKey (list DataKey)) : Prop :=
  (∀ n, is_Some (m !! n) ↔ n ∈ seen) ∧
  (∀ n l, m !! n = Some l → ∀ s, s ∈ l ↔ s ∈ servers g n).

(** ** Specification vocabulary for the propagation *)

(** The nodes an error message names, and the sets it prints. *)
Definition namedNodes (msg : list MsgPart) : list DataKey :=
  omap (λ p, match p with GetName n => Some n | _ => None end) msg.

Definition printedSets (msg : list MsgPart) : list (list DataKey) :=
  omap (λ p, match p with PrintValue l => Some l | _ => None end) msg.

Definition isPdfNode (g : Graph) (n : DataKey) : Prop :=
  isPdf (kind (argAt g n)) = true.

#[global] Instance isPdfNode_dec g n : Decision (isPdfNode g n).
Proof. unfold isPdfNode. apply _. Defined.

(** Every recorded normalization set is in canonical, sorted form. *)
Definition canonical (normSets : gmap DataKey (list DataKey)) : Prop :=
  ∀ n s, normSets !! n = Some s → Sorted Nat.le s.

(** Each pdf entered so far has been entered once and has a recorded set. *)
Definition entered_once (g : Graph) (st : Walk) : Prop :=
  NoDup (filter (isPdfNode g) (w_entered st)) ∧
  ∀ n, n ∈ w_entered st → isPdfNode g n → is_Some (w_normSets st !! n).

(** The exception is the report of a conflict: the message built for a
    server, the set requested for it by [parent], and the set recorded for
    it before, the two sets sorted and different. *)
Definition conflict_report (g : Graph) (e : exn) : Prop :=
  ∃ server serverNormSet parent found,
    e = runtime_error (conflictMessage server serverNormSet parent found) ∧
    Sorted Nat.le serverNormSet ∧ Sorted Nat.le found ∧
    (length found ≠ length serverNormSet ∨ found ≠ serverNormSet) ∧
    (server, true) ∈ edges g parent.

(** The visited set lists each entered node once. *)
Definition listed (st : Walk) : Prop :=
  NoDup (w_list st) ∧ ∀ n, n ∈ w_list st ↔ n ∈ w_entered st.

(** ** Specification vocabulary for the cleaning pass *)

(** What the pass leaves for [key], whose recorded set was [s]: the
    variables of [s] that [key] reaches, each of them an element of the
    visited set [nodes]. *)
Definition narrowed (lists : gmap DataKey (list DataKey)) (nodes : list DataKey)
    (key : DataKey) (s actual : list DataKey) : Prop :=
  NoDup actual ∧
  (∀ v, v ∈ actual ↔ v ∈ s ∧ reachable lists key v) ∧
  (∀ v, v ∈ actual → v ∈ nodes).

(** ** Specification vocabulary for the round trip *)

(** The wiring of a graph: the server list of every node.  The client
    lists are its inverse. *)
Definition wiring (g : Graph) : gmap DataKey (list (DataKey * bool)) :=
  serverList <$> g.

(** No dangling server: every server of a node is a node. *)
Definition wellFormed (g : Graph) : Prop :=
  map_Forall (λ _ a, Forall (λ e, is_Some (g !! e.1)) (serverList a)) g.

(** Acyclicity, witnessed by a rank that decreases along every edge. *)
Definition acyclic (rank : DataKey → nat) (g : Graph) : Prop :=
  map_Forall (λ n a, Forall (λ e, rank e.1 < rank n) (serverList a)) g.

(** No node carries an [ORIGNAME] marker. *)
Definition unmarked (g : Graph) : Prop :=
  map_Forall (λ _ a, attributes a = ∅) g.

(** [b] is reached from [a] along zero or more server edges of [g]. *)
Definition reaches (g : Graph) : relation DataKey :=
  rtc (λ a b, b ∈ servers g a).

(** The original a server stands for, given the ledger of (original,
    wrapper) pairs. *)
Fixpoint origKey (pairs : list (DataKey * DataKey)) (s : DataKey) : DataKey :=
  match pairs with
  | [] => s
  | p :: r => if bool_decide (p.2 = s) then p.1 else origKey r s
  end.

Definition origEdge (pairs : list (DataKey * DataKey)) (e : DataKey * bool)
  : DataKey * bool :=
  (origKey pairs e.1, e.2).

(** The state of the rewrite after the nodes [seen] of the visited set
    [nodes] have been handled, relative to the graph [h0] it started from:
    [pairs] is the ledger; the wrappers are new nodes over their originals;
    replacing every wrapper by its original in any server list gives back
    the server list of [h0]; nodes outside the visited set are untouched;
    no marker is left. *)
Definition unfolded (h0 : Graph) (nodes seen : list DataKey)
    (pairs : list (DataKey * DataKey)) (st : Rewrite) : Prop :=
  replacedArgs st = pairs.*1 ∧ newArgs st = pairs.*2 ∧ newNodes st = pairs.*2 ∧
  NoDup pairs.*1 ∧ NoDup pairs.*2 ∧
  (∀ p, p ∈ pairs.*1 → p ∈ seen ∧ is_Some (h0 !! p)) ∧
  (∀ w, w ∈ pairs.*2 → h0 !! w = None) ∧
  dom (graph st) = dom h0 ∪ list_to_set pairs.*2 ∧
  (∀ n s, s ∈ servers (graph st) n → is_Some (graph st !! s)) ∧
  (∀ n, is_Some (h0 !! n) →
        map (origEdge pairs) (edges (graph st) n) = edges h0 n) ∧
  (∀ n, is_Some (h0 !! n) → n ∉ nodes → edges (graph st) n = edges h0 n) ∧
  (∀ n, is_Some (h0 !! n) →
        attributes (argAt (graph st) n) = attributes (argAt h0 n)) ∧
  (∀ p w, (p, w) ∈ pairs →
          edges (graph st) w = [(p, true)] ∧
          attributes (argAt (graph st) w) = ∅).

(** The state of the graph while [recursiveRedirectServers] runs over it
    in [foldIntegrals]: every original carries the marker of its wrapper,
    and replacing wrappers by originals gives back the server lists of
    [h0]. *)
Definition folding (h0 : Graph) (pairs : list (DataKey * DataKey))
    (h : Graph) : Prop :=
  (∀ p w, (p, w) ∈ pairs → attributes (argAt h p) = {[w]}) ∧
  (∀ n, is_Some (h0 !! n) → map (origEdge pairs) (edges h n) = edges h0 n).

(** The end-to-end example of the spec: the sum 5 of the pdfs 3 and 4 over
    the variables 1 and 2; the pdf 4 does not depend on 2. *)
Definition sumGraph : Graph :=
  <[5 := func [(3, true); (4, true)]]>
  (<[4 := pdf [(1, true)]]>
  (<[3 := pdf [(1, true); (2, true)]]>
  (<[2 := leaf]> (<[1 := leaf]> ∅)))).

(** [sumGraph] rewritten for the normalization set {1, 2}: the aggregator
    6 over the sum 5, whose servers are now the wrappers 7 (of the pdf 3,
    over {1, 2}) and 8 (of the pdf 4, over {1}). *)
Definition sumUnfolded : Graph :=
  <[8 := mkArg AbsPdf true false true (λ _ _, None) [(4, true)] ∅ []
               (Some (4, [1]))]>
  (<[7 := mkArg AbsPdf true false true (λ _ _, None) [(3, true)] ∅ []
                (Some (3, [1; 2]))]>
  (<[6 := mkArg OtherArg true false false (λ _ _, None) [(5, true)] ∅ [] None]>
  (<[5 := func [(7, true); (8, true)]]>
  (<[4 := mkArg AbsPdf true false false (λ _ _, None) [(1, true)] ∅ [[1]] None]>
  (<[3 := mkArg AbsPdf true false false (λ _ _, None) [(1, true); (2, true)] ∅
                [[1; 2]] None]>
  (<[2 := leaf]> (<[1 := leaf]> ∅))))))).

Definition sumUnfolder : NormalizationIntegralUnfolder :=
  mkUnfolder 6 [7; 8] false (<[4 := [1]]> (<[3 := [1; 2]]> ∅)) [3; 4] [7; 8] 5.

(** ** Specification vocabulary for the visited set *)

(** The edges the propagation follows: [b] is a value server of the
    derived, non-fundamental node [a]. *)
Definition valueEdge (g : Graph) (a b : DataKey) : Prop :=
  isDerived (argAt g a) && negb (isFundamental (argAt g a)) = true ∧
  (b, true) ∈ edges g a.

(** [b] is reached from [a] along zero or more such edges. *)
Definition valueReaches (g : Graph) : relation DataKey := rtc (valueEdge g).

(** The table agrees with what the pdf [p] demands of its pdf servers: a
    value server of [p] that is a pdf has the set recorded that [p], with
    its own recorded set, hands to it. *)
Definition agreed (g : Graph) (normSets : gmap DataKey (list DataKey))
    (p : DataKey) : Prop :=
  ∀ N s, normSets !! p = Some N → valueEdge g p s → isPdfNode g s →
         normSets !! s = Some (serverNormSetFor g p N s).

(** ** Specification vocabulary for the wrappers *)

(** The three tests of the rewrite loop: the node is a pdf, its
    normalization set is not empty, and it is not a self-normalized pdf
    other than a cached one. *)
Definition needsWrapper (g : Graph) (normSets : gmap DataKey (list DataKey))
    (node : DataKey) : bool :=
  isPdf (kind (argAt g node))
  && negb (bool_decide (default [] (normSets !! node) = []))
  && negb (selfNormalized (argAt g node)
           && negb (isCachedPdf (kind (argAt g node)))).

(** The wrapper that stands for a server, given the ledger of (original,
    wrapper) pairs. *)
Fixpoint wrapperKey (pairs : list (DataKey * DataKey)) (s : DataKey) : DataKey :=
  match pairs with
  | [] => s
  | p :: r => if bool_decide (p.1 = s) then p.2 else wrapperKey r s
  end.

Definition wrapperEdge (pairs : list (DataKey * DataKey)) (e : DataKey * bool)
  : DataKey * bool :=
  (wrapperKey pairs e.1, e.2).

(** The markers [foldIntegrals] sets on [n] and clears again: the names of
    the wrappers the ledger pairs with [n]. *)
Definition markersOf (pairs : list (DataKey * DataKey)) (n : DataKey)
  : gset DataKey :=
  list_to_set (filter (λ p, p.1 = n) pairs).*2.

(** ** Specification vocabulary for the progress of the propagation *)

(** The state [st'] continues [st]: what was recorded stays recorded, and
    the visited set and the sequence of entered calls are extended at the
    end. *)
Definition extends (st st' : Walk) : Prop :=
  w_normSets st ⊆ w_normSets st' ∧
  w_list st `prefix_of` w_list st' ∧
  w_entered st `prefix_of` w_entered st'.

(** Every node the propagation would step to from [n] is in [L]. *)
Definition expanded (g : Graph) (L : list DataKey) (n : DataKey) : Prop :=
  ∀ b, valueEdge g n b → b ∈ L.

(** ** Specification vocabulary for the rewritten graph *)

(** What the rewrite loop has made of the graph [h0] once the nodes [seen]
    of the visited set [nodes] have been handled, [pairs] being the ledger:
    the originals are the nodes of [seen] that need a wrapper, in the order
    of [seen]; no node of [h0] has changed its kind or its self-normalized
    flag; a node of the visited set that is not a cached pdf has each
    wrapped server replaced by the wrapper, and every other node of [h0] has
    the servers it had; each wrapper is a pdf that carries its original and
    the set the table holds for it. *)
Definition rewired (h0 : Graph) (normSets : gmap DataKey (list DataKey))
    (nodes seen : list DataKey) (pairs : list (DataKey * DataKey))
    (st : Rewrite) : Prop :=
  pairs.*1 = filter (λ n, needsWrapper h0 normSets n = true) seen ∧
  (∀ n, is_Some (h0 !! n) →
        kind (argAt (graph st) n) = kind (argAt h0 n) ∧
        selfNormalized (argAt (graph st) n) = selfNormalized (argAt h0 n)) ∧
  (∀ n, is_Some (h0 !! n) →
        edges (graph st) n =
        if bool_decide (n ∈ nodes) && negb (isCachedPdf (kind (argAt h0 n)))
        then map (wrapperEdge pairs) (edges h0 n)
        else edges h0 n) ∧
  (∀ p w, (p, w) ∈ pairs →
          kind (argAt (graph st) w) = AbsPdf ∧
          wrapped (argAt (graph st) w) = Some (p, default [] (normSets !! p))).

(** ** Specification vocabulary for the visit counts *)

(** The number of times [n] occurs in [l]. *)
Definition occurrences (n : DataKey) (l : list DataKey) : nat :=
  length (filter (λ x, x = n) l).

(** The number of steps from [c] to [n] that the propagation takes each
    time it has entered [c]: one for every value edge from [c] to [n] if
    [c] is derived and not fundamental, and none otherwise. *)
Definition followed (g : Graph) (c n : DataKey) : nat :=
  if isDerived (argAt g c) && negb (isFundamental (argAt g c))
  then length (filter (λ e, e = (n, true)) (edges g c))
  else 0.

(** ** Example graphs with markers *)

(** [sumGraph] in which the pdf 4 carries the marker [ORIGNAME:2] before
    the unfolder is constructed. *)
Definition staleMarkerGraph : Graph := setAttribute 4 2 true sumGraph.

From Stdlib Require Import PrimFloat.

(** * RooCmdConfig

    A shallow embedding of [roofit/roofitcore/src/RooCmdConfig.cxx], the
    configurable parser for [RooCmdArg] named arguments.  The parser is a
    record of its data members; a member function takes the parser and
    returns its result, the parser as it leaves it, and the lines it has
    written to [std::cout] and to the message service, in order. *)

Abbreviation Int_t := Z.
Abbreviation Double_t := float.

(** A [TObject*] or [RooArgSet*]: null, or the address of an object. *)
Abbreviation TObjectPtr := (option nat).

(** ** Output *)

(** The pieces streamed into an output stream: text, an integer, a
    double, and the name of the object at an address. *)
Inductive OutPart :=
  | OStr (s : string)
  | OInt (i : Int_t)
  | ODouble (d : Double_t)
  | OName (o : nat).

(** One line, written to [std::cout] or as an error of the message
    service ([coutE(InputArguments)]). *)
Inductive Line :=
  | Cout (l : list OutPart)
  | CoutE (l : list OutPart).

(** [if (_verbose) cout << ... << endl] *)
Definition trace (verbose : bool) (l : list OutPart) : list Line :=
  if verbose then [Cout l] else [].

(** ** RooCmdArg *)

(** A [RooCmdArg], read through its accessors: [GetName], [getInt],
    [getDouble], [getString], [getObject] and [getSet] by slot number,
    [procSubArgs], [prefixSubArgs] and [subArgs].  [getString] is a
    [const char*] and may be null. *)
Inductive RooCmdArg := mkCmdArg {
  cmdName : string;
  cmdInt : Z → Int_t;
  cmdDouble : Z → Double_t;
  cmdString : Z → option string;
  cmdObject : Z → TObjectPtr;
  cmdSet : Z → TObjectPtr;
  procSubArgs : bool;
  prefixSubArgs : bool;
  subArgs : list RooCmdArg
}.

(** [RooCmdArg::opcode()], declared with the class: the name, or null
    when the name is empty. *)
Definition opcodeOf (name : string) : option string :=
  if bool_decide (name = EmptyString) then None else Some name.

Definition opcode (arg : RooCmdArg) : option string := opcodeOf (cmdName arg).

(** [TNamed::SetName] on a copy of the argument. *)
Definition SetName (name : string) (arg : RooCmdArg) : RooCmdArg :=
  mkCmdArg name (cmdInt arg) (cmdDouble arg) (cmdString arg) (cmdObject arg)
           (cmdSet arg) (procSubArgs arg) (prefixSubArgs arg) (subArgs arg).

(** ** The lists of the parser *)

(** [TList::FindObject(name)] and [RooLinkedList::FindObject(name)]: the
    first object of the list with that name, or null. *)
Fixpoint FindObject {A} (GetName : A → string) (name : string) (l : list A)
  : option A :=
  match l with
  | [] => None
  | o :: l' =>
      if bool_decide (GetName o = name) then Some o
      else FindObject GetName name l'
  end.

(** [list.Remove(obj)] for the object [obj] that [FindObject(name)] has
    returned: the first link that holds it is the link that was found. *)
Fixpoint RemoveFound {A} (GetName : A → string) (name : string) (l : list A)
  : list A :=
  match l with
  | [] => []
  | o :: l' =>
      if bool_decide (GetName o = name) then l'
      else o :: RemoveFound GetName name l'
  end.

(** The elements of the lists.  A [RooInt], [RooDouble], [RooStringVar] or
    [RooTObjWrap] carries the name of the property, as title the name of
    the argument it is read from, and as unique ID the slot number. *)
Record RooInt := mkRooInt {
  ri_name : string; ri_title : string; ri_uniqueID : Z; ri_value : Int_t
}.

Record RooDouble := mkRooDouble {
  rd_name : string; rd_title : string; rd_uniqueID : Z; rd_value : Double_t
}.

(** [rs_appendMode] is the attribute [RooCmdConfig::AppendMode]. *)
Record RooStringVar := mkRooStringVar {
  rs_name : string; rs_title : string; rs_uniqueID : Z; rs_value : string;
  rs_appendMode : bool
}.

(** [ro_list] holds the objects of the wrapper, none of them null. *)
Record RooTObjWrap := mkRooTObjWrap {
  ro_name : string; ro_title : string; ro_uniqueID : Z; ro_isArray : bool;
  ro_list : list nat
}.

Record TNamed := mkTNamed { tn_name : string; tn_title : string }.

(** [new RooTObjWrap(obj, isArray)] *)
Definition RooTObjWrap_new (name title : string) (uniqueID : Z)
    (obj : TObjectPtr) (isArray : bool) : RooTObjWrap :=
  mkRooTObjWrap name title uniqueID isArray
                (match obj with Some o => [o] | None => [] end).

(** [RooTObjWrap::obj()]: the first object, or null. *)
Definition obj (ro : RooTObjWrap) : TObjectPtr := head (ro_list ro).

(** [RooTObjWrap::setObj(inObj)]: a wrapper that is not an array forgets
    what it held; an object that is not null is added. *)
Definition setObj (inObj : TObjectPtr) (ro : RooTObjWrap) : RooTObjWrap :=
  let l := if ro_isArray ro then ro_list ro else [] in
  mkRooTObjWrap (ro_name ro) (ro_title ro) (ro_uniqueID ro) (ro_isArray ro)
                (match inObj with Some o => l ++ [o] | None => l end).

(** [RooStringVar::setVal(newVal)]: a null pointer gives the empty
    string. *)
Definition setVal (newVal : option string) (rs : RooStringVar) : RooStringVar :=
  mkRooStringVar (rs_name rs) (rs_title rs) (rs_uniqueID rs)
                 (default EmptyString newVal) (rs_appendMode rs).

(** ** The parser *)

Record RooCmdConfig := mkCmdConfig {
  _name : string;
  _verbose : bool;
  _error : bool;
  _allowUndefined : bool;
  _iList : list RooInt;
  _dList : list RooDouble;
  _sList : list RooStringVar;
  _oList : list RooTObjWrap;
  _cList : list RooTObjWrap;
  _rList : list string;
  _fList : list string;
  _mList : list TNamed;
  _yList : list TNamed;
  _pList : list TNamed
}.

Definition set_error (b : bool) (this : RooCmdConfig) : RooCmdConfig :=
  mkCmdConfig (_name this) (_verbose this) b (_allowUndefined this)
    (_iList this) (_dList this) (_sList this) (_oList this) (_cList this)
    (_rList this) (_fList this) (_mList this) (_yList this) (_pList this).

Definition set_allowUndefined (b : bool) (this : RooCmdConfig) : RooCmdConfig :=
  mkCmdConfig (_name this) (_verbose this) (_error this) b
    (_iList this) (_dList this) (_sList this) (_oList this) (_cList this)
    (_rList this) (_fList this) (_mList this) (_yList this) (_pList this).

Definition set_iList (l : list RooInt) (this : RooCmdConfig) : RooCmdConfig :=
  mkCmdConfig (_name this) (_verbose this) (_error this) (_allowUndefined this)
    l (_dList this) (_sList this) (_oList this) (_cList this)
    (_rList this) (_fList this) (_mList this) (_yList this) (_pList this).

Definition set_dList (l : list RooDouble) (this : RooCmdConfig) : RooCmdConfig :=
  mkCmdConfig (_name this) (_verbose this) (_error this) (_allowUndefined this)
    (_iList this) l (_sList this) (_oList this) (_cList this)
    (_rList this) (_fList this) (_mList this) (_yList this) (_pList this).

Definition set_sList (l : list RooStringVar) (this : RooCmdConfig) : RooCmdConfig :=
  mkCmdConfig (_name this) (_verbose this) (_error this) (_allowUndefined this)
    (_iList this) (_dList this) l (_oList this) (_cList this)
    (_rList this) (_fList this) (_mList this) (_yList this) (_pList this).

Definition set_oList (l : list RooTObjWrap) (this : RooCmdConfig) : RooCmdConfig :=
  mkCmdConfig (_name this) (_verbose this) (_error this) (_allowUndefined this)
    (_iList this) (_dList this) (_sList this) l (_cList this)
    (_rList this) (_fList this) (_mList this) (_yList this) (_pList this).

Definition set_cList (l : list RooTObjWrap) (this : RooCmdConfig) : RooCmdConfig :=
  mkCmdConfig (_name this) (_verbose this) (_error this) (_allowUndefined this)
    (_iList this) (_dList this) (_sList this) (_oList this) l
    (_rList this) (_fList this) (_mList this) (_yList this) (_pList this).

Definition set_rList (l : list string) (this : RooCmdConfig) : RooCmdConfig :=
  mkCmdConfig (_name this) (_verbose this) (_error this) (_allowUndefined this)
    (_iList this) (_dList this) (_sList this) (_oList this) (_cList this)
    l (_fList this) (_mList this) (_yList this) (_pList this).

Definition set_fList (l : list string) (this : RooCmdConfig) : RooCmdConfig :=
  mkCmdConfig (_name this) (_verbose this) (_error this) (_allowUndefined this)
    (_iList this) (_dList this) (_sList this) (_oList this) (_cList this)
    (_rList this) l (_mList this) (_yList this) (_pList this).

Definition set_yList (l : list TNamed) (this : RooCmdConfig) : RooCmdConfig :=
  mkCmdConfig (_name this) (_verbose this) (_error this) (_allowUndefined this)
    (_iList this) (_dList this) (_sList this) (_oList this) (_cList this)
    (_rList this) (_fList this) (_mList this) l (_pList this).

Definition set_pList (l : list TNamed) (this : RooCmdConfig) : RooCmdConfig :=
  mkCmdConfig (_name this) (_verbose this) (_error this) (_allowUndefined this)
    (_iList this) (_dList this) (_sList this) (_oList this) (_cList this)
    (_rList this) (_fList this) (_mList this) (_yList this) l.

(** [RooCmdConfig::RooCmdConfig(methodName)]; the three flags are
    initialised to false in the class definition. *)
Definition RooCmdConfig_new (methodName : string) : RooCmdConfig :=
  mkCmdConfig methodName false false false [] [] [] [] [] [] [] [] [] [].

(** [cloneList(inList, outList)] on an empty [outList]: a clone of each
    element, in order. *)
Definition cloneList {A} (inList : list A) : list A :=
  foldl (λ outList elem, outList ++ [elem]) [] inList.

(** The copy constructor. *)
Definition RooCmdConfig_copy (other : RooCmdConfig) : RooCmdConfig :=
  mkCmdConfig (_name other) (_verbose other) (_error other) (_allowUndefined other)
    (cloneList (_iList other)) (cloneList (_dList other))
    (cloneList (_sList other)) (cloneList (_oList other))
    (cloneList (_cList other)) (cloneList (_rList other))
    (cloneList (_fList other)) (cloneList (_mList other))
    (cloneList (_yList other)) (cloneList (_pList other)).

(** [RooCmdConfig::missingArgs()] *)
Definition missingArgs (this : RooCmdConfig) : string :=
  (foldl (λ (st : string * bool) s,
            let '(ret, first) := st in
            if first then (ret +:+ s, false)
            else ((ret +:+ ", ") +:+ s, false))
         (EmptyString, true) (_rList this)).1.

(** [RooCmdConfig::defineDependency(refArgName, neededArgName)] *)
Definition defineDependency (refArgName neededArgName : string)
    (this : RooCmdConfig) : RooCmdConfig :=
  set_yList (_yList this ++ [mkTNamed refArgName neededArgName]) this.

(** [RooCmdConfig::defineInt(name, argName, intNum, defVal)] *)
Definition defineInt (name argName : string) (intNum : Z) (defVal : Int_t)
    (this : RooCmdConfig) : bool * RooCmdConfig * list Line :=
  match FindObject ri_name name (_iList this) with
  | Some _ =>
      (true, this,
       [CoutE [OStr "RooCmdConfig::defintInt: name '"; OStr name;
               OStr "' already defined"]])
  | None =>
      let ri := mkRooInt name argName intNum defVal in
      (false, set_iList (_iList this ++ [ri]) this, [])
  end.

(** [RooCmdConfig::defineDouble(name, argName, doubleNum, defVal)] *)
Definition defineDouble (name argName : string) (doubleNum : Z)
    (defVal : Double_t) (this : RooCmdConfig)
  : bool * RooCmdConfig * list Line :=
  match FindObject rd_name name (_dList this) with
  | Some _ =>
      (true, this,
       [CoutE [OStr "RooCmdConfig::defineDouble: name '"; OStr name;
               OStr "' already defined"]])
  | None =>
      let rd := mkRooDouble name argName doubleNum defVal in
      (false, set_dList (_dList this ++ [rd]) this, [])
  end.

(** [RooCmdConfig::defineString(name, argName, stringNum, defVal, appendMode)];
    [defVal] is a C string: the constructor of [RooStringVar] is not given
    a null pointer. *)
Definition defineString (name argName : string) (stringNum : Z)
    (defVal : string) (appendMode : bool) (this : RooCmdConfig)
  : bool * RooCmdConfig * list Line :=
  match FindObject rs_name name (_sList this) with
  | Some _ =>
      (true, this,
       [CoutE [OStr "RooCmdConfig::defineString: name '"; OStr name;
               OStr "' already defined"]])
  | None =>
      let rs := mkRooStringVar name argName stringNum defVal appendMode in
      (false, set_sList (_sList this ++ [rs]) this, [])
  end.

(** [RooCmdConfig::defineObject(name, argName, setNum, defVal, isArray)] *)
Definition defineObject (name argName : string) (setNum : Z)
    (defVal : TObjectPtr) (isArray : bool) (this : RooCmdConfig)
  : bool * RooCmdConfig * list Line :=
  match FindObject ro_name name (_oList this) with
  | Some _ =>
      (true, this,
       [CoutE [OStr "RooCmdConfig::defineObject: name '"; OStr name;
               OStr "' already defined"]])
  | None =>
      let os := RooTObjWrap_new name argName setNum defVal isArray in
      (false, set_oList (_oList this ++ [os]) this, [])
  end.

(** [RooCmdConfig::defineSet(name, argName, setNum, defVal)] *)
Definition defineSet (name argName : string) (setNum : Z)
    (defVal : TObjectPtr) (this : RooCmdConfig)
  : bool * RooCmdConfig * list Line :=
  match FindObject ro_name name (_cList this) with
  | Some _ =>
      (true, this,
       [CoutE [OStr "RooCmdConfig::defineObject: name '"; OStr name;
               OStr "' already defined"]])
  | None =>
      let cs := RooTObjWrap_new name argName setNum defVal false in
      (false, set_cList (_cList this ++ [cs]) this, [])
  end.

(** The double quote. *)
Definition dquote : string := String (Ascii.ascii_of_nat 34) EmptyString.

(** The name of the object a wrapper holds, as it is printed. *)
Definition objName (ro : RooTObjWrap) : OutPart :=
  match obj ro with
  | Some o => OName o
  | None => OStr "(null)"
  end.

(** [RooCmdConfig::print()].  In the loop over [_oList] the cast is
    applied to the pointer to the list element, not to the element: it
    constructs a temporary [RooTObjWrap] around the element itself, so
    that [obj()] is the element, which is never null, and the name printed
    after the equals sign is the name of the property. *)
Definition print (this : RooCmdConfig) : list Line :=
  map (λ ri, Cout [OStr (ri_name ri); OStr "[Int_t] = "; OInt (ri_value ri)])
      (_iList this)
  ++ map (λ rd, Cout [OStr (rd_name rd); OStr "[Double_t] = ";
                      ODouble (rd_value rd)])
         (_dList this)
  ++ map (λ rs, Cout [OStr (rs_name rs); OStr ("[string] = " +:+ dquote);
                      OStr (rs_value rs); OStr dquote])
         (_sList this)
  ++ map (λ ro, Cout [OStr (ro_name ro); OStr "[TObject] = "; OStr (ro_name ro)])
         (_oList this).

(** ** Processing an argument *)

(** [Form("%s,%s", a, b)] and [Form("%s::%s", a, b)]; a null pointer is
    printed as [(null)] by the C library. *)
Definition Form_s (s : option string) : string := default "(null)" s.

Definition Form2 (sep : string) (a b : option string) : string :=
  (Form_s a +:+ sep) +:+ Form_s b.

(** The body of the loop over [_iList]: the state is the part of the list
    already passed, [anyField], and what has been written. *)
Definition processInt (verbose : bool) (opc : string) (arg : RooCmdArg)
    (st : list RooInt * bool * list Line) (ri : RooInt)
  : list RooInt * bool * list Line :=
  let '(passed, anyField, out) := st in
  if bool_decide (ri_title ri = opc) then
    let ri := mkRooInt (ri_name ri) (ri_title ri) (ri_uniqueID ri)
                       (cmdInt arg (ri_uniqueID ri)) in
    (passed ++ [ri], true,
     out ++ trace verbose [OStr "RooCmdConfig::process "; OStr (ri_name ri);
                           OStr "[Int_t]"; OStr " set to "; OInt (ri_value ri)])
  else (passed ++ [ri], anyField, out).

(** The body of the loop over [_dList]. *)
Definition processDouble (verbose : bool) (opc : string) (arg : RooCmdArg)
    (st : list RooDouble * bool * list Line) (rd : RooDouble)
  : list RooDouble * bool * list Line :=
  let '(passed, anyField, out) := st in
  if bool_decide (rd_title rd = opc) then
    let rd := mkRooDouble (rd_name rd) (rd_title rd) (rd_uniqueID rd)
                          (cmdDouble arg (rd_uniqueID rd)) in
    (passed ++ [rd], true,
     out ++ trace verbose [OStr "RooCmdConfig::process "; OStr (rd_name rd);
                           OStr "[Double_t]"; OStr " set to ";
                           ODouble (rd_value rd)])
  else (passed ++ [rd], anyField, out).

(** The body of the loop over [_sList]. *)
Definition processString (verbose : bool) (opc : string) (arg : RooCmdArg)
    (st : list RooStringVar * bool * list Line) (rs : RooStringVar)
  : list RooStringVar * bool * list Line :=
  let '(passed, anyField, out) := st in
  if bool_decide (rs_title rs = opc) then
    let oldStr := rs_value rs in
    let rs :=
      if negb (bool_decide (oldStr = EmptyString)) && rs_appendMode rs
      then setVal (Some (Form2 "," (Some (rs_value rs))
                               (cmdString arg (rs_uniqueID rs)))) rs
      else setVal (cmdString arg (rs_uniqueID rs)) rs in
    (passed ++ [rs], true,
     out ++ trace verbose [OStr "RooCmdConfig::process "; OStr (rs_name rs);
                           OStr "[string]"; OStr " set to "; OStr (rs_value rs)])
  else (passed ++ [rs], anyField, out).

(** The bodies of the loops over [_oList] and [_cList], which differ in
    the accessor and in the tag they print. *)
Definition processObject (verbose : bool) (tag : string) (get : Z → TObjectPtr)
    (opc : string) (st : list RooTObjWrap * bool * list Line) (os : RooTObjWrap)
  : list RooTObjWrap * bool * list Line :=
  let '(passed, anyField, out) := st in
  if bool_decide (ro_title os = opc) then
    let os := setObj (get (ro_uniqueID os)) os in
    (passed ++ [os], true,
     out ++ trace verbose [OStr "RooCmdConfig::process "; OStr (ro_name os);
                           OStr tag; OStr " set to "; objName os])
  else (passed ++ [os], anyField, out).

(** [while ((obj = _rList.FindObject(opc))) _rList.Remove(obj)]; every
    round takes one element out, so [rounds], the length of the list,
    bounds the number of rounds. *)
Fixpoint removeRequired (rounds : nat) (opc : string) (rList : list string)
  : list string :=
  match rounds with
  | 0 => rList
  | S rounds =>
      match FindObject id opc rList with
      | Some _ => removeRequired rounds opc (RemoveFound id opc rList)
      | None => rList
      end
  end.

(** The name of the copy of a sub-argument that is processed. *)
Definition subArgName (name : string) (prefix : bool) (subArg : RooCmdArg)
  : string :=
  if prefix then Form2 "::" (Some name) (Some (cmdName subArg))
  else cmdName subArg.

(** "Check if this code generates any dependencies": the argument that
    the first dependency of [opc] names is added to the required list,
    unless it has been processed. *)
Definition checkDependencies (opc : string) (this : RooCmdConfig)
  : RooCmdConfig * list Line :=
  match FindObject tn_name opc (_yList this) with
  | Some dep =>
      match FindObject tn_name (tn_title dep) (_pList this) with
      | None =>
          (set_rList (_rList this ++ [tn_title dep]) this,
           trace (_verbose this)
             [OStr "RooCmdConfig::process: "; OStr opc;
              OStr " has unprocessed dependent "; OStr (tn_title dep);
              OStr ", adding to required list"])
      | Some _ =>
          (this,
           trace (_verbose this)
             [OStr "RooCmdConfig::process: "; OStr opc;
              OStr " dependent "; OStr (tn_title dep);
              OStr " is already processed"])
      end
  | None => (this, [])
  end.

(** "Check for mutexes": the argument that the first mutex of [opc] names
    is added to the forbidden list. *)
Definition checkMutexes (opc : string) (this : RooCmdConfig)
  : RooCmdConfig * list Line :=
  match FindObject tn_name opc (_mList this) with
  | Some mutex =>
      (set_fList (_fList this ++ [tn_title mutex]) this,
       trace (_verbose this)
         [OStr "RooCmdConfig::process: "; OStr opc;
          OStr " excludes "; OStr (tn_title mutex);
          OStr ", adding to forbidden list"])
  | None => (this, [])
  end.

(** The five loops that find the registered fields for [opc]; the result
    is [anyField], the parser, and what has been written. *)
Definition findFields (opc : string) (arg : RooCmdArg) (this : RooCmdConfig)
  : bool * RooCmdConfig * list Line :=
  let verbose := _verbose this in
  let anyField := false in
  let '(iList, anyField, out) :=
    foldl (processInt verbose opc arg) ([], anyField, []) (_iList this) in
  let this := set_iList iList this in
  let '(dList, anyField, out) :=
    foldl (processDouble verbose opc arg) ([], anyField, out) (_dList this) in
  let this := set_dList dList this in
  let '(sList, anyField, out) :=
    foldl (processString verbose opc arg) ([], anyField, out) (_sList this) in
  let this := set_sList sList this in
  let '(oList, anyField, out) :=
    foldl (processObject verbose "[TObject]" (cmdObject arg) opc)
          ([], anyField, out) (_oList this) in
  let this := set_oList oList this in
  let '(cList, anyField, out) :=
    foldl (processObject verbose "[RooArgSet]" (cmdSet arg) opc)
          ([], anyField, out) (_cList this) in
  let this := set_cList cList this in
  (anyField, this, out).

(** The part of [RooCmdConfig::process(arg)] that deals with the
    argument itself, for an argument with the opcode [opc] that is not
    forbidden: from the check of the dependencies to the entry in the list
    of processed commands.  It returns [anyField]. *)
Definition processOwn (opc : string) (arg : RooCmdArg) (this : RooCmdConfig)
  : bool * RooCmdConfig * list Line :=
  let '(this, out1) := checkDependencies opc this in
  let '(this, out2) := checkMutexes opc this in
  let '(anyField, this, out3) := findFields opc arg this in
  let multiArg := bool_decide (opc = "MultiArg") in
  let out4 :=
    if negb anyField && negb (_allowUndefined this) && negb multiArg
    then [CoutE [OStr (_name this);
                 OStr " ERROR: unrecognized command: "; OStr opc]]
    else [] in
  let this :=
    set_rList (removeRequired (length (_rList this)) opc (_rList this)) this in
  let this := set_pList (_pList this ++ [mkTNamed opc opc]) this in
  (anyField, this, out1 ++ out2 ++ out3 ++ out4).

(** The body of the loop over the sub-arguments; [rec] is the call of
    [process] on the copy of the sub-argument, which has the name given. *)
Definition processSubArg
    (rec : string → RooCmdArg → RooCmdConfig → bool * RooCmdConfig * list Line)
    (name : string) (prefix : bool)
    (st : bool * RooCmdConfig * list Line) (subArg : RooCmdArg)
  : bool * RooCmdConfig * list Line :=
  let '(depRet, this, out) := st in
  if negb (bool_decide (cmdName subArg = EmptyString)) then
    let '(r, this, out') := rec (subArgName name prefix subArg) subArg this in
    (depRet || r, this, out ++ out')
  else (depRet, this, out).

(** [RooCmdConfig::process(arg)] for an argument whose name is [name]:
    the function calls itself on copies of the sub-arguments that may have
    been given another name, so the name is passed beside the argument. *)
Fixpoint processNamed (name : string) (arg : RooCmdArg) (this : RooCmdConfig)
  : bool * RooCmdConfig * list Line :=
  match opcodeOf name with
  | None => (false, this, [])
  | Some opc =>
      match FindObject id opc (_fList this) with
      | Some _ =>
          (true, set_error true this,
           [CoutE [OStr (_name this); OStr " ERROR: argument "; OStr opc;
                   OStr " not allowed in this context"]])
      | None =>
          let '(anyField, this, out) := processOwn opc arg this in
          let '(depRet, this, out) :=
            if procSubArgs arg then
              foldl (processSubArg processNamed name (prefixSubArgs arg))
                    (false, this, out) (subArgs arg)
            else (false, this, out) in
          ((if anyField || _allowUndefined this then false else true) || depRet,
           this, out)
      end
  end.

(** [RooCmdConfig::process(const RooCmdArg& arg)] *)
Definition process (arg : RooCmdArg) (this : RooCmdConfig)
  : bool * RooCmdConfig * list Line :=
  processNamed (cmdName arg) arg this.

(** [RooCmdConfig::process(const RooLinkedList& argList)], and the
    template [process(begin, end)] declared with the class. *)
Definition processList (argList : list RooCmdArg) (this : RooCmdConfig)
  : bool * RooCmdConfig * list Line :=
  foldl (λ (st : bool * RooCmdConfig * list Line) arg,
           let '(ret, this, out) := st in
           let '(r, this, out') := process arg this in
           (ret || r, this, out ++ out'))
        (false, this, []) argList.

(** ** Reading the result *)

(** [RooCmdConfig::hasProcessed(cmdName)] *)
Definition hasProcessed (cmdName : string) (this : RooCmdConfig) : bool :=
  match FindObject tn_name cmdName (_pList this) with
  | Some _ => true
  | None => false
  end.

(** [RooCmdConfig::getInt(name, defVal)] *)
Definition getInt (name : string) (defVal : Int_t) (this : RooCmdConfig) : Int_t :=
  match FindObject ri_name name (_iList this) with
  | Some ri => ri_value ri
  | None => defVal
  end.

(** [RooCmdConfig::getDouble(name, defVal)] *)
Definition getDouble (name : string) (defVal : Double_t) (this : RooCmdConfig)
  : Double_t :=
  match FindObject rd_name name (_dList this) with
  | Some rd => rd_value rd
  | None => defVal
  end.

(** [RooCmdConfig::getString(name, defVal, convEmptyToNull)] *)
Definition getString (name : string) (defVal : option string)
    (convEmptyToNull : bool) (this : RooCmdConfig) : option string :=
  match FindObject rs_name name (_sList this) with
  | Some rs =>
      if convEmptyToNull && bool_decide (rs_value rs = EmptyString) then None
      else Some (rs_value rs)
  | None => defVal
  end.

(** [RooCmdConfig::getObject(name, defVal)] *)
Definition getObject (name : string) (defVal : TObjectPtr) (this : RooCmdConfig)
  : TObjectPtr :=
  match FindObject ro_name name (_oList this) with
  | Some ro => obj ro
  | None => defVal
  end.

(** [RooCmdConfig::getSet(name, defVal)] *)
Definition getSet (name : string) (defVal : TObjectPtr) (this : RooCmdConfig)
  : TObjectPtr :=
  match FindObject ro_name name (_cList this) with
  | Some ro => obj ro
  | None => defVal
  end.

(** [RooCmdConfig::getObjectList(name)] *)
Definition getObjectList (name : string) (this : RooCmdConfig) : list nat :=
  match FindObject ro_name name (_oList this) with
  | Some ro => ro_list ro
  | None => []
  end.

(** [RooCmdConfig::ok(verbose)] *)
Definition ok (verbose : bool) (this : RooCmdConfig) : bool * list Line :=
  if (length (_rList this) =? 0) && negb (_error this) then (true, [])
  else
    (false,
     if verbose then
       let margs := missingArgs this in
       if negb (bool_decide (margs = EmptyString))
       then [CoutE [OStr (_name this); OStr " ERROR: missing arguments: ";
                    OStr margs]]
       else [CoutE [OStr (_name this);
                    OStr " ERROR: illegal combination of arguments and/or missing arguments"]]
     else []).

(** ** Lists of commands *)

Definition comma : Ascii.ascii := Ascii.ascii_of_nat 44.

(** The pieces of [str] between the commas, [piece] being what has been
    read of the present piece. *)
Fixpoint Split_from (str piece : string) : list string :=
  match str with
  | EmptyString => [piece]
  | String c str' =>
      if Ascii.eqb c comma then piece :: Split_from str' EmptyString
      else Split_from str' (piece +:+ String c EmptyString)
  end.

(** [ROOT::Split(str, ",")]: empty pieces are kept. *)
Definition Split (str : string) : list string := Split_from str EmptyString.

(** [RooCmdConfig::stripCmdList(cmdList, cmdsToPurge)]; the list is
    changed in place and returned here. *)
Definition stripCmdList (cmdList : list RooCmdArg) (cmdsToPurge : option string)
  : list RooCmdArg :=
  match cmdsToPurge with
  | None => cmdList
  | Some cmdsToPurge =>
      foldl (λ cmdList name,
               match FindObject cmdName name cmdList with
               | Some _ => RemoveFound cmdName name cmdList
               | None => cmdList
               end)
            cmdList (Split cmdsToPurge)
  end.

(** [RooCmdConfig::filterCmdList(cmdInList, cmdNameList, removeFromInList)]:
    the returned list, and [cmdInList] as it is left. *)
Definition filterCmdList (cmdInList : list RooCmdArg) (cmdNameList : option string)
    (removeFromInList : bool) : list RooCmdArg * list RooCmdArg :=
  match cmdNameList with
  | None => ([], cmdInList)
  | Some cmdNameList =>
      foldl (λ (st : list RooCmdArg * list RooCmdArg) name,
               let '(filterList, cmdInList) := st in
               match FindObject cmdName name cmdInList with
               | Some cmd =>
                   let cmdInList :=
                     if removeFromInList then RemoveFound cmdName name cmdInList
                     else cmdInList in
                   (filterList ++ [cmd], cmdInList)
               | None => (filterList, cmdInList)
               end)
            ([], cmdInList) (Split cmdNameList)
  end.

(** [RooCmdConfig::allowUndefined(flag)], declared with the class. *)
Definition allowUndefined (flag : bool) (this : RooCmdConfig) : RooCmdConfig :=
  set_allowUndefined flag this.

(** [RooCmdConfig::decodeDoubleOnTheFly(callerID, cmdArgName, idx, defVal,
    args)]; [getDouble] is called with its default argument, zero. *)
Definition decodeDoubleOnTheFly (callerID cmdArgName : string) (idx : Z)
    (defVal : Double_t) (args : list RooCmdArg) : Double_t :=
  let pc := RooCmdConfig_new callerID in
  let pc := allowUndefined true pc in
  let pc := (defineDouble "theDouble" cmdArgName idx defVal pc).1.2 in
  let pc := (processList args pc).1.2 in
  getDouble "theDouble" 0%float pc.

(** ** Specification vocabulary for the parser *)

(** What processing an argument with the opcode [opc] makes of one
    property: a property read from that argument takes the value in its
    slot, any other property stays as it is. *)
Definition assignInt (opc : string) (arg : RooCmdArg) (ri : RooInt) : RooInt :=
  if bool_decide (ri_title ri = opc)
  then mkRooInt (ri_name ri) (ri_title ri) (ri_uniqueID ri)
                (cmdInt arg (ri_uniqueID ri))
  else ri.

Definition assignDouble (opc : string) (arg : RooCmdArg) (rd : RooDouble)
  : RooDouble :=
  if bool_decide (rd_title rd = opc)
  then mkRooDouble (rd_name rd) (rd_title rd) (rd_uniqueID rd)
                   (cmdDouble arg (rd_uniqueID rd))
  else rd.

Definition assignString (opc : string) (arg : RooCmdArg) (rs : RooStringVar)
  : RooStringVar :=
  if bool_decide (rs_title rs = opc)
  then if negb (bool_decide (rs_value rs = EmptyString)) && rs_appendMode rs
       then setVal (Some (Form2 "," (Some (rs_value rs))
                                (cmdString arg (rs_uniqueID rs)))) rs
       else setVal (cmdString arg (rs_uniqueID rs)) rs
  else rs.

Definition assignObject (get : Z → TObjectPtr) (opc : string) (os : RooTObjWrap)
  : RooTObjWrap :=
  if bool_decide (ro_title os = opc) then setObj (get (ro_uniqueID os)) os else os.

(** Some property is read from the argument with the opcode [opc]. *)
Definition recognized (opc : string) (this : RooCmdConfig) : bool :=
  existsb (λ ri, bool_decide (ri_title ri = opc)) (_iList this)
  || existsb (λ rd, bool_decide (rd_title rd = opc)) (_dList this)
  || existsb (λ rs, bool_decide (rs_title rs = opc)) (_sList this)
  || existsb (λ os, bool_decide (ro_title os = opc)) (_oList this)
  || existsb (λ cs, bool_decide (ro_title cs = opc)) (_cList this).

(** The arguments that are required on account of [opc]: the one its
    first dependency names, unless that has been processed. *)
Definition newlyRequired (opc : string) (this : RooCmdConfig) : list string :=
  match FindObject tn_name opc (_yList this) with
  | Some dep =>
      match FindObject tn_name (tn_title dep) (_pList this) with
      | None => [tn_title dep]
      | Some _ => []
      end
  | None => []
  end.

(** The arguments that are forbidden on account of [opc]: the one its
    first mutex names. *)
Definition newlyForbidden (opc : string) (this : RooCmdConfig) : list string :=
  match FindObject tn_name opc (_mList this) with
  | Some mutex => [tn_title mutex]
  | None => []
  end.

(** The parser after the argument with the opcode [opc] has been dealt
    with, its sub-arguments apart. *)
Definition processedOwn (opc : string) (arg : RooCmdArg) (this : RooCmdConfig)
  : RooCmdConfig :=
  mkCmdConfig (_name this) (_verbose this) (_error this) (_allowUndefined this)
    (map (assignInt opc arg) (_iList this))
    (map (assignDouble opc arg) (_dList this))
    (map (assignString opc arg) (_sList this))
    (map (assignObject (cmdObject arg) opc) (_oList this))
    (map (assignObject (cmdSet arg) opc) (_cList this))
    (filter (λ s, s ≠ opc) (_rList this ++ newlyRequired opc this))
    (_fList this ++ newlyForbidden opc this)
    (_mList this) (_yList this)
    (_pList this ++ [mkTNamed opc opc]).

(** What of a parser no processing changes: its name and flags, the
    properties that are defined, with the arguments and slots they are read
    from, and the rules. *)
Definition sameDefinitions (a b : RooCmdConfig) : Prop :=
  _name a = _name b ∧ _verbose a = _verbose b ∧
  _allowUndefined a = _allowUndefined b ∧
  map (λ ri, (ri_name ri, ri_title ri, ri_uniqueID ri)) (_iList a)
    = map (λ ri, (ri_name ri, ri_title ri, ri_uniqueID ri)) (_iList b) ∧
  map (λ rd, (rd_name rd, rd_title rd, rd_uniqueID rd)) (_dList a)
    = map (λ rd, (rd_name rd, rd_title rd, rd_uniqueID rd)) (_dList b) ∧
  map (λ rs, (rs_name rs, rs_title rs, rs_uniqueID rs, rs_appendMode rs)) (_sList a)
    = map (λ rs, (rs_name rs, rs_title rs, rs_uniqueID rs, rs_appendMode rs))
          (_sList b) ∧
  map (λ ro, (ro_name ro, ro_title ro, ro_uniqueID ro, ro_isArray ro)) (_oList a)
    = map (λ ro, (ro_name ro, ro_title ro, ro_uniqueID ro, ro_isArray ro))
          (_oList b) ∧
  map (λ ro, (ro_name ro, ro_title ro, ro_uniqueID ro, ro_isArray ro)) (_cList a)
    = map (λ ro, (ro_name ro, ro_title ro, ro_uniqueID ro, ro_isArray ro))
          (_cList b) ∧
  _mList a = _mList b ∧ _yList a = _yList b.

(** Going from the parser [a] to the parser [b] keeps the command [n]
    processed and not required. *)
Definition done_with (n : string) (a b : RooCmdConfig) : Prop :=
  hasProcessed n a = true ∧ n ∉ _rList a →
  hasProcessed n b = true ∧ n ∉ _rList b.

(** The commands the parser handles when it processes the argument
    [arg] under the name [name], in order, each with the name it is handled
    under: the argument itself, unless its name is empty, and then, if it
    says so, its sub-arguments with a name, with theirs. *)
Fixpoint handled (name : string) (arg : RooCmdArg) : list (string * RooCmdArg) :=
  match opcodeOf name with
  | None => []
  | Some opc =>
      (opc, arg) ::
      (if procSubArgs arg
       then concat (map (λ subArg,
                           if negb (bool_decide (cmdName subArg = EmptyString))
                           then handled (subArgName name (prefixSubArgs arg) subArg)
                                        subArg
                           else [])
                        (subArgs arg))
       else [])
  end.

(** The value of the one property of [decodeDoubleOnTheFly] once the
    command [p] has been handled, [v] being the value before. *)
Definition decodeStep (cmdArgName : string) (idx : Z) (v : Double_t)
    (p : string * RooCmdArg) : Double_t :=
  if bool_decide (cmdArgName = p.1) then cmdDouble p.2 idx else v.

(** The parser of [decodeDoubleOnTheFly] while it processes: nothing is
    forbidden, there is no mutex rule, and the one property holds [v]. *)
Definition decoding (cmdArgName : string) (idx : Z) (t : RooCmdConfig)
    (v : Double_t) : Prop :=
  _fList t = [] ∧ _mList t = [] ∧
  _dList t = [mkRooDouble "theDouble" cmdArgName idx v].

(** ** Example parsers and arguments *)

(** An argument with the name [name] that carries [i] in every integer
    slot and [d] in every double slot. *)
Definition simpleArg (name : string) (i : Int_t) (d : Double_t) : RooCmdArg :=
  mkCmdArg name (λ _, i) (λ _, d) (λ _, None) (λ _, None) (λ _, None)
           false false [].

(** A parser with the integer property [nCPU], read from slot 0 of the
    argument [NumCPU], and the double property [range], read from slot 1 of
    the argument [Range]; [Range] needs [NumCPU], and [NumCPU] excludes
    [Serial]. *)
Definition exampleConfig : RooCmdConfig :=
  mkCmdConfig "fitTo" false false false
    [mkRooInt "nCPU" "NumCPU" 0 1]
    [mkRooDouble "range" "Range" 1 0%float]
    [] [] [] [] []
    [mkTNamed "NumCPU" "Serial"]
    [mkTNamed "Range" "NumCPU"]
    [].

(** * Theorems *)

(** ** Outcomes *)

Lemma bind_Done {A B} (m : outcome A) (f : A → outcome B) (b : B) :
  m ≫= f = Done b → ∃ a, m = Done a ∧ f a = Done b.
Proof. destruct m; simpl; [eauto | done | done]. Qed.

Lemma bind_Throw {A B} (m : outcome A) (f : A → outcome B) (e : exn) :
  m ≫= f = Throw e → m = Throw e ∨ ∃ a, m = Done a ∧ f a = Throw e.
Proof. destruct m; simpl; [eauto | | done]. intros [= ->]. by left. Qed.

(** ** Collections *)

Lemma elem_of_RooArgSet_add x y s :
  x ∈ RooArgSet_add y s ↔ x = y ∨ x ∈ s.
Proof.
  unfold RooArgSet_add. case_bool_decide as Hy.
  - split; [by right | intros [-> | ?]; done].
  - rewrite elem_of_app, list_elem_of_singleton. tauto.
Qed.

Lemma NoDup_RooArgSet_add y s : NoDup s → NoDup (RooArgSet_add y s).
Proof.
  intros Hs. unfold RooArgSet_add. case_bool_decide as Hy; [done |].
  apply NoDup_app. split_and!; [done | | apply NoDup_singleton].
  intros x Hx ->%list_elem_of_singleton. done.
Qed.

Lemma RooArgSet_of_spec l :
  NoDup (RooArgSet_of l) ∧ ∀ x, x ∈ RooArgSet_of l ↔ x ∈ l.
Proof.
  unfold RooArgSet_of.
  cut (∀ acc, NoDup acc →
         NoDup (foldl (λ s x, RooArgSet_add x s) acc l) ∧
         ∀ x, x ∈ foldl (λ s x, RooArgSet_add x s) acc l ↔ x ∈ acc ∨ x ∈ l).
  { intros H. destruct (H [] (NoDup_nil_2)) as [Hn Hx]. split; [done |].
    intros x. rewrite Hx. rewrite elem_of_nil. tauto. }
  induction l as [| y l IH]; intros acc Hacc; simpl.
  - split; [done |]. intros x. rewrite elem_of_nil. tauto.
  - destruct (IH (RooArgSet_add y acc)) as [Hn Hx];
      [by apply NoDup_RooArgSet_add |].
    split; [done |]. intros x. rewrite Hx, elem_of_RooArgSet_add, elem_of_cons.
    tauto.
Qed.

Lemma elem_of_unique x l : x ∈ unique l ↔ x ∈ l.
Proof.
  induction l as [| a l IH]; [done |].
  simpl. destruct l as [| b l].
  - done.
  - case_bool_decide as Hab.
    + subst b. rewrite IH. rewrite !elem_of_cons. tauto.
    + rewrite elem_of_cons, IH. rewrite (elem_of_cons (b :: l)). tauto.
Qed.

Lemma elem_of_sortUnique x l : x ∈ sortUnique l ↔ x ∈ l.
Proof. unfold sortUnique. by rewrite elem_of_unique, merge_sort_Permutation. Qed.

Lemma emplace_lookup `{Countable K} {V} (k k' : K) (v : V) (m : gmap K V) w :
  emplace k v m !! k' = Some w →
  m !! k' = Some w ∨ (k' = k ∧ w = v ∧ m !! k = None).
Proof.
  unfold emplace. destruct (m !! k) eqn:Hk; [by left |].
  destruct (decide (k = k')) as [<- | Hne].
  - rewrite lookup_insert_eq. intros [= <-]. by right.
  - rewrite lookup_insert_ne by done. by left.
Qed.

(** ** Reachability *)

Section checker.
Context (lists : gmap DataKey (list DataKey)).

Lemma reachable_inv a b :
    reachable lists a b →
    a = b ∨ ∃ l s, lists !! a = Some l ∧ s ∈ l ∧ reachable lists s b.
  Proof.
    intros H. destruct H as [| x y z (l & Hl & Hy) Hr]; [by left |].
    right. by exists l, y.
  Qed.

Lemma reachable_step a l s b :
    lists !! a = Some l → s ∈ l → reachable lists s b → reachable lists a b.
  Proof. intros Hl Hs Hr. eapply rtc_l; [by exists l | done]. Qed.

Lemma sound_emplace results a b v :
    sound lists results → (v = true ↔ reachable lists a b) →
    sound lists (emplace (a, b) v results).
  Proof.
    intros Hs Hv a' b' w Hw.
    apply emplace_lookup in Hw as [Hw | ([= -> ->] & -> & _)]; [by eapply Hs | done].
  Qed.

Lemma sound_empty : sound lists ∅.
  Proof. intros a b v Hv. by rewrite lookup_empty in Hv. Qed.

Section recursion.
Context (rank : DataKey → nat) (testArg : DataKey).
Context (Hclosed : closed lists) (Hranked : ranked rank lists).

Lemma dependsOn_servers_correct rec arg l results :
      (∀ results s, s ∈ l → sound lists results → answers lists testArg (rec results s) s) →
      sound lists results →
      ((∀ s, s ∈ l → ¬ reachable lists s testArg) →
       ¬ reachable lists arg testArg) →
      ∃ t results',
        dependsOn_servers rec (arg, testArg) l results = Done (t, results') ∧
        sound lists results' ∧
        (t = true ↔ ∃ s, s ∈ l ∧ reachable lists s testArg).
    Proof.
      revert results. induction l as [| s l IH]; intros results Hrec Hs Hno; simpl.
      - eexists _, _. split; [done |]. split.
        + apply sound_emplace; [done |]. split; [done |].
          intros Hr. exfalso. apply Hno; [| done]. intros s Hin. by apply elem_of_nil in Hin.
        + split; [done |]. intros (s & Hin & _). by apply elem_of_nil in Hin.
      - destruct (Hrec results s) as (t & results1 & -> & Hs1 & Ht);
          [by left | done |]. simpl.
        assert (sound lists (emplace (s, testArg) t results1)) as Hs2
          by by apply sound_emplace.
        destruct t.
        + eexists _, _. split; [done |]. split; [done |]. split; [| done].
          intros _. exists s. split; [by left | by apply Ht].
        + destruct (IH (emplace (s, testArg) false results1))
            as (t & results' & Heq & Hs' & Ht'); [| done | |].
          * intros r s' Hin. apply Hrec. by right.
          * intros Hall. apply Hno. intros s' [-> | Hin]%elem_of_cons; [| by apply Hall].
            intros Hr. by apply Ht in Hr.
          * exists t, results'. split; [done |]. split; [done |].
            rewrite Ht'. split.
            -- intros (s' & Hin & Hr). exists s'. split; [by right | done].
            -- intros (s' & [-> | Hin]%elem_of_cons & Hr); [| by exists s'].
               by apply Ht in Hr.
    Qed.

Lemma dependsOn_results_correct fuel results arg :
      sound lists results → is_Some (lists !! arg) → rank arg < fuel →
      answers lists testArg (dependsOn_results fuel lists testArg results arg) arg.
    Proof.
      revert results arg.
      induction fuel as [| fuel IH]; intros results arg Hs [l Hl] Hfuel; [lia |].
      simpl. destruct (results !! (arg, testArg)) as [found |] eqn:Hfound.
      { exists found, results. split; [done |]. split; [done |]. by eapply Hs. }
      case_bool_decide as Heq.
      { subst. exists true, results. split; [done |]. split; [done |].
        split; [| done]. intros _. apply rtc_refl. }
      rewrite Hl. case_bool_decide as Hin.
      { eexists _, _. split; [done |].
        assert (reachable lists arg testArg)
          by (eapply reachable_step; [done | done | apply rtc_refl]).
        split; [by apply sound_emplace | done]. }
      destruct (dependsOn_servers_correct
                  (dependsOn_results fuel lists testArg) arg l results)
        as (t & results' & Hrun & Hs' & Ht); [| done | |].
      - intros r s Hsl Hr. apply IH; [done | by eapply Hclosed |].
        assert (rank s < rank arg) by (apply Hranked; by exists l). lia.
      - intros Hall Hr. apply reachable_inv in Hr as [? | (l' & s & Hl' & Hs' & Hr)];
          [done |]. rewrite Hl in Hl'. injection Hl' as <-. by eapply Hall.
      - exists t, results'. split; [done |]. split; [done |]. rewrite Ht. split.
        + intros (s & Hsl & Hr). by eapply reachable_step.
        + intros Hr. apply reachable_inv in Hr as [? | (l' & s & Hl' & Hs'' & Hr)];
            [done |]. rewrite Hl in Hl'. injection Hl' as <-. by exists s.
    Qed.
End recursion.

  (** Whenever a query returns, its answer is right. *)
Lemma dependsOn_servers_sound rec testArg arg l results t results' :
  (∀ results s t r, s ∈ l → sound lists results → rec results s = Done (t, r) →
     sound lists r ∧ (t = true ↔ reachable lists s testArg)) →
  sound lists results →
  ((∀ s, s ∈ l → ¬ reachable lists s testArg) → ¬ reachable lists arg testArg) →
  dependsOn_servers rec (arg, testArg) l results = Done (t, results') →
  sound lists results' ∧ (t = true ↔ ∃ s, s ∈ l ∧ reachable lists s testArg).
Proof.
  revert results. induction l as [| s l IH]; intros results Hrec Hs Hno; simpl.
  - intros [= <- <-]. split.
    + apply sound_emplace; [done |]. split; [done |].
      intros Hr. exfalso. apply Hno; [| done]. by intros s ?%elem_of_nil.
    + split; [done |]. by intros (s & ?%elem_of_nil & _).
  - intros ([t1 r1] & H1 & Hrun)%bind_Done.
    destruct (Hrec results s t1 r1) as [Hs1 Ht1]; [by left | done | done |].
    simpl in Hrun.
    assert (sound lists (emplace (s, testArg) t1 r1)) as Hs2
      by by apply sound_emplace.
    destruct t1.
    + injection Hrun as <- <-. split; [done |]. split; [| done].
      intros _. exists s. split; [by left | by apply Ht1].
    + apply IH in Hrun as [Hs' Ht']; [| | done |].
      * split; [done |]. rewrite Ht'. split.
        -- intros (s' & Hin & Hr). exists s'. split; [by right | done].
        -- intros (s' & [-> | Hin]%elem_of_cons & Hr); [| by exists s'].
           by apply Ht1 in Hr.
      * intros r s' t2 r' Hin. apply Hrec. by right.
      * intros Hall. apply Hno. intros s' [-> | Hin]%elem_of_cons; [| by apply Hall].
        intros Hr. by apply Ht1 in Hr.
Qed.

Lemma dependsOn_results_sound fuel testArg results arg t results' :
  sound lists results →
  dependsOn_results fuel lists testArg results arg = Done (t, results') →
  sound lists results' ∧ (t = true ↔ reachable lists arg testArg).
Proof.
  revert results arg t results'.
  induction fuel as [| fuel IH]; intros results arg t results' Hs; [done |].
  simpl. destruct (results !! (arg, testArg)) as [found |] eqn:Hfound.
  { intros [= <- <-]. split; [done |]. by eapply Hs. }
  case_bool_decide as Heq.
  { intros [= <- <-]. subst. split; [done |]. split; [| done].
    intros _. apply rtc_refl. }
  destruct (lists !! arg) as [l |] eqn:Hl; [| done].
  case_bool_decide as Hin.
  { intros [= <- <-].
    assert (reachable lists arg testArg)
      by (eapply reachable_step; [done | done | apply rtc_refl]).
    split; [by apply sound_emplace | done]. }
  intros Hrun. apply dependsOn_servers_sound in Hrun as [Hs' Ht]; [| | done |].
  - split; [done |]. rewrite Ht. split.
    + intros (s & Hsl & Hr). by eapply reachable_step.
    + intros Hr. apply reachable_inv in Hr as [? | (l' & s & Hl' & Hs'' & Hr)];
        [done |]. rewrite Hl in Hl'. injection Hl' as <-. by exists s.
  - intros r s t1 r1 _ Hr. by apply IH.
  - intros Hall Hr. apply reachable_inv in Hr as [? | (l' & s & Hl' & Hs'' & Hr)];
      [done |]. rewrite Hl in Hl'. injection Hl' as <-. by eapply Hall.
Qed.

(** No lookup of a server list fails on a closed snapshot. *)
Lemma dependsOn_servers_no_throw rec p l results e :
    (∀ results s, s ∈ l → rec results s ≠ Throw e) →
    dependsOn_servers rec p l results ≠ Throw e.
  Proof.
    revert results. induction l as [| s l IH]; intros results Hrec; [done |].
    simpl. destruct (rec results s) as [[t r] | e' |] eqn:Hr; simpl; [| | done].
    - destruct t; [done |]. apply IH. intros r' s' Hin. apply Hrec. by right.
    - intros [= ->]. by eapply Hrec; [left |].
  Qed.

Lemma dependsOn_results_no_throw fuel testArg results arg e :
    closed lists → is_Some (lists !! arg) →
    dependsOn_results fuel lists testArg results arg ≠ Throw e.
  Proof.
    intros Hclosed. revert results arg.
    induction fuel as [| fuel IH]; intros results arg [l Hl]; [done |].
    simpl. destruct (results !! (arg, testArg)); [done |].
    case_bool_decide; [done |]. rewrite Hl. case_bool_decide; [done |].
    apply dependsOn_servers_no_throw. intros r s Hs. apply IH. by eapply Hclosed.
  Qed.
End checker.

(** ** The snapshot taken by the constructor *)

Section snapshot.
Context (g : Graph).

Lemma forEach_treeNodeServerList rec es acc acc' :
    (∀ e lst lst', e ∈ es → rec e.1 lst = Done lst' →
       lst ⊆ lst' ∧ e.1 ∈ lst' ∧
       ∀ n, n ∈ lst' → n ∈ lst ∨ servers g n ⊆ lst') →
    forEach (λ lst e, if false && negb e.2 then Done lst else rec e.1 lst)
            es acc = Done acc' →
    acc ⊆ acc' ∧ (∀ e, e ∈ es → e.1 ∈ acc') ∧
    ∀ n, n ∈ acc' → n ∈ acc ∨ servers g n ⊆ acc'.
  Proof.
    revert acc. induction es as [| e es IH]; intros acc Hrec Hrun; simpl in Hrun.
    - injection Hrun as <-. split; [done |]. split; [| by left].
      intros e He. by apply elem_of_nil in He.
    - apply bind_Done in Hrun as (acc1 & H1 & Hrun).
      apply Hrec in H1 as (Hsub1 & He1 & Hcl1); [| by left].
      apply IH in Hrun as (Hsub & Hes & Hcl); [| intros; apply Hrec; [by right | done]].
      split; [set_solver |]. split.
      + intros e' [-> | Hin]%elem_of_cons; [set_solver | by apply Hes].
      + intros n Hn. destruct (Hcl n Hn) as [Hn1 | ?]; [| by right].
        destruct (Hcl1 n Hn1) as [? | Hs]; [by left |]. right. set_solver.
  Qed.

Lemma treeNodeServerList_closed fuel arg lst lst' :
    treeNodeServerList fuel g false arg lst = Done lst' →
    lst ⊆ lst' ∧ arg ∈ lst' ∧ ∀ n, n ∈ lst' → n ∈ lst ∨ servers g n ⊆ lst'.
  Proof.
    revert arg lst lst'. induction fuel as [| fuel IH]; intros arg lst lst' Hrun;
      [done |].
    simpl in Hrun. apply forEach_treeNodeServerList in Hrun as (Hsub & Hes & Hcl).
    - split; [set_solver |]. split; [set_solver |].
      intros n Hn. destruct (Hcl n Hn) as [[Hin | ->%list_elem_of_singleton]%elem_of_app | ?];
        [by left | | by right].
      right. intros s Hs. unfold servers in Hs.
      apply list_elem_of_fmap in Hs as (e & -> & He). by apply Hes.
    - intros e l l' _ H. by apply IH.
  Qed.

Lemma foldl_push_back node (m : gmap DataKey (list DataKey)) l0 post :
    m !! node = Some l0 →
    foldl (λ m server, push_back node server m) m post = <[node := l0 ++ post]> m.
  Proof.
    revert m l0. induction post as [| x post IH]; intros m l0 Hl0; simpl.
    - rewrite app_nil_r. by rewrite insert_id.
    - rewrite (IH _ (l0 ++ [x])).
      + unfold push_back. rewrite insert_insert_eq, <- app_assoc. done.
      + unfold push_back. by rewrite lookup_insert_eq, Hl0.
  Qed.

Lemma collectServers_step seen m node :
    collected g seen m →
    collected g (seen ++ [node])
      (foldl (λ m server, push_back node server m) (touch node m) (servers g node)).
  Proof.
    intros [Hkeys Hlists].
    assert (∃ l0, touch node m !! node = Some l0 ∧
                  (∀ s, s ∈ l0 → s ∈ servers g node) ∧
                  ∀ n, n ≠ node → touch node m !! n = m !! n) as (l0 & Hl0 & Hsub & Hne).
    { unfold touch. destruct (m !! node) as [l0 |] eqn:Hn.
      - exists l0. split; [done |]. split; [| done]. intros s. by apply Hlists.
      - exists []. rewrite lookup_insert_eq. split; [done |].
        split; [by intros ? ?%elem_of_nil |]. intros n ?. by rewrite lookup_insert_ne. }
    rewrite (foldl_push_back _ _ l0) by done. split.
    - intros n. rewrite elem_of_app, list_elem_of_singleton, <- Hkeys.
      destruct (decide (n = node)) as [-> | Hn].
      + rewrite lookup_insert_eq. split; eauto.
      + rewrite lookup_insert_ne, Hne by done. tauto.
    - intros n l. destruct (decide (n = node)) as [-> | Hn].
      + rewrite lookup_insert_eq. intros [= <-] s. rewrite elem_of_app.
        split; [intros [? | ?]; auto | by right].
      + rewrite lookup_insert_ne, Hne by done. apply Hlists.
  Qed.

Lemma collectServers_collected nodesSet :
    collected g nodesSet (collectServers g nodesSet).
  Proof.
    unfold collectServers.
    cut (∀ seen m, collected g seen m →
           collected g (seen ++ nodesSet)
             (foldl (λ m node, foldl (λ m server, push_back node server m)
                                 (touch node m) (servers g node)) m nodesSet)).
    { intros H. apply (H [] ∅). split.
      - intros n. rewrite lookup_empty, elem_of_nil. split; [by intros [? ?] | done].
      - intros n l. by rewrite lookup_empty. }
    induction nodesSet as [| node l IH]; intros seen m Hc; simpl.
    - by rewrite app_nil_r.
    - replace (seen ++ node :: l) with ((seen ++ [node]) ++ l)
        by (by rewrite <- app_assoc).
      apply IH. by apply collectServers_step.
  Qed.

  (** The constructor records, for exactly the nodes reached from the top
      node, exactly their servers. *)
Lemma GraphChecker_new_snapshot fuel topNode checker :
    GraphChecker_new fuel g topNode = Done checker →
    _results checker = ∅ ∧
    is_Some (_serverLists checker !! topNode) ∧
    (∀ n l, _serverLists checker !! n = Some l → ∀ s, s ∈ l ↔ s ∈ servers g n) ∧
    closed (_serverLists checker).
  Proof.
    unfold GraphChecker_new. intros (nodes & Hnodes & [= <-])%bind_Done. simpl.
    apply treeNodeServerList_closed in Hnodes as (_ & Htop & Hcl).
    destruct (RooArgSet_of_spec nodes) as [_ Hset].
    destruct (collectServers_collected (RooArgSet_of nodes)) as [Hkeys Hlists].
    assert (∀ n l, (sortUnique <$>
                      collectServers g (RooArgSet_of nodes)) !! n = Some l →
                   n ∈ nodes ∧ ∀ s, s ∈ l ↔ s ∈ servers g n) as Hl.
    { intros n l. rewrite lookup_fmap. intros (l0 & Hl0 & ->)%fmap_Some.
      split; [apply Hset, Hkeys; eauto |].
      intros s. rewrite elem_of_sortUnique. by eapply Hlists. }
    split; [done |]. split; [| split].
    - rewrite lookup_fmap. apply fmap_is_Some, Hkeys, Hset, Htop.
    - intros n l Hn. by apply Hl.
    - intros a l b Ha Hb. apply Hl in Ha as [Ha Hs].
      rewrite lookup_fmap. apply fmap_is_Some, Hkeys, Hset.
      destruct (Hcl a Ha) as [?%elem_of_nil | Hsub]; [done |]. apply Hsub. by apply Hs.
  Qed.
End snapshot.

(** ** Nodes under the primitive updates *)

Lemma edges_argAt (g : Graph) n : edges g n = serverList (argAt g n).
Proof. unfold edges, argAt. by destruct (g !! n). Qed.

Lemma argAt_alter_field {B} (proj : RooAbsArg → B) f i (g : Graph) j :
  (∀ a, proj (f a) = proj a) →
  proj (argAt (alter f i g) j) = proj (argAt g j).
Proof.
  intros Hf. unfold argAt. rewrite lookup_alter. case_decide; [| done].
  subst. destruct (g !! j); simpl; [apply Hf | done].
Qed.

Lemma argAt_insert_ne (g : Graph) i a j : i ≠ j → argAt (<[i := a]> g) j = argAt g j.
Proof. intros. unfold argAt. by rewrite lookup_insert_ne. Qed.

Lemma argAt_insert_eq (g : Graph) i a : argAt (<[i := a]> g) i = a.
Proof. unfold argAt. by rewrite lookup_insert_eq. Qed.

Lemma argAt_lookup (g : Graph) n a : g !! n = Some a → argAt g n = a.
Proof. unfold argAt. by intros ->. Qed.

Lemma isPdf_in_graph (g : Graph) n :
  isPdf (kind (argAt g n)) = true → is_Some (g !! n).
Proof. unfold argAt. destruct (g !! n); [eauto | done]. Qed.

Lemma edges_alter f i (g : Graph) j :
  (∀ a, serverList (f a) = serverList a) → edges (alter f i g) j = edges g j.
Proof. intros. rewrite !edges_argAt. by apply (argAt_alter_field serverList). Qed.

Lemma edges_setAttribute a n v (g : Graph) j :
  edges (setAttribute a n v g) j = edges g j.
Proof. by apply edges_alter. Qed.

Lemma edges_getVal p s (g : Graph) j : edges (getVal p s g) j = edges g j.
Proof. by apply edges_alter. Qed.

Lemma servers_setAttribute a n v (g : Graph) j :
  servers (setAttribute a n v g) j = servers g j.
Proof. unfold servers. by rewrite edges_setAttribute. Qed.

Lemma elem_of_clients (g : Graph) n c :
  c ∈ clients g n ↔ is_Some (g !! c) ∧ n ∈ servers g c.
Proof.
  unfold clients. rewrite list_elem_of_filter, list_elem_of_fmap. split.
  - intros (Hn & [c' a] & -> & Hin). apply elem_of_map_to_list in Hin. eauto.
  - intros ([a Ha] & Hn). split; [done |]. exists (c, a).
    split; [done |]. by apply elem_of_map_to_list.
Qed.

Lemma NoDup_clients (g : Graph) n : NoDup (clients g n).
Proof. apply NoDup_filter, NoDup_fst_map_to_list. Qed.

(** ** Redirection of one client *)

Lemma findNewServer_singleton (g : Graph) new old s :
  attributes (argAt g new) = {[old]} →
  default s (findNewServer g [new] s) = if bool_decide (s = old) then new else s.
Proof.
  intros Hattr. unfold findNewServer. rewrite filter_cons, filter_nil.
  rewrite Hattr. case_bool_decide as Hs.
  - subst. rewrite decide_True by set_solver. done.
  - rewrite decide_False by set_solver. done.
Qed.

Lemma redirectServers_singleton (g : Graph) client new old :
  attributes (argAt g new) = {[old]} →
  redirectServers g client [new] =
  alter (λ a, set_serverList (substServer old new (serverList a)) a) client g.
Proof.
  intros Hattr. unfold redirectServers, substServer.
  apply map_eq. intros j. rewrite !lookup_alter. case_decide; [| done].
  destruct (g !! client) as [a |]; [| done]. simpl. do 2 f_equal.
  apply map_ext. intros [s v]. simpl. by rewrite (findNewServer_singleton g new old).
Qed.

Lemma lookup_redirected l old new (g : Graph) n :
  redirected l old new g !! n =
  (λ a, if bool_decide (n ∈ l) && negb (isCachedPdf (kind a))
        then set_serverList (substServer old new (serverList a)) a else a)
    <$> g !! n.
Proof. unfold redirected. rewrite map_lookup_imap. by destruct (g !! n). Qed.

Lemma redirectStep_field {B} (proj : RooAbsArg → B) new (g : Graph) c n :
  (∀ l a, proj (set_serverList l a) = proj a) →
  proj (argAt (redirectStep new g c) n) = proj (argAt g n).
Proof.
  intros Hp. unfold redirectStep. destruct (isCachedPdf _); [done |].
  unfold redirectServers. apply (argAt_alter_field proj). intros a. apply Hp.
Qed.

Lemma redirectLoop_field {B} (proj : RooAbsArg → B) new l (g : Graph) n :
  (∀ l a, proj (set_serverList l a) = proj a) →
  proj (argAt (foldl (redirectStep new) g l) n) = proj (argAt g n).
Proof.
  intros Hp. revert g. induction l as [| c l IH]; intros g; simpl; [done |].
  rewrite IH. by apply redirectStep_field.
Qed.

Lemma redirectStep_dom new (g : Graph) c : dom (redirectStep new g c) = dom g.
Proof.
  unfold redirectStep. destruct (isCachedPdf _); [done |].
  unfold redirectServers. by rewrite dom_alter_L.
Qed.

Lemma redirectLoop_dom new l (g : Graph) : dom (foldl (redirectStep new) g l) = dom g.
Proof.
  revert g. induction l as [| c l IH]; intros g; simpl; [done |].
  by rewrite IH, redirectStep_dom.
Qed.

(** The loop over [originalClients] in closed form. *)
Lemma redirectLoop_redirected new old l (g : Graph) :
  attributes (argAt g new) = {[old]} → NoDup l →
  foldl (redirectStep new) g l = redirected l old new g.
Proof.
  revert g. induction l as [| c l IH]; intros g Hattr Hnd; simpl.
  - apply map_eq. intros n. rewrite lookup_redirected.
    destruct (g !! n) as [a |]; [| done]. cbn [fmap option_fmap option_map].
    rewrite (bool_decide_eq_false_2 (n ∈ [])); [done | apply not_elem_of_nil].
  - apply NoDup_cons in Hnd as [Hc Hnd].
    rewrite IH; [| by rewrite (redirectStep_field attributes) | done].
    apply map_eq. intros n. rewrite !lookup_redirected.
    unfold redirectStep.
    destruct (decide (n = c)) as [-> | Hn].
    + rewrite (bool_decide_eq_false_2 (c ∈ l)) by done.
      rewrite (bool_decide_eq_true_2 (c ∈ c :: l)) by left.
      destruct (g !! c) as [a |] eqn:Ha.
      * rewrite (argAt_lookup g c a Ha).
        destruct (isCachedPdf (kind a)) eqn:Hk.
        -- rewrite Ha. simpl. by rewrite Hk.
        -- rewrite (redirectServers_singleton g c new old) by done.
           rewrite lookup_alter_eq, Ha. simpl. by rewrite Hk.
      * assert (argAt g c = nullArg) as -> by (unfold argAt; by rewrite Ha).
        simpl. rewrite (redirectServers_singleton g c new old) by done.
        by rewrite lookup_alter_eq, Ha.
    + assert (bool_decide (n ∈ c :: l) = bool_decide (n ∈ l)) as ->.
      { apply bool_decide_ext. rewrite elem_of_cons. naive_solver. }
      destruct (isCachedPdf (kind (argAt g c))); [done |].
      rewrite (redirectServers_singleton g c new old) by done.
      by rewrite lookup_alter_ne.
Qed.

(** ** [replaceArg] *)

Lemma replaceArg_graph nodes newArg oldArg st :
  graph (replaceArg nodes newArg oldArg st) =
  let g := setAttribute newArg oldArg true (graph st) in
  setAttribute newArg oldArg false
    (foldl (redirectStep newArg) g
           (filter (λ client, client ∈ nodes) (clients g oldArg))).
Proof. done. Qed.

Lemma replaceArg_field {B} (proj : RooAbsArg → B) nodes newArg oldArg st n :
  (∀ l a, proj (set_serverList l a) = proj a) →
  (∀ s a, proj (set_attributes s a) = proj a) →
  proj (argAt (graph (replaceArg nodes newArg oldArg st)) n) =
  proj (argAt (graph st) n).
Proof.
  intros Hs Ha. rewrite replaceArg_graph. simpl. unfold setAttribute.
  rewrite (argAt_alter_field proj) by (intros; apply Ha).
  rewrite redirectLoop_field by done.
  by rewrite (argAt_alter_field proj) by (intros; apply Ha).
Qed.

Lemma replaceArg_dom nodes newArg oldArg st :
  dom (graph (replaceArg nodes newArg oldArg st)) = dom (graph st).
Proof.
  rewrite replaceArg_graph. simpl. unfold setAttribute.
  by rewrite dom_alter_L, redirectLoop_dom, dom_alter_L.
Qed.

Lemma clients_setAttribute a k v (g : Graph) n :
  clients (setAttribute a k v g) n ≡ₚ clients g n.
Proof.
  apply NoDup_Permutation; [apply NoDup_clients .. |].
  intros c. rewrite !elem_of_clients, servers_setAttribute.
  unfold setAttribute. rewrite <- !elem_of_dom, dom_alter_L. done.
Qed.

Lemma attributes_setAttribute_true (g : Graph) a k :
  is_Some (g !! a) →
  attributes (argAt (setAttribute a k true g) a) = {[k]} ∪ attributes (argAt g a).
Proof.
  intros [x Hx]. unfold argAt, setAttribute. by rewrite lookup_alter_eq, Hx.
Qed.

(** The edges of every node after [replaceArg]. *)
Lemma replaceArg_edges nodes newArg oldArg st n :
  is_Some (graph st !! newArg) → attributes (argAt (graph st) newArg) = ∅ →
  edges (graph (replaceArg nodes newArg oldArg st)) n =
  if bool_decide (n ∈ nodes ∧ n ∈ clients (graph st) oldArg)
     && negb (isCachedPdf (kind (argAt (graph st) n)))
  then substServer oldArg newArg (edges (graph st) n)
  else edges (graph st) n.
Proof.
  intros Hnew Hattr. rewrite replaceArg_graph. simpl.
  rewrite edges_setAttribute.
  rewrite (redirectLoop_redirected newArg oldArg).
  - rewrite !edges_argAt. unfold argAt at 1. rewrite lookup_redirected.
    assert (setAttribute newArg oldArg true (graph st) !! n =
            (λ a, set_attributes
                    (if decide (newArg = n) then {[oldArg]} ∪ attributes a
                     else attributes a) a) <$> graph st !! n) as ->.
    { unfold setAttribute. rewrite lookup_alter. case_decide; [subst |].
      - by destruct (graph st !! n).
      - destruct (graph st !! n) as [[]|]; done. }
    unfold argAt. destruct (graph st !! n) as [a |] eqn:Ha; simpl.
    + assert (bool_decide (n ∈ filter (λ client, client ∈ nodes)
                (clients (setAttribute newArg oldArg true (graph st)) oldArg)) =
              bool_decide (n ∈ nodes ∧ n ∈ clients (graph st) oldArg)) as ->.
      { apply bool_decide_ext. rewrite list_elem_of_filter.
        by rewrite clients_setAttribute. }
      destruct (bool_decide _ && _); done.
    + by destruct (bool_decide _ && _).
  - rewrite attributes_setAttribute_true, Hattr by done. set_solver.
  - apply NoDup_filter, NoDup_clients.
Qed.

(** ** One step of the rewrite loop *)

Lemma RooNormalizedPdf_new_fresh (g : Graph) p s :
  g !! (RooNormalizedPdf_new g p s).1 = None.
Proof. simpl. apply not_elem_of_dom, is_fresh. Qed.

Lemma evaluated_getVal_eq (g : Graph) p s :
  is_Some (g !! p) →
  evaluated (argAt (getVal p s g) p) = evaluated (argAt g p) ++ [s].
Proof. intros [a Ha]. unfold argAt, getVal. by rewrite lookup_alter_eq, Ha. Qed.

Lemma evaluated_getVal_ne (g : Graph) p s n :
  n ≠ p → evaluated (argAt (getVal p s g) n) = evaluated (argAt g n).
Proof. intros. unfold argAt, getVal. by rewrite lookup_alter_ne. Qed.

Lemma wrapNode_skip nodes normSets st node currNormSet :
  isPdf (kind (argAt (graph st) node)) = true →
  normSets !! node = Some currNormSet → currNormSet ≠ [] →
  selfNormalized (argAt (graph st) node)
    && negb (isCachedPdf (kind (argAt (graph st) node))) = true →
  wrapNode nodes normSets st node =
  Done (mkRewrite (getVal node currNormSet (graph st))
                  (replacedArgs st) (newArgs st) (newNodes st)).
Proof.
  intros Hpdf Hset Hne Hskip. unfold wrapNode. rewrite Hpdf, Hset.
  rewrite bool_decide_eq_false_2 by done. cbn [graph].
  unfold getVal at 1 2.
  rewrite (argAt_alter_field selfNormalized) by done.
  rewrite (argAt_alter_field kind) by done.
  by rewrite Hskip.
Qed.

Lemma wrapNode_wrap nodes normSets st node currNormSet :
  isPdf (kind (argAt (graph st) node)) = true →
  normSets !! node = Some currNormSet → currNormSet ≠ [] →
  selfNormalized (argAt (graph st) node)
    && negb (isCachedPdf (kind (argAt (graph st) node))) = false →
  wrapNode nodes normSets st node =
  let g := getVal node currNormSet (graph st) in
  let w := RooNormalizedPdf_new g node currNormSet in
  let st' := replaceArg nodes w.1 node
               (mkRewrite w.2 (replacedArgs st) (newArgs st) (newNodes st)) in
  Done (mkRewrite (graph st') (replacedArgs st') (newArgs st')
                  (newNodes st ++ [w.1])).
Proof.
  intros Hpdf Hset Hne Hskip. unfold wrapNode. rewrite Hpdf, Hset.
  rewrite bool_decide_eq_false_2 by done. cbn [graph].
  unfold getVal at 1 2.
  rewrite (argAt_alter_field selfNormalized) by done.
  rewrite (argAt_alter_field kind) by done.
  by rewrite Hskip.
Qed.

(** ** The empty normalization set *)

(** C3 (no-op on the empty set).  With an empty normalization set
    [unfoldIntegrals] returns at once, for any recursion budget, and leaves
    the table, the graph and the ledger as they are.  The constructor then
    only creates the aggregator over the top node: no wrapper is created,
    nothing is recorded in the ledger, every node of the graph stays as it
    was and the effective root is the top node itself.  The body of the
    destructor returns without touching the graph. *)
Theorem empty_normSet_is_noop (fuel : nat) (g : Graph) (topNode : DataKey) :
  (∀ normSets st,
     unfoldIntegrals fuel topNode [] normSets st = Done (normSets, st)) ∧
  ∃ this,
    NormalizationIntegralUnfolder_new fuel g topNode [] =
      Done (this, (RooAddition_new g topNode).2) ∧
    _normSetWasEmpty this = true ∧
    _ownedComponents this = [] ∧ _replacedArgs this = [] ∧
    _newArgs this = [] ∧ _normSets this = ∅ ∧ _arg this = topNode ∧
    (∀ n, is_Some (g !! n) → (RooAddition_new g topNode).2 !! n = g !! n) ∧
    ∀ fuel' g', NormalizationIntegralUnfolder_dtor fuel' this g' = Done (this, g').
Proof.
  split; [done |].
  eexists. split; [reflexivity |]. simpl.
  split_and!; try done.
  - unfold servers, edges. by rewrite lookup_insert_eq.
  - intros n Hn. rewrite lookup_insert_ne; [done |].
    intros <-. apply elem_of_dom in Hn. by apply is_fresh in Hn.
Qed.

(** C3 at the sum of two pdfs. *)
Lemma empty_normSet_is_noop_witness :
  (∀ normSets st,
     unfoldIntegrals 0 5 [] normSets st = Done (normSets, st)) ∧
  ∃ this,
    NormalizationIntegralUnfolder_new 0 sumGraph 5 [] =
      Done (this, (RooAddition_new sumGraph 5).2) ∧
    _normSetWasEmpty this = true ∧
    _ownedComponents this = [] ∧ _replacedArgs this = [] ∧
    _newArgs this = [] ∧ _normSets this = ∅ ∧ _arg this = 5 ∧
    (∀ n, is_Some (sumGraph !! n) →
          (RooAddition_new sumGraph 5).2 !! n = sumGraph !! n) ∧
    ∀ fuel' g', NormalizationIntegralUnfolder_dtor fuel' this g' = Done (this, g').
Proof. exact (empty_normSet_is_noop 0 sumGraph 5). Defined.

(** ** Self-normalized pdfs *)

(** C6 (idempotent wrapping).  For a pdf with a non-empty normalization
    set that is self-normalized and not a cached pdf, the loop body creates
    no node, appends nothing to the ledger or to the new nodes, and leaves
    the server list of every node, hence every client edge, as it was. *)
Theorem selfNormalized_pdf_not_wrapped nodes normSets st node currNormSet :
  isPdf (kind (argAt (graph st) node)) = true →
  normSets !! node = Some currNormSet → currNormSet ≠ [] →
  selfNormalized (argAt (graph st) node) = true →
  isCachedPdf (kind (argAt (graph st) node)) = false →
  ∃ st', wrapNode nodes normSets st node = Done st' ∧
         newNodes st' = newNodes st ∧
         dom (graph st') = dom (graph st) ∧
         replacedArgs st' = replacedArgs st ∧
         newArgs st' = newArgs st ∧
         ∀ n, edges (graph st') n = edges (graph st) n.
Proof.
  intros Hpdf Hset Hne Hself Hcached.
  eexists. split.
  { apply wrapNode_skip; [done .. |]. by rewrite Hself, Hcached. }
  simpl. split_and!; try done.
  - unfold getVal. by rewrite dom_alter_L.
  - intros n. apply edges_getVal.
Qed.

(** C6 at the self-normalized pdf 2 of [selfNormalizedGraph]. *)
Lemma selfNormalized_pdf_not_wrapped_witness :
  ∃ st', wrapNode [3; 2; 1] {[2 := [1]]} (mkRewrite selfNormalizedGraph [] [] []) 2
           = Done st' ∧
         newNodes st' = [] ∧
         dom (graph st') = dom selfNormalizedGraph ∧
         replacedArgs st' = [] ∧
         newArgs st' = [] ∧
         ∀ n, edges (graph st') n = edges selfNormalizedGraph n.
Proof.
  apply (selfNormalized_pdf_not_wrapped [3; 2; 1] {[2 := [1]]}
           (mkRewrite selfNormalizedGraph [] [] []) 2 [1]);
    [reflexivity | reflexivity | discriminate | reflexivity | reflexivity].
Defined.

(** ** Clients of a wrapped pdf *)

(** C7 (client scoping).  When [replaceArg] installs the wrapper [newArg]
    for [oldArg], a client of [oldArg] that lies in the visited set [nodes]
    and is not a cached pdf has [oldArg] replaced by [newArg] in its server
    list; a client outside [nodes], and a cached pdf, keeps its server list
    unchanged, and so does every node that is not a client of [oldArg]. *)
Theorem replaceArg_client_scoping nodes newArg oldArg st :
  is_Some (graph st !! newArg) →
  attributes (argAt (graph st) newArg) = ∅ →
  (∀ client, client ∈ clients (graph st) oldArg →
     (client ∈ nodes → isCachedPdf (kind (argAt (graph st) client)) = false →
      edges (graph (replaceArg nodes newArg oldArg st)) client =
      substServer oldArg newArg (edges (graph st) client)) ∧
     (client ∉ nodes ∨ isCachedPdf (kind (argAt (graph st) client)) = true →
      edges (graph (replaceArg nodes newArg oldArg st)) client =
      edges (graph st) client)) ∧
  (∀ n, n ∉ clients (graph st) oldArg →
        edges (graph (replaceArg nodes newArg oldArg st)) n = edges (graph st) n).
Proof.
  intros Hnew Hattr. split.
  - intros client Hclient. rewrite replaceArg_edges by done. split.
    + intros Hin Hk. rewrite Hk. by rewrite bool_decide_eq_true_2.
    + intros [Hout | Hk].
      * rewrite bool_decide_eq_false_2; [done | tauto].
      * rewrite Hk. by rewrite andb_false_r.
  - intros n Hn. rewrite replaceArg_edges by done.
    rewrite bool_decide_eq_false_2; [done | tauto].
Qed.

(** ** Evaluation under the normalization set *)

(** C8, amended (cache materialization).  [getVal] is called for every
    pdf of the visited set whose normalization set is not empty, before
    the self-normalized test: the set is appended to what the pdf has been
    evaluated with whether or not the pdf then receives a wrapper, and no
    other node is evaluated.  A node that is not a pdf, or whose set is
    empty, is left alone. *)
Theorem getVal_for_every_pdf_with_normSet nodes normSets st node :
  (∀ currNormSet,
     isPdf (kind (argAt (graph st) node)) = true →
     normSets !! node = Some currNormSet → currNormSet ≠ [] →
     ∃ st', wrapNode nodes normSets st node = Done st' ∧
            evaluated (argAt (graph st') node) =
              evaluated (argAt (graph st) node) ++ [currNormSet] ∧
            ∀ n, n ≠ node →
                 evaluated (argAt (graph st') n) = evaluated (argAt (graph st) n)) ∧
  (isPdf (kind (argAt (graph st) node)) = false ∨ normSets !! node = Some [] →
   wrapNode nodes normSets st node = Done st).
Proof.
  split.
  - intros S Hpdf Hset Hne.
    pose proof (isPdf_in_graph _ _ Hpdf) as Hin.
    destruct (selfNormalized (argAt (graph st) node)
              && negb (isCachedPdf (kind (argAt (graph st) node)))) eqn:Hskip.
    + eexists. split; [by apply wrapNode_skip |]. simpl. split.
      * by apply evaluated_getVal_eq.
      * intros n Hn. by apply evaluated_getVal_ne.
    + eexists. split; [by apply wrapNode_wrap |]. cbn [graph].
      assert (∀ n,
        evaluated (argAt (graph (replaceArg nodes
          (RooNormalizedPdf_new (getVal node S (graph st)) node S).1 node
          (mkRewrite (RooNormalizedPdf_new (getVal node S (graph st)) node S).2
             (replacedArgs st) (newArgs st) (newNodes st)))) n) =
        evaluated (argAt (getVal node S (graph st)) n)) as Hev.
      { intros n. rewrite (replaceArg_field evaluated) by done. cbn [graph].
        pose proof (RooNormalizedPdf_new_fresh (getVal node S (graph st)) node S) as Hf.
        simpl in *. destruct (decide (fresh (dom (getVal node S (graph st))) = n))
          as [<- | Hn].
        - rewrite argAt_insert_eq. unfold argAt. by rewrite Hf.
        - by rewrite argAt_insert_ne. }
      split.
      * rewrite Hev. by apply evaluated_getVal_eq.
      * intros n Hn. rewrite Hev. by apply evaluated_getVal_ne.
  - intros [Hpdf | Hset]; unfold wrapNode.
    + by rewrite Hpdf.
    + rewrite Hset. by destruct (isPdf _).
Qed.

(** C8, amended, at the self-normalized pdf 2 of [selfNormalizedGraph]. *)
Lemma getVal_for_every_pdf_with_normSet_witness :
  ∃ st', wrapNode [3; 2; 1] {[2 := [1]]} (mkRewrite selfNormalizedGraph [] [] []) 2
           = Done st' ∧
         evaluated (argAt (graph st') 2) = [] ++ [[1]] ∧
         ∀ n, n ≠ 2 → evaluated (argAt (graph st') n) =
                      evaluated (argAt selfNormalizedGraph n).
Proof.
  apply (proj1 (getVal_for_every_pdf_with_normSet [3; 2; 1] {[2 := [1]]}
                  (mkRewrite selfNormalizedGraph [] [] []) 2) [1]);
    [reflexivity | reflexivity | discriminate].
Defined.

(** C8 as stated fails: the self-normalized pdf 2 of
    [selfNormalizedGraph] receives no wrapper and is evaluated under its
    normalization set all the same. *)
Lemma getVal_reaches_skipped_pdf :
  ¬ (∀ nodes normSets st node currNormSet st',
       isPdf (kind (argAt (graph st) node)) = true →
       normSets !! node = Some currNormSet → currNormSet ≠ [] →
       wrapNode nodes normSets st node = Done st' →
       (currNormSet ∈ evaluated (argAt (graph st') node) ↔
        newNodes st' ≠ newNodes st)).
Proof.
  intros H.
  specialize (H [3; 2; 1] {[2 := [1]]} (mkRewrite selfNormalizedGraph [] [] []) 2 [1]
                _ eq_refl eq_refl ltac:(discriminate) eq_refl).
  apply H; [| done]. vm_compute. left.
Qed.

(** ** Loops *)

Lemma forEach_Done_invariant {A S} (P : S → Prop) (body : S → A → outcome S) l s s' :
  (∀ s x s', x ∈ l → P s → body s x = Done s' → P s') →
  P s → forEach body l s = Done s' → P s'.
Proof.
  revert s. induction l as [| x l IH]; intros s Hbody Hs Hrun; simpl in Hrun.
  - by injection Hrun as <-.
  - apply bind_Done in Hrun as (s1 & H1 & Hrun).
    eapply IH; [| | done].
    + intros ? ? ? ?. apply Hbody. by right.
    + eapply Hbody; [by left | done | done].
Qed.

Lemma forEach_Throw_inv {A S} (P : S → Prop) (body : S → A → outcome S) l s e :
  (∀ s x s', x ∈ l → P s → body s x = Done s' → P s') →
  P s → forEach body l s = Throw e →
  ∃ s1 x, x ∈ l ∧ P s1 ∧ body s1 x = Throw e.
Proof.
  revert s. induction l as [| x l IH]; intros s Hbody Hs Hrun; simpl in Hrun; [done |].
  apply bind_Throw in Hrun as [H1 | (s1 & H1 & Hrun)].
  - exists s, x. split; [by left | done].
  - destruct (IH s1) as (s2 & y & Hy & Hs2 & Hthrow); [| | done |].
    + intros ? ? ? ?. apply Hbody. by right.
    + eapply Hbody; [by left | done | done].
    + exists s2, y. split; [by right | done].
Qed.

(** ** Visits of the propagation *)

Section propagation.
Context (g : Graph).

Lemma visitServer_entered_once rec arg normSet st e st' :
    (∀ server s st st', entered_once g st → rec server s st = Done st' → entered_once g st') →
    entered_once g st → visitServer rec g arg normSet st e = Done st' →
    entered_once g st'.
  Proof.
    intros Hrec Hst. unfold visitServer. destruct (negb e.2); [by intros [= <-] |].
    destruct (w_normSets st !! e.1); [| by apply Hrec].
    destruct (_ || _); [done | by intros [= <-]].
  Qed.

Lemma treeNodeServerListAndNormSets_entered_once fuel arg normSet st st' :
    entered_once g st →
    treeNodeServerListAndNormSets fuel g arg normSet st = Done st' →
    entered_once g st'.
  Proof.
    revert arg normSet st st'.
    induction fuel as [| fuel IH]; intros arg normSet st st' Hst; [done |].
    simpl. destruct (w_normSets st !! arg) eqn:Harg; [by intros [= <-] |].
    set (st1 := mkWalk _ _ _).
    assert (entered_once g st1) as Hst1.
    { destruct Hst as [Hnd Hrec]. split; simpl.
      - rewrite filter_app. apply NoDup_app. split_and!; [done | |].
        + intros n [Hpdf Hn]%list_elem_of_filter Hn'.
          apply list_elem_of_filter in Hn' as [_ ->%list_elem_of_singleton].
          destruct (Hrec _ Hn Hpdf) as [? ?]. congruence.
        + apply NoDup_filter, NoDup_singleton.
      - intros n [Hn | ->%list_elem_of_singleton]%elem_of_app Hpdf.
        + destruct (Hrec _ Hn Hpdf) as [s Hs]. unfold isPdfNode in Hpdf.
          destruct (isPdf (kind (argAt g arg))); [| eauto].
          destruct (decide (arg = n)) as [-> | ?]; [congruence |].
          rewrite lookup_insert_ne by done. eauto.
        + unfold isPdfNode in Hpdf. rewrite Hpdf, lookup_insert_eq. eauto. }
    destruct (_ && _); [| by intros [= <-]].
    apply forEach_Done_invariant; [| done].
    intros s x s' _. apply visitServer_entered_once. intros ? ? ? ?. apply IH.
  Qed.

  (** ** Conflicts *)

Lemma visitServer_conflict rec arg normSet st server found :
    w_normSets st !! server = Some found →
    (length found ≠ length (serverNormSetFor g arg normSet server) ∨
     found ≠ serverNormSetFor g arg normSet server) →
    visitServer rec g arg normSet st (server, true) =
    Throw (runtime_error
             (conflictMessage server (serverNormSetFor g arg normSet server)
                              arg found)).
  Proof.
    intros Hfound Hdiff. unfold visitServer. simpl. rewrite Hfound.
    assert (negb (length found =? length (serverNormSetFor g arg normSet server))
            || negb (hasSameLayout (serverNormSetFor g arg normSet server) found)
            = true) as ->; [| done].
    destruct Hdiff as [Hlen | Hne].
    - apply orb_true_intro. left. apply negb_true_iff, Nat.eqb_neq, Hlen.
    - apply orb_true_intro. right. apply negb_true_iff.
      unfold hasSameLayout. by apply bool_decide_eq_false_2.
  Qed.

Lemma Sorted_serverNormSetFor arg normSet server :
    Sorted Nat.le normSet → Sorted Nat.le (serverNormSetFor g arg normSet server).
  Proof.
    intros Hs. unfold serverNormSetFor.
    destruct (fillNormSetForServer _ _ _); simpl; [| done].
    apply Sorted_merge_sort, _.
  Qed.

Lemma visitServer_canonical rec arg normSet st e st' :
    (∀ server s st st', Sorted Nat.le s → canonical (w_normSets st) →
       rec server s st = Done st' → canonical (w_normSets st')) →
    Sorted Nat.le normSet → canonical (w_normSets st) →
    visitServer rec g arg normSet st e = Done st' →
    canonical (w_normSets st').
  Proof.
    intros Hrec Hs Hst. unfold visitServer. destruct (negb e.2); [by intros [= <-] |].
    destruct (w_normSets st !! e.1).
    - destruct (_ || _); [done | by intros [= <-]].
    - apply Hrec; [by apply Sorted_serverNormSetFor | done].
  Qed.

Lemma treeNodeServerListAndNormSets_canonical fuel arg normSet st st' :
    Sorted Nat.le normSet → canonical (w_normSets st) →
    treeNodeServerListAndNormSets fuel g arg normSet st = Done st' →
    canonical (w_normSets st').
  Proof.
    revert arg normSet st st'.
    induction fuel as [| fuel IH]; intros arg normSet st st' Hs Hst; [done |].
    simpl. destruct (w_normSets st !! arg) eqn:Harg; [by intros [= <-] |].
    set (st1 := mkWalk _ _ _).
    assert (canonical (w_normSets st1)) as Hst1.
    { simpl. destruct (isPdf _); [| done]. intros n s.
      destruct (decide (arg = n)) as [-> | ?].
      - rewrite lookup_insert_eq. by intros [= <-].
      - rewrite lookup_insert_ne by done. apply Hst. }
    destruct (_ && _); [| by intros [= <-]].
    apply (forEach_Done_invariant (λ st, canonical (w_normSets st))); [| done].
    intros s x s' _. apply visitServer_canonical; [| done].
    intros ? ? ? ?. apply IH.
  Qed.

Lemma visitServer_throws rec arg normSet st e exn_ :
    (∀ server s st, Sorted Nat.le s → canonical (w_normSets st) →
       rec server s st = Throw exn_ → conflict_report g exn_) →
    Sorted Nat.le normSet → canonical (w_normSets st) → e ∈ edges g arg →
    visitServer rec g arg normSet st e = Throw exn_ →
    conflict_report g exn_.
  Proof.
    intros Hrec Hs Hst Hin. unfold visitServer. destruct e as [server v]. simpl.
    destruct v; simpl; [| done].
    destruct (w_normSets st !! server) as [found |] eqn:Hfound.
    - destruct (_ || _) eqn:Hdiff; [| done]. intros [= <-].
      exists server, (serverNormSetFor g arg normSet server), arg, found.
      split; [done |]. split; [by apply Sorted_serverNormSetFor |].
      split; [by eapply Hst |]. split; [| done].
      apply orb_true_iff in Hdiff as [Hlen | Hlay].
      + left. by apply Nat.eqb_neq, negb_true_iff.
      + right. apply negb_true_iff in Hlay. unfold hasSameLayout in Hlay.
        apply bool_decide_eq_false_1 in Hlay. congruence.
    - apply Hrec; [by apply Sorted_serverNormSetFor | done].
  Qed.

Lemma treeNodeServerListAndNormSets_throws fuel arg normSet st e :
    Sorted Nat.le normSet → canonical (w_normSets st) →
    treeNodeServerListAndNormSets fuel g arg normSet st = Throw e →
    conflict_report g e.
  Proof.
    revert arg normSet st.
    induction fuel as [| fuel IH]; intros arg normSet st Hs Hst; [done |].
    simpl. destruct (w_normSets st !! arg) eqn:Harg; [done |].
    set (st1 := mkWalk _ _ _).
    assert (canonical (w_normSets st1)) as Hst1.
    { simpl. destruct (isPdf _); [| done]. intros n s.
      destruct (decide (arg = n)) as [-> | ?].
      - rewrite lookup_insert_eq. by intros [= <-].
      - rewrite lookup_insert_ne by done. apply Hst. }
    destruct (_ && _); [| done].
    intros Hrun.
    apply (forEach_Throw_inv (λ st, canonical (w_normSets st))) in Hrun
      as (s1 & x & Hx & Hs1 & Hthrow); [| | done].
    - eapply visitServer_throws; [| done | done | done | done].
      intros ? ? ? ? ?. by apply IH.
    - intros s x s' _. apply visitServer_canonical; [| done].
      intros ? ? ? ? ? ?. by apply treeNodeServerListAndNormSets_canonical.
  Qed.
End propagation.

(** ** Queries of the checker *)

Lemma dependsOn_correct (checker : GraphChecker) (rank : DataKey → nat)
    (fuel : nat) (A B : DataKey) :
  closed (_serverLists checker) → ranked rank (_serverLists checker) →
  sound (_serverLists checker) (_results checker) →
  is_Some (_serverLists checker !! A) → rank A < fuel →
  ∃ t checker',
    dependsOn fuel checker A B = Done (t, checker') ∧
    (t = true ↔ A = B ∨ reachable (_serverLists checker) A B) ∧
    _serverLists checker' = _serverLists checker ∧
    sound (_serverLists checker') (_results checker').
Proof.
  intros Hc Hr Hs HA Hfuel.
  destruct (dependsOn_results_correct (_serverLists checker) rank B Hc Hr
              fuel (_results checker) A Hs HA Hfuel)
    as (t & results' & Hrun & Hs' & Ht).
  exists t, (mkChecker (_serverLists checker) results').
  unfold dependsOn. rewrite Hrun. simpl. split; [done |]. split; [| done].
  rewrite Ht. split; [by right |]. intros [-> | ?]; [apply rtc_refl | done].
Qed.

(** C5 (reachability correctness).  On a closed, acyclic snapshot with a
    sound memo table, [dependsOn A B] returns, for every node [A] of the
    snapshot and every [B], and its answer is true exactly when [A = B] or
    [B] is reached from [A] along server edges; the memo table stays sound.
    On any snapshot, an answer that is returned is the right one.  In
    particular, on the checker built for the diamond 4→{3,2}, 3→1, 2→1,
    [dependsOn 4 1] is true and [dependsOn 1 4] is false. *)
Theorem dependsOn_reachability :
  (∀ (checker : GraphChecker) (rank : DataKey → nat) (fuel : nat) (A B : DataKey),
     closed (_serverLists checker) → ranked rank (_serverLists checker) →
     sound (_serverLists checker) (_results checker) →
     is_Some (_serverLists checker !! A) → rank A < fuel →
     ∃ t checker',
       dependsOn fuel checker A B = Done (t, checker') ∧
       (t = true ↔ A = B ∨ reachable (_serverLists checker) A B) ∧
       _serverLists checker' = _serverLists checker ∧
       sound (_serverLists checker') (_results checker')) ∧
  (∀ (checker : GraphChecker) (fuel : nat) (A B : DataKey) t checker',
     sound (_serverLists checker) (_results checker) →
     dependsOn fuel checker A B = Done (t, checker') →
     (t = true ↔ A = B ∨ reachable (_serverLists checker) A B) ∧
     _serverLists checker' = _serverLists checker ∧
     sound (_serverLists checker') (_results checker')) ∧
  (∃ checker,
     GraphChecker_new 4 diamondGraph 4 = Done checker ∧
     (∃ checker', dependsOn 4 checker 4 1 = Done (true, checker')) ∧
     (∃ checker', dependsOn 4 checker 1 4 = Done (false, checker'))).
Proof.
  split; [apply dependsOn_correct |]. split.
  - intros checker fuel A B t checker' Hs Hrun. unfold dependsOn in Hrun.
    apply bind_Done in Hrun as ([t' results'] & Hrun & [= <- <-]).
    apply dependsOn_results_sound in Hrun as [Hs' Ht]; [| done].
    simpl. split; [| done]. rewrite Ht.
    split; [by right |]. intros [-> | ?]; [apply rtc_refl | done].
  - eexists. split; [vm_compute; reflexivity |].
    split; eexists; vm_compute; reflexivity.
Qed.

Lemma diamondLists_edge a b :
  edge diamondLists a b →
  (a = 4 ∧ (b = 2 ∨ b = 3)) ∨ (a = 3 ∧ b = 1) ∨ (a = 2 ∧ b = 1).
Proof.
  intros (l & Hl & Hb). unfold diamondLists in Hl.
  destruct (decide (a = 4)) as [-> | ?].
  { vm_compute in Hl. injection Hl as <-. set_solver. }
  destruct (decide (a = 3)) as [-> | ?].
  { vm_compute in Hl. injection Hl as <-. set_solver. }
  destruct (decide (a = 2)) as [-> | ?].
  { vm_compute in Hl. injection Hl as <-. set_solver. }
  destruct (decide (a = 1)) as [-> | ?].
  { vm_compute in Hl. injection Hl as <-. set_solver. }
  rewrite !lookup_insert_ne in Hl by done. by rewrite lookup_empty in Hl.
Qed.

(** C5 at the snapshot of the diamond. *)
Lemma dependsOn_reachability_witness :
  ∃ t checker',
    dependsOn 5 (mkChecker diamondLists ∅) 4 1 = Done (t, checker') ∧
    (t = true ↔ 4 = 1 ∨ reachable diamondLists 4 1) ∧
    _serverLists checker' = diamondLists ∧
    sound (_serverLists checker') (_results checker').
Proof.
  apply (proj1 dependsOn_reachability (mkChecker diamondLists ∅) id 5 4 1).
  - intros a l b Hl Hb.
    destruct (diamondLists_edge a b) as [[-> [-> | ->]] | [[-> ->] | [-> ->]]];
      [by exists l | vm_compute; eauto ..].
  - intros a b Hab.
    destruct (diamondLists_edge a b Hab) as [[-> [-> | ->]] | [[-> ->] | [-> ->]]];
      unfold id; lia.
  - apply sound_empty.
  - vm_compute. eauto.
  - unfold id. lia.
Defined.

(** C10 (reachability queries are total over the snapshot).  The server
    lists built by the constructor are closed: every server recorded in a
    list is a key of the map.  Hence a query [dependsOn A B] with [A] a key
    never throws, whatever the memo table and the recursion budget: the
    [out_of_range] branch of [_serverLists.at] is unreachable. *)
Theorem snapshot_lookups_never_fail (fuel : nat) (g : Graph) (topNode : DataKey)
    (checker : GraphChecker) :
  GraphChecker_new fuel g topNode = Done checker →
  closed (_serverLists checker) ∧
  ∀ fuel' results A B e,
    is_Some (_serverLists checker !! A) →
    dependsOn fuel' (mkChecker (_serverLists checker) results) A B ≠ Throw e.
Proof.
  intros Hnew. apply GraphChecker_new_snapshot in Hnew as (_ & _ & _ & Hclosed).
  split; [done |]. intros fuel' results A B e HA. unfold dependsOn. simpl.
  intros [Hthrow | ([t r] & _ & Hthrow)]%bind_Throw; [| done].
  by eapply dependsOn_results_no_throw.
Qed.

(** C10 at the checker of the diamond. *)
Lemma snapshot_lookups_never_fail_witness :
  closed diamondLists ∧
  ∀ fuel' results A B e,
    is_Some (diamondLists !! A) →
    dependsOn fuel' (mkChecker diamondLists results) A B ≠ Throw e.
Proof.
  apply (snapshot_lookups_never_fail 4 diamondGraph 4 (mkChecker diamondLists ∅)).
  vm_compute. reflexivity.
Defined.

(** ** The visited set *)

Lemma visitServer_listed rec g arg normSet st e st' :
  (∀ server s st st', listed st → rec server s st = Done st' → listed st') →
  listed st → visitServer rec g arg normSet st e = Done st' → listed st'.
Proof.
  intros Hrec Hst. unfold visitServer. destruct (negb e.2); [by intros [= <-] |].
  destruct (w_normSets st !! e.1); [| by apply Hrec].
  destruct (_ || _); [done | by intros [= <-]].
Qed.

Lemma treeNodeServerListAndNormSets_listed fuel g arg normSet st st' :
  listed st → treeNodeServerListAndNormSets fuel g arg normSet st = Done st' →
  listed st'.
Proof.
  revert arg normSet st st'.
  induction fuel as [| fuel IH]; intros arg normSet st st' Hst; [done |].
  simpl. destruct (w_normSets st !! arg) eqn:Harg; [by intros [= <-] |].
  set (st1 := mkWalk _ _ _).
  assert (listed st1) as Hst1.
  { destruct Hst as [Hnd Hiff]. split; simpl.
    - by apply NoDup_RooArgSet_add.
    - intros n. rewrite elem_of_RooArgSet_add, elem_of_app, list_elem_of_singleton, Hiff.
      tauto. }
  destruct (_ && _); [| by intros [= <-]].
  apply forEach_Done_invariant; [| done].
  intros s x s' _. apply visitServer_listed. intros ? ? ? ?. apply IH.
Qed.

(** ** Visit counts *)

(** C9 as stated fails: in [sharedFunctionGraph] the function 2, shared
    by the pdfs 4 and 3, and the variable 1 below it are entered twice. *)
Lemma shared_function_entered_twice :
  ¬ (∀ fuel g arg normSet st',
       treeNodeServerListAndNormSets fuel g arg normSet (mkWalk [] ∅ []) = Done st' →
       NoDup (w_entered st')).
Proof.
  intros H.
  specialize (H 4 sharedFunctionGraph 5 [1] sharedFunctionWalk).
  assert (¬ NoDup (w_entered sharedFunctionWalk)) as Hdup.
  { simpl. intros Hnd. apply NoDup_cons in Hnd as [_ Hnd].
    apply NoDup_cons in Hnd as [_ Hnd]. apply NoDup_cons in Hnd as [Hin _].
    apply Hin. set_solver. }
  apply Hdup, H. vm_compute. reflexivity.
Qed.

Lemma sum_list_app (l k : list nat) : sum_list (l ++ k) = sum_list l + sum_list k.
Proof. induction l as [| x l IH]; simpl; [done |]. rewrite IH. lia. Qed.

(** How often a node that is not a pdf is entered: once if the call is
    for it, and once for every step the propagation takes to it from a node
    it enters. *)
Lemma treeNodeServerListAndNormSets_count g n fuel :
  ¬ isPdfNode g n →
  ∀ arg normSet st st',
    (∀ k, is_Some (w_normSets st !! k) → isPdfNode g k) →
    treeNodeServerListAndNormSets fuel g arg normSet st = Done st' →
    (∀ k, is_Some (w_normSets st' !! k) → isPdfNode g k) ∧
    ∃ new, w_entered st' = w_entered st ++ new ∧
           occurrences n new
           = (if bool_decide (n = arg) then 1 else 0)
             + sum_list (map (λ c, followed g c n) new).
Proof.
  intros Hn. induction fuel as [| fuel IH]; intros arg normSet st st' Hkeys; [done |].
  simpl. destruct (w_normSets st !! arg) eqn:Harg.
  { intros [= <-]. split; [done |]. exists []. rewrite app_nil_r.
    split; [done |]. rewrite bool_decide_eq_false_2; [done |].
    intros ->. apply Hn, Hkeys. by rewrite Harg. }
  set (st1 := mkWalk _ _ _).
  assert (∀ k, is_Some (w_normSets st1 !! k) → isPdfNode g k) as Hkeys1.
  { intros k. simpl. destruct (isPdf (kind (argAt g arg))) eqn:Hpdf; [| apply Hkeys].
    destruct (decide (arg = k)) as [<- | Hne]; [done |].
    rewrite lookup_insert_ne by done. apply Hkeys. }
  assert (w_entered st1 = w_entered st ++ [arg]) as Hent1 by done.
  assert (occurrences n [arg] = if bool_decide (n = arg) then 1 else 0) as Hocc.
  { unfold occurrences. rewrite filter_cons, filter_nil.
    destruct (decide (arg = n)) as [-> | Hne].
    - by rewrite bool_decide_eq_true_2.
    - by rewrite bool_decide_eq_false_2 by congruence. }
  clearbody st1.
  assert (followed g arg n
          = if isDerived (argAt g arg) && negb (isFundamental (argAt g arg))
            then length (filter (λ e, e = (n, true)) (edges g arg)) else 0)
    as Hfol by done.
  destruct (isDerived (argAt g arg) && negb (isFundamental (argAt g arg))) eqn:Hder.
  2:{ intros [= <-]. split; [done |]. exists [arg]. split; [done |].
      rewrite Hocc. cbn [map sum_list]. rewrite Hfol. unfold id. lia. }
  intros Hrun.
  cut ((∀ k, is_Some (w_normSets st' !! k) → isPdfNode g k) ∧
       ∃ new, w_entered st' = w_entered st1 ++ new ∧
              occurrences n new
              = length (filter (λ e, e = (n, true)) (edges g arg))
                + sum_list (map (λ c, followed g c n) new)).
  { intros [Hk (new & Hent & Hcount)]. split; [done |]. exists (arg :: new).
    split; [by rewrite Hent, Hent1, <- app_assoc |].
    change (arg :: new) with ([arg] ++ new).
    rewrite map_app, sum_list_app. cbn [map sum_list]. rewrite Hfol.
    unfold occurrences in *. rewrite filter_app, length_app, Hocc, Hcount.
    unfold id. lia. }
  revert Hrun Hkeys1. clear Hent1 Hkeys Harg. generalize (edges g arg). revert st1.
  intros s l. revert s. induction l as [| e l IHl]; intros s Hrun Hks; simpl in Hrun.
  { injection Hrun as <-. split; [done |]. exists []. by rewrite app_nil_r. }
  apply bind_Done in Hrun as (s1 & He & Hrun).
  assert ((∀ k, is_Some (w_normSets s1 !! k) → isPdfNode g k) ∧
          ∃ new, w_entered s1 = w_entered s ++ new ∧
                 occurrences n new
                 = length (filter (λ e', e' = (n, true)) [e])
                   + sum_list (map (λ c, followed g c n) new)) as [Hks1 Hstep].
  { unfold visitServer in He. destruct e as [server value]. simpl in He.
    destruct value; simpl in He.
    - destruct (w_normSets s !! server) as [found |] eqn:Hfound.
      + destruct (_ || _); [done |]. injection He as <-. split; [done |].
        exists []. rewrite app_nil_r. split; [done |].
        rewrite filter_cons_False; [done |]. intros [= ->].
        apply Hn, Hks. by rewrite Hfound.
      + destruct (IH _ _ _ _ Hks He) as [Hk (new & Hent & Hcount)].
        split; [done |]. exists new. split; [done |]. rewrite Hcount.
        rewrite filter_cons, filter_nil.
        destruct (decide (server = n)) as [-> | Hne].
        * rewrite bool_decide_eq_true_2 by done.
          by rewrite decide_True.
        * rewrite bool_decide_eq_false_2 by congruence.
          rewrite decide_False; [done |]. by intros [= ?].
    - injection He as <-. split; [done |]. exists []. rewrite app_nil_r.
      split; [done |]. by rewrite filter_cons_False. }
  destruct Hstep as (new1 & Hent1 & Hcount1).
  destruct (IHl s1 Hrun Hks1) as [Hk (new2 & Hent2 & Hcount2)].
  split; [done |]. exists (new1 ++ new2).
  split; [by rewrite Hent2, Hent1, <- app_assoc |].
  change (e :: l) with ([e] ++ l).
  unfold occurrences in *.
  rewrite !filter_app, !length_app, map_app, sum_list_app, Hcount1, Hcount2. lia.
Qed.

(** C9, amended (visit-once propagation).  The propagation enters every
    pdf at most once: a pdf that has a recorded set is not entered again.
    A node that is not a pdf has no recorded set and is entered every time
    it is reached: once for every value edge that leads to it from a
    derived node that is not fundamental, for each time that node is
    entered, and once more if it is the node the propagation starts at.
    The visited set still lists each entered node exactly once. *)
Theorem pdf_entered_at_most_once (fuel : nat) (g : Graph) (arg : DataKey)
    (normSet : list DataKey) (st' : Walk) :
  treeNodeServerListAndNormSets fuel g arg normSet (mkWalk [] ∅ []) = Done st' →
  NoDup (filter (isPdfNode g) (w_entered st')) ∧
  (∀ n, ¬ isPdfNode g n →
        occurrences n (w_entered st')
        = (if bool_decide (n = arg) then 1 else 0)
          + sum_list (map (λ c, followed g c n) (w_entered st'))) ∧
  NoDup (w_list st') ∧
  ∀ n, n ∈ w_list st' ↔ n ∈ w_entered st'.
Proof.
  intros Hrun.
  assert (entered_once g (mkWalk [] ∅ [])) as H1.
  { split; simpl; [apply NoDup_nil_2 | by intros n ?%elem_of_nil]. }
  assert (listed (mkWalk [] ∅ [])) as H2.
  { split; simpl; [apply NoDup_nil_2 | done]. }
  pose proof (treeNodeServerListAndNormSets_entered_once g _ _ _ _ _ H1 Hrun) as [Hnd _].
  pose proof (treeNodeServerListAndNormSets_listed _ _ _ _ _ _ H2 Hrun) as [Hnd' Hiff].
  split_and!; [done | | done | done].
  intros n Hn.
  destruct (treeNodeServerListAndNormSets_count g n fuel Hn arg normSet
              (mkWalk [] ∅ []) st') as [_ (new & Hent & Hcount)]; [| done |].
  - simpl. intros k Hk. rewrite lookup_empty in Hk. by destruct Hk.
  - simpl in Hent. by rewrite Hent.
Qed.

(** C9, amended, at [sharedFunctionGraph]: the variable 1 is entered
    twice, once for each time the function 2 above it is entered. *)
Lemma pdf_entered_at_most_once_witness :
  NoDup (filter (isPdfNode sharedFunctionGraph) (w_entered sharedFunctionWalk)) ∧
  (∀ n, ¬ isPdfNode sharedFunctionGraph n →
        occurrences n (w_entered sharedFunctionWalk)
        = (if bool_decide (n = 5) then 1 else 0)
          + sum_list (map (λ c, followed sharedFunctionGraph c n)
                          (w_entered sharedFunctionWalk))) ∧
  NoDup (w_list sharedFunctionWalk) ∧
  ∀ n, n ∈ w_list sharedFunctionWalk ↔ n ∈ w_entered sharedFunctionWalk.
Proof.
  apply (pdf_entered_at_most_once 4 sharedFunctionGraph 5 [1] sharedFunctionWalk).
  vm_compute. reflexivity.
Defined.

(** The counts at [sharedFunctionGraph]: the function 2 has one value
    edge from each of the pdfs 4 and 3 and is entered twice; the variable
    1 has one value edge, from 2, and is entered twice as well. *)
Example shared_function_counts :
  occurrences 2 (w_entered sharedFunctionWalk) = 2 ∧
  occurrences 1 (w_entered sharedFunctionWalk) = 2 ∧
  followed sharedFunctionGraph 2 1 = 1 ∧
  occurrences 4 (w_entered sharedFunctionWalk) = 1 ∧
  occurrences 3 (w_entered sharedFunctionWalk) = 1.
Proof. vm_compute. done. Qed.

(** ** Conflicting normalization sets *)

(** C2 as stated fails: in [conflictGraph] the pdf 1 is first given the
    set {7} by its client 3 and then asked for {8} by its client 2.
    Construction fails with a message that names 1 and 2 only; the first
    requester 3 is not reported. *)
Lemma conflict_report_omits_first_requester :
  ∃ msg,
    NormalizationIntegralUnfolder_new 5 conflictGraph 4 [7; 8]
      = Throw (runtime_error msg) ∧
    treeNodeServerListAndNormSets 4 conflictGraph 4 [7; 8] (mkWalk [] ∅ [])
      = Throw (runtime_error msg) ∧
    (∃ st, treeNodeServerListAndNormSets 3 conflictGraph 3 [7; 8] (mkWalk [] ∅ [])
             = Done st ∧ w_normSets st !! 1 = Some [7]) ∧
    3 ∈ clients conflictGraph 1 ∧ 2 ∈ clients conflictGraph 1 ∧
    msg = conflictMessage 1 [8] 2 [7] ∧
    namedNodes msg = [1; 2] ∧
    3 ∉ namedNodes msg.
Proof.
  eexists. split; [vm_compute; reflexivity |].
  split; [vm_compute; reflexivity |].
  split; [eexists; split; vm_compute; reflexivity |].
  split; [vm_compute; set_solver |]. split; [vm_compute; set_solver |].
  split; [reflexivity |]. split; [reflexivity |].
  simpl. set_solver.
Qed.

(** C2, amended (conflict detection and reporting).  When the loop over
    the servers meets a value server whose recorded set differs in size or
    in content from the set demanded for it, it throws a [runtime_error]
    whose message names the server and the parent making the present
    request and prints the demanded and the recorded set; it names no other
    node, so the parent that first requested the recorded set is not
    identified.  Every exception the propagation throws is such a report,
    with both sets sorted, and [unfoldIntegrals] fails with it. *)
Theorem conflict_detected_and_reported (g : Graph) :
  (∀ rec arg normSet st server found,
     w_normSets st !! server = Some found →
     (length found ≠ length (serverNormSetFor g arg normSet server) ∨
      found ≠ serverNormSetFor g arg normSet server) →
     visitServer rec g arg normSet st (server, true) =
     Throw (runtime_error
              (conflictMessage server (serverNormSetFor g arg normSet server)
                               arg found))) ∧
  (∀ server serverNormSet arg found,
     namedNodes (conflictMessage server serverNormSet arg found) = [server; arg] ∧
     printedSets (conflictMessage server serverNormSet arg found)
       = [serverNormSet; found]) ∧
  (∀ fuel arg normSet st e,
     Sorted Nat.le normSet → canonical (w_normSets st) →
     treeNodeServerListAndNormSets fuel g arg normSet st = Throw e →
     conflict_report g e) ∧
  (∀ fuel topNode normSet normSets st checker e,
     normSet ≠ [] →
     GraphChecker_new fuel (graph st) topNode = Done checker →
     treeNodeServerListAndNormSets fuel (graph st) topNode (sort normSet)
       (mkWalk [] normSets []) = Throw e →
     unfoldIntegrals fuel topNode normSet normSets st = Throw e).
Proof.
  split; [apply visitServer_conflict |]. split; [done |].
  split; [apply treeNodeServerListAndNormSets_throws |].
  intros fuel topNode normSet normSets st checker e Hne Hck Hwalk.
  unfold unfoldIntegrals. rewrite bool_decide_eq_false_2 by done.
  rewrite Hck. simpl. by rewrite Hwalk.
Qed.

(** C2, amended, at [conflictGraph]. *)
Lemma conflict_detected_and_reported_witness :
  conflict_report conflictGraph (runtime_error (conflictMessage 1 [8] 2 [7])).
Proof.
  apply (proj1 (proj2 (proj2 (conflict_detected_and_reported conflictGraph)))
           4 4 [7; 8] (mkWalk [] ∅ [])).
  - repeat constructor.
  - intros n s Hs. simpl in Hs. by rewrite lookup_empty in Hs.
  - vm_compute. reflexivity.
Defined.

(** ** The cleaning pass *)

Section cleaning.
Context (lists : gmap DataKey (list DataKey)) (rank : DataKey → nat).
Context (fuel : nat) (nodes : list DataKey).
Context (Hclosed : closed lists) (Hranked : ranked rank lists).

Lemma keepIfDependent_spec key results acc narg :
    sound lists results → is_Some (lists !! key) → rank key < fuel →
    (reachable lists key narg → narg ∈ nodes) →
    ∃ results' acc',
      keepIfDependent fuel nodes key (mkChecker lists results, acc) narg =
        Done (mkChecker lists results', acc') ∧
      sound lists results' ∧
      ((reachable lists key narg ∧ acc' = RooArgSet_add narg acc) ∨
       (¬ reachable lists key narg ∧ acc' = acc)).
  Proof.
    intros Hs Hkey Hfuel Hin.
    destruct (dependsOn_correct (mkChecker lists results) rank fuel key narg)
      as (t & ck' & Hrun & Ht & Hl & Hs'); [done .. |].
    destruct ck' as [lists' results']. simpl in *. subst lists'.
    assert (t = true ↔ reachable lists key narg) as Ht'.
    { rewrite Ht. split; [intros [-> | ?]; [apply rtc_refl | done] | by right]. }
    unfold keepIfDependent. simpl. rewrite Hrun. simpl.
    destruct t.
    - assert (reachable lists key narg) as Hr by by apply Ht'.
      unfold RooArgSet_find. rewrite bool_decide_eq_true_2 by by apply Hin.
      eexists _, _. split; [done |]. split; [done |]. by left.
    - eexists _, _. split; [done |]. split; [done |]. right.
      split; [| done]. intros ?%Ht'. done.
  Qed.

Lemma keepLoop_spec key l results acc :
    sound lists results → is_Some (lists !! key) → rank key < fuel →
    (∀ v, v ∈ l → reachable lists key v → v ∈ nodes) → NoDup acc →
    ∃ results' actual,
      forEach (keepIfDependent fuel nodes key) l (mkChecker lists results, acc) =
        Done (mkChecker lists results', actual) ∧
      sound lists results' ∧ NoDup actual ∧
      ∀ v, v ∈ actual ↔ v ∈ acc ∨ (v ∈ l ∧ reachable lists key v).
  Proof.
    revert results acc.
    induction l as [| narg l IH]; intros results acc Hs Hkey Hfuel Hin Hnd; simpl.
    - exists results, acc. split; [done |]. split; [done |]. split; [done |].
      intros v. rewrite elem_of_nil. tauto.
    - destruct (keepIfDependent_spec key results acc narg)
        as (results1 & acc1 & -> & Hs1 & Hacc1); [done .. | apply Hin; by left |].
      simpl.
      destruct (IH results1 acc1)
        as (results' & actual & Hrun & Hs' & Hnd' & Hiff); [done .. | | |].
      + intros v Hv. apply Hin. by right.
      + destruct Hacc1 as [[_ ->] | [_ ->]]; [by apply NoDup_RooArgSet_add | done].
      + exists results', actual. split; [done |]. split; [done |]. split; [done |].
        intros v. rewrite Hiff, elem_of_cons.
        destruct Hacc1 as [[Hr ->] | [Hr ->]].
        * rewrite elem_of_RooArgSet_add. split; [| naive_solver].
          intros [[-> | ?] | ?]; naive_solver.
        * naive_solver.
  Qed.

Lemma cleanLoop_spec items results (normSets : gmap DataKey (list DataKey)) :
    sound lists results → NoDup items.*1 →
    (∀ k s, (k, s) ∈ items → is_Some (lists !! k) ∧ rank k < fuel ∧
            ∀ v, v ∈ s → reachable lists k v → v ∈ nodes) →
    ∃ results' normSets',
      forEach (λ st item,
                 if bool_decide (item.2 = []) then Done st
                 else
                   '(checker, actualNormSet) ←
                      forEach (keepIfDependent fuel nodes item.1) item.2 (st.1, []);
                   Done (checker, <[item.1 := actualNormSet]> st.2))
              items (mkChecker lists results, normSets) =
        Done (mkChecker lists results', normSets') ∧
      sound lists results' ∧
      (∀ k, k ∉ items.*1 → normSets' !! k = normSets !! k) ∧
      (∀ k s, (k, s) ∈ items →
         (s = [] ∧ normSets' !! k = normSets !! k) ∨
         ∃ actual, normSets' !! k = Some actual ∧ narrowed lists nodes k s actual).
  Proof.
    revert results normSets.
    induction items as [| [k0 s0] items IH]; intros results normSets Hs Hnd Hitems.
    - exists results, normSets. simpl. split; [done |]. split; [done |].
      split; [done |]. by intros k s ?%elem_of_nil.
    - simpl in Hnd. apply NoDup_cons in Hnd as [Hk0 Hnd].
      destruct (Hitems k0 s0) as (Hkey & Hfuel & Hin); [by left |].
      simpl. case_bool_decide as Hempty.
      + simpl. destruct (IH results normSets) as (results' & normSets' & Hrun & Hs' & Hout & Hin');
          [done | done | intros; apply Hitems; by right |].
        exists results', normSets'. split; [done |]. split; [done |]. split.
        * intros k Hk. apply Hout. intros ?. apply Hk. simpl. by right.
        * intros k s [[= -> ->] | Hks]%elem_of_cons; [| by apply Hin'].
          left. split; [done |]. by apply Hout.
      + destruct (keepLoop_spec k0 s0 results []) as (results1 & actual & -> & Hs1 & Hnd1 & Hiff);
          [done .. | apply NoDup_nil_2 |].
        simpl.
        destruct (IH results1 (<[k0 := actual]> normSets))
          as (results' & normSets' & Hrun & Hs' & Hout & Hin');
          [done | done | intros; apply Hitems; by right |].
        exists results', normSets'. split; [done |]. split; [done |]. split.
        * intros k Hk. rewrite Hout.
          -- rewrite lookup_insert_ne; [done |]. intros <-. apply Hk. simpl. by left.
          -- intros ?. apply Hk. simpl. by right.
        * intros k s [[= -> ->] | Hks]%elem_of_cons.
          2:{ destruct (Hin' k s Hks) as [[-> Hsame] | ?]; [| by right].
              left. split; [done |]. rewrite Hsame, lookup_insert_ne; [done |].
              intros <-. apply Hk0, list_elem_of_fmap. by exists (k0, []). }
          right. exists actual. split.
          -- rewrite Hout by done. by rewrite lookup_insert_eq.
          -- split; [done |]. split.
             ++ intros v. rewrite Hiff, elem_of_nil. tauto.
             ++ intros v [?%elem_of_nil | [Hv Hr]]%Hiff; [done |]. by apply Hin.
  Qed.

Lemma cleanNormSets_spec results (normSets : gmap DataKey (list DataKey)) :
    sound lists results →
    (∀ k, is_Some (normSets !! k) → is_Some (lists !! k) ∧ rank k < fuel) →
    (∀ k s v, normSets !! k = Some s → v ∈ s → reachable lists k v → v ∈ nodes) →
    ∃ checker' normSets',
      cleanNormSets fuel nodes (mkChecker lists results) normSets =
        Done (checker', normSets') ∧
      _serverLists checker' = lists ∧
      sound lists (_results checker') ∧
      dom normSets' = dom normSets ∧
      ∀ k s, normSets !! k = Some s →
             ∃ actual, normSets' !! k = Some actual ∧ narrowed lists nodes k s actual.
  Proof.
    intros Hs Hkeys Hin. unfold cleanNormSets.
    destruct (cleanLoop_spec (map_to_list normSets) results normSets)
      as (results' & normSets' & Hrun & Hs' & Hout & Hin');
      [done | apply NoDup_fst_map_to_list | |].
    { intros k s Hks%elem_of_map_to_list.
      destruct (Hkeys k) as [? ?]; [eauto |]. split; [done |]. split; [done |].
      intros v. by apply Hin. }
    assert (∀ k s, normSets !! k = Some s →
              ∃ actual, normSets' !! k = Some actual ∧ narrowed lists nodes k s actual) as Hall.
    { intros k s Hks. destruct (Hin' k s) as [[-> Hsame] | ?];
        [by apply elem_of_map_to_list | | done].
      exists []. split; [by rewrite Hsame |].
      split; [apply NoDup_nil_2 |]. split; intros v; rewrite elem_of_nil; tauto. }
    exists (mkChecker lists results'), normSets'.
    split; [done |]. split; [done |]. split; [done |]. split; [| done].
    apply set_eq. intros k. rewrite !elem_of_dom. split.
    - intros Hk. destruct (normSets !! k) as [s |] eqn:Hks; [eauto |].
      rewrite Hout in Hk; [by rewrite Hks in Hk |].
      intros ([k' s] & -> & Hin2%elem_of_map_to_list)%list_elem_of_fmap.
      simpl in Hks. congruence.
    - intros [s Hks]. destruct (Hall k s Hks) as (actual & -> & _). eauto.
  Qed.
End cleaning.

(** ** The cleaning pass, whenever it returns *)

Section cleaning_returns.
Context (lists : gmap DataKey (list DataKey)) (nodes : list DataKey).

Lemma keepLoop_sound fuel key l results acc checker' actual :
  sound lists results → NoDup acc →
  forEach (keepIfDependent fuel nodes key) l (mkChecker lists results, acc) =
    Done (checker', actual) →
  _serverLists checker' = lists ∧ sound lists (_results checker') ∧
  NoDup actual ∧
  (∀ v, v ∈ actual ↔ v ∈ acc ∨ (v ∈ l ∧ reachable lists key v)) ∧
  (∀ v, v ∈ actual → v ∈ acc ∨ v ∈ nodes).
Proof.
  revert results acc. induction l as [| narg l IH]; intros results acc Hs Hnd; simpl.
  - intros [= <- <-]. simpl. split_and!; try done.
    + intros v. rewrite elem_of_nil. tauto.
    + intros v ?. by left.
  - intros ([ck1 acc1] & H1 & Hrun)%bind_Done.
    unfold keepIfDependent, dependsOn in H1. simpl in H1.
    apply bind_Done in H1 as ([t ck2] & H2 & H1).
    apply bind_Done in H2 as ([t' r2] & H2 & [= <- <-]).
    apply dependsOn_results_sound in H2 as [Hs2 Ht]; [| done].
    assert ((reachable lists key narg ∧ narg ∈ nodes ∧
             acc1 = RooArgSet_add narg acc ∨
             ¬ reachable lists key narg ∧ acc1 = acc) ∧
            ck1 = mkChecker lists r2) as [Hacc ->].
    { destruct t'.
      - unfold RooArgSet_find in H1. case_bool_decide as Hin; [| done].
        injection H1 as <- <-. split; [| done]. left. split; [by apply Ht | done].
      - injection H1 as <- <-. split; [| done]. right. split; [| done].
        intros ?%Ht. done. }
    apply IH in Hrun as (Hl & Hs' & Hnd' & Hiff & Hin); [| done |].
    + split_and!; try done.
      * intros v. rewrite Hiff, elem_of_cons.
        destruct Hacc as [(Hr & _ & ->) | [Hr ->]].
        -- rewrite elem_of_RooArgSet_add. split; [| naive_solver].
           intros [[-> | ?] | ?]; naive_solver.
        -- naive_solver.
      * intros v Hv. destruct (Hin v Hv) as [Hv1 | ?]; [| by right].
        destruct Hacc as [(_ & Hn & ->) | [_ ->]]; [| by left].
        apply elem_of_RooArgSet_add in Hv1 as [-> | ?]; [by right | by left].
    + destruct Hacc as [(_ & _ & ->) | [_ ->]]; [by apply NoDup_RooArgSet_add | done].
Qed.

Lemma cleanLoop_sound fuel items results (normSets : gmap DataKey (list DataKey))
    checker' normSets' :
  sound lists results → NoDup items.*1 →
  forEach (λ st item,
             if bool_decide (item.2 = []) then Done st
             else
               '(checker, actualNormSet) ←
                  forEach (keepIfDependent fuel nodes item.1) item.2 (st.1, []);
               Done (checker, <[item.1 := actualNormSet]> st.2))
          items (mkChecker lists results, normSets) =
    Done (checker', normSets') →
  (∀ k, k ∉ items.*1 → normSets' !! k = normSets !! k) ∧
  (∀ k s, (k, s) ∈ items →
     (s = [] ∧ normSets' !! k = normSets !! k) ∨
     ∃ actual, normSets' !! k = Some actual ∧ narrowed lists nodes k s actual).
Proof.
  revert results normSets.
  induction items as [| [k0 s0] items IH]; intros results normSets Hs Hnd; simpl.
  - intros [= <- <-]. split; [done |]. by intros k s ?%elem_of_nil.
  - simpl in Hnd. apply NoDup_cons in Hnd as [Hk0 Hnd].
    intros ([ck1 ns1] & H1 & Hrun)%bind_Done.
    assert (∀ k s, (k, s) ∈ items → k ≠ k0) as Hne.
    { intros k s Hks ->. apply Hk0, list_elem_of_fmap. by exists (k0, s). }
    case_bool_decide as Hempty; simpl in H1.
    + injection H1 as <- <-.
      apply IH in Hrun as [Hout Hin]; [| done | done].
      split.
      * intros k Hk. apply Hout. intros ?. apply Hk. by right.
      * intros k s [[= -> ->] | Hks]%elem_of_cons; [| by apply Hin].
        left. split; [done |]. by apply Hout.
    + apply bind_Done in H1 as ([ck2 actual] & H2 & [= <- <-]).
      apply keepLoop_sound in H2 as (Hl & Hs2 & Hnd2 & Hiff & Hnodes);
        [| done | apply NoDup_nil_2].
      destruct ck2 as [lists2 results2]. simpl in Hl, Hs2. subst lists2.
      apply IH in Hrun as [Hout Hin]; [| done | done].
      split.
      * intros k Hk. rewrite Hout.
        -- rewrite lookup_insert_ne; [done |]. intros <-. apply Hk. by left.
        -- intros ?. apply Hk. by right.
      * intros k s [[= -> ->] | Hks]%elem_of_cons.
        -- right. exists actual. split.
           ++ rewrite Hout by done. by rewrite lookup_insert_eq.
           ++ split; [done |]. split.
              ** intros v. rewrite Hiff, elem_of_nil. tauto.
              ** intros v Hv. destruct (Hnodes v Hv) as [?%elem_of_nil | ?]; done.
        -- destruct (Hin k s Hks) as [[-> Hsame] | ?]; [| by right].
           left. split; [done |]. rewrite Hsame, lookup_insert_ne; [done |].
           intros <-. by apply (Hne k0 []).
Qed.

Lemma cleanNormSets_sound fuel checker (normSets : gmap DataKey (list DataKey))
    checker' normSets' :
  _serverLists checker = lists → sound lists (_results checker) →
  cleanNormSets fuel nodes checker normSets = Done (checker', normSets') →
  dom normSets' = dom normSets ∧
  ∀ k s, normSets !! k = Some s →
         ∃ actual, normSets' !! k = Some actual ∧ narrowed lists nodes k s actual.
Proof.
  destruct checker as [lists0 results]. simpl. intros -> Hs Hrun.
  unfold cleanNormSets in Hrun.
  apply cleanLoop_sound in Hrun as [Hout Hin];
    [| done | apply NoDup_fst_map_to_list].
  assert (∀ k s, normSets !! k = Some s →
            ∃ actual, normSets' !! k = Some actual ∧
                      narrowed lists nodes k s actual) as Hall.
  { intros k s Hks. destruct (Hin k s) as [[-> Hsame] | ?];
      [by apply elem_of_map_to_list | | done].
    exists []. split; [by rewrite Hsame |].
    split; [apply NoDup_nil_2 |]. split; intros v; rewrite elem_of_nil; tauto. }
  split; [| done].
  apply set_eq. intros k. rewrite !elem_of_dom. split.
  - intros Hk. destruct (normSets !! k) as [s |] eqn:Hks; [eauto |].
    rewrite Hout in Hk; [by rewrite Hks in Hk |].
    intros ([k' s] & -> & Hin2%elem_of_map_to_list)%list_elem_of_fmap.
    simpl in Hks. congruence.
  - intros [s Hks]. destruct (Hall k s Hks) as (actual & -> & _). eauto.
Qed.
End cleaning_returns.

(** ** Narrowing *)

Lemma reachable_closed (lists : gmap DataKey (list DataKey)) a b :
  closed lists → is_Some (lists !! a) → reachable lists a b → is_Some (lists !! b).
Proof.
  intros Hc Ha Hr. induction Hr as [| x y z (l & Hl & Hy) _ IH]; [done |].
  apply IH. by eapply Hc.
Qed.

Lemma diamondLists_closed : closed diamondLists.
Proof.
  intros a l b Hl Hb.
  destruct (diamondLists_edge a b) as [[-> [-> | ->]] | [[-> ->] | [-> ->]]];
    [by exists l | vm_compute; eauto ..].
Qed.

Lemma diamondLists_ranked : ranked id diamondLists.
Proof.
  intros a b Hab.
  destruct (diamondLists_edge a b Hab) as [[-> [-> | ->]] | [[-> ->] | [-> ->]]];
    unfold id; lia.
Qed.

(** Narrowing at the sum of two pdfs: of the set {1, 2} recorded for the
    pdf 4 only the variable 1 is kept, and the wrapper 8 is built with it. *)
Example narrowing_at_the_sum :
  ∃ walk normSets st,
    treeNodeServerListAndNormSets 10 (RooAddition_new sumGraph 5).2 6 [1; 2]
      (mkWalk [] ∅ []) = Done walk ∧
    w_normSets walk !! 4 = Some [1; 2] ∧
    unfoldIntegrals 10 6 [1; 2] ∅ (mkRewrite (RooAddition_new sumGraph 5).2 [] [] [])
      = Done (normSets, st) ∧
    normSets !! 4 = Some [1] ∧
    wrapped (argAt (graph st) 8) = Some (4, [1]).
Proof.
  eexists _, _, _. split; [vm_compute; reflexivity |].
  split; [vm_compute; reflexivity |]. split; [vm_compute; reflexivity |].
  split; vm_compute; reflexivity.
Qed.

(** C4 (narrowing): the cleaning pass dereferences a null pointer.  In
    [shapeOnlyGraph], a graph without dangling servers and without cycles,
    the pdf 2 has the variable 1 as a server through an edge that is not a
    value edge.  For the normalization set {1} the propagation records {1}
    for the pdf 2, and, since it follows value edges only, the visited set
    is {2}.  The checker follows every server edge, so [dependsOn] answers
    true for the pdf 2 and the variable 1.  The look-up [nodes.find] of the
    variable in the visited set is null, and the cleaning pass dereferences
    it: neither is the recorded set replaced by its subset {1}, nor is a
    wrapper created; [unfoldIntegrals] and the constructor of the unfolder
    fail. *)
Theorem narrowing_dereferences_null :
  wellFormed shapeOnlyGraph ∧ acyclic id shapeOnlyGraph ∧
  treeNodeServerListAndNormSets 4 shapeOnlyGraph 2 [1] (mkWalk [] ∅ [])
    = Done (mkWalk [2] {[2 := [1]]} [2]) ∧
  (∃ checker checker',
     GraphChecker_new 4 shapeOnlyGraph 2 = Done checker ∧
     dependsOn 4 checker 2 1 = Done (true, checker') ∧
     cleanNormSets 4 [2] checker {[2 := [1]]} = Throw null_dereference) ∧
  RooArgSet_find 1 [2] = None ∧
  unfoldIntegrals 4 2 [1] ∅ (mkRewrite shapeOnlyGraph [] [] [])
    = Throw null_dereference ∧
  NormalizationIntegralUnfolder_new 4 shapeOnlyGraph 2 [1] = Throw null_dereference.
Proof.
  split; [unfold wellFormed; refine (bool_decide_unpack _ _); vm_compute; exact I |].
  split; [unfold acyclic; refine (bool_decide_unpack _ _); vm_compute; exact I |].
  split; [vm_compute; reflexivity |].
  split.
  { eexists _, _. split; [vm_compute; reflexivity |].
    split; vm_compute; reflexivity. }
  split; [vm_compute; reflexivity |].
  split; vm_compute; reflexivity.
Qed.

(** C7 at the client 3 of the pdf 2 of [clientsGraph]. *)
Lemma replaceArg_client_scoping_witness :
  (3 ∈ [4; 3; 2; 1] →
   isCachedPdf (kind (argAt (graph wrappedClientsGraph) 3)) = false →
   edges (graph (replaceArg [4; 3; 2; 1] 6 2 wrappedClientsGraph)) 3 =
   substServer 2 6 (edges (graph wrappedClientsGraph) 3)) ∧
  (3 ∉ [4; 3; 2; 1] ∨
   isCachedPdf (kind (argAt (graph wrappedClientsGraph) 3)) = true →
   edges (graph (replaceArg [4; 3; 2; 1] 6 2 wrappedClientsGraph)) 3 =
   edges (graph wrappedClientsGraph) 3).
Proof.
  refine (proj1 (replaceArg_client_scoping [4; 3; 2; 1] 6 2 wrappedClientsGraph _ _)
            3 _).
  - vm_compute. eauto.
  - reflexivity.
  - apply elem_of_clients. split; [vm_compute; eauto |]. vm_compute. left.
Defined.

(** The three clients of the wrapped pdf 2: the function 3 is inside the
    visited set and redirected; the cached pdf 4 and the function 5, which
    is outside the visited set, keep the original. *)
Example replaceArg_clients :
  let st := replaceArg [4; 3; 2; 1] 6 2 wrappedClientsGraph in
  servers (graph st) 3 = [6; 1] ∧ servers (graph st) 4 = [2] ∧
  servers (graph st) 5 = [2] ∧ servers (graph st) 6 = [2] ∧
  replacedArgs st = [2] ∧ newArgs st = [6].
Proof. vm_compute. done. Qed.

(** ** The ledger *)

Lemma origKey_not_wrapper pairs s : s ∉ pairs.*2 → origKey pairs s = s.
Proof.
  induction pairs as [| [p w] pairs IH]; intros Hs; simpl; [done |].
  simpl in Hs. apply not_elem_of_cons in Hs as [Hne Hs].
  rewrite bool_decide_eq_false_2 by done. by apply IH.
Qed.

Lemma origKey_app_ne pairs x w s :
  s ≠ w → origKey (pairs ++ [(x, w)]) s = origKey pairs s.
Proof.
  intros Hne. induction pairs as [| [p w'] pairs IH]; simpl.
  - by rewrite bool_decide_eq_false_2.
  - by rewrite IH.
Qed.

Lemma origKey_app_new pairs x w :
  w ∉ pairs.*2 → origKey (pairs ++ [(x, w)]) w = x.
Proof.
  induction pairs as [| [p w'] pairs IH]; intros Hw; simpl.
  - by rewrite bool_decide_eq_true_2.
  - simpl in Hw. apply not_elem_of_cons in Hw as [Hne Hw].
    rewrite bool_decide_eq_false_2 by done. by apply IH.
Qed.

Lemma origEdge_not_wrapper pairs (l : list (DataKey * bool)) :
  (∀ e, e ∈ l → e.1 ∉ pairs.*2) → map (origEdge pairs) l = l.
Proof.
  intros Hl. induction l as [| [s v] l IH]; [done |]. simpl.
  rewrite IH by (intros; apply Hl; by right).
  unfold origEdge. simpl. rewrite origKey_not_wrapper; [done |].
  apply (Hl (s, v)). by left.
Qed.

Lemma origEdge_app pairs x w (l : list (DataKey * bool)) :
  (∀ e, e ∈ l → e.1 ≠ w) →
  map (origEdge (pairs ++ [(x, w)])) l = map (origEdge pairs) l.
Proof.
  intros Hl. apply map_ext_in. intros [s v] Hin%list_elem_of_In.
  unfold origEdge. simpl. rewrite origKey_app_ne; [done |]. by apply (Hl (s, v)).
Qed.

Lemma origEdge_app_subst pairs x w (l : list (DataKey * bool)) :
  (∀ e, e ∈ l → e.1 ≠ w) → w ∉ pairs.*2 → x ∉ pairs.*2 →
  map (origEdge (pairs ++ [(x, w)])) (substServer x w l) = map (origEdge pairs) l.
Proof.
  intros Hl Hw Hx. unfold substServer. rewrite map_map.
  apply map_ext_in. intros [s v] Hin%list_elem_of_In.
  unfold origEdge. simpl. case_bool_decide as Hs.
  - subst s. rewrite origKey_app_new by done. by rewrite origKey_not_wrapper.
  - rewrite origKey_app_ne; [done |]. by apply (Hl (s, v)).
Qed.

(** ** Loops, with the part of the list already handled *)

Lemma forEach_Done_prefix {A S} (P : list A → S → Prop)
    (body : S → A → outcome S) l s s' :
  (∀ pre x post s s', l = pre ++ x :: post → P pre s → body s x = Done s' →
                      P (pre ++ [x]) s') →
  P [] s → forEach body l s = Done s' → P l s'.
Proof.
  intros Hbody.
  cut (∀ rest pre s, l = pre ++ rest → P pre s →
                     forEach body rest s = Done s' → P l s').
  { intros H. by apply (H l []). }
  induction rest as [| x rest IH]; intros pre s0 Hl Hs Hrun; simpl in Hrun.
  - injection Hrun as <-. by rewrite Hl, app_nil_r.
  - apply bind_Done in Hrun as (s1 & H1 & Hrun).
    apply (IH (pre ++ [x]) s1); [by rewrite <- app_assoc | | done].
    by eapply Hbody.
Qed.

(** ** Markers under [replaceArg] *)

Lemma attributes_setAttribute_ne a k v (g : Graph) n :
  n ≠ a → attributes (argAt (setAttribute a k v g) n) = attributes (argAt g n).
Proof. intros. unfold argAt, setAttribute. by rewrite lookup_alter_ne. Qed.

Lemma attributes_setAttribute_false (g : Graph) a k :
  attributes (argAt (setAttribute a k false g) a) = attributes (argAt g a) ∖ {[k]}.
Proof.
  unfold argAt, setAttribute. rewrite lookup_alter_eq.
  destruct (g !! a); simpl; [done | set_solver].
Qed.

Lemma replaceArg_attributes_ne nodes newArg oldArg st n :
  n ≠ newArg →
  attributes (argAt (graph (replaceArg nodes newArg oldArg st)) n) =
  attributes (argAt (graph st) n).
Proof.
  intros Hn. rewrite replaceArg_graph. simpl.
  rewrite attributes_setAttribute_ne by done.
  rewrite (redirectLoop_field attributes) by done.
  by rewrite attributes_setAttribute_ne.
Qed.

Lemma replaceArg_attributes_new nodes newArg oldArg st :
  is_Some (graph st !! newArg) → attributes (argAt (graph st) newArg) = ∅ →
  attributes (argAt (graph (replaceArg nodes newArg oldArg st)) newArg) = ∅.
Proof.
  intros Hin Hattr. rewrite replaceArg_graph. simpl.
  rewrite attributes_setAttribute_false.
  rewrite (redirectLoop_field attributes) by done.
  rewrite attributes_setAttribute_true, Hattr by done. set_solver.
Qed.

Lemma replaceArg_edges_cases nodes newArg oldArg st n :
  is_Some (graph st !! newArg) → attributes (argAt (graph st) newArg) = ∅ →
  (n ∈ nodes ∧ edges (graph (replaceArg nodes newArg oldArg st)) n =
                 substServer oldArg newArg (edges (graph st) n)) ∨
  edges (graph (replaceArg nodes newArg oldArg st)) n = edges (graph st) n.
Proof.
  intros Hin Hattr. rewrite replaceArg_edges by done.
  case_bool_decide as Hn; simpl; [| by right].
  destruct (negb _); [left; by destruct Hn | by right].
Qed.

Lemma elem_of_substServer old new (l : list (DataKey * bool)) e :
  e ∈ substServer old new l → e.1 = new ∨ e ∈ l.
Proof.
  unfold substServer. intros ([s v] & -> & Hin)%list_elem_of_fmap. simpl.
  case_bool_decide; [by left |]. by right.
Qed.

(** ** The rewrite loop keeps the ledger exact *)

Lemma unfolded_initial (h0 : Graph) nodes :
  (∀ n s, s ∈ servers h0 n → is_Some (h0 !! s)) →
  unfolded h0 nodes [] [] (mkRewrite h0 [] [] []).
Proof.
  intros Hclosed. unfold unfolded. simpl. split_and!; try done.
  - apply NoDup_nil_2.
  - apply NoDup_nil_2.
  - by intros p ?%elem_of_nil.
  - by intros w ?%elem_of_nil.
  - set_solver.
  - intros n _. apply origEdge_not_wrapper. by intros e _ ?%elem_of_nil.
  - by intros p w ?%elem_of_nil.
Qed.

Lemma unfolded_seen h0 nodes seen x pairs st :
  unfolded h0 nodes seen pairs st → unfolded h0 nodes (seen ++ [x]) pairs st.
Proof.
  unfold unfolded. intros (? & ? & ? & ? & ? & Hp & ? & ? & ? & ? & ? & ? & ?).
  split_and!; try done.
  intros p Hin. destruct (Hp p Hin). split; [| done]. apply elem_of_app. by left.
Qed.

Lemma unfolded_getVal h0 nodes seen pairs st x S :
  unfolded h0 nodes seen pairs st →
  unfolded h0 nodes seen pairs
    (mkRewrite (getVal x S (graph st)) (replacedArgs st) (newArgs st) (newNodes st)).
Proof.
  unfold unfolded. simpl.
  intros (? & ? & ? & ? & ? & ? & ? & Hdom & Hclosed & Hback & Hout & Hattr & Hw).
  split_and!; try done.
  - unfold getVal. by rewrite dom_alter_L.
  - intros n s. unfold servers. rewrite edges_getVal. intros Hs.
    apply elem_of_dom. unfold getVal. rewrite dom_alter_L. apply elem_of_dom.
    by eapply Hclosed.
  - intros n Hn. rewrite edges_getVal. by apply Hback.
  - intros n Hn Hnn. rewrite edges_getVal. by apply Hout.
  - intros n Hn. unfold getVal. rewrite (argAt_alter_field attributes) by done.
    by apply Hattr.
  - intros p w Hpw. rewrite edges_getVal. unfold getVal.
    rewrite (argAt_alter_field attributes) by done. by apply Hw.
Qed.

Lemma RooArgSet_add_new x s : x ∉ s → RooArgSet_add x s = s ++ [x].
Proof. intros. unfold RooArgSet_add. by rewrite bool_decide_eq_false_2. Qed.

Lemma unfolded_wrap h0 nodes seen pairs st x S :
  (∀ n, n ∈ nodes → is_Some (h0 !! n)) →
  x ∈ nodes → x ∉ seen →
  unfolded h0 nodes seen pairs st →
  let w := RooNormalizedPdf_new (graph st) x S in
  let st1 := replaceArg nodes w.1 x
               (mkRewrite w.2 (replacedArgs st) (newArgs st) (newNodes st)) in
  unfolded h0 nodes (seen ++ [x]) (pairs ++ [(x, w.1)])
    (mkRewrite (graph st1) (replacedArgs st1) (newArgs st1) (newNodes st ++ [w.1])).
Proof.
  intros Hnodes Hx Hxseen.
  intros (Hrep & Hnew & Hown & Hnd1 & Hnd2 & Hp & Hwfresh & Hdom & Hclosed & Hback
          & Hout & Hattr & Hw).
  set (g := graph st). set (W := fresh (dom g)).
  set (rec := mkArg AbsPdf true false true (λ _ _, None) [(x, true)] ∅ []
                    (Some (x, S))).
  set (gW := <[W := rec]> g).
  assert (g !! W = None) as HW by apply not_elem_of_dom, is_fresh.
  assert (h0 !! W = None) as HW0.
  { apply not_elem_of_dom. intros Hin. apply not_elem_of_dom in HW. apply HW.
    unfold g. rewrite Hdom. set_solver. }
  assert (W ∉ pairs.*2) as HWp.
  { intros Hin. apply not_elem_of_dom in HW. apply HW. unfold g. rewrite Hdom.
    apply elem_of_union. right. by apply elem_of_list_to_set. }
  assert (W ∉ nodes) as HWn.
  { intros Hin. destruct (Hnodes W Hin) as [? ?]. congruence. }
  assert (is_Some (h0 !! x)) as Hx0 by by apply Hnodes.
  assert (x ≠ W) as HxW by (intros ->; destruct Hx0; congruence).
  assert (x ∉ pairs.*1) as Hxp by (intros Hin; by destruct (Hp x Hin)).
  assert (x ∉ pairs.*2) as Hxp2.
  { intros Hin. destruct Hx0 as [? Hx0]. rewrite (Hwfresh x Hin) in Hx0. done. }
  assert (∀ n e, e ∈ edges g n → e.1 ≠ W) as Hedges.
  { intros n e He HeW. destruct (Hclosed n W) as [? Hsome];
      [| unfold g in HW; congruence].
    unfold servers. apply list_elem_of_fmap. by exists e. }
  assert (∀ n, n ≠ W → edges gW n = edges g n) as HgW.
  { intros n Hn. unfold edges, gW. by rewrite lookup_insert_ne. }
  assert (edges gW W = [(x, true)]) as HgWW.
  { unfold edges, gW. by rewrite lookup_insert_eq. }
  assert (is_Some (gW !! W)) as HWin by (unfold gW; rewrite lookup_insert_eq; eauto).
  assert (attributes (argAt gW W) = ∅) as HWattr
    by (unfold gW; by rewrite argAt_insert_eq).
  set (stW := mkRewrite gW (replacedArgs st) (newArgs st) (newNodes st)).
  intros w st1.
  assert (w = (W, gW)) as -> by done. cbn [fst snd] in st1. fold stW in st1.
  assert (replacedArgs st1 = RooArgSet_add x (replacedArgs st)) as Hrep1 by done.
  assert (newArgs st1 = RooArgSet_add W (newArgs st)) as Hnew1 by done.
  assert (∀ n, (n ∈ nodes ∧ edges (graph st1) n = substServer x W (edges gW n)) ∨
               edges (graph st1) n = edges gW n) as Hcases.
  { intros n. by apply (replaceArg_edges_cases nodes W x stW n). }
  assert (dom (graph st1) = {[W]} ∪ dom g) as Hdom1.
  { unfold st1. rewrite replaceArg_dom. simpl. unfold gW. by rewrite dom_insert_L. }
  assert (∀ n, n ≠ W →
               attributes (argAt (graph st1) n) = attributes (argAt g n)) as Hattr1.
  { intros n Hn. unfold st1. rewrite replaceArg_attributes_ne by done.
    simpl. unfold gW. by rewrite argAt_insert_ne. }
  assert (attributes (argAt (graph st1) W) = ∅) as HattrW.
  { by apply replaceArg_attributes_new. }
  clearbody st1.
  unfold unfolded. cbn [graph replacedArgs newArgs newNodes fst snd].
  rewrite !fmap_app. simpl.
  split_and!.
  - rewrite Hrep1, Hrep. by apply RooArgSet_add_new.
  - rewrite Hnew1, Hnew. by apply RooArgSet_add_new.
  - by rewrite Hown.
  - apply NoDup_app. split_and!; [done | | apply NoDup_singleton].
    intros p Hin ->%list_elem_of_singleton. done.
  - apply NoDup_app. split_and!; [done | | apply NoDup_singleton].
    intros p Hin ->%list_elem_of_singleton. done.
  - intros p [Hin | ->%list_elem_of_singleton]%elem_of_app.
    + destruct (Hp p Hin). split; [| done]. apply elem_of_app. by left.
    + split; [| done]. apply elem_of_app. right. by left.
  - intros w [Hin | ->%list_elem_of_singleton]%elem_of_app; [by apply Hwfresh | done].
  - rewrite Hdom1. unfold g. rewrite Hdom, list_to_set_app_L. set_solver.
  - intros n s Hs. apply elem_of_dom. rewrite Hdom1.
    unfold servers in Hs. apply list_elem_of_fmap in Hs as (e & -> & He).
    assert (e.1 = W ∨ e ∈ edges gW n) as [-> | He'].
    { destruct (Hcases n) as [[_ Heq] | Heq]; rewrite Heq in He.
      - by apply elem_of_substServer in He.
      - by right. }
    { set_solver. }
    destruct (decide (n = W)) as [-> | Hn].
    + rewrite HgWW in He'. apply list_elem_of_singleton in He' as ->. simpl.
      apply elem_of_union. right. unfold g. rewrite Hdom.
      apply elem_of_union. left. by apply elem_of_dom.
    + rewrite HgW in He' by done. apply elem_of_union. right. apply elem_of_dom.
      apply (Hclosed n). unfold servers. apply list_elem_of_fmap. by exists e.
  - intros n Hn.
    assert (n ≠ W) as HnW by (intros ->; destruct Hn; congruence).
    destruct (Hcases n) as [[_ Heq] | Heq]; rewrite Heq, HgW by done.
    + rewrite origEdge_app_subst; [by apply Hback | by apply Hedges | done | done].
    + rewrite origEdge_app; [by apply Hback | by apply Hedges].
  - intros n Hn Hnn.
    assert (n ≠ W) as HnW by (intros ->; destruct Hn; congruence).
    destruct (Hcases n) as [[? _] | Heq]; [done |]. rewrite Heq, HgW by done.
    by apply Hout.
  - intros n Hn.
    assert (n ≠ W) as HnW by (intros ->; destruct Hn; congruence).
    rewrite Hattr1 by done. by apply Hattr.
  - intros p w [Hpw | [= -> ->]%list_elem_of_singleton]%elem_of_app.
    + assert (w ∈ pairs.*2) as Hwin.
      { apply list_elem_of_fmap. by exists (p, w). }
      assert (w ≠ W) as HwW by (intros ->; done).
      assert (w ∉ nodes) as Hwn.
      { intros Hin. destruct (Hnodes w Hin) as [? Hsome].
        rewrite (Hwfresh w Hwin) in Hsome. done. }
      destruct (Hw p w Hpw) as [He Ha]. split.
      * destruct (Hcases w) as [[? _] | Heq]; [done |]. by rewrite Heq, HgW.
      * by rewrite Hattr1.
    + split; [| done].
      destruct (Hcases W) as [[? _] | Heq]; [done |]. by rewrite Heq.
Qed.

Lemma wrapNode_unfolded h0 nodes normSets seen pairs st x st' :
  (∀ n, n ∈ nodes → is_Some (h0 !! n)) →
  x ∈ nodes → x ∉ seen →
  unfolded h0 nodes seen pairs st →
  wrapNode nodes normSets st x = Done st' →
  ∃ pairs', unfolded h0 nodes (seen ++ [x]) pairs' st'.
Proof.
  intros Hnodes Hx Hxseen Hst Hrun.
  destruct (isPdf (kind (argAt (graph st) x))) eqn:Hpdf.
  2:{ unfold wrapNode in Hrun. rewrite Hpdf in Hrun. injection Hrun as <-.
      exists pairs. by apply unfolded_seen. }
  destruct (normSets !! x) as [S |] eqn:Hset.
  2:{ unfold wrapNode in Hrun. by rewrite Hpdf, Hset in Hrun. }
  destruct (decide (S = [])) as [-> | Hne].
  { unfold wrapNode in Hrun. rewrite Hpdf, Hset in Hrun. simpl in Hrun.
    injection Hrun as <-. exists pairs. by apply unfolded_seen. }
  destruct (selfNormalized (argAt (graph st) x)
            && negb (isCachedPdf (kind (argAt (graph st) x)))) eqn:Hskip.
  - rewrite (wrapNode_skip _ _ _ _ S) in Hrun by done. injection Hrun as <-.
    exists pairs. by apply unfolded_seen, unfolded_getVal.
  - rewrite (wrapNode_wrap _ _ _ _ S) in Hrun by done. injection Hrun as <-.
    eexists.
    apply (unfolded_wrap h0 nodes seen pairs
             (mkRewrite (getVal x S (graph st)) (replacedArgs st) (newArgs st)
                        (newNodes st)) x S); [done .. |].
    by apply unfolded_getVal.
Qed.

Lemma wrapLoop_unfolded h0 nodes normSets st' :
  (∀ n s, s ∈ servers h0 n → is_Some (h0 !! s)) →
  (∀ n, n ∈ nodes → is_Some (h0 !! n)) → NoDup nodes →
  forEach (wrapNode nodes normSets) nodes (mkRewrite h0 [] [] []) = Done st' →
  ∃ pairs, unfolded h0 nodes nodes pairs st'.
Proof.
  intros Hclosed Hnodes Hnd Hrun.
  apply (forEach_Done_prefix
           (λ seen st, ∃ pairs, unfolded h0 nodes seen pairs st)) in Hrun; [done | |].
  - intros pre x post s s' Hl (pairs & Hs) Hbody.
    apply (wrapNode_unfolded h0 nodes normSets pre pairs s x s'); [done | | | done | done].
    + rewrite Hl. apply elem_of_app. right. by left.
    + rewrite Hl in Hnd. apply NoDup_app in Hnd as (_ & Hdis & _).
      intros Hin. apply (Hdis x Hin). by left.
  - exists []. by apply unfolded_initial.
Qed.

(** ** The visited set lies below the top node *)

Lemma visitServer_reaches rec (g : Graph) root arg normSet st e st' :
  (∀ server s st st', reaches g root server →
     (∀ n, n ∈ w_list st → reaches g root n) → rec server s st = Done st' →
     ∀ n, n ∈ w_list st' → reaches g root n) →
  reaches g root arg → e ∈ edges g arg →
  (∀ n, n ∈ w_list st → reaches g root n) →
  visitServer rec g arg normSet st e = Done st' →
  ∀ n, n ∈ w_list st' → reaches g root n.
Proof.
  intros Hrec Harg He Hst. unfold visitServer.
  destruct (negb e.2); [by intros [= <-] |].
  destruct (w_normSets st !! e.1).
  - destruct (_ || _); [done | by intros [= <-]].
  - apply Hrec; [| done]. eapply rtc_r; [done |].
    unfold servers. apply list_elem_of_fmap. by exists e.
Qed.

Lemma treeNodeServerListAndNormSets_reaches fuel (g : Graph) root arg normSet st st' :
  reaches g root arg →
  (∀ n, n ∈ w_list st → reaches g root n) →
  treeNodeServerListAndNormSets fuel g arg normSet st = Done st' →
  ∀ n, n ∈ w_list st' → reaches g root n.
Proof.
  revert arg normSet st st'.
  induction fuel as [| fuel IH]; intros arg normSet st st' Harg Hst; [done |].
  simpl. destruct (w_normSets st !! arg) eqn:Hfound; [by intros [= <-] |].
  set (st1 := mkWalk _ _ _).
  assert (∀ n, n ∈ w_list st1 → reaches g root n) as Hst1.
  { simpl. intros n [-> | Hn]%elem_of_RooArgSet_add; [done | by apply Hst]. }
  destruct (_ && _); [| by intros [= <-]].
  apply (forEach_Done_invariant (λ st, ∀ n, n ∈ w_list st → reaches g root n));
    [| done].
  intros s x s' Hx Hs. apply visitServer_reaches; [| done | done | done].
  intros ? ? ? ? ? ?. by apply IH.
Qed.

Lemma reaches_in_graph (g : Graph) a b :
  (∀ n s, s ∈ servers g n → is_Some (g !! s)) →
  is_Some (g !! a) → reaches g a b → is_Some (g !! b).
Proof.
  intros Hc Ha Hr. induction Hr as [| x y z Hxy _ IH]; [done |].
  apply IH. by eapply Hc.
Qed.

(** ** Redirection back to the originals *)

Lemma findNewServer_pairs (h : Graph) pairs s :
  (∀ p w, (p, w) ∈ pairs → attributes (argAt h p) = {[w]}) →
  default s (findNewServer h pairs.*1 s) = origKey pairs s.
Proof.
  unfold findNewServer. induction pairs as [| [p w] pairs IH]; intros Hm; [done |].
  simpl. rewrite filter_cons. rewrite (Hm p w) by left.
  case_bool_decide as Hw.
  - subst. rewrite decide_True by set_solver. done.
  - rewrite decide_False by set_solver. apply IH.
    intros p' w' Hin. apply Hm. by right.
Qed.

Lemma redirectServers_pairs (h : Graph) n pairs :
  (∀ p w, (p, w) ∈ pairs → attributes (argAt h p) = {[w]}) →
  redirectServers h n pairs.*1 =
  alter (λ a, set_serverList (map (origEdge pairs) (serverList a)) a) n h.
Proof.
  intros Hm. unfold redirectServers. apply map_eq. intros j.
  rewrite !lookup_alter. case_decide; [| done].
  destruct (h !! n) as [a |]; [| done]. simpl. do 2 f_equal.
  apply map_ext. intros [s v]. unfold origEdge. simpl.
  by rewrite findNewServer_pairs.
Qed.

Lemma edges_alter_serverList f (h : Graph) n :
  f [] = [] →
  edges (alter (λ a, set_serverList (f (serverList a)) a) n h) n = f (edges h n).
Proof.
  intros Hf. unfold edges. rewrite lookup_alter_eq. by destruct (h !! n).
Qed.

Lemma edges_alter_ne f (h : Graph) n m :
  m ≠ n → edges (alter f n h) m = edges h m.
Proof. intros. unfold edges. by rewrite lookup_alter_ne. Qed.

Section fold.
Context (h0 : Graph) (pairs : list (DataKey * DataKey)) (rank : DataKey → nat).
Context (Hclosed : ∀ n s, s ∈ servers h0 n → is_Some (h0 !! s)).
Context (Hranked : ∀ n s, s ∈ servers h0 n → rank s < rank n).
Context (Hfresh : ∀ w, w ∈ pairs.*2 → h0 !! w = None).

Lemma origEdge_original n : map (origEdge pairs) (edges h0 n) = edges h0 n.
Proof.
  apply origEdge_not_wrapper. intros e He Hin.
  destruct (Hclosed n e.1) as [a Ha].
  - unfold servers. apply list_elem_of_fmap. by exists e.
  - by rewrite (Hfresh _ Hin) in Ha.
Qed.

Lemma folding_redirect h n :
  folding h0 pairs h → is_Some (h0 !! n) →
  folding h0 pairs (redirectServers h n pairs.*1) ∧
  edges (redirectServers h n pairs.*1) n = edges h0 n ∧
  (∀ m, m ≠ n → edges (redirectServers h n pairs.*1) m = edges h m) ∧
  dom (redirectServers h n pairs.*1) = dom h.
Proof.
  intros [Hm Hback] Hn. rewrite redirectServers_pairs by done.
  assert (edges (alter (λ a, set_serverList (map (origEdge pairs) (serverList a)) a)
                   n h) n = edges h0 n) as Hat.
  { rewrite (edges_alter_serverList (map (origEdge pairs))) by done. by apply Hback. }
  split_and!.
  - split.
    + intros p w Hpw. rewrite (argAt_alter_field attributes) by done. by apply Hm.
    + intros m Hm0. destruct (decide (m = n)) as [-> | Hne].
      * rewrite Hat. apply origEdge_original.
      * rewrite edges_alter_ne by done. by apply Hback.
  - done.
  - intros m Hne. by apply edges_alter_ne.
  - by rewrite dom_alter_L.
Qed.

(** What a traversal from [n] achieves on the graph [h]. *)
Lemma recursiveRedirectServers_servers fuel l h :
  (∀ n h, is_Some (h0 !! n) → rank n < fuel → folding h0 pairs h →
     ∃ h', recursiveRedirectServers fuel pairs.*1 h n = Done h' ∧
           folding h0 pairs h' ∧
           (∀ m, edges h m = edges h0 m → edges h' m = edges h0 m) ∧
           (∀ m, reaches h0 n m → edges h' m = edges h0 m) ∧
           (∀ m, h0 !! m = None → edges h' m = edges h m) ∧
           dom h' = dom h) →
  (∀ s, s ∈ l → is_Some (h0 !! s) ∧ rank s < fuel) →
  folding h0 pairs h →
  ∃ h', forEach (recursiveRedirectServers fuel pairs.*1) l h = Done h' ∧
        folding h0 pairs h' ∧
        (∀ m, edges h m = edges h0 m → edges h' m = edges h0 m) ∧
        (∀ s m, s ∈ l → reaches h0 s m → edges h' m = edges h0 m) ∧
        (∀ m, h0 !! m = None → edges h' m = edges h m) ∧
        dom h' = dom h.
Proof.
  intros Hrec. revert h. induction l as [| s l IH]; intros h Hl Hh; simpl.
  - exists h. split_and!; try done. by intros s m ?%elem_of_nil.
  - destruct (Hl s) as [Hs Hfuel]; [by left |].
    destruct (Hrec s h Hs Hfuel Hh) as (h1 & -> & Hh1 & Hmono1 & Hreach1 & Hout1 & Hdom1).
    simpl.
    destruct (IH h1) as (h' & Hrun & Hh' & Hmono & Hreach & Hout & Hdom);
      [intros; apply Hl; by right | done |].
    exists h'. split_and!; try done.
    + intros m Hm. by apply Hmono, Hmono1.
    + intros s' m [-> | Hin]%elem_of_cons Hr.
      * by apply Hmono, Hreach1.
      * by eapply Hreach.
    + intros m Hm. rewrite Hout by done. by apply Hout1.
    + by rewrite Hdom.
Qed.

Lemma recursiveRedirectServers_restores fuel n h :
  is_Some (h0 !! n) → rank n < fuel → folding h0 pairs h →
  ∃ h', recursiveRedirectServers fuel pairs.*1 h n = Done h' ∧
        folding h0 pairs h' ∧
        (∀ m, edges h m = edges h0 m → edges h' m = edges h0 m) ∧
        (∀ m, reaches h0 n m → edges h' m = edges h0 m) ∧
        (∀ m, h0 !! m = None → edges h' m = edges h m) ∧
        dom h' = dom h.
Proof.
  revert n h. induction fuel as [| fuel IH]; intros n h Hn Hfuel Hh; [lia |].
  simpl.
  destruct (folding_redirect h n Hh Hn) as (Hh1 & Hat & Hne & Hdom1).
  set (h1 := redirectServers h n pairs.*1) in *.
  assert (servers h1 n = servers h0 n) as Hsrv by (unfold servers; by rewrite Hat).
  rewrite Hsrv.
  destruct (recursiveRedirectServers_servers fuel (servers h0 n) h1)
    as (h' & Hrun & Hh' & Hmono & Hreach & Hout & Hdom); [done | | done |].
  { intros s Hs. split; [by eapply Hclosed |].
    assert (rank s < rank n) by by apply Hranked. lia. }
  exists h'. split_and!; try done.
  - intros m Hm. apply Hmono. destruct (decide (m = n)) as [-> | Hmn]; [done |].
    by rewrite Hne.
  - intros m Hr. destruct Hr as [| x y z Hxy Hyz].
    + by apply Hmono.
    + by apply (Hreach y).
  - intros m Hm. rewrite Hout by done. apply Hne. intros ->.
    destruct Hn. congruence.
  - by rewrite Hdom.
Qed.
End fold.

(** ** Markers set and cleared by [foldIntegrals] *)

Lemma markers_set (g : Graph) pairs :
  NoDup pairs.*1 →
  (∀ p, p ∈ pairs.*1 → is_Some (g !! p) ∧ attributes (argAt g p) = ∅) →
  let g1 := foldl (λ g p, setAttribute p.1 p.2 true g) g pairs in
  (∀ p w, (p, w) ∈ pairs → attributes (argAt g1 p) = {[w]}) ∧
  (∀ n, n ∉ pairs.*1 → attributes (argAt g1 n) = attributes (argAt g n)) ∧
  (∀ n, edges g1 n = edges g n) ∧ dom g1 = dom g.
Proof.
  induction pairs as [| [p w] pairs IH] using rev_ind; intros Hnd Hp; simpl.
  { split_and!; try done. by intros p w ?%elem_of_nil. }
  rewrite fmap_app in Hnd, Hp. simpl in Hnd, Hp.
  apply NoDup_app in Hnd as (Hnd & Hdis & _).
  destruct IH as (Hset & Hother & Hedges & Hdom);
    [done | intros; apply Hp, elem_of_app; by left |].
  assert (p ∉ pairs.*1) as Hpp.
  { intros Hin. apply (Hdis p Hin). by left. }
  destruct (Hp p) as [Hin Hattr]; [apply elem_of_app; right; by left |].
  rewrite foldl_app. simpl.
  set (g1 := foldl _ g pairs) in *.
  split_and!.
  - intros p' w' [Hpw | [= -> ->]%list_elem_of_singleton]%elem_of_app.
    + rewrite attributes_setAttribute_ne; [by apply Hset |].
      intros ->. apply Hpp, list_elem_of_fmap. by exists (p, w').
    + rewrite attributes_setAttribute_true.
      * rewrite Hother, Hattr by done. set_solver.
      * apply elem_of_dom. rewrite Hdom. by apply elem_of_dom.
  - intros n Hn. rewrite fmap_app in Hn. simpl in Hn.
    apply not_elem_of_app in Hn as [Hn Hnp%not_elem_of_cons].
    rewrite attributes_setAttribute_ne by tauto. by apply Hother.
  - intros n. by rewrite edges_setAttribute.
  - unfold setAttribute. by rewrite dom_alter_L.
Qed.

Lemma markers_cleared (g : Graph) (pairs : list (DataKey * DataKey)) :
  let g1 := foldl (λ g p, setAttribute p.1 p.2 false g) g pairs in
  (∀ n, edges g1 n = edges g n) ∧ dom g1 = dom g.
Proof.
  revert g. induction pairs as [| [p w] pairs IH]; intros g; simpl; [done |].
  destruct (IH (setAttribute p w false g)) as [He Hd]. split.
  - intros n. by rewrite He, edges_setAttribute.
  - rewrite Hd. unfold setAttribute. by rewrite dom_alter_L.
Qed.

Lemma lookup_foldr_delete (g : Graph) l n :
  foldr delete g l !! n = if bool_decide (n ∈ l) then None else g !! n.
Proof.
  induction l as [| x l IH]; cbn [foldr].
  - rewrite (bool_decide_eq_false_2 (n ∈ [])); [done | apply not_elem_of_nil].
  - rewrite lookup_delete. destruct (decide (x = n)) as [-> | Hx].
    + rewrite (bool_decide_eq_true_2 (n ∈ n :: l)); [done | by left].
    + rewrite IH. apply (f_equal (λ b : bool, if b then None else g !! n)).
      apply bool_decide_ext. rewrite elem_of_cons. naive_solver.
Qed.

(** ** Wiring *)

Lemma edges_wiring (g : Graph) n : edges g n = default [] (wiring g !! n).
Proof. unfold edges, wiring. rewrite lookup_fmap. by destruct (g !! n). Qed.

Lemma clients_wiring (g1 g2 : Graph) n :
  wiring g1 = wiring g2 → clients g1 n = clients g2 n.
Proof.
  intros Hw. unfold clients.
  assert (∀ g : Graph, (map_to_list g).*1 = (map_to_list (wiring g)).*1) as Hkeys.
  { intros g. unfold wiring. rewrite map_to_list_fmap, <- list_fmap_compose.
    apply list_fmap_ext. by intros i [k a]. }
  rewrite (Hkeys g1), (Hkeys g2), Hw.
  apply list_filter_iff. intros c. unfold servers. by rewrite !edges_wiring, Hw.
Qed.

Lemma wellFormed_servers (g : Graph) n s :
  wellFormed g → s ∈ servers g n → is_Some (g !! s).
Proof.
  intros Hwf Hs. unfold servers, edges in Hs.
  destruct (g !! n) as [a |] eqn:Ha; [| by apply elem_of_nil in Hs].
  simpl in Hs. apply list_elem_of_fmap in Hs as (e & -> & He).
  pose proof (proj1 (map_Forall_lookup _ _) Hwf n a Ha) as Hall.
  by apply (proj1 (Forall_forall _ _) Hall e).
Qed.

Lemma acyclic_servers rank (g : Graph) n s :
  acyclic rank g → s ∈ servers g n → rank s < rank n.
Proof.
  intros Hac Hs. unfold servers, edges in Hs.
  destruct (g !! n) as [a |] eqn:Ha; [| by apply elem_of_nil in Hs].
  simpl in Hs. apply list_elem_of_fmap in Hs as (e & -> & He).
  pose proof (proj1 (map_Forall_lookup _ _) Hac n a Ha) as Hall.
  by apply (proj1 (Forall_forall _ _) Hall e).
Qed.

Lemma unmarked_attributes (g : Graph) n : unmarked g → attributes (argAt g n) = ∅.
Proof.
  intros Hu. unfold argAt. destruct (g !! n) as [a |] eqn:Ha; [| done].
  by apply (proj1 (map_Forall_lookup _ _) Hu n a Ha).
Qed.

(** ** The graph under the aggregator *)

Lemma NormalizationIntegralUnfolder_new_eq fuel (g : Graph) topNode normSet :
  NormalizationIntegralUnfolder_new fuel g topNode normSet =
  '(normSets, st) ← unfoldIntegrals fuel (RooAddition_new g topNode).1 normSet ∅
                      (mkRewrite (RooAddition_new g topNode).2 [] [] []);
  Done (mkUnfolder (RooAddition_new g topNode).1 (newNodes st)
                   (bool_decide (normSet = [])) normSets
                   (replacedArgs st) (newArgs st)
                   (default topNode
                      (head (servers (graph st) (RooAddition_new g topNode).1))),
        graph st).
Proof. done. Qed.

Section aggregator.
Context (g : Graph) (rank : DataKey → nat) (topNode : DataKey).
Context (Hwf : wellFormed g) (Hac : acyclic rank g) (Hun : unmarked g).
Context (Htop : is_Some (g !! topNode)).
Context (d : DataKey) (h0 : Graph).
Context (Hd : d = (RooAddition_new g topNode).1).
Context (Hh0 : h0 = (RooAddition_new g topNode).2).

Lemma aggregator_fresh : g !! d = None.
Proof. rewrite Hd. apply not_elem_of_dom, is_fresh. Qed.

Lemma aggregator_lookup_ne n : n ≠ d → h0 !! n = g !! n.
Proof. rewrite Hd, Hh0. intros. simpl. by rewrite lookup_insert_ne. Qed.

Lemma aggregator_self : is_Some (h0 !! d).
Proof. rewrite Hd, Hh0. simpl. rewrite lookup_insert_eq. eauto. Qed.

Lemma aggregator_edges_ne n : n ≠ d → edges h0 n = edges g n.
Proof. intros. unfold edges. by rewrite aggregator_lookup_ne. Qed.

Lemma aggregator_edges : edges h0 d = [(topNode, true)].
Proof. rewrite Hd, Hh0. unfold edges. simpl. by rewrite lookup_insert_eq. Qed.

Lemma aggregator_in n : is_Some (g !! n) → is_Some (h0 !! n) ∧ n ≠ d.
Proof.
  intros Hn. assert (n ≠ d) as Hne.
  { intros ->. rewrite aggregator_fresh in Hn. by destruct Hn. }
  split; [| done]. by rewrite aggregator_lookup_ne.
Qed.

Lemma aggregator_dom : dom h0 = {[d]} ∪ dom g.
Proof. rewrite Hd, Hh0. simpl. by rewrite dom_insert_L. Qed.

Lemma aggregator_closed n s : s ∈ servers h0 n → is_Some (h0 !! s).
Proof.
  unfold servers. destruct (decide (n = d)) as [-> | Hn].
  - rewrite aggregator_edges. simpl. intros ->%list_elem_of_singleton.
    by apply aggregator_in.
  - rewrite aggregator_edges_ne by done. intros Hs.
    apply aggregator_in. by apply (wellFormed_servers g n s).
Qed.

Lemma aggregator_ranked n s :
  s ∈ servers h0 n →
  (if decide (s = d) then S (rank topNode) else rank s) <
  (if decide (n = d) then S (rank topNode) else rank n).
Proof.
  unfold servers. destruct (decide (n = d)) as [-> | Hn].
  - rewrite aggregator_edges. simpl. intros ->%list_elem_of_singleton.
    destruct (aggregator_in topNode Htop) as [_ Hne].
    rewrite decide_False by done. lia.
  - rewrite aggregator_edges_ne by done. intros Hs.
    pose proof (wellFormed_servers g n s Hwf Hs) as Hin.
    destruct (aggregator_in s Hin) as [_ Hne].
    rewrite decide_False by done. by apply (acyclic_servers rank g n s).
Qed.

Lemma aggregator_unmarked n : attributes (argAt h0 n) = ∅.
Proof.
  destruct (decide (n = d)) as [-> | Hn].
  - rewrite Hd, Hh0. simpl. by rewrite argAt_insert_eq.
  - unfold argAt. rewrite aggregator_lookup_ne by done.
    by apply (unmarked_attributes g n).
Qed.

(** What the constructor leaves behind. *)
Lemma constructed normSet fuel this g' :
  NormalizationIntegralUnfolder_new fuel g topNode normSet = Done (this, g') →
  _topNodeWrapper this = d ∧
  ((_normSetWasEmpty this = true ∧ g' = h0 ∧ _ownedComponents this = []) ∨
   (_normSetWasEmpty this = false ∧
    ∃ nodes pairs,
      (∀ n, n ∈ nodes → reaches h0 d n) ∧
      unfolded h0 nodes nodes pairs
        (mkRewrite g' (_replacedArgs this) (_newArgs this) (_ownedComponents this)))).
Proof.
  rewrite NormalizationIntegralUnfolder_new_eq, <- Hd, <- Hh0.
  intros ([normSets st] & Hunf & Hret)%bind_Done. simpl in Hret.
  injection Hret as <- <-. simpl. split; [done |].
  unfold unfoldIntegrals in Hunf. case_bool_decide as Hempty.
  { injection Hunf as <- <-. by left. }
  right. split; [done |].
  apply bind_Done in Hunf as (checker & _ & Hunf).
  apply bind_Done in Hunf as (walk & Hwalk & Hunf).
  apply bind_Done in Hunf as ([checker' normSets'] & _ & Hunf).
  apply bind_Done in Hunf as (st' & Hloop & Hret).
  injection Hret as <- <-. cbn [graph] in *.
  assert (listed walk) as [Hnd _].
  { eapply treeNodeServerListAndNormSets_listed; [| done].
    split; simpl; [apply NoDup_nil_2 | done]. }
  assert (∀ n, n ∈ w_list walk → reaches h0 d n) as Hreach.
  { eapply treeNodeServerListAndNormSets_reaches; [| | done].
    - apply rtc_refl.
    - by intros n ?%elem_of_nil. }
  pose proof aggregator_self as Hself.
  destruct (wrapLoop_unfolded h0 (w_list walk) normSets' st') as [pairs Hpairs].
  - apply aggregator_closed.
  - intros n Hn. eapply reaches_in_graph; [apply aggregator_closed | done |].
    by apply Hreach.
  - done.
  - done.
  - exists (w_list walk), pairs. split; [done |]. by destruct st'.
Qed.

(** What [foldIntegrals] makes of the rewritten graph. *)
Lemma folded nodes pairs st fuel' :
  (∀ n, n ∈ nodes → reaches h0 d n) →
  unfolded h0 nodes nodes pairs st →
  rank topNode + 1 < fuel' →
  ∃ gB,
    foldIntegrals fuel' d (replacedArgs st) (newArgs st) (graph st) = Done gB ∧
    dom gB = dom (graph st) ∧
    (∀ n, is_Some (h0 !! n) → edges gB n = edges h0 n) ∧
    (∀ n, h0 !! n = None → edges gB n = edges (graph st) n).
Proof.
  intros Hreach (Hrep & Hnew & Hown & Hnd1 & Hnd2 & Hp & Hwfresh & Hdom & Hclosed
                 & Hback & Hout & Hattr & Hw) Hfuel.
  unfold foldIntegrals. rewrite Hrep, Hnew, !length_fmap, Nat.eqb_refl. simpl.
  rewrite zip_fst_snd.
  destruct (markers_set (graph st) pairs) as (Hset & _ & Hedges1 & Hdom1); [done | |].
  { intros p Hin. destruct (Hp p Hin) as [_ Hp0]. split.
    - apply elem_of_dom. rewrite Hdom. apply elem_of_union. left.
      by apply elem_of_dom.
    - rewrite Hattr by done. apply aggregator_unmarked. }
  set (g1 := foldl _ (graph st) pairs) in *.
  assert (folding h0 pairs g1) as Hfolding.
  { split; [done |]. intros n Hn. rewrite Hedges1. by apply Hback. }
  destruct (recursiveRedirectServers_restores h0 pairs
              (λ n, if decide (n = d) then S (rank topNode) else rank n)
              aggregator_closed aggregator_ranked Hwfresh fuel' d g1)
    as (gR & -> & _ & Hmono & Hrestored & Houtside & HdomR); [| | done |].
  { apply aggregator_self. }
  { rewrite decide_True by done. lia. }
  simpl.
  destruct (markers_cleared gR pairs) as [HedgesB HdomB].
  eexists. split; [done |]. split_and!.
  - by rewrite HdomB, HdomR, Hdom1.
  - intros n Hn. rewrite HedgesB.
    destruct (decide (n ∈ nodes)) as [Hin | Hnin].
    + by apply Hrestored, Hreach.
    + apply Hmono. rewrite Hedges1. by apply Hout.
  - intros n Hn. by rewrite HedgesB, Houtside, Hedges1.
Qed.

(** What remains once the aggregator and the wrappers are gone. *)
Lemma released (gB : Graph) owned :
  dom gB = dom h0 ∪ list_to_set owned →
  (∀ w, w ∈ owned → h0 !! w = None) →
  (∀ n, is_Some (h0 !! n) → edges gB n = edges h0 n) →
  wiring (foldr delete gB (d :: owned)) = wiring g.
Proof.
  intros Hdom Hfresh Hedges. apply map_eq. intros n. unfold wiring.
  rewrite !lookup_fmap, lookup_foldr_delete.
  destruct (g !! n) as [a |] eqn:Ha.
  - destruct (aggregator_in n) as [Hn0 Hnd]; [eauto |].
    rewrite bool_decide_eq_false_2.
    2:{ intros [-> | Hin]%elem_of_cons; [done |].
        destruct Hn0 as [? Hn0]. by rewrite (Hfresh n Hin) in Hn0. }
    assert (is_Some (gB !! n)) as [b Hb].
    { apply elem_of_dom. rewrite Hdom. apply elem_of_union. left.
      by apply elem_of_dom. }
    rewrite Hb. simpl. f_equal.
    pose proof (Hedges n Hn0) as He. rewrite aggregator_edges_ne in He by done.
    unfold edges in He. by rewrite Hb, Ha in He.
  - case_bool_decide as Hin; [done |].
    apply not_elem_of_cons in Hin as [Hnd Hno].
    assert (gB !! n = None) as ->; [| done].
    apply not_elem_of_dom. rewrite Hdom, aggregator_dom.
    apply not_elem_of_dom in Ha.
    rewrite !elem_of_union, elem_of_singleton, elem_of_list_to_set. tauto.
Qed.
End aggregator.

(** ** Round trip *)




(** The end-to-end scenario: the sum's servers become the two wrappers, the
    wrapper of the pdf 4 is built over {1} only, and destroying the
    unfolder gives the sum its servers back. *)
Example sum_of_two_pdfs :
  NormalizationIntegralUnfolder_new 10 sumGraph 5 [1; 2]
    = Done (sumUnfolder, sumUnfolded) ∧
  servers sumUnfolded 5 = [7; 8] ∧
  wrapped (argAt sumUnfolded 7) = Some (3, [1; 2]) ∧
  wrapped (argAt sumUnfolded 8) = Some (4, [1]) ∧
  ∃ g, NormalizationIntegralUnfolder_delete 10 sumUnfolder sumUnfolded = Done g ∧
       servers g 5 = [3; 4] ∧ wiring g = wiring sumGraph.
Proof.
  split; [vm_compute; reflexivity |]. split; [reflexivity |].
  split; [reflexivity |]. split; [reflexivity |].
  eexists. split; [vm_compute; reflexivity |]. split; vm_compute; reflexivity.
Qed.

(** * Further properties of the checker *)

(** ** The memo table *)

Lemma emplace_subseteq `{Countable K} {V} (k : K) (v : V) (m : gmap K V) :
  m ⊆ emplace k v m.
Proof.
  unfold emplace. destruct (m !! k) eqn:Hk; [done |].
  by apply insert_subseteq.
Qed.

Lemma emplace_is_Some `{Countable K} {V} (k : K) (v : V) (m : gmap K V) :
  is_Some (emplace k v m !! k).
Proof.
  unfold emplace. destruct (m !! k) eqn:Hk; [by rewrite Hk |].
  rewrite lookup_insert_eq. eauto.
Qed.

Lemma emplace_present `{Countable K} {V} (k : K) (v w : V) (m : gmap K V) :
  m !! k = Some w → emplace k v m = m.
Proof. intros Hk. unfold emplace. by rewrite Hk. Qed.

Lemma dependsOn_servers_grows rec p l results t results' :
  (∀ results s t r, rec results s = Done (t, r) → results ⊆ r) →
  dependsOn_servers rec p l results = Done (t, results') →
  results ⊆ results'.
Proof.
  intros Hrec. revert results.
  induction l as [| s l IH]; intros results; simpl.
  - intros [= <- <-]. apply emplace_subseteq.
  - intros ([t1 r1] & H1 & Hrun)%bind_Done. simpl in Hrun.
    apply Hrec in H1.
    assert (results ⊆ emplace (s, p.2) t1 r1) as Hsub.
    { etrans; [done |]. apply emplace_subseteq. }
    destruct t1.
    + by injection Hrun as <- <-.
    + apply IH in Hrun. by etrans.
Qed.

Lemma dependsOn_results_grows fuel lists testArg results arg t results' :
  dependsOn_results fuel lists testArg results arg = Done (t, results') →
  results ⊆ results'.
Proof.
  revert results arg t results'.
  induction fuel as [| fuel IH]; intros results arg t results'; [done |].
  simpl. destruct (results !! (arg, testArg)); [by intros [= <- <-] |].
  case_bool_decide; [by intros [= <- <-] |].
  destruct (lists !! arg) as [l |]; [| done].
  case_bool_decide.
  - intros [= <- <-]. apply emplace_subseteq.
  - apply dependsOn_servers_grows. intros r s t1 r1. apply IH.
Qed.

(** ** A query asked again *)

Lemma dependsOn_results_S fuel lists testArg results arg :
  dependsOn_results (S fuel) lists testArg results arg =
  match results !! (arg, testArg) with
  | Some found => Done (found, results)
  | None =>
      if bool_decide (arg = testArg) then Done (true, results)
      else
        match lists !! arg with
        | None => Throw out_of_range
        | Some serverList =>
            if bool_decide (testArg ∈ serverList)
            then Done (true, emplace (arg, testArg) true results)
            else dependsOn_servers (dependsOn_results fuel lists testArg)
                   (arg, testArg) serverList results
        end
  end.
Proof. done. Qed.

Section repeat.
Context (lists : gmap DataKey (list DataKey)).

(** The loop over the servers, run again on a table that contains what
    the first run left: every recursive call is answered from the table. *)
Lemma dependsOn_servers_again fuel fuel' arg testArg l results t results' :
  sound lists results →
  dependsOn_servers (dependsOn_results fuel lists testArg) (arg, testArg) l results
    = Done (t, results') →
  ∀ R, results' ⊆ R → sound lists R →
    dependsOn_servers (dependsOn_results (S fuel') lists testArg) (arg, testArg) l R
    = Done (t, if t then R else emplace (arg, testArg) false R).
Proof.
  revert results. induction l as [| s l IH]; intros results Hs; simpl.
  - by intros [= <- <-] R _ _.
  - intros ([t1 r1] & H1 & Hrun)%bind_Done R Hsub HR. simpl in Hrun.
    pose proof (dependsOn_results_sound lists _ _ _ _ _ _ Hs H1) as [Hs1 Ht1].
    assert (sound lists (emplace (s, testArg) t1 r1)) as Hs2
      by by apply sound_emplace.
    assert (emplace (s, testArg) t1 r1 ⊆ results') as Hsub1.
    { destruct t1; [by injection Hrun as <- <- |].
      eapply dependsOn_servers_grows; [| done].
      intros r s' t2 r2. apply dependsOn_results_grows. }
    assert (R !! (s, testArg) = Some t1) as Hmemo.
    { destruct (emplace_is_Some (s, testArg) t1 r1) as [v Hv].
      assert (v = t1) as ->.
      { apply Hs2 in Hv. destruct v, t1; naive_solver. }
      eapply lookup_weaken; [done |]. by etrans. }
    rewrite Hmemo. simpl. rewrite (emplace_present _ _ t1) by done.
    destruct t1; [by injection Hrun as <- <- |].
    by apply (IH (emplace (s, testArg) false r1)).
Qed.

Lemma dependsOn_results_again fuel fuel' testArg results arg t results' :
  sound lists results →
  dependsOn_results fuel lists testArg results arg = Done (t, results') →
  dependsOn_results (S (S fuel')) lists testArg results' arg = Done (t, results').
Proof.
  intros Hs Hrun.
  pose proof (dependsOn_results_sound lists _ _ _ _ _ _ Hs Hrun) as [Hs' Ht].
  pose proof (dependsOn_results_grows _ _ _ _ _ _ _ Hrun) as Hsub.
  rewrite dependsOn_results_S.
  destruct (results' !! (arg, testArg)) as [v |] eqn:Hv.
  { apply Hs' in Hv as Hv'. f_equal. f_equal. destruct v, t; naive_solver. }
  assert (results !! (arg, testArg) = None) as Hnone.
  { destruct (results !! (arg, testArg)) as [w |] eqn:Hw; [| done].
    eapply lookup_weaken in Hw; [| done]. congruence. }
  destruct fuel as [| fuel]; [done |]. simpl in Hrun. rewrite Hnone in Hrun.
  case_bool_decide; [by injection Hrun as <- <- |].
  destruct (lists !! arg) as [l |]; [| done].
  case_bool_decide.
  { injection Hrun as <- <-.
    destruct (emplace_is_Some (arg, testArg) true results) as [? ?]. congruence. }
  pose proof (dependsOn_servers_again _ fuel' _ _ _ _ _ _ Hs Hrun results'
                (reflexivity _) Hs') as Hagain.
  rewrite Hagain. destruct t; [done |].
  exfalso. clear Hagain.
  assert (is_Some (results' !! (arg, testArg))) as [? ?]; [| congruence].
  clear -Hrun. revert results Hrun.
  induction l as [| s l IH]; intros results; simpl.
  - intros [= <-]. apply emplace_is_Some.
  - intros ([t1 r1] & _ & Hrun)%bind_Done. simpl in Hrun.
    destruct t1; [done |]. by eapply IH.
Qed.
End repeat.

(** ** The server lists of the snapshot *)

Lemma StronglySorted_unique l :
  StronglySorted Nat.le l → StronglySorted lt (unique l).
Proof.
  induction l as [| x l IH]; intros Hs; [constructor |].
  apply StronglySorted_inv in Hs as [Hs Hall].
  specialize (IH Hs). simpl. destruct l as [| y l]; [repeat constructor |].
  case_bool_decide as Hxy; [done |].
  constructor; [done |].
  apply Forall_forall. intros z Hz. apply (proj1 (elem_of_unique _ _)) in Hz.
  apply Forall_cons in Hall as [Hle Hall].
  apply StronglySorted_inv in Hs as [_ Hy].
  assert (y ≤ z).
  { apply elem_of_cons in Hz as [-> | Hz]; [done |].
    by eapply (proj1 (Forall_forall _ _) Hy). }
  lia.
Qed.

Lemma Sorted_lt_sortUnique l : Sorted lt (sortUnique l).
Proof.
  apply StronglySorted_Sorted, StronglySorted_unique.
  apply Sorted_StronglySorted; [intros ? ? ? ? ?; lia |].
  apply Sorted_merge_sort, _.
Qed.

Lemma NoDup_sortUnique l : NoDup (sortUnique l).
Proof.
  pose proof (Sorted_lt_sortUnique l) as Hs.
  apply Sorted_StronglySorted in Hs; [| intros ? ? ? ? ?; lia].
  induction Hs as [| x k Hs IH Hall]; [apply NoDup_nil_2 |].
  apply NoDup_cons. split; [| done].
  intros Hin. eapply Forall_forall in Hall; [| done]. lia.
Qed.

Section listing.
Context (g : Graph).

(** Every node that [treeNodeServerList] adds lies below its argument. *)
Lemma treeNodeServerList_reaches fuel root arg lst lst' :
  reaches g root arg → (∀ n, n ∈ lst → reaches g root n) →
  treeNodeServerList fuel g false arg lst = Done lst' →
  ∀ n, n ∈ lst' → reaches g root n.
Proof.
  revert arg lst lst'.
  induction fuel as [| fuel IH]; intros arg lst lst' Harg Hlst; [done |].
  simpl. intros Hrun.
  refine (forEach_Done_invariant (λ l, ∀ n, n ∈ l → reaches g root n)
            _ _ _ _ _ _ Hrun).
  - intros l e l' He Hl Hbody. simpl in Hbody. eapply IH; [| done | done].
    eapply rtc_r; [done |]. unfold servers. apply list_elem_of_fmap. by exists e.
  - intros n [Hn | ->%list_elem_of_singleton]%elem_of_app; [by apply Hlst | done].
Qed.

Lemma treeNodeServerList_complete fuel arg lst' n :
  treeNodeServerList fuel g false arg [] = Done lst' →
  reaches g arg n → n ∈ lst'.
Proof.
  intros (_ & Harg & Hcl)%treeNodeServerList_closed Hr.
  induction Hr as [| x y z Hxy _ IH]; [done |].
  apply IH. destruct (Hcl x Harg) as [?%elem_of_nil | Hsub]; [done |].
  by apply Hsub.
Qed.
End listing.

(** The keys of the snapshot. *)
Lemma GraphChecker_new_keys fuel (g : Graph) topNode checker n :
  GraphChecker_new fuel g topNode = Done checker →
  is_Some (_serverLists checker !! n) ↔ reaches g topNode n.
Proof.
  unfold GraphChecker_new. intros (nodes & Hnodes & [= <-])%bind_Done. simpl.
  destruct (RooArgSet_of_spec nodes) as [_ Hset].
  destruct (collectServers_collected g (RooArgSet_of nodes)) as [Hkeys _].
  rewrite lookup_fmap, fmap_is_Some, Hkeys, Hset. split.
  - eapply treeNodeServerList_reaches; [apply rtc_refl | | done].
    by intros ? ?%elem_of_nil.
  - by eapply treeNodeServerList_complete.
Qed.

(** X1.  The snapshot the constructor takes has a key for exactly the
    nodes reached from the top node along server edges, value edges or
    not; the list kept for a node holds exactly the servers of the node, in
    strictly increasing order of the keys, hence each of them once; and the
    memo table starts empty. *)
Theorem GraphChecker_new_server_lists (fuel : nat) (g : Graph)
    (topNode : DataKey) (checker : GraphChecker) :
  GraphChecker_new fuel g topNode = Done checker →
  _results checker = ∅ ∧
  (∀ n, is_Some (_serverLists checker !! n) ↔ reaches g topNode n) ∧
  ∀ n l, _serverLists checker !! n = Some l →
         Sorted lt l ∧ NoDup l ∧ ∀ s, s ∈ l ↔ s ∈ servers g n.
Proof.
  intros Hnew. split; [by apply GraphChecker_new_snapshot in Hnew as (? & _) |].
  split; [intros n; by eapply GraphChecker_new_keys |].
  intros n l Hl.
  pose proof Hnew as (_ & _ & Hel & _)%GraphChecker_new_snapshot.
  unfold GraphChecker_new in Hnew.
  apply bind_Done in Hnew as (nodes & _ & [= <-]). simpl in Hl.
  rewrite lookup_fmap in Hl. apply fmap_Some in Hl as (l0 & Hl0 & ->).
  split; [apply Sorted_lt_sortUnique |]. split; [apply NoDup_sortUnique |].
  apply (Hel n). simpl. by rewrite lookup_fmap, Hl0.
Qed.

(** X1 at the diamond. *)
Lemma GraphChecker_new_server_lists_witness :
  _results (mkChecker diamondLists ∅) = ∅ ∧
  (∀ n, is_Some (_serverLists (mkChecker diamondLists ∅) !! n)
        ↔ reaches diamondGraph 4 n) ∧
  ∀ n l, _serverLists (mkChecker diamondLists ∅) !! n = Some l →
         Sorted lt l ∧ NoDup l ∧ ∀ s, s ∈ l ↔ s ∈ servers diamondGraph n.
Proof.
  apply (GraphChecker_new_server_lists 4 diamondGraph 4 (mkChecker diamondLists ∅)).
  vm_compute. reflexivity.
Defined.

(** X2.  A query never changes the snapshot and only adds to the memo
    table: an answer that has been recorded is neither erased nor
    overwritten, whatever the query returns. *)
Theorem dependsOn_memo_only_grows (fuel : nat) (checker : GraphChecker)
    (arg testArg : DataKey) (t : bool) (checker' : GraphChecker) :
  dependsOn fuel checker arg testArg = Done (t, checker') →
  _serverLists checker' = _serverLists checker ∧
  ∀ p v, _results checker !! p = Some v → _results checker' !! p = Some v.
Proof.
  unfold dependsOn. intros ([t' results'] & Hrun & [= <- <-])%bind_Done.
  simpl. split; [done |]. intros p v Hp.
  eapply lookup_weaken; [done |]. by eapply dependsOn_results_grows.
Qed.

(** X2 at the diamond. *)
Lemma dependsOn_memo_only_grows_witness :
  _serverLists (mkChecker diamondLists {[(3, 1) := true; (2, 1) := true]})
    = _serverLists (mkChecker diamondLists {[(3, 1) := true]}) ∧
  ∀ p v, _results (mkChecker diamondLists {[(3, 1) := true]}) !! p = Some v →
         _results (mkChecker diamondLists {[(3, 1) := true; (2, 1) := true]}) !! p
           = Some v.
Proof.
  apply (dependsOn_memo_only_grows 3 (mkChecker diamondLists {[(3, 1) := true]})
           4 1 true).
  vm_compute. reflexivity.
Defined.

(** X3.  Asking the same question again is cheap and changes nothing:
    on a sound memo table, once [dependsOn arg testArg] has returned, the
    same query on the checker it left returns the same answer with any
    recursion budget of at least two, that is, with the call itself and at
    most one level of calls on its servers below it, and leaves the memo
    table as it is.  The repeated query can need that one level: a pair
    that is answered true through a server is not memoised itself. *)
Theorem dependsOn_repeated_query (fuel fuel' : nat) (checker : GraphChecker)
    (arg testArg : DataKey) (t : bool) (checker' : GraphChecker) :
  sound (_serverLists checker) (_results checker) →
  dependsOn fuel checker arg testArg = Done (t, checker') →
  2 ≤ fuel' →
  dependsOn fuel' checker' arg testArg = Done (t, checker').
Proof.
  intros Hs Hrun Hfuel. unfold dependsOn in *.
  apply bind_Done in Hrun as ([t' results'] & Hrun & [= <- <-]). simpl.
  destruct fuel' as [| [| fuel']]; [lia | lia |].
  by rewrite (dependsOn_results_again _ fuel fuel' testArg (_results checker) arg
                _ _ Hs Hrun).
Qed.

(** X3 at the diamond: the query for 4 and 1 has left the pair (2, 1)
    only, and is repeated with a budget of two. *)
Lemma dependsOn_repeated_query_witness :
  dependsOn 2 (mkChecker diamondLists
                 {[(2, 1) := true]}) 4 1
  = Done (true, mkChecker diamondLists {[(2, 1) := true]}).
Proof.
  apply (dependsOn_repeated_query 4 2 (mkChecker diamondLists ∅) 4 1 true
           (mkChecker diamondLists {[(2, 1) := true]})).
  - apply sound_empty.
  - vm_compute. reflexivity.
  - lia.
Defined.

(** * Further properties of the propagation *)

(** ** What is recorded stays *)

Lemma extends_refl : Reflexive extends.
Proof. intros st. by split_and!. Qed.

Lemma extends_trans : Transitive extends.
Proof.
  intros a b c (? & ? & ?) (? & ? & ?). split_and!; by etrans.
Qed.

Lemma prefix_RooArgSet_add x s : s `prefix_of` RooArgSet_add x s.
Proof.
  unfold RooArgSet_add. case_bool_decide; [done |]. by apply prefix_app_r.
Qed.

Lemma visitServer_extends rec g arg normSet st e st' :
  (∀ server s st st', rec server s st = Done st' → extends st st') →
  visitServer rec g arg normSet st e = Done st' → extends st st'.
Proof.
  intros Hrec. unfold visitServer. destruct (negb e.2); [by intros [= <-] |].
  destruct (w_normSets st !! e.1); [| by apply Hrec].
  destruct (_ || _); [done | by intros [= <-]].
Qed.

Lemma treeNodeServerListAndNormSets_extends fuel g arg normSet st st' :
  treeNodeServerListAndNormSets fuel g arg normSet st = Done st' →
  extends st st'.
Proof.
  revert arg normSet st st'.
  induction fuel as [| fuel IH]; intros arg normSet st st'; [done |].
  simpl. destruct (w_normSets st !! arg) eqn:Harg; [by intros [= <-] |].
  set (st1 := mkWalk _ _ _).
  assert (extends st st1) as Hst1.
  { split_and!; simpl.
    - destruct (isPdf _); [| done]. by apply insert_subseteq.
    - apply prefix_RooArgSet_add.
    - by apply prefix_app_r. }
  destruct (_ && _); [| by intros [= <-]].
  apply (forEach_Done_invariant (extends st)); [| done].
  intros s x s' _ Hs Hbody. apply (extends_trans _ s); [done |].
  eapply visitServer_extends; [| done]. intros ? ? ? ?. apply IH.
Qed.

(** ** The visited set *)

Section visited.
Context (g : Graph).

Lemma treeNodeServerListAndNormSets_valueReaches fuel root arg normSet st st' :
  valueReaches g root arg →
  (∀ n, n ∈ w_list st → valueReaches g root n) →
  treeNodeServerListAndNormSets fuel g arg normSet st = Done st' →
  ∀ n, n ∈ w_list st' → valueReaches g root n.
Proof.
  revert arg normSet st st'.
  induction fuel as [| fuel IH]; intros arg normSet st st' Harg Hst; [done |].
  simpl. destruct (w_normSets st !! arg) eqn:Hfound; [by intros [= <-] |].
  set (st1 := mkWalk _ _ _).
  assert (∀ n, n ∈ w_list st1 → valueReaches g root n) as Hst1.
  { simpl. intros n [-> | Hn]%elem_of_RooArgSet_add; [done | by apply Hst]. }
  destruct (_ && _) eqn:Hbranch; [| by intros [= <-]].
  apply (forEach_Done_invariant (λ st, ∀ n, n ∈ w_list st → valueReaches g root n));
    [| done].
  intros s [b v] s' Hx Hs. unfold visitServer. simpl.
  destruct v; simpl; [| by intros [= <-]].
  destruct (w_normSets s !! b).
  - destruct (_ || _); [done | by intros [= <-]].
  - apply IH; [| done]. eapply rtc_r; [done |]. by split.
Qed.

Lemma expanded_mono L L' n : L ⊆ L' → expanded g L n → expanded g L' n.
Proof. intros Hsub He b Hb. by apply Hsub, He. Qed.

Lemma treeNodeServerListAndNormSets_expands fuel arg normSet st st' :
  (∀ n, is_Some (w_normSets st !! n) → n ∈ w_list st) →
  treeNodeServerListAndNormSets fuel g arg normSet st = Done st' →
  (∀ n, is_Some (w_normSets st' !! n) → n ∈ w_list st') ∧
  w_list st ⊆ w_list st' ∧ arg ∈ w_list st' ∧
  (∀ n, n ∈ w_list st' → n ∉ w_list st → expanded g (w_list st') n) ∧
  (w_normSets st !! arg = None → expanded g (w_list st') arg).
Proof.
  revert arg normSet st st'.
  induction fuel as [| fuel IH]; intros arg normSet st st' Hkeys; [done |].
  simpl. destruct (w_normSets st !! arg) eqn:Harg.
  { intros [= <-]. split_and!; [done | done | apply Hkeys; eauto | done | done]. }
  set (st1 := mkWalk _ _ _).
  assert (∀ n, is_Some (w_normSets st1 !! n) → n ∈ w_list st1) as Hkeys1.
  { simpl. intros n Hn. apply elem_of_RooArgSet_add.
    destruct (isPdf _); [| right; by apply Hkeys].
    destruct (decide (arg = n)) as [-> | Hne]; [by left |].
    rewrite lookup_insert_ne in Hn by done. right. by apply Hkeys. }
  assert (w_list st ⊆ w_list st1) as Hsub1.
  { simpl. intros n Hn. apply elem_of_RooArgSet_add. by right. }
  assert (arg ∈ w_list st1) as Harg1.
  { simpl. apply elem_of_RooArgSet_add. by left. }
  assert (∀ n, n ∈ w_list st1 → n ∉ w_list st → n = arg) as Hnew1.
  { simpl. intros n [-> | ?]%elem_of_RooArgSet_add; done. }
  destruct (_ && _) eqn:Hbranch.
  2:{ intros [= <-]. split_and!; [done | done | done | |].
      - intros n Hn Hnn b [Hb _]. rewrite (Hnew1 n Hn Hnn) in Hb. congruence.
      - intros _ b [Hb _]. congruence. }
  intros Hrun.
  apply (forEach_Done_prefix
           (λ pre s,
              (∀ n, is_Some (w_normSets s !! n) → n ∈ w_list s) ∧
              w_list st1 ⊆ w_list s ∧
              (∀ n, n ∈ w_list s → n ∉ w_list st1 → expanded g (w_list s) n) ∧
              (∀ e, e ∈ pre → e.2 = true → e.1 ∈ w_list s))) in Hrun.
  - destruct Hrun as (Hk & Hsub & Hnew & Hdone).
    assert (expanded g (w_list st') arg) as Hexp.
    { intros b [_ Hb]. by apply (Hdone (b, true)). }
    split_and!; [done | set_solver | set_solver | | done].
    intros n Hn Hnn. destruct (decide (n = arg)) as [-> | Hne]; [done |].
    apply Hnew; [done |]. intros Hn1. apply Hne. by apply Hnew1.
  - intros pre [b v] post s s' _ (Hk & Hsub & Hnew & Hdone) Hbody.
    unfold visitServer in Hbody. simpl in Hbody.
    destruct v; simpl in Hbody.
    2:{ injection Hbody as <-. split_and!; [done | done | done |].
        intros e [He | ->%list_elem_of_singleton]%elem_of_app; [by apply Hdone | done]. }
    destruct (w_normSets s !! b) eqn:Hb.
    { destruct (_ || _); [done |]. injection Hbody as <-.
      split_and!; [done | done | done |].
      intros e [He | ->%list_elem_of_singleton]%elem_of_app; [by apply Hdone |].
      intros _. apply Hk. simpl. eauto. }
    apply IH in Hbody as (Hk' & Hsub' & Hb' & Hnew' & _); [| done].
    split_and!; [done | set_solver | |].
    + intros n Hn Hnn. destruct (decide (n ∈ w_list s)) as [Hin | Hnin].
      * eapply expanded_mono; [done |]. by apply Hnew.
      * by apply Hnew'.
    + intros e [He | ->%list_elem_of_singleton]%elem_of_app; [| done].
      intros ?. by apply Hsub', Hdone.
  - split_and!; [done | done | done |]. by intros e ?%elem_of_nil.
Qed.

(** ** The keys of the table *)

Lemma treeNodeServerListAndNormSets_keys fuel arg normSet st st' :
  (∀ n, is_Some (w_normSets st !! n) → isPdfNode g n) →
  treeNodeServerListAndNormSets fuel g arg normSet st = Done st' →
  ∀ n, is_Some (w_normSets st' !! n) → isPdfNode g n.
Proof.
  revert arg normSet st st'.
  induction fuel as [| fuel IH]; intros arg normSet st st' Hkeys; [done |].
  simpl. destruct (w_normSets st !! arg) eqn:Harg; [by intros [= <-] |].
  set (st1 := mkWalk _ _ _).
  assert (∀ n, is_Some (w_normSets st1 !! n) → isPdfNode g n) as Hkeys1.
  { simpl. intros n Hn. destruct (isPdf _) eqn:Hpdf; [| by apply Hkeys].
    destruct (decide (arg = n)) as [<- | Hne]; [done |].
    rewrite lookup_insert_ne in Hn by done. by apply Hkeys. }
  destruct (_ && _); [| by intros [= <-]].
  apply (forEach_Done_invariant
           (λ st, ∀ n, is_Some (w_normSets st !! n) → isPdfNode g n)); [| done].
  intros s x s' _ Hs. unfold visitServer. destruct (negb x.2); [by intros [= <-] |].
  destruct (w_normSets s !! x.1); [| by apply IH].
  destruct (_ || _); [done | by intros [= <-]].
Qed.

(** ** Agreement of the recorded sets *)

Lemma agreed_mono (T T' : gmap DataKey (list DataKey)) p :
  T ⊆ T' → is_Some (T !! p) → agreed g T p → agreed g T' p.
Proof.
  intros Hsub [N0 HN0] Ha N s HN Hedge Hpdf.
  eapply lookup_weaken; [| done]. apply Ha; [| done | done].
  eapply lookup_weaken in HN0 as HN0'; [| done]. congruence.
Qed.

Lemma treeNodeServerListAndNormSets_agreed fuel arg normSet st st' :
  treeNodeServerListAndNormSets fuel g arg normSet st = Done st' →
  (∀ p, is_Some (w_normSets st' !! p) → w_normSets st !! p = None →
        agreed g (w_normSets st') p) ∧
  (w_normSets st !! arg = None → isPdfNode g arg →
   w_normSets st' !! arg = Some normSet).
Proof.
  revert arg normSet st st'.
  induction fuel as [| fuel IH]; intros arg normSet st st'; [done |].
  intros Hrun.
  pose proof (treeNodeServerListAndNormSets_extends _ _ _ _ _ _ Hrun) as (Hext & _).
  simpl in Hrun. destruct (w_normSets st !! arg) eqn:Harg.
  { injection Hrun as <-. split; [| done]. intros p [? ?] ?. congruence. }
  set (st1 := mkWalk _ _ _) in Hrun.
  assert (∀ p, is_Some (w_normSets st1 !! p) → w_normSets st !! p = None →
               p = arg ∧ w_normSets st1 !! arg = Some normSet) as Hnew1.
  { simpl. intros p Hp Hnone. destruct (isPdf _).
    - destruct (decide (arg = p)) as [<- | Hne].
      + by rewrite lookup_insert_eq.
      + rewrite lookup_insert_ne, Hnone in Hp by done. by destruct Hp.
    - rewrite Hnone in Hp. by destruct Hp. }
  assert (isPdfNode g arg → w_normSets st1 !! arg = Some normSet) as Hpdf1.
  { simpl. unfold isPdfNode. intros ->. by rewrite lookup_insert_eq. }
  assert (∀ p, w_normSets st1 !! p = None → w_normSets st !! p = None) as Hold1.
  { simpl. intros p. destruct (isPdf _); [| done].
    destruct (decide (arg = p)) as [<- | Hne]; [by rewrite lookup_insert_eq |].
    by rewrite lookup_insert_ne. }
  destruct (_ && _) eqn:Hbranch.
  2:{ injection Hrun as <-. split; [| by intros _].
      intros p Hp Hnone. destruct (Hnew1 p Hp Hnone) as [-> _].
      intros N s _ [Hb _]. congruence. }
  apply (forEach_Done_prefix
           (λ pre s,
              w_normSets st1 ⊆ w_normSets s ∧
              (∀ p, is_Some (w_normSets s !! p) → w_normSets st1 !! p = None →
                    agreed g (w_normSets s) p) ∧
              (∀ e, e ∈ pre → e.2 = true → isPdfNode g e.1 →
                    w_normSets s !! e.1 =
                    Some (serverNormSetFor g arg normSet e.1)))) in Hrun.
  - destruct Hrun as (Hsub & Hnew & Hdone).
    assert (isPdfNode g arg → w_normSets st' !! arg = Some normSet) as Hpdf'.
    { intros Hpdf. eapply lookup_weaken; [by apply Hpdf1 | done]. }
    split; [| by intros _].
    intros p Hp Hnone.
    destruct (w_normSets st1 !! p) as [N1 |] eqn:Hp1; [| by apply Hnew].
    destruct (Hnew1 p) as [-> HN]; [by rewrite Hp1 | done |].
    intros N s HN' [_ Hedge] Hpdf.
    eapply lookup_weaken in HN; [| done].
    assert (N = normSet) as -> by congruence.
    by apply (Hdone (s, true)).
  - intros pre [b v] post s s' _ (Hsub & Hnew & Hdone) Hbody.
    unfold visitServer in Hbody. simpl in Hbody.
    destruct v; simpl in Hbody.
    2:{ injection Hbody as <-. split_and!; [done | done |].
        intros e [He | ->%list_elem_of_singleton]%elem_of_app; [by apply Hdone | done]. }
    destruct (w_normSets s !! b) as [found |] eqn:Hb.
    { destruct (_ || _) eqn:Hconflict; [done |]. injection Hbody as <-.
      split_and!; [done | done |].
      intros e [He | ->%list_elem_of_singleton]%elem_of_app; [by apply Hdone |].
      intros _ _. simpl. rewrite Hb. f_equal.
      apply orb_false_iff in Hconflict as [_ Hlay].
      apply negb_false_iff in Hlay. unfold hasSameLayout in Hlay.
      by apply bool_decide_eq_true_1 in Hlay. }
    pose proof (treeNodeServerListAndNormSets_extends _ _ _ _ _ _ Hbody) as (Hext' & _).
    apply IH in Hbody as (Hnew' & Hb').
    split_and!; [by etrans | |].
    + intros p Hp Hnone. destruct (w_normSets s !! p) as [N0 |] eqn:Hp0.
      * eapply agreed_mono; [done | by rewrite Hp0 |]. apply Hnew; [| done].
        by rewrite Hp0.
      * by apply Hnew'.
    + intros e [He | ->%list_elem_of_singleton]%elem_of_app.
      * intros ? ?. eapply lookup_weaken; [by apply Hdone | done].
      * intros _ Hpdf. by apply Hb'.
  - split_and!; [done | | by intros e ?%elem_of_nil].
    intros p Hp Hnone. by rewrite Hnone in Hp; destruct Hp.
Qed.
End visited.

(** X4.  The propagation only adds to its state: a normalization set
    that has been recorded for a node is never replaced or removed, and the
    visited set grows at its end, so the nodes keep the order in which they
    were first reached. *)
Theorem propagation_extends_state (fuel : nat) (g : Graph) (arg : DataKey)
    (normSet : list DataKey) (st st' : Walk) :
  treeNodeServerListAndNormSets fuel g arg normSet st = Done st' →
  (∀ n s, w_normSets st !! n = Some s → w_normSets st' !! n = Some s) ∧
  w_list st `prefix_of` w_list st' ∧
  w_entered st `prefix_of` w_entered st'.
Proof.
  intros (Hsub & Hl & He)%treeNodeServerListAndNormSets_extends.
  split; [| done]. intros n s Hn. by eapply lookup_weaken.
Qed.

(** X4 at [sharedFunctionGraph], for the call on the pdf 3 that follows
    the visit of the pdf 4. *)
Lemma propagation_extends_state_witness :
  (∀ n s, w_normSets (mkWalk [5; 4; 2; 1] {[5 := [1]; 4 := [1]]} [5; 4; 2; 1]) !! n
            = Some s → w_normSets sharedFunctionWalk !! n = Some s) ∧
  w_list (mkWalk [5; 4; 2; 1] {[5 := [1]; 4 := [1]]} [5; 4; 2; 1])
    `prefix_of` w_list sharedFunctionWalk ∧
  w_entered (mkWalk [5; 4; 2; 1] {[5 := [1]; 4 := [1]]} [5; 4; 2; 1])
    `prefix_of` w_entered sharedFunctionWalk.
Proof.
  apply (propagation_extends_state 3 sharedFunctionGraph 3 [1]).
  vm_compute. reflexivity.
Defined.

(** X5.  Started on an empty state, the propagation visits exactly the
    nodes reached from the top node along value edges that leave derived,
    non-fundamental nodes: nothing behind a non-value edge or below a
    fundamental node is visited for its sake, and nothing that can be
    reached is left out. *)
Theorem visited_set_is_value_reachable (fuel : nat) (g : Graph)
    (topNode : DataKey) (normSet : list DataKey) (st' : Walk) :
  treeNodeServerListAndNormSets fuel g topNode normSet (mkWalk [] ∅ []) = Done st' →
  ∀ n, n ∈ w_list st' ↔ valueReaches g topNode n.
Proof.
  intros Hrun n. split.
  - eapply treeNodeServerListAndNormSets_valueReaches; [apply rtc_refl | | done].
    by intros ? ?%elem_of_nil.
  - apply treeNodeServerListAndNormSets_expands in Hrun as (_ & _ & Htop & Hnew & _).
    2:{ simpl. intros m Hm. rewrite lookup_empty in Hm. by destruct Hm. }
    intros Hr. induction Hr as [| x y z Hxy _ IH]; [done |].
    apply IH. apply (Hnew x); [done | | done]. simpl. by intros ?%elem_of_nil.
Qed.

(** X5 at [shapeOnlyGraph]: the variable 1 behind the non-value edge of
    the pdf 2 is not visited. *)
Lemma visited_set_is_value_reachable_witness :
  treeNodeServerListAndNormSets 2 shapeOnlyGraph 2 [1] (mkWalk [] ∅ [])
    = Done (mkWalk [2] {[2 := [1]]} [2]) ∧
  (1 ∈ w_list (mkWalk [2] {[2 := [1]]} [2]) ↔ valueReaches shapeOnlyGraph 2 1).
Proof.
  split; [vm_compute; reflexivity |].
  apply (visited_set_is_value_reachable 2 shapeOnlyGraph 2 [1]).
  vm_compute. reflexivity.
Defined.

(** X6.  Started on an empty state, the propagation records a
    normalization set for exactly the pdfs of the visited set, so that the
    look-up [normSets.at(pdf)] of the rewrite loop finds an entry for every
    pdf it meets; the set recorded for a top node that is a pdf is the set
    the propagation was called with. *)
Theorem recorded_sets_are_for_visited_pdfs (fuel : nat) (g : Graph)
    (topNode : DataKey) (normSet : list DataKey) (st' : Walk) :
  treeNodeServerListAndNormSets fuel g topNode normSet (mkWalk [] ∅ []) = Done st' →
  (∀ n, is_Some (w_normSets st' !! n) ↔ n ∈ w_list st' ∧ isPdfNode g n) ∧
  (isPdfNode g topNode → w_normSets st' !! topNode = Some normSet).
Proof.
  intros Hrun. split.
  - intros n. split.
    + intros Hn. split.
      * apply treeNodeServerListAndNormSets_expands in Hrun as (Hk & _); [by apply Hk |].
        simpl. intros m Hm. rewrite lookup_empty in Hm. by destruct Hm.
      * eapply treeNodeServerListAndNormSets_keys; [| done | done].
        simpl. intros m Hm. rewrite lookup_empty in Hm. by destruct Hm.
    + intros [Hn Hpdf].
      assert (entered_once g (mkWalk [] ∅ [])) as H1.
      { split; simpl; [apply NoDup_nil_2 | by intros ? ?%elem_of_nil]. }
      assert (listed (mkWalk [] ∅ [])) as H2.
      { split; simpl; [apply NoDup_nil_2 | done]. }
      pose proof (treeNodeServerListAndNormSets_entered_once g _ _ _ _ _ H1 Hrun)
        as [_ Hrec].
      pose proof (treeNodeServerListAndNormSets_listed _ _ _ _ _ _ H2 Hrun)
        as [_ Hiff].
      apply Hrec; [by apply Hiff | done].
  - apply treeNodeServerListAndNormSets_agreed in Hrun as [_ Htop].
    by apply Htop.
Qed.

(** X6 at [sharedFunctionGraph]. *)
Lemma recorded_sets_are_for_visited_pdfs_witness :
  (∀ n, is_Some (w_normSets sharedFunctionWalk !! n)
        ↔ n ∈ w_list sharedFunctionWalk ∧ isPdfNode sharedFunctionGraph n) ∧
  (isPdfNode sharedFunctionGraph 5 → w_normSets sharedFunctionWalk !! 5 = Some [1]).
Proof.
  apply (recorded_sets_are_for_visited_pdfs 4 sharedFunctionGraph 5 [1]).
  vm_compute. reflexivity.
Defined.

(** X7.  When the propagation, started on an empty state, returns, the
    table is free of conflicts: for every pdf that has a recorded set and
    every value server of it that is a pdf, the set recorded for the server
    is the one the client hands to it, that is, the client's own recorded
    set or, sorted, the set [fillNormSetForServer] gives. *)
Theorem recorded_sets_agree (fuel : nat) (g : Graph) (topNode : DataKey)
    (normSet : list DataKey) (st' : Walk) :
  treeNodeServerListAndNormSets fuel g topNode normSet (mkWalk [] ∅ []) = Done st' →
  ∀ p N s, w_normSets st' !! p = Some N → valueEdge g p s → isPdfNode g s →
           w_normSets st' !! s = Some (serverNormSetFor g p N s).
Proof.
  intros Hrun p N s HN.
  apply treeNodeServerListAndNormSets_agreed in Hrun as [Hnew _].
  apply (Hnew p); [by rewrite HN | done | done].
Qed.

(** X7 at [sharedFunctionGraph], for the sum 5 and its server 4. *)
Lemma recorded_sets_agree_witness :
  w_normSets sharedFunctionWalk !! 4
  = Some (serverNormSetFor sharedFunctionGraph 5 [1] 4).
Proof.
  refine (recorded_sets_agree 4 sharedFunctionGraph 5 [1] sharedFunctionWalk
            _ 5 [1] 4 _ _ _).
  - vm_compute. reflexivity.
  - reflexivity.
  - split; [reflexivity |]. vm_compute. left.
  - reflexivity.
Defined.

(** * Further properties of the rewrite *)

Lemma Done_inj {A} (a b : A) : Done a = Done b → a = b.
Proof. by intros [= ->]. Qed.

(** ** How [unfoldIntegrals] can fail *)

Lemma treeNodeServerList_no_throw fuel (g : Graph) valueOnly arg lst e :
  treeNodeServerList fuel g valueOnly arg lst ≠ Throw e.
Proof.
  revert arg lst. induction fuel as [| fuel IH]; intros arg lst; [done |].
  simpl. intros Hrun.
  apply (forEach_Throw_inv (λ _, True)) in Hrun as (l & x & _ & _ & Hbody);
    [| done | done].
  destruct (valueOnly && negb x.2); [done |]. by eapply IH.
Qed.

Lemma GraphChecker_new_no_throw fuel (g : Graph) topNode e :
  GraphChecker_new fuel g topNode ≠ Throw e.
Proof.
  unfold GraphChecker_new.
  intros [Hthrow | (nodes & _ & Hthrow)]%bind_Throw; [| done].
  by eapply treeNodeServerList_no_throw.
Qed.

Section cleaning_throws.
Context (lists : gmap DataKey (list DataKey)) (nodes : list DataKey).
Context (Hclosed : closed lists).

Lemma keepIfDependent_serverLists fuel key st narg st' :
  keepIfDependent fuel nodes key st narg = Done st' →
  _serverLists st'.1 = _serverLists st.1.
Proof.
  unfold keepIfDependent, dependsOn.
  intros ([t ck] & Hdep & Hrun)%bind_Done.
  apply bind_Done in Hdep as ([t' r] & _ & [= <- <-]).
  destruct t'.
  - destruct (RooArgSet_find narg nodes); [| done]. by injection Hrun as <-.
  - by injection Hrun as <-.
Qed.

Lemma keepIfDependent_throws fuel key st narg e :
  _serverLists st.1 = lists → is_Some (lists !! key) →
  keepIfDependent fuel nodes key st narg = Throw e → e = null_dereference.
Proof.
  intros Hl Hkey. unfold keepIfDependent, dependsOn.
  intros [Hthrow | ([t ck] & _ & Hthrow)]%bind_Throw.
  - apply bind_Throw in Hthrow as [Hthrow | ([t r] & _ & Hthrow)]; [| done].
    rewrite Hl in Hthrow. by apply dependsOn_results_no_throw in Hthrow.
  - destruct t; [| done]. destruct (RooArgSet_find narg nodes); [done |].
    by injection Hthrow as <-.
Qed.

Lemma keepLoop_serverLists fuel key l st st' :
  forEach (keepIfDependent fuel nodes key) l st = Done st' →
  _serverLists st'.1 = _serverLists st.1.
Proof.
  apply (forEach_Done_invariant (λ s, _serverLists s.1 = _serverLists st.1)); [| done].
  intros s x s' _ Hs Hbody. apply keepIfDependent_serverLists in Hbody. congruence.
Qed.

Lemma keepLoop_throws fuel key l st e :
  _serverLists st.1 = lists → is_Some (lists !! key) →
  forEach (keepIfDependent fuel nodes key) l st = Throw e → e = null_dereference.
Proof.
  intros Hl Hkey Hrun.
  apply (forEach_Throw_inv (λ s, _serverLists s.1 = lists)) in Hrun
    as (s1 & x & _ & Hs1 & Hbody); [by eapply keepIfDependent_throws | | done].
  intros s x s' _ Hs Hbody. apply keepIfDependent_serverLists in Hbody. congruence.
Qed.

Lemma cleanNormSets_throws fuel checker (normSets : gmap DataKey (list DataKey)) e :
  _serverLists checker = lists →
  (∀ k, is_Some (normSets !! k) → is_Some (lists !! k)) →
  cleanNormSets fuel nodes checker normSets = Throw e → e = null_dereference.
Proof.
  intros Hl Hkeys Hrun. unfold cleanNormSets in Hrun.
  apply (forEach_Throw_inv (λ s, _serverLists s.1 = lists)) in Hrun
    as (s1 & [k s] & Hin & Hs1 & Hbody); [| | done].
  - simpl in Hbody. case_bool_decide; [done |].
    apply bind_Throw in Hbody as [Hthrow | ([ck a] & _ & Hthrow)]; [| done].
    eapply keepLoop_throws; [| | done]; [done |].
    apply Hkeys. apply elem_of_map_to_list in Hin. by rewrite Hin.
  - intros s1 [k s] s' _ Hs1 Hbody. simpl in Hbody.
    case_bool_decide; [by injection Hbody as <- |].
    apply bind_Done in Hbody as ([ck a] & Hloop & [= <-]).
    apply keepLoop_serverLists in Hloop. simpl in *. congruence.
Qed.
End cleaning_throws.

(** One step of the rewrite loop leaves what a node is as it was. *)
Lemma wrapNode_fields nodes normSets st x st' :
  wrapNode nodes normSets st x = Done st' →
  dom (graph st) ⊆ dom (graph st') ∧
  ∀ n, is_Some (graph st !! n) →
       kind (argAt (graph st') n) = kind (argAt (graph st) n) ∧
       selfNormalized (argAt (graph st') n) = selfNormalized (argAt (graph st) n).
Proof.
  intros Hrun.
  destruct (isPdf (kind (argAt (graph st) x))) eqn:Hpdf.
  2:{ unfold wrapNode in Hrun. rewrite Hpdf in Hrun. by injection Hrun as <-. }
  destruct (normSets !! x) as [S |] eqn:Hset.
  2:{ unfold wrapNode in Hrun. by rewrite Hpdf, Hset in Hrun. }
  destruct (decide (S = [])) as [-> | Hne].
  { unfold wrapNode in Hrun. rewrite Hpdf, Hset in Hrun. simpl in Hrun.
    by injection Hrun as <-. }
  assert (∀ n, kind (argAt (getVal x S (graph st)) n) = kind (argAt (graph st) n) ∧
               selfNormalized (argAt (getVal x S (graph st)) n)
               = selfNormalized (argAt (graph st) n)) as Hget.
  { intros n. unfold getVal.
    by rewrite (argAt_alter_field kind), (argAt_alter_field selfNormalized). }
  assert (dom (getVal x S (graph st)) = dom (graph st)) as Hdomget.
  { unfold getVal. by rewrite dom_alter_L. }
  destruct (selfNormalized (argAt (graph st) x)
            && negb (isCachedPdf (kind (argAt (graph st) x)))) eqn:Hskip.
  - rewrite (wrapNode_skip _ _ _ _ S) in Hrun by done. injection Hrun as <-.
    simpl. rewrite Hdomget. split; [done |]. intros n _. apply Hget.
  - rewrite (wrapNode_wrap _ _ _ _ S) in Hrun by done. cbv zeta in Hrun.
    apply Done_inj in Hrun. subst st'.
    cbn [graph]. rewrite replaceArg_dom. cbn [graph snd RooNormalizedPdf_new].
    rewrite dom_insert_L, Hdomget. split; [set_solver |].
    intros n Hn.
    rewrite (replaceArg_field kind), (replaceArg_field selfNormalized) by done.
    cbn [graph snd fst RooNormalizedPdf_new].
    rewrite argAt_insert_ne; [apply Hget |].
    intros <-. apply elem_of_dom in Hn. rewrite <- Hdomget in Hn.
    by apply is_fresh in Hn.
Qed.

Lemma wrapNode_throws nodes normSets st x e :
  wrapNode nodes normSets st x = Throw e →
  isPdf (kind (argAt (graph st) x)) = true ∧ normSets !! x = None.
Proof.
  unfold wrapNode. destruct (isPdf _); [| done].
  destruct (normSets !! x); [| done].
  case_bool_decide; [done |]. cbn zeta. by destruct (_ && _).
Qed.

Lemma wrapLoop_no_throw nodes normSets st l e :
  (∀ n, n ∈ l → is_Some (graph st !! n)) →
  (∀ n, n ∈ l → isPdf (kind (argAt (graph st) n)) = true → is_Some (normSets !! n)) →
  forEach (wrapNode nodes normSets) l st ≠ Throw e.
Proof.
  intros Hin Hkeys Hrun.
  apply (forEach_Throw_inv
           (λ s, dom (graph st) ⊆ dom (graph s) ∧
                 ∀ n, is_Some (graph st !! n) →
                      kind (argAt (graph s) n) = kind (argAt (graph st) n)))
    in Hrun as (s1 & x & Hx & [Hdom Hkind] & Hbody); [| | done].
  - apply wrapNode_throws in Hbody as [Hpdf Hnone].
    rewrite Hkind in Hpdf by by apply Hin.
    destruct (Hkeys x Hx Hpdf) as [? ?]. congruence.
  - intros s x s' _ [Hdom Hkind] Hbody.
    apply wrapNode_fields in Hbody as [Hdom' Hkind'].
    split; [set_solver |]. intros n Hn.
    destruct (Hkind' n) as [-> _]; [| by apply Hkind].
    apply elem_of_dom, Hdom. by apply elem_of_dom.
Qed.

(** X8.  On a graph without dangling servers, [unfoldIntegrals] fails in
    two ways only: with the report of a conflict during the propagation, or
    on the null result of [nodes.find] in the cleaning pass.  The checked
    look-ups [_serverLists.at] and [normSets.at] never throw. *)
Theorem unfoldIntegrals_failures (fuel : nat) (topNode : DataKey)
    (normSet : list DataKey) (st : Rewrite) (e : exn) :
  wellFormed (graph st) → is_Some (graph st !! topNode) →
  unfoldIntegrals fuel topNode normSet ∅ st = Throw e →
  e = null_dereference ∨ conflict_report (graph st) e.
Proof.
  intros Hwf Htop Hrun. unfold unfoldIntegrals in Hrun.
  case_bool_decide as Hempty; [done |].
  apply bind_Throw in Hrun as [Hthrow | (checker & Hck & Hrun)].
  { by apply GraphChecker_new_no_throw in Hthrow. }
  apply bind_Throw in Hrun as [Hthrow | (walk & Hwalk & Hrun)].
  { right. eapply treeNodeServerListAndNormSets_throws; [| | done].
    - apply Sorted_merge_sort, _.
    - intros n s Hs. simpl in Hs. by rewrite lookup_empty in Hs. }
  assert (∀ n, n ∈ w_list walk → reaches (graph st) topNode n) as Hreach.
  { eapply treeNodeServerListAndNormSets_reaches; [apply rtc_refl | | done].
    by intros n ?%elem_of_nil. }
  pose proof (recorded_keys := treeNodeServerListAndNormSets_expands (graph st)
                _ _ _ _ _ (λ n (H : is_Some ((∅ : gmap DataKey (list DataKey)) !! n)),
                             False_ind _ (is_Some_None (eq_ind _ _ H _ (lookup_empty n))))
                Hwalk).
  destruct recorded_keys as (Hkeys & _).
  apply bind_Throw in Hrun as [Hthrow | ([checker' normSets'] & Hclean & Hrun)].
  { left. pose proof Hck as (_ & _ & _ & Hclosed)%GraphChecker_new_snapshot.
    eapply cleanNormSets_throws; [done | done | | done].
    intros k Hk. eapply GraphChecker_new_keys; [done |]. by apply Hreach, Hkeys. }
  apply bind_Throw in Hrun as [Hthrow | (st1 & _ & Hthrow)]; [| done].
  exfalso. eapply wrapLoop_no_throw; [| | done].
  - intros n Hn. eapply reaches_in_graph; [| done | by apply Hreach].
    intros m s. by apply wellFormed_servers.
  - intros n Hn Hpdf.
    pose proof Hck as (Hres & _)%GraphChecker_new_snapshot.
    apply cleanNormSets_sound with (lists := _serverLists checker) in Hclean
      as [Hdom _]; [| done | rewrite Hres; apply sound_empty].
    apply elem_of_dom. rewrite Hdom. apply elem_of_dom.
    assert (entered_once (graph st) (mkWalk [] ∅ [])) as H1.
    { split; simpl; [apply NoDup_nil_2 | by intros ? ?%elem_of_nil]. }
    assert (listed (mkWalk [] ∅ [])) as H2.
    { split; simpl; [apply NoDup_nil_2 | done]. }
    pose proof (treeNodeServerListAndNormSets_entered_once _ _ _ _ _ _ H1 Hwalk)
      as [_ Hrec].
    pose proof (treeNodeServerListAndNormSets_listed _ _ _ _ _ _ H2 Hwalk)
      as [_ Hiff].
    apply Hrec; [by apply Hiff | done].
Qed.

(** X8 at [conflictGraph]. *)
Lemma unfoldIntegrals_failures_witness :
  runtime_error (conflictMessage 1 [8] 2 [7]) = null_dereference ∨
  conflict_report conflictGraph (runtime_error (conflictMessage 1 [8] 2 [7])).
Proof.
  refine (unfoldIntegrals_failures 5 4 [7; 8] (mkRewrite conflictGraph [] [] [])
            _ _ _ _).
  - unfold wellFormed. refine (bool_decide_unpack _ _). vm_compute. exact I.
  - vm_compute. eauto.
  - vm_compute. reflexivity.
Defined.

(** * The graph the rewrite loop leaves *)

(** ** Servers replaced by wrappers *)

Lemma wrapperKey_not_original pairs s : s ∉ pairs.*1 → wrapperKey pairs s = s.
Proof.
  induction pairs as [| [p w] pairs IH]; intros Hs; simpl; [done |].
  simpl in Hs. apply not_elem_of_cons in Hs as [Hne Hs].
  rewrite bool_decide_eq_false_2 by done. by apply IH.
Qed.

Lemma wrapperKey_original pairs s :
  s ∈ pairs.*1 → (s, wrapperKey pairs s) ∈ pairs.
Proof.
  induction pairs as [| [p w] pairs IH]; simpl; [by intros ?%elem_of_nil |].
  case_bool_decide as Hps.
  - subst. intros _. by left.
  - intros [? | Hs]%elem_of_cons; [done |]. right. by apply IH.
Qed.

Lemma wrapperKey_range pairs s :
  wrapperKey pairs s = s ∨ wrapperKey pairs s ∈ pairs.*2.
Proof.
  destruct (decide (s ∈ pairs.*1)) as [Hin | Hnin].
  - right. apply list_elem_of_fmap. exists (s, wrapperKey pairs s).
    split; [done |]. by apply wrapperKey_original.
  - left. by apply wrapperKey_not_original.
Qed.

Lemma wrapperKey_app pairs x w s :
  x ∉ pairs.*1 →
  wrapperKey (pairs ++ [(x, w)]) s =
  if bool_decide (s = x) then w else wrapperKey pairs s.
Proof.
  induction pairs as [| [p w'] pairs IH]; intros Hx; simpl.
  - case_bool_decide; subst.
    + by rewrite bool_decide_eq_true_2.
    + rewrite bool_decide_eq_false_2; [done | congruence].
  - simpl in Hx. apply not_elem_of_cons in Hx as [Hne Hx].
    rewrite IH by done.
    destruct (decide (p = s)) as [-> | Hps].
    + rewrite !bool_decide_eq_true_2 by done.
      by rewrite bool_decide_eq_false_2 by congruence.
    + by rewrite !(bool_decide_eq_false_2 (p = s)) by done.
Qed.

Lemma substServer_wrapperEdge pairs x w (l : list (DataKey * bool)) :
  x ∉ pairs.*1 → x ∉ pairs.*2 →
  substServer x w (map (wrapperEdge pairs) l) =
  map (wrapperEdge (pairs ++ [(x, w)])) l.
Proof.
  intros Hx1 Hx2. unfold substServer. rewrite map_map.
  apply map_ext. intros [s v]. unfold wrapperEdge. simpl.
  rewrite wrapperKey_app by done. f_equal.
  destruct (decide (s = x)) as [-> | Hne].
  - rewrite wrapperKey_not_original by done.
    by rewrite !bool_decide_eq_true_2.
  - rewrite (bool_decide_eq_false_2 (s = x)) by done.
    rewrite bool_decide_eq_false_2; [done |].
    destruct (wrapperKey_range pairs s) as [-> | Hin]; [done |].
    intros Heq. by rewrite Heq in Hin.
Qed.

Lemma substServer_absent old new (l : list (DataKey * bool)) :
  old ∉ l.*1 → substServer old new l = l.
Proof.
  intros Hold. unfold substServer.
  induction l as [| [s v] l IH]; [done |]. simpl in *.
  apply not_elem_of_cons in Hold as [Hne Hold].
  rewrite bool_decide_eq_false_2 by done. by rewrite IH.
Qed.

(** The edges of a node of the graph after [replaceArg]. *)
Lemma replaceArg_edges_visited nodes newArg oldArg st n :
  is_Some (graph st !! newArg) → attributes (argAt (graph st) newArg) = ∅ →
  is_Some (graph st !! n) →
  edges (graph (replaceArg nodes newArg oldArg st)) n =
  if bool_decide (n ∈ nodes) && negb (isCachedPdf (kind (argAt (graph st) n)))
  then substServer oldArg newArg (edges (graph st) n)
  else edges (graph st) n.
Proof.
  intros Hnew Hattr Hn. rewrite replaceArg_edges by done.
  destruct (decide (n ∈ nodes)) as [Hin | Hnin].
  2:{ rewrite !bool_decide_eq_false_2; [done | done | tauto]. }
  rewrite (bool_decide_eq_true_2 (n ∈ nodes)) by done.
  destruct (decide (n ∈ clients (graph st) oldArg)) as [Hc | Hnc].
  { by rewrite bool_decide_eq_true_2. }
  rewrite bool_decide_eq_false_2 by tauto. simpl.
  destruct (negb _); [| done].
  rewrite substServer_absent; [done |].
  intros Hold. apply Hnc. by apply elem_of_clients.
Qed.

(** ** The rewrite loop, step by step *)

Lemma rewired_initial (h0 : Graph) normSets nodes :
  rewired h0 normSets nodes [] [] (mkRewrite h0 [] [] []).
Proof.
  unfold rewired. simpl. split_and!; [done | done | | by intros ? ? ?%elem_of_nil].
  intros n _. destruct (_ && _); [| done].
  induction (edges h0 n) as [| [s v] l IH]; [done |]. simpl. by rewrite <- IH.
Qed.

Lemma rewired_skip h0 normSets nodes seen x pairs st :
  needsWrapper h0 normSets x = false →
  rewired h0 normSets nodes seen pairs st →
  rewired h0 normSets nodes (seen ++ [x]) pairs st.
Proof.
  intros Hx (Hp & ? & ? & ?). split_and!; [| done ..].
  rewrite filter_app, (filter_cons_False _ x); [| congruence].
  by rewrite filter_nil, app_nil_r.
Qed.

Lemma rewired_getVal h0 normSets nodes seen pairs st x S :
  rewired h0 normSets nodes seen pairs st →
  rewired h0 normSets nodes seen pairs
    (mkRewrite (getVal x S (graph st)) (replacedArgs st) (newArgs st) (newNodes st)).
Proof.
  intros (Hp & Hk & He & Hw). unfold rewired. cbn [graph].
  split_and!; [done | | |].
  - intros n Hn. unfold getVal.
    rewrite (argAt_alter_field kind), (argAt_alter_field selfNormalized) by done.
    by apply Hk.
  - intros n Hn. rewrite edges_getVal. by apply He.
  - intros p w Hpw. unfold getVal.
    rewrite (argAt_alter_field kind), (argAt_alter_field wrapped) by done.
    by apply Hw.
Qed.

Lemma rewired_wrap h0 normSets nodes seen pairs st x S :
  (∀ n, n ∈ nodes → is_Some (h0 !! n)) →
  x ∈ nodes → x ∉ seen →
  normSets !! x = Some S → needsWrapper h0 normSets x = true →
  unfolded h0 nodes seen pairs st → rewired h0 normSets nodes seen pairs st →
  let w := RooNormalizedPdf_new (graph st) x S in
  let st1 := replaceArg nodes w.1 x
               (mkRewrite w.2 (replacedArgs st) (newArgs st) (newNodes st)) in
  rewired h0 normSets nodes (seen ++ [x]) (pairs ++ [(x, w.1)])
    (mkRewrite (graph st1) (replacedArgs st1) (newArgs st1) (newNodes st ++ [w.1])).
Proof.
  intros Hnodes Hx Hxseen HS Hneeds.
  intros (Hrep & Hnew & Hown & Hnd1 & Hnd2 & Hp & Hwfresh & Hdom & Hclosed & Hback
          & Hout & Hattr & Hw).
  intros (Hfilter & Hkind & Hedges & Hwrapped).
  set (g := graph st). set (W := fresh (dom g)).
  set (rec := mkArg AbsPdf true false true (λ _ _, None) [(x, true)] ∅ []
                    (Some (x, S))).
  set (gW := <[W := rec]> g).
  assert (g !! W = None) as HW by apply not_elem_of_dom, is_fresh.
  assert (h0 !! W = None) as HW0.
  { apply not_elem_of_dom. intros Hin. apply not_elem_of_dom in HW. apply HW.
    unfold g. rewrite Hdom. set_solver. }
  assert (W ∉ pairs.*2) as HWp.
  { intros Hin. apply not_elem_of_dom in HW. apply HW. unfold g. rewrite Hdom.
    apply elem_of_union. right. by apply elem_of_list_to_set. }
  assert (is_Some (h0 !! x)) as Hx0 by by apply Hnodes.
  assert (x ∉ pairs.*1) as Hxp by (intros Hin; by destruct (Hp x Hin)).
  assert (x ∉ pairs.*2) as Hxp2.
  { intros Hin. destruct Hx0 as [? Hx0]. rewrite (Hwfresh x Hin) in Hx0. done. }
  assert (∀ n, is_Some (h0 !! n) → n ≠ W) as HneW.
  { intros n [? Hn] ->. congruence. }
  assert (∀ n, is_Some (h0 !! n) → is_Some (gW !! n)) as HingW.
  { intros n Hn. unfold gW. rewrite lookup_insert_ne by (symmetry; by apply HneW).
    apply elem_of_dom. unfold g. rewrite Hdom. apply elem_of_union. left.
    by apply elem_of_dom. }
  assert (∀ n, n ≠ W → argAt gW n = argAt g n) as HgW.
  { intros n Hn. unfold gW. by rewrite argAt_insert_ne. }
  assert (argAt gW W = rec) as HgWW by (unfold gW; by rewrite argAt_insert_eq).
  assert (is_Some (gW !! W)) as HWin by (unfold gW; rewrite lookup_insert_eq; eauto).
  assert (attributes (argAt gW W) = ∅) as HWattr by by rewrite HgWW.
  set (stW := mkRewrite gW (replacedArgs st) (newArgs st) (newNodes st)).
  intros w st1.
  assert (w = (W, gW)) as -> by done. cbn [fst snd] in st1. fold stW in st1.
  assert (∀ {B} (proj : RooAbsArg → B) n,
            (∀ l a, proj (set_serverList l a) = proj a) →
            (∀ s a, proj (set_attributes s a) = proj a) →
            proj (argAt (graph st1) n) = proj (argAt gW n)) as Hfield.
  { intros B proj n H1 H2. unfold st1. by rewrite (replaceArg_field proj). }
  assert (∀ n, is_Some (gW !! n) →
            edges (graph st1) n =
            if bool_decide (n ∈ nodes) && negb (isCachedPdf (kind (argAt gW n)))
            then substServer x W (edges gW n) else edges gW n) as Hedges1.
  { intros n Hn. by apply (replaceArg_edges_visited nodes W x stW n). }
  clearbody st1.
  unfold rewired. cbn [graph replacedArgs newArgs newNodes fst snd].
  split_and!.
  - rewrite fmap_app, filter_app, (filter_cons_True _ x) by done.
    by rewrite filter_nil, Hfilter.
  - intros n Hn. rewrite (Hfield _ kind), (Hfield _ selfNormalized) by done.
    rewrite HgW by by apply HneW. by apply Hkind.
  - intros n Hn. rewrite Hedges1 by by apply HingW.
    rewrite !edges_argAt, HgW by by apply HneW.
    destruct (Hkind n Hn) as [Hk _]. fold g in Hk. rewrite Hk.
    rewrite <- !edges_argAt. unfold g. rewrite (Hedges n Hn).
    destruct (_ && _); [| done].
    by apply substServer_wrapperEdge.
  - intros p w' [Hpw | [= -> ->]%list_elem_of_singleton]%elem_of_app.
    + rewrite (Hfield _ kind), (Hfield _ wrapped) by done.
      assert (w' ≠ W) as Hne.
      { intros ->. apply HWp. apply list_elem_of_fmap. by exists (p, W). }
      rewrite HgW by done. by apply Hwrapped.
    + rewrite (Hfield _ kind), (Hfield _ wrapped) by done.
      rewrite HgWW. simpl. by rewrite HS.
Qed.

Lemma wrapNode_rewired h0 nodes normSets seen pairs st x st' :
  (∀ n, n ∈ nodes → is_Some (h0 !! n)) →
  x ∈ nodes → x ∉ seen →
  unfolded h0 nodes seen pairs st → rewired h0 normSets nodes seen pairs st →
  wrapNode nodes normSets st x = Done st' →
  ∃ pairs', unfolded h0 nodes (seen ++ [x]) pairs' st' ∧
            rewired h0 normSets nodes (seen ++ [x]) pairs' st'.
Proof.
  intros Hnodes Hx Hxseen Hst Hre Hrun.
  pose proof Hre as (_ & Hkind & _).
  destruct (Hkind x (Hnodes x Hx)) as [Hk Hself].
  destruct (isPdf (kind (argAt (graph st) x))) eqn:Hpdf.
  2:{ unfold wrapNode in Hrun. rewrite Hpdf in Hrun. injection Hrun as <-.
      exists pairs. split; [by apply unfolded_seen |].
      apply rewired_skip; [| done]. unfold needsWrapper. by rewrite <- Hk, Hpdf. }
  destruct (normSets !! x) as [S |] eqn:Hset.
  2:{ unfold wrapNode in Hrun. by rewrite Hpdf, Hset in Hrun. }
  destruct (decide (S = [])) as [-> | Hne].
  { unfold wrapNode in Hrun. rewrite Hpdf, Hset in Hrun. simpl in Hrun.
    injection Hrun as <-. exists pairs. split; [by apply unfolded_seen |].
    apply rewired_skip; [| done]. unfold needsWrapper. rewrite Hset. simpl.
    by rewrite andb_false_r. }
  destruct (selfNormalized (argAt (graph st) x)
            && negb (isCachedPdf (kind (argAt (graph st) x)))) eqn:Hskip.
  - rewrite (wrapNode_skip _ _ _ _ S) in Hrun by done. injection Hrun as <-.
    exists pairs. split; [by apply unfolded_seen, unfolded_getVal |].
    apply rewired_skip; [| by apply rewired_getVal].
    unfold needsWrapper. rewrite <- Hk, <- Hself, Hskip. by rewrite andb_false_r.
  - rewrite (wrapNode_wrap _ _ _ _ S) in Hrun by done. cbv zeta in Hrun.
    apply Done_inj in Hrun. subst st'.
    eexists. split.
    + apply (unfolded_wrap h0 nodes seen pairs
               (mkRewrite (getVal x S (graph st)) (replacedArgs st) (newArgs st)
                          (newNodes st)) x S); [done .. |].
      by apply unfolded_getVal.
    + apply (rewired_wrap h0 normSets nodes seen pairs
               (mkRewrite (getVal x S (graph st)) (replacedArgs st) (newArgs st)
                          (newNodes st)) x S); [done .. | | |].
      * unfold needsWrapper. rewrite <- Hk, <- Hself, Hpdf, Hskip, Hset. simpl.
        by rewrite bool_decide_eq_false_2.
      * by apply unfolded_getVal.
      * by apply rewired_getVal.
Qed.

Lemma wrapLoop_rewired h0 nodes normSets st' :
  (∀ n s, s ∈ servers h0 n → is_Some (h0 !! s)) →
  (∀ n, n ∈ nodes → is_Some (h0 !! n)) → NoDup nodes →
  forEach (wrapNode nodes normSets) nodes (mkRewrite h0 [] [] []) = Done st' →
  ∃ pairs, unfolded h0 nodes nodes pairs st' ∧
           rewired h0 normSets nodes nodes pairs st'.
Proof.
  intros Hclosed Hnodes Hnd Hrun.
  apply (forEach_Done_prefix
           (λ seen st, ∃ pairs, unfolded h0 nodes seen pairs st ∧
                                rewired h0 normSets nodes seen pairs st))
    in Hrun; [done | |].
  - intros pre x post s s' Hl (pairs & Hs & Hr) Hbody.
    apply (wrapNode_rewired h0 nodes normSets pre pairs s x s');
      [done | | | done | done | done].
    + rewrite Hl. apply elem_of_app. right. by left.
    + rewrite Hl in Hnd. apply NoDup_app in Hnd as (_ & Hdis & _).
      intros Hin. apply (Hdis x Hin). by left.
  - exists []. split; [by apply unfolded_initial | apply rewired_initial].
Qed.

(** X9.  The ledger the rewrite loop leaves, on a graph without
    dangling servers.  The replaced nodes are, in the order of the visited
    set, exactly its pdfs with a non-empty normalization set that are not
    self-normalized or are cached pdfs.  The two ledgers have the same
    length, so that the assertion of [foldIntegrals] holds, and the nodes
    handed to the owner are the new arguments.  The wrapper paired with a
    replaced pdf is a new node, a pdf whose only server is the pdf it wraps
    and which carries the normalization set the table holds for that pdf. *)
Theorem rewrite_loop_ledger (h0 : Graph) (nodes : list DataKey)
    (normSets : gmap DataKey (list DataKey)) (st' : Rewrite) :
  wellFormed h0 → (∀ n, n ∈ nodes → is_Some (h0 !! n)) → NoDup nodes →
  forEach (wrapNode nodes normSets) nodes (mkRewrite h0 [] [] []) = Done st' →
  replacedArgs st' = filter (λ n, needsWrapper h0 normSets n = true) nodes ∧
  length (replacedArgs st') = length (newArgs st') ∧
  newNodes st' = newArgs st' ∧
  NoDup (newArgs st') ∧
  ∀ p w, (p, w) ∈ zip (replacedArgs st') (newArgs st') →
         h0 !! w = None ∧
         kind (argAt (graph st') w) = AbsPdf ∧
         edges (graph st') w = [(p, true)] ∧
         wrapped (argAt (graph st') w) = Some (p, default [] (normSets !! p)).
Proof.
  intros Hwf Hnodes Hnd Hrun.
  destruct (wrapLoop_rewired h0 nodes normSets st') as (pairs & Hun & Hre);
    [intros n s; by apply wellFormed_servers | done | done | done |].
  destruct Hun as (Hrep & Hnew & Hown & Hnd1 & Hnd2 & Hp & Hwfresh & Hdom & Hclosed
                   & Hback & Hout & Hattr & Hw).
  destruct Hre as (Hfilter & Hkind & Hedges & Hwrapped).
  rewrite Hrep, Hnew, Hown, zip_fst_snd, !length_fmap.
  split_and!; [done | done | done | done |].
  intros p w Hpw. destruct (Hwrapped p w Hpw) as [Hk Hwr].
  destruct (Hw p w Hpw) as [He _].
  split_and!; [| done | done | done].
  apply Hwfresh, list_elem_of_fmap. by exists (p, w).
Qed.

(** X10.  The wiring the rewrite loop leaves, on a graph without
    dangling servers.  Every node of the visited set other than a cached
    pdf has each replaced server exchanged for its wrapper, in place and
    with the kind of edge kept, wherever in the visited set the client and
    the server stand; a cached pdf and a node outside the visited set have
    the servers they had. *)
Theorem rewrite_loop_wiring (h0 : Graph) (nodes : list DataKey)
    (normSets : gmap DataKey (list DataKey)) (st' : Rewrite) :
  wellFormed h0 → (∀ n, n ∈ nodes → is_Some (h0 !! n)) → NoDup nodes →
  forEach (wrapNode nodes normSets) nodes (mkRewrite h0 [] [] []) = Done st' →
  ∀ n, is_Some (h0 !! n) →
       edges (graph st') n =
       if bool_decide (n ∈ nodes) && negb (isCachedPdf (kind (argAt h0 n)))
       then map (wrapperEdge (zip (replacedArgs st') (newArgs st'))) (edges h0 n)
       else edges h0 n.
Proof.
  intros Hwf Hnodes Hnd Hrun.
  destruct (wrapLoop_rewired h0 nodes normSets st') as (pairs & Hun & Hre);
    [intros n s; by apply wellFormed_servers | done | done | done |].
  destruct Hun as (Hrep & Hnew & _).
  destruct Hre as (_ & _ & Hedges & _).
  by rewrite Hrep, Hnew, zip_fst_snd.
Qed.

(** X9 at [clientsGraph], for the visited set {3, 2, 1}: the pdf 2 is
    replaced by the new node 6. *)
Lemma rewrite_loop_ledger_witness :
  ∃ st',
    forEach (wrapNode [3; 2; 1] {[2 := [1]]}) [3; 2; 1]
            (mkRewrite clientsGraph [] [] []) = Done st' ∧
    replacedArgs st'
      = filter (λ n, needsWrapper clientsGraph {[2 := [1]]} n = true) [3; 2; 1] ∧
    length (replacedArgs st') = length (newArgs st') ∧
    newNodes st' = newArgs st' ∧
    NoDup (newArgs st') ∧
    ∀ p w, (p, w) ∈ zip (replacedArgs st') (newArgs st') →
           clientsGraph !! w = None ∧
           kind (argAt (graph st') w) = AbsPdf ∧
           edges (graph st') w = [(p, true)] ∧
           wrapped (argAt (graph st') w)
             = Some (p, default [] (({[2 := [1]]} : gmap DataKey (list DataKey)) !! p)).
Proof.
  eexists. split; [vm_compute; reflexivity |].
  apply (rewrite_loop_ledger clientsGraph [3; 2; 1] {[2 := [1]]}).
  - unfold wellFormed. refine (bool_decide_unpack _ _). vm_compute. exact I.
  - intros n Hn. rewrite !elem_of_cons in Hn.
    destruct Hn as [-> | [-> | [-> | Hn]]]; [vm_compute; eauto .. |].
    by apply elem_of_nil in Hn.
  - refine (bool_decide_unpack _ _). vm_compute. exact I.
  - vm_compute. reflexivity.
Defined.

(** X10 at [clientsGraph], for the visited set {3, 2, 1}. *)
Lemma rewrite_loop_wiring_witness :
  ∃ st',
    forEach (wrapNode [3; 2; 1] {[2 := [1]]}) [3; 2; 1]
            (mkRewrite clientsGraph [] [] []) = Done st' ∧
    ∀ n, is_Some (clientsGraph !! n) →
         edges (graph st') n =
         if bool_decide (n ∈ [3; 2; 1])
            && negb (isCachedPdf (kind (argAt clientsGraph n)))
         then map (wrapperEdge (zip (replacedArgs st') (newArgs st')))
                  (edges clientsGraph n)
         else edges clientsGraph n.
Proof.
  eexists. split; [vm_compute; reflexivity |].
  apply (rewrite_loop_wiring clientsGraph [3; 2; 1] {[2 := [1]]}).
  - unfold wellFormed. refine (bool_decide_unpack _ _). vm_compute. exact I.
  - intros n Hn. rewrite !elem_of_cons in Hn.
    destruct Hn as [-> | [-> | [-> | Hn]]]; [vm_compute; eauto .. |].
    by apply elem_of_nil in Hn.
  - refine (bool_decide_unpack _ _). vm_compute. exact I.
  - vm_compute. reflexivity.
Defined.

(** * The unfolder after construction *)

Lemma lookup_empty_is_Some {A} (n : DataKey) :
  is_Some ((∅ : gmap DataKey A) !! n) → False.
Proof. rewrite lookup_empty. by intros [? ?]. Qed.

(** What the constructor leaves behind, with the wiring. *)
Lemma constructed_rewired fuel (g : Graph) topNode normSet this g' :
  wellFormed g → is_Some (g !! topNode) →
  NormalizationIntegralUnfolder_new fuel g topNode normSet = Done (this, g') →
  normSet ≠ [] →
  let d := (RooAddition_new g topNode).1 in
  let h0 := (RooAddition_new g topNode).2 in
  _topNodeWrapper this = d ∧
  ∃ nodes pairs,
    d ∈ nodes ∧ topNode ∈ nodes ∧
    unfolded h0 nodes nodes pairs
      (mkRewrite g' (_replacedArgs this) (_newArgs this) (_ownedComponents this)) ∧
    rewired h0 (_normSets this) nodes nodes pairs
      (mkRewrite g' (_replacedArgs this) (_newArgs this) (_ownedComponents this)).
Proof.
  intros Hwf Htop Hnew Hne d h0.
  assert (d = (RooAddition_new g topNode).1) as Hd by done.
  assert (h0 = (RooAddition_new g topNode).2) as Hh0 by done.
  clearbody d h0.
  rewrite NormalizationIntegralUnfolder_new_eq, <- Hd, <- Hh0 in Hnew.
  apply bind_Done in Hnew as ([normSets st] & Hunf & Hret). simpl in Hret.
  injection Hret as <- <-. simpl. split; [done |].
  unfold unfoldIntegrals in Hunf. rewrite bool_decide_eq_false_2 in Hunf by done.
  apply bind_Done in Hunf as (checker & _ & Hunf).
  apply bind_Done in Hunf as (walk & Hwalk & Hunf).
  apply bind_Done in Hunf as ([checker' normSets'] & _ & Hunf).
  apply bind_Done in Hunf as (st' & Hloop & Hret).
  injection Hret as <- <-. cbn [graph] in *.
  assert (listed walk) as [Hnd _].
  { eapply treeNodeServerListAndNormSets_listed; [| done].
    split; simpl; [apply NoDup_nil_2 | done]. }
  assert (∀ n, n ∈ w_list walk → reaches h0 d n) as Hreach.
  { eapply treeNodeServerListAndNormSets_reaches; [| | done].
    - apply rtc_refl.
    - by intros n ?%elem_of_nil. }
  pose proof (aggregator_closed g topNode Hwf Htop d h0 Hd Hh0) as Hclosed.
  pose proof (aggregator_self g topNode d h0 Hd Hh0) as Hself.
  pose proof (aggregator_edges g topNode d h0 Hd Hh0) as Hedges.
  apply treeNodeServerListAndNormSets_expands in Hwalk as (_ & _ & Hdin & _ & Hexp);
    [| intros n Hn; by apply lookup_empty_is_Some in Hn].
  assert (topNode ∈ w_list walk) as Htopin.
  { apply Hexp; [apply lookup_empty |]. split.
    - rewrite Hh0, Hd. simpl. by rewrite argAt_insert_eq.
    - rewrite Hedges. by left. }
  destruct (wrapLoop_rewired h0 (w_list walk) normSets' st') as (pairs & Hun & Hre);
    [done | | done | done |].
  { intros n Hn. eapply reaches_in_graph; [done | done |]. by apply Hreach. }
  exists (w_list walk), pairs. by destruct st'.
Qed.

(** X11.  The argument the unfolder hands out, on a graph without
    dangling servers.  After construction the aggregator has one server,
    which is [_arg].  If the top node is a pdf that needs a wrapper under
    its narrowed normalization set, [_arg] is that wrapper: a new node,
    owned by the unfolder, paired with the top node in the ledger, with the
    top node as its only server and carrying the narrowed set.  Otherwise,
    and always for an empty normalization set, [_arg] is the top node
    itself. *)
Theorem unfolder_arg (fuel : nat) (g : Graph) (topNode : DataKey)
    (normSet : list DataKey) (this : NormalizationIntegralUnfolder) (g' : Graph) :
  wellFormed g → is_Some (g !! topNode) →
  NormalizationIntegralUnfolder_new fuel g topNode normSet = Done (this, g') →
  servers g' (_topNodeWrapper this) = [_arg this] ∧
  (needsWrapper g (_normSets this) topNode = false → _arg this = topNode) ∧
  (needsWrapper g (_normSets this) topNode = true →
   g !! _arg this = None ∧
   _arg this ∈ _ownedComponents this ∧
   (topNode, _arg this) ∈ zip (_replacedArgs this) (_newArgs this) ∧
   edges g' (_arg this) = [(topNode, true)] ∧
   wrapped (argAt g' (_arg this))
     = Some (topNode, default [] (_normSets this !! topNode))).
Proof.
  intros Hwf Htop Hnew.
  destruct (decide (normSet = [])) as [-> | Hne].
  { destruct (empty_normSet_is_noop fuel g topNode) as [_ (this0 & Hnew0 & Hthis)].
    rewrite Hnew in Hnew0. injection Hnew0 as <- ->.
    destruct Hthis as (_ & _ & _ & _ & Hsets & Harg & _).
    rewrite Harg, Hsets.
    assert (_topNodeWrapper this = (RooAddition_new g topNode).1) as ->.
    { rewrite NormalizationIntegralUnfolder_new_eq in Hnew. simpl in Hnew.
      by injection Hnew as <-. }
    split_and!; [| done |].
    - unfold servers, edges. simpl. by rewrite lookup_insert_eq.
    - unfold needsWrapper. rewrite lookup_empty. simpl.
      by rewrite andb_false_r. }
  pose proof (constructed_rewired fuel g topNode normSet this g' Hwf Htop Hnew Hne)
    as Hc. cbv zeta in Hc.
  set (d := (RooAddition_new g topNode).1) in *.
  set (h0 := (RooAddition_new g topNode).2) in *.
  assert (d = (RooAddition_new g topNode).1) as Hd by done.
  assert (h0 = (RooAddition_new g topNode).2) as Hh0 by done.
  clearbody d h0.
  destruct Hc as (Hwrapper & nodes & pairs & Hdin & Htopin & Hun & Hre).
  destruct Hun as (Hrep & Hnew' & Hown & Hnd1 & Hnd2 & Hp & Hwfresh & Hdom & Hclosed
                   & Hback & Hout & Hattr & Hw).
  destruct Hre as (Hfilter & Hkind & Hedges & Hwrapped).
  cbn [graph replacedArgs newArgs newNodes] in *.
  pose proof (aggregator_self g topNode d h0 Hd Hh0) as Hself.
  pose proof (aggregator_in g topNode d h0 Hd Hh0 topNode Htop) as [Htop0 HtopNe].
  assert (argAt h0 topNode = argAt g topNode) as Hargtop.
  { unfold argAt. by rewrite (aggregator_lookup_ne g topNode d h0 Hd Hh0). }
  assert (needsWrapper h0 (_normSets this) topNode
          = needsWrapper g (_normSets this) topNode) as Hneeds.
  { unfold needsWrapper. by rewrite Hargtop. }
  assert (edges g' d = [(wrapperKey pairs topNode, true)]) as Hedge.
  { rewrite (Hedges d Hself), bool_decide_eq_true_2 by done.
    rewrite (aggregator_edges g topNode d h0 Hd Hh0).
    assert (kind (argAt h0 d) = OtherArg) as ->.
    { rewrite Hh0, Hd. simpl. by rewrite argAt_insert_eq. }
    done. }
  assert (_arg this = wrapperKey pairs topNode) as Harg.
  { rewrite NormalizationIntegralUnfolder_new_eq, <- Hd, <- Hh0 in Hnew.
    apply bind_Done in Hnew as ([normSets st] & _ & Hret). simpl in Hret.
    injection Hret as <- <-. simpl. unfold servers.
    cbn [graph] in Hedge. by rewrite Hedge. }
  rewrite Hwrapper, Harg. split_and!.
  - unfold servers. by rewrite Hedge.
  - intros Hfalse. apply wrapperKey_not_original. rewrite Hfilter.
    intros [Hyes _]%list_elem_of_filter. congruence.
  - intros Htrue.
    assert ((topNode, wrapperKey pairs topNode) ∈ pairs) as Hpair.
    { apply wrapperKey_original. rewrite Hfilter. apply list_elem_of_filter.
      split; [congruence | done]. }
    assert (wrapperKey pairs topNode ∈ pairs.*2) as Hin2.
    { apply list_elem_of_fmap. by exists (topNode, wrapperKey pairs topNode). }
    destruct (Hw _ _ Hpair) as [He _]. destruct (Hwrapped _ _ Hpair) as [_ Hwr].
    split_and!; [| by rewrite Hown | by rewrite Hrep, Hnew', zip_fst_snd | done | done].
    apply not_elem_of_dom. intros Hin.
    assert (wrapperKey pairs topNode ∈ dom h0) as Hin0.
    { rewrite (aggregator_dom g topNode d h0 Hd Hh0). set_solver. }
    apply elem_of_dom in Hin0 as [? Hin0]. rewrite (Hwfresh _ Hin2) in Hin0. done.
Qed.

(** X11 at the sum of two pdfs: the sum 5 is not a pdf and stays the
    argument. *)
Lemma unfolder_arg_witness :
  servers sumUnfolded (_topNodeWrapper sumUnfolder) = [_arg sumUnfolder] ∧
  (needsWrapper sumGraph (_normSets sumUnfolder) 5 = false →
   _arg sumUnfolder = 5) ∧
  (needsWrapper sumGraph (_normSets sumUnfolder) 5 = true →
   sumGraph !! _arg sumUnfolder = None ∧
   _arg sumUnfolder ∈ _ownedComponents sumUnfolder ∧
   (5, _arg sumUnfolder) ∈ zip (_replacedArgs sumUnfolder) (_newArgs sumUnfolder) ∧
   edges sumUnfolded (_arg sumUnfolder) = [(5, true)] ∧
   wrapped (argAt sumUnfolded (_arg sumUnfolder))
     = Some (5, default [] (_normSets sumUnfolder !! 5))).
Proof.
  refine (unfolder_arg 10 sumGraph 5 [1; 2] sumUnfolder sumUnfolded _ _ _).
  - unfold wellFormed. refine (bool_decide_unpack _ _). vm_compute. exact I.
  - vm_compute. eauto.
  - vm_compute. reflexivity.
Defined.

(** * Termination *)

Lemma bind_OutOfFuel {A B} (m : outcome A) (f : A → outcome B) :
  m ≫= f = OutOfFuel → m = OutOfFuel ∨ ∃ a, m = Done a ∧ f a = OutOfFuel.
Proof. destruct m; simpl; [eauto | done | by left]. Qed.

Lemma forEach_not_OutOfFuel {A S} (P : S → Prop) (body : S → A → outcome S) l s :
  (∀ s x s', x ∈ l → P s → body s x = Done s' → P s') →
  (∀ s x, x ∈ l → P s → body s x ≠ OutOfFuel) →
  P s → forEach body l s ≠ OutOfFuel.
Proof.
  revert s. induction l as [| x l IH]; intros s Hstep Hbody Hs; [done |].
  simpl. intros [Hout | (s1 & H1 & Hout)]%bind_OutOfFuel.
  - by eapply Hbody; [left | |].
  - eapply (IH s1); [| | | done].
    + intros ? ? ? ?. apply Hstep. by right.
    + intros ? ? ?. apply Hbody. by right.
    + eapply Hstep; [by left | done | done].
Qed.

Lemma forEach_returns {A S} (body : S → A → outcome S) l s :
  (∀ s x, x ∈ l → ∃ s', body s x = Done s') →
  ∃ s', forEach body l s = Done s'.
Proof.
  revert s. induction l as [| x l IH]; intros s Hbody; simpl; [eauto |].
  destruct (Hbody s x) as [s1 ->]; [by left |]. simpl.
  apply IH. intros ? ? ?. apply Hbody. by right.
Qed.

Section acyclic.
Context (g : Graph) (rank : DataKey → nat).
Context (Hac : acyclic rank g).

Lemma acyclic_edges n e : e ∈ edges g n → rank e.1 < rank n.
Proof.
  intros He. apply (acyclic_servers rank g n e.1 Hac).
  unfold servers. apply list_elem_of_fmap. by exists e.
Qed.

Lemma reaches_rank a b : reaches g a b → rank b ≤ rank a.
Proof.
  intros Hr. induction Hr as [| x y z Hxy _ IH]; [done |].
  apply (acyclic_servers rank g x y Hac) in Hxy. lia.
Qed.

Lemma treeNodeServerList_returns fuel valueOnly arg lst :
  rank arg < fuel → ∃ lst', treeNodeServerList fuel g valueOnly arg lst = Done lst'.
Proof.
  revert arg lst. induction fuel as [| fuel IH]; intros arg lst Hfuel; [lia |].
  simpl. apply forEach_returns. intros l e He.
  destruct (valueOnly && negb e.2); [eauto |].
  apply IH. apply acyclic_edges in He. lia.
Qed.

Lemma GraphChecker_new_returns fuel topNode :
  rank topNode < fuel → ∃ checker, GraphChecker_new fuel g topNode = Done checker.
Proof.
  intros Hfuel. unfold GraphChecker_new.
  destruct (treeNodeServerList_returns fuel false topNode []) as [nodes ->]; [done |].
  simpl. eauto.
Qed.

Lemma treeNodeServerListAndNormSets_terminates fuel arg normSet st :
  rank arg < fuel →
  treeNodeServerListAndNormSets fuel g arg normSet st ≠ OutOfFuel.
Proof.
  revert arg normSet st.
  induction fuel as [| fuel IH]; intros arg normSet st Hfuel; [lia |].
  simpl. destruct (w_normSets st !! arg); [done |].
  destruct (_ && _); [| done].
  apply (forEach_not_OutOfFuel (λ _, True)); [done | | done].
  intros s e He _. unfold visitServer. destruct (negb e.2); [done |].
  destruct (w_normSets s !! e.1).
  - by destruct (_ || _).
  - apply IH. apply acyclic_edges in He. lia.
Qed.
End acyclic.

Section cleaning_terminates.
Context (lists : gmap DataKey (list DataKey)) (rank : DataKey → nat).
Context (fuel : nat) (nodes : list DataKey).
Context (Hclosed : closed lists) (Hranked : ranked rank lists).

Lemma keepIfDependent_terminates key st narg :
  _serverLists st.1 = lists → sound lists (_results st.1) →
  is_Some (lists !! key) → rank key < fuel →
  keepIfDependent fuel nodes key st narg ≠ OutOfFuel.
Proof.
  intros Hl Hs Hkey Hfuel. destruct st as [[lists0 results] acc]. simpl in *.
  subst lists0.
  destruct (dependsOn_correct (mkChecker lists results) rank fuel key narg)
    as (t & ck' & Hrun & _); [done .. |].
  unfold keepIfDependent. simpl. rewrite Hrun. simpl.
  destruct t; [| done]. by destruct (RooArgSet_find narg nodes).
Qed.

Lemma keepIfDependent_sound key st narg st' :
  _serverLists st.1 = lists → sound lists (_results st.1) →
  keepIfDependent fuel nodes key st narg = Done st' →
  _serverLists st'.1 = lists ∧ sound lists (_results st'.1).
Proof.
  intros Hl Hs. unfold keepIfDependent, dependsOn.
  intros ([t ck] & Hdep & Hrun)%bind_Done.
  apply bind_Done in Hdep as ([t' r] & Hdep & [= <- <-]).
  rewrite Hl in Hdep. apply dependsOn_results_sound in Hdep as [Hs' _]; [| done].
  destruct t'.
  - destruct (RooArgSet_find narg nodes); [| done]. by injection Hrun as <-.
  - by injection Hrun as <-.
Qed.

Lemma keepLoop_terminates key l st :
  _serverLists st.1 = lists → sound lists (_results st.1) →
  is_Some (lists !! key) → rank key < fuel →
  forEach (keepIfDependent fuel nodes key) l st ≠ OutOfFuel.
Proof.
  intros Hl Hs Hkey Hfuel.
  apply (forEach_not_OutOfFuel
           (λ s, _serverLists s.1 = lists ∧ sound lists (_results s.1)));
    [| | done].
  - intros s x s' _ [? ?]. by apply keepIfDependent_sound.
  - intros s x _ [? ?]. by apply keepIfDependent_terminates.
Qed.

Lemma keepLoop_sound' key l st st' :
  _serverLists st.1 = lists → sound lists (_results st.1) →
  forEach (keepIfDependent fuel nodes key) l st = Done st' →
  _serverLists st'.1 = lists ∧ sound lists (_results st'.1).
Proof.
  intros Hl Hs.
  apply (forEach_Done_invariant
           (λ s, _serverLists s.1 = lists ∧ sound lists (_results s.1))); [| done].
  intros s x s' _ [? ?]. by apply keepIfDependent_sound.
Qed.

Lemma cleanNormSets_terminates checker (normSets : gmap DataKey (list DataKey)) :
  _serverLists checker = lists → sound lists (_results checker) →
  (∀ k, is_Some (normSets !! k) → is_Some (lists !! k) ∧ rank k < fuel) →
  cleanNormSets fuel nodes checker normSets ≠ OutOfFuel.
Proof.
  intros Hl Hs Hkeys. unfold cleanNormSets.
  apply (forEach_not_OutOfFuel
           (λ s, _serverLists s.1 = lists ∧ sound lists (_results s.1)));
    [| | done].
  - intros s [k v] s' _ [Hl1 Hs1] Hbody. simpl in Hbody.
    case_bool_decide; [by injection Hbody as <- |].
    apply bind_Done in Hbody as ([ck a] & Hloop & [= <-]).
    by apply keepLoop_sound' in Hloop.
  - intros s [k v] Hin [Hl1 Hs1]. simpl. case_bool_decide; [done |].
    intros [Hout | ([ck a] & _ & Hout)]%bind_OutOfFuel; [| done].
    apply elem_of_map_to_list in Hin.
    destruct (Hkeys k) as [Hk Hfuel]; [by rewrite Hin |].
    by apply (keepLoop_terminates k v (s.1, [])) in Hout.
Qed.
End cleaning_terminates.

Lemma wrapLoop_terminates nodes normSets l st :
  forEach (wrapNode nodes normSets) l st ≠ OutOfFuel.
Proof.
  apply (forEach_not_OutOfFuel (λ _, True)); [done | | done].
  intros s x _ _. unfold wrapNode. destruct (isPdf _); [| done].
  destruct (normSets !! x); [| done]. case_bool_decide; [done |].
  cbn zeta. by destruct (_ && _).
Qed.

(** X12.  Termination on acyclic graphs.  With a recursion budget above
    the rank of the top node, the constructor of the checker returns, and
    [unfoldIntegrals] never exhausts the budget: it returns or it throws.
    The budget stands for the call stack, so this says that the depth of the
    recursion of the checker, of [dependsOn] and of the propagation is
    bounded by the length of the longest path below the top node. *)
Theorem unfoldIntegrals_terminates (fuel : nat) (rank : DataKey → nat)
    (topNode : DataKey) (normSet : list DataKey) (st : Rewrite) :
  acyclic rank (graph st) → rank topNode < fuel →
  (∃ checker, GraphChecker_new fuel (graph st) topNode = Done checker) ∧
  unfoldIntegrals fuel topNode normSet ∅ st ≠ OutOfFuel.
Proof.
  intros Hac Hfuel.
  destruct (GraphChecker_new_returns (graph st) rank Hac fuel topNode Hfuel)
    as [checker Hck].
  split; [eauto |].
  unfold unfoldIntegrals. case_bool_decide; [done |]. rewrite Hck. simpl.
  intros [Hout | (walk & Hwalk & Hout)]%bind_OutOfFuel.
  { by eapply treeNodeServerListAndNormSets_terminates. }
  apply bind_OutOfFuel in Hout as [Hout | ([ck' ns'] & _ & Hout)].
  - pose proof Hck as (Hres & _ & Hel & Hclosed)%GraphChecker_new_snapshot.
    eapply (cleanNormSets_terminates (_serverLists checker) rank);
      [done | | done | | | done].
    + intros a b (l & Hl & Hb). apply (acyclic_servers rank (graph st) a b Hac).
      by apply (Hel a l).
    + rewrite Hres. apply sound_empty.
    + intros k Hk.
      assert (reaches (graph st) topNode k) as Hr.
      { apply (treeNodeServerListAndNormSets_reaches fuel (graph st) topNode topNode
                 (sort normSet) (mkWalk [] ∅ []) walk);
          [apply rtc_refl | by intros ? ?%elem_of_nil | done |].
        apply treeNodeServerListAndNormSets_expands in Hwalk as (Hkeys & _);
          [by apply Hkeys |].
        intros n Hn. by apply lookup_empty_is_Some in Hn. }
      split; [by eapply GraphChecker_new_keys |].
      apply (reaches_rank _ rank Hac) in Hr. lia.
  - apply bind_OutOfFuel in Hout as [Hout | (st1 & _ & Hout)]; [| done].
    by eapply wrapLoop_terminates.
Qed.

(** X12 at the sum of two pdfs under its aggregator. *)
Lemma unfoldIntegrals_terminates_witness :
  (∃ checker, GraphChecker_new 7 (RooAddition_new sumGraph 5).2 6 = Done checker) ∧
  unfoldIntegrals 7 6 [1; 2] ∅ (mkRewrite (RooAddition_new sumGraph 5).2 [] [] [])
    ≠ OutOfFuel.
Proof.
  refine (unfoldIntegrals_terminates 7 id 6 [1; 2]
            (mkRewrite (RooAddition_new sumGraph 5).2 [] [] []) _ _).
  - unfold acyclic. refine (bool_decide_unpack _ _). vm_compute. exact I.
  - unfold id. lia.
Defined.

(** * Order of the narrowed sets *)

Lemma StronglySorted_sublist {A} (R : relation A) (l1 l2 : list A) :
  l1 `sublist_of` l2 → StronglySorted R l2 → StronglySorted R l1.
Proof.
  induction 1 as [| x l1 l2 Hsub IH | x l1 l2 Hsub IH]; intros Hs; [done | |].
  - apply StronglySorted_inv in Hs as [Hs Hall]. constructor; [by apply IH |].
    apply Forall_forall. intros y Hy. apply (proj1 (Forall_forall _ _) Hall).
    by apply (sublist_subseteq l1 l2).
  - apply StronglySorted_inv in Hs as [Hs _]. by apply IH.
Qed.

Lemma Sorted_le_sublist (l1 l2 : list DataKey) :
  l1 `sublist_of` l2 → Sorted Nat.le l2 → Sorted Nat.le l1.
Proof.
  intros Hsub Hs. apply StronglySorted_Sorted.
  apply (StronglySorted_sublist _ l1 l2 Hsub).
  apply Sorted_StronglySorted; [intros ? ? ? ? ?; lia | done].
Qed.

Lemma keepLoop_sublist fuel nodes key l st st' :
  forEach (keepIfDependent fuel nodes key) l st = Done st' →
  ∃ k, st'.2 = st.2 ++ k ∧ k `sublist_of` l.
Proof.
  revert st. induction l as [| narg l IH]; intros st; simpl.
  - intros [= <-]. exists []. by rewrite app_nil_r.
  - intros (st1 & H1 & Hrun)%bind_Done.
    apply IH in Hrun as (k & Hk & Hsub).
    assert (st1.2 = st.2 ∨ st1.2 = st.2 ++ [narg]) as [Heq | Heq].
    { unfold keepIfDependent in H1.
      apply bind_Done in H1 as ([t ck] & _ & H1). destruct t.
      - unfold RooArgSet_find in H1. case_bool_decide; [| done].
        injection H1 as <-. simpl. unfold RooArgSet_add.
        case_bool_decide; [by left | by right].
      - injection H1 as <-. by left. }
    + exists k. split; [congruence |]. by apply sublist_cons.
    + exists (narg :: k). split.
      * rewrite Hk, Heq, <- app_assoc. done.
      * by apply sublist_skip.
Qed.

Lemma cleanLoop_sublist fuel nodes items
    (st st' : GraphChecker * gmap DataKey (list DataKey)) :
  NoDup items.*1 →
  forEach (λ st item,
             if bool_decide (item.2 = []) then Done st
             else
               '(checker, actualNormSet) ←
                  forEach (keepIfDependent fuel nodes item.1) item.2 (st.1, []);
               Done (checker, <[item.1 := actualNormSet]> st.2))
          items st = Done st' →
  (∀ k, k ∉ items.*1 → st'.2 !! k = st.2 !! k) ∧
  ∀ k s, (k, s) ∈ items →
         (st'.2 !! k = st.2 !! k ∧ s = []) ∨
         ∃ actual, st'.2 !! k = Some actual ∧ actual `sublist_of` s.
Proof.
  revert st. induction items as [| [k0 s0] items IH]; intros st Hnd; simpl.
  - intros [= <-]. split; [done |]. by intros k s ?%elem_of_nil.
  - simpl in Hnd. apply NoDup_cons in Hnd as [Hk0 Hnd].
    intros (st1 & H1 & Hrun)%bind_Done.
    apply IH in Hrun as [Hout Hin]; [| done].
    assert ((st1.2 = st.2 ∧ s0 = []) ∨
            ∃ actual, st1.2 = <[k0 := actual]> st.2 ∧ actual `sublist_of` s0)
      as Hstep.
    { case_bool_decide as He; [left; by injection H1 as <- |]. right.
      apply bind_Done in H1 as ([ck a] & Hloop & [= <-]).
      apply keepLoop_sublist in Hloop as (k & Hk & Hsub). simpl in *.
      exists a. split; [done |]. by subst a. }
    split.
    + intros k Hk. apply not_elem_of_cons in Hk as [Hne Hk]. rewrite Hout by done.
      destruct Hstep as [[-> _] | (a & -> & _)]; [done |].
      by rewrite lookup_insert_ne.
    + intros k s [[= -> ->] | Hks]%elem_of_cons.
      * rewrite Hout by done.
        destruct Hstep as [[-> ->] | (a & -> & Hsub)]; [by left |].
        right. exists a. by rewrite lookup_insert_eq.
      * assert (k ≠ k0) as Hne.
        { intros ->. apply Hk0, list_elem_of_fmap. by exists (k0, s). }
        assert (st1.2 !! k = st.2 !! k) as <-; [| by apply Hin].
        destruct Hstep as [[-> _] | (a & -> & _)]; [done |].
        by rewrite lookup_insert_ne.
Qed.

(** X13.  The cleaning pass keeps the order of the variables: the set it
    leaves for a node is a sublist of the set the propagation recorded for
    it.  The sets [unfoldIntegrals] hands back, with which the wrappers are
    built, are therefore sorted by name, as the recorded sets are, and hold
    no variable twice. *)
Theorem narrowed_sets_keep_order :
  (∀ (fuel : nat) (nodes : list DataKey) (checker checker' : GraphChecker)
     (normSets normSets' : gmap DataKey (list DataKey)),
     cleanNormSets fuel nodes checker normSets = Done (checker', normSets') →
     ∀ k s, normSets !! k = Some s →
            ∃ actual, normSets' !! k = Some actual ∧ actual `sublist_of` s) ∧
  (∀ (fuel : nat) (topNode : DataKey) (normSet : list DataKey) (st st' : Rewrite)
     (normSets' : gmap DataKey (list DataKey)),
     unfoldIntegrals fuel topNode normSet ∅ st = Done (normSets', st') →
     ∀ k s, normSets' !! k = Some s → Sorted Nat.le s ∧ NoDup s).
Proof.
  assert (∀ (fuel : nat) (nodes : list DataKey) (checker checker' : GraphChecker)
     (normSets normSets' : gmap DataKey (list DataKey)),
     cleanNormSets fuel nodes checker normSets = Done (checker', normSets') →
     ∀ k s, normSets !! k = Some s →
            ∃ actual, normSets' !! k = Some actual ∧ actual `sublist_of` s) as Hclean.
  { intros fuel nodes checker checker' normSets normSets' Hrun k s Hks.
    unfold cleanNormSets in Hrun.
    apply cleanLoop_sublist in Hrun as [_ Hin]; [| apply NoDup_fst_map_to_list].
    destruct (Hin k s) as [[Hsame ->] | ?]; [by apply elem_of_map_to_list | | done].
    exists []. simpl in Hsame. by rewrite Hsame. }
  split; [done |].
  intros fuel topNode normSet st st' normSets' Hrun k s Hks.
  unfold unfoldIntegrals in Hrun. case_bool_decide as Hempty.
  { injection Hrun as <- <-. by rewrite lookup_empty in Hks. }
  apply bind_Done in Hrun as (checker & Hck & Hrun).
  apply bind_Done in Hrun as (walk & Hwalk & Hrun).
  apply bind_Done in Hrun as ([checker' normSets1] & Hcl & Hrun).
  apply bind_Done in Hrun as (st1 & _ & [= <- <-]).
  assert (canonical (w_normSets walk)) as Hcanon.
  { eapply treeNodeServerListAndNormSets_canonical; [| | done].
    - apply Sorted_merge_sort, _.
    - intros n s0 Hs0. simpl in Hs0. by rewrite lookup_empty in Hs0. }
  pose proof Hck as (Hres & _)%GraphChecker_new_snapshot.
  pose proof (cleanNormSets_sound (_serverLists checker) (w_list walk) fuel checker
                (w_normSets walk) checker' normSets1 eq_refl) as [Hdom Hnarrow];
    [rewrite Hres; apply sound_empty | done |].
  assert (is_Some (w_normSets walk !! k)) as [s0 Hs0].
  { apply elem_of_dom. rewrite <- Hdom. apply elem_of_dom. eauto. }
  destruct (Hclean _ _ _ _ _ _ Hcl k s0 Hs0) as (a & Ha & Hsub).
  destruct (Hnarrow k s0 Hs0) as (a' & Ha' & Hnd & _).
  assert (a = s) as -> by congruence. assert (a' = s) as -> by congruence.
  split; [| done]. eapply Sorted_le_sublist; [done |]. by eapply Hcanon.
Qed.

(** X13 at the diamond, for the recorded set {1, 9} of the node 4. *)
Lemma narrowed_sets_keep_order_witness :
  ∃ checker' normSets',
    cleanNormSets 5 [4; 3; 2; 1] (mkChecker diamondLists ∅) {[4 := [1; 9]]}
      = Done (checker', normSets') ∧
    ∀ k s, ({[4 := [1; 9]]} : gmap DataKey (list DataKey)) !! k = Some s →
           ∃ actual, normSets' !! k = Some actual ∧ actual `sublist_of` s.
Proof.
  eexists _, _. split; [vm_compute; reflexivity |].
  eapply (proj1 narrowed_sets_keep_order 5 [4; 3; 2; 1] (mkChecker diamondLists ∅)).
  vm_compute. reflexivity.
Defined.

(** * The markers of [foldIntegrals] *)

Lemma markersOf_cons p pairs n :
  markersOf (p :: pairs) n =
  (if decide (p.1 = n) then {[p.2]} else ∅) ∪ markersOf pairs n.
Proof.
  unfold markersOf. rewrite filter_cons. destruct (decide (p.1 = n)); simpl.
  - done.
  - set_solver.
Qed.

Lemma argAt_setAttribute_field {B} (proj : RooAbsArg → B) a k v (g : Graph) n :
  (∀ s x, proj (set_attributes s x) = proj x) →
  proj (argAt (setAttribute a k v g) n) = proj (argAt g n).
Proof. intros Hp. unfold setAttribute. by apply (argAt_alter_field proj). Qed.

Lemma markers_set_attributes (g : Graph) pairs n :
  is_Some (g !! n) →
  attributes (argAt (foldl (λ g p, setAttribute p.1 p.2 true g) g pairs) n) =
  attributes (argAt g n) ∪ markersOf pairs n.
Proof.
  revert g. induction pairs as [| [p w] pairs IH]; intros g Hn; simpl.
  - unfold markersOf. simpl. set_solver.
  - rewrite IH.
    2:{ apply elem_of_dom. unfold setAttribute. rewrite dom_alter_L.
        by apply elem_of_dom. }
    rewrite markersOf_cons. simpl. destruct (decide (p = n)) as [-> | Hne].
    + rewrite attributes_setAttribute_true by done. set_solver.
    + rewrite attributes_setAttribute_ne by done. set_solver.
Qed.

Lemma markers_cleared_attributes (g : Graph) pairs n :
  attributes (argAt (foldl (λ g p, setAttribute p.1 p.2 false g) g pairs) n) =
  attributes (argAt g n) ∖ markersOf pairs n.
Proof.
  revert g. induction pairs as [| [p w] pairs IH]; intros g; simpl.
  - unfold markersOf. simpl. set_solver.
  - rewrite IH, markersOf_cons. simpl. destruct (decide (p = n)) as [-> | Hne].
    + rewrite attributes_setAttribute_false. set_solver.
    + rewrite attributes_setAttribute_ne by done. set_solver.
Qed.

Lemma markers_field {B} (proj : RooAbsArg → B) v (g : Graph) pairs n :
  (∀ s x, proj (set_attributes s x) = proj x) →
  proj (argAt (foldl (λ g p, setAttribute p.1 p.2 v g) g pairs) n) = proj (argAt g n).
Proof.
  intros Hp. revert g. induction pairs as [| [p w] pairs IH]; intros g; simpl; [done |].
  by rewrite IH, argAt_setAttribute_field.
Qed.

Lemma markers_dom v (g : Graph) (pairs : list (DataKey * DataKey)) :
  dom (foldl (λ g p, setAttribute p.1 p.2 v g) g pairs) = dom g.
Proof.
  revert g. induction pairs as [| [p w] pairs IH]; intros g; simpl; [done |].
  rewrite IH. unfold setAttribute. by rewrite dom_alter_L.
Qed.

Lemma recursiveRedirectServers_field {B} (proj : RooAbsArg → B) fuel newSet
    (g : Graph) node g' :
  (∀ l a, proj (set_serverList l a) = proj a) →
  recursiveRedirectServers fuel newSet g node = Done g' →
  dom g' = dom g ∧ ∀ n, proj (argAt g' n) = proj (argAt g n).
Proof.
  intros Hp. revert g node g'.
  induction fuel as [| fuel IH]; intros g node g'; [done |].
  simpl. intros Hrun.
  apply (forEach_Done_invariant
           (λ h, dom h = dom g ∧ ∀ n, proj (argAt h n) = proj (argAt g n)))
    in Hrun; [done | |].
  - intros h x h' _ [Hd Hf] Hbody. apply IH in Hbody as [Hd' Hf'].
    split; [congruence |]. intros n. by rewrite Hf'.
  - unfold redirectServers. rewrite dom_alter_L. split; [done |].
    intros n. by apply (argAt_alter_field proj).
Qed.

(** X14.  Whenever [foldIntegrals] returns, it has changed nothing but
    server lists and markers: no node has been added or removed, every node
    is of the kind it was, has been evaluated with what it had been and
    wraps what it wrapped; and of the [ORIGNAME] markers of a node exactly
    those of the ledger are gone, so that none of the markers the function
    sets for the redirection outlives it. *)
Theorem foldIntegrals_markers (fuel : nat) (topNode : DataKey)
    (replacedArgs newArgs : list DataKey) (g g' : Graph) :
  foldIntegrals fuel topNode replacedArgs newArgs g = Done g' →
  length replacedArgs = length newArgs ∧
  dom g' = dom g ∧
  ∀ n, kind (argAt g' n) = kind (argAt g n) ∧
       selfNormalized (argAt g' n) = selfNormalized (argAt g n) ∧
       evaluated (argAt g' n) = evaluated (argAt g n) ∧
       wrapped (argAt g' n) = wrapped (argAt g n) ∧
       attributes (argAt g' n)
       = attributes (argAt g n) ∖ markersOf (zip replacedArgs newArgs) n.
Proof.
  unfold foldIntegrals. destruct (length replacedArgs =? length newArgs) eqn:Hlen;
    [| done].
  simpl. intros (g2 & Hrec & [= <-])%bind_Done.
  apply Nat.eqb_eq in Hlen. split; [done |].
  set (pairs := zip replacedArgs newArgs) in *.
  pose proof (recursiveRedirectServers_field kind _ _ _ _ _
                ltac:(done) Hrec) as [Hdom Hkind].
  pose proof (recursiveRedirectServers_field selfNormalized _ _ _ _ _
                ltac:(done) Hrec) as [_ Hself].
  pose proof (recursiveRedirectServers_field evaluated _ _ _ _ _
                ltac:(done) Hrec) as [_ Hev].
  pose proof (recursiveRedirectServers_field wrapped _ _ _ _ _
                ltac:(done) Hrec) as [_ Hwr].
  pose proof (recursiveRedirectServers_field attributes _ _ _ _ _
                ltac:(done) Hrec) as [_ Hattr].
  split; [by rewrite markers_dom, Hdom, markers_dom |].
  intros n.
  rewrite !(markers_field _ false) by done.
  rewrite Hkind, Hself, Hev, Hwr, !(markers_field _ true) by done.
  split_and!; [done | done | done | done |].
  rewrite markers_cleared_attributes, Hattr.
  destruct (g !! n) as [a |] eqn:Hn.
  - rewrite markers_set_attributes by by rewrite Hn. set_solver.
  - assert (argAt (foldl (λ g p, setAttribute p.1 p.2 true g) g pairs) n = nullArg)
      as ->.
    { unfold argAt. assert (foldl (λ g p, setAttribute p.1 p.2 true g) g pairs !! n
                            = None) as ->; [| done].
      apply not_elem_of_dom. rewrite markers_dom. by apply not_elem_of_dom. }
    unfold argAt. rewrite Hn. done.
Qed.

(** X14 at the sum of two pdfs, rewritten. *)
Lemma foldIntegrals_markers_witness :
  ∃ g',
    foldIntegrals 8 6 [3; 4] [7; 8] sumUnfolded = Done g' ∧
    length [3; 4] = length [7; 8] ∧
    dom g' = dom sumUnfolded ∧
    ∀ n, kind (argAt g' n) = kind (argAt sumUnfolded n) ∧
         selfNormalized (argAt g' n) = selfNormalized (argAt sumUnfolded n) ∧
         evaluated (argAt g' n) = evaluated (argAt sumUnfolded n) ∧
         wrapped (argAt g' n) = wrapped (argAt sumUnfolded n) ∧
         attributes (argAt g' n)
         = attributes (argAt sumUnfolded n) ∖ markersOf (zip [3; 4] [7; 8]) n.
Proof.
  eexists. split; [vm_compute; reflexivity |].
  apply (foldIntegrals_markers 8 6 [3; 4] [7; 8] sumUnfolded).
  vm_compute. reflexivity.
Defined.

(** * Narrowing and the wrappers *)

(** X30.  Whenever [unfoldIntegrals] returns for a normalization set
    that is not empty, on a graph without dangling servers and with empty
    ledgers, the table it returns holds, for every node that the
    propagation has recorded a set for, exactly the variables of that set
    which the node reaches in the snapshot of the checker, that is, those
    for which [dependsOn] answers true, each of them an element of the
    visited set.  The pdfs it has replaced are, in the order of the visited
    set, the pdfs which under these narrowed sets need a wrapper; there is
    one wrapper for each of them, a new node, and it has been constructed
    with the pdf and the narrowed set of the pdf. *)
Theorem wrappers_carry_narrowed_sets (fuel : nat) (h0 : Graph) (topNode : DataKey)
    (normSet : list DataKey) (normSets' : gmap DataKey (list DataKey))
    (st' : Rewrite) :
  wellFormed h0 → is_Some (h0 !! topNode) → normSet ≠ [] →
  unfoldIntegrals fuel topNode normSet ∅ (mkRewrite h0 [] [] []) = Done (normSets', st') →
  ∃ checker walk,
    GraphChecker_new fuel h0 topNode = Done checker ∧
    treeNodeServerListAndNormSets fuel h0 topNode (sort normSet) (mkWalk [] ∅ [])
      = Done walk ∧
    (∀ k s, w_normSets walk !! k = Some s →
            ∃ actual, normSets' !! k = Some actual ∧
                      narrowed (_serverLists checker) (w_list walk) k s actual) ∧
    replacedArgs st' = filter (λ n, needsWrapper h0 normSets' n = true) (w_list walk) ∧
    length (newArgs st') = length (replacedArgs st') ∧
    ∀ p w, (p, w) ∈ zip (replacedArgs st') (newArgs st') →
           h0 !! w = None ∧
           wrapped (argAt (graph st') w) = Some (p, default [] (normSets' !! p)).
Proof.
  intros Hwf Htop Hne Hrun.
  unfold unfoldIntegrals in Hrun. rewrite bool_decide_eq_false_2 in Hrun by done.
  apply bind_Done in Hrun as (checker & Hck & Hrun).
  apply bind_Done in Hrun as (walk & Hwalk & Hrun).
  apply bind_Done in Hrun as ([checker' normSets1] & Hclean & Hrun).
  apply bind_Done in Hrun as (st1 & Hloop & [= <- <-]).
  cbn [graph] in *.
  exists checker, walk. split; [done |]. split; [done |].
  split.
  { pose proof (GraphChecker_new_snapshot _ _ _ _ Hck) as (Hres & _).
    apply (cleanNormSets_sound (_serverLists checker) (w_list walk) fuel checker
             (w_normSets walk) checker' normSets1); [done | | done].
    rewrite Hres. apply sound_empty. }
  assert (listed walk) as [Hnd _].
  { eapply treeNodeServerListAndNormSets_listed; [| done].
    split; simpl; [apply NoDup_nil_2 | done]. }
  assert (∀ n, n ∈ w_list walk → is_Some (h0 !! n)) as Hnodes.
  { intros n Hn. apply (reaches_in_graph h0 topNode n); [| done |].
    - intros m s. by apply wellFormed_servers.
    - revert n Hn.
      apply (treeNodeServerListAndNormSets_reaches fuel h0 topNode topNode
               (sort normSet) (mkWalk [] ∅ []) walk); [apply rtc_refl | | done].
      by intros n ?%elem_of_nil. }
  destruct (wrapLoop_rewired h0 (w_list walk) normSets1 st1) as (pairs & Hun & Hre);
    [intros n s; by apply wellFormed_servers | done | done | done |].
  destruct Hun as (Hrep & Hnew & Hown & Hnd1 & Hnd2 & Hp & Hwfresh & _).
  destruct Hre as (Hfilter & _ & _ & Hwrapped).
  rewrite Hrep, Hnew, zip_fst_snd, !length_fmap.
  split_and!; [done | done |].
  intros p w Hpw. destruct (Hwrapped p w Hpw) as [_ Hwr]. split; [| done].
  apply Hwfresh, list_elem_of_fmap. by exists (p, w).
Qed.

(** X30 at the sum of two pdfs under its aggregator: of the set {1, 2}
    recorded for the pdf 4 only the variable 1 is kept, and the wrapper of
    the pdf 4 is built with it. *)
Lemma wrappers_carry_narrowed_sets_witness :
  ∃ checker walk,
    GraphChecker_new 10 (RooAddition_new sumGraph 5).2 6 = Done checker ∧
    treeNodeServerListAndNormSets 10 (RooAddition_new sumGraph 5).2 6 (sort [1; 2])
      (mkWalk [] ∅ []) = Done walk ∧
    (∀ k s, w_normSets walk !! k = Some s →
            ∃ actual, _normSets sumUnfolder !! k = Some actual ∧
                      narrowed (_serverLists checker) (w_list walk) k s actual) ∧
    replacedArgs (mkRewrite sumUnfolded [3; 4] [7; 8] [7; 8])
    = filter (λ n, needsWrapper (RooAddition_new sumGraph 5).2
                     (_normSets sumUnfolder) n = true) (w_list walk) ∧
    length (newArgs (mkRewrite sumUnfolded [3; 4] [7; 8] [7; 8]))
    = length (replacedArgs (mkRewrite sumUnfolded [3; 4] [7; 8] [7; 8])) ∧
    ∀ p w, (p, w) ∈ zip (replacedArgs (mkRewrite sumUnfolded [3; 4] [7; 8] [7; 8]))
                        (newArgs (mkRewrite sumUnfolded [3; 4] [7; 8] [7; 8])) →
           (RooAddition_new sumGraph 5).2 !! w = None ∧
           wrapped (argAt (graph (mkRewrite sumUnfolded [3; 4] [7; 8] [7; 8])) w)
           = Some (p, default [] (_normSets sumUnfolder !! p)).
Proof.
  apply (wrappers_carry_narrowed_sets 10 (RooAddition_new sumGraph 5).2 6 [1; 2]
           (_normSets sumUnfolder) (mkRewrite sumUnfolded [3; 4] [7; 8] [7; 8])).
  - unfold wellFormed. refine (bool_decide_unpack _ _). vm_compute. exact I.
  - vm_compute. eauto.
  - discriminate.
  - vm_compute. reflexivity.
Defined.

(** * RooCmdConfig *)

(** ** Look-up by name *)

Section lookup.
Context {A : Type} (GetName : A → string).

Lemma FindObject_app name (l1 l2 : list A) :
  FindObject GetName name (l1 ++ l2) =
  match FindObject GetName name l1 with
  | Some o => Some o
  | None => FindObject GetName name l2
  end.
Proof.
  induction l1 as [| o l1 IH]; simpl; [done |]. by case_bool_decide.
Qed.

Lemma FindObject_Some name (l : list A) o :
  FindObject GetName name l = Some o → o ∈ l ∧ GetName o = name.
Proof.
  induction l as [| x l IH]; simpl; [done |]. case_bool_decide as Hx.
  - intros [= <-]. split; [by left | done].
  - intros [Hin Hn]%IH. split; [by right | done].
Qed.

Lemma FindObject_None name (l : list A) :
  FindObject GetName name l = None ↔ ∀ o, o ∈ l → GetName o ≠ name.
Proof.
  induction l as [| x l IH]; simpl.
  - split; [by intros _ o ?%elem_of_nil | done].
  - case_bool_decide as Hx.
    + split; [done |]. intros H. exfalso. by apply (H x); [left |].
    + rewrite IH. split.
      * intros H o [-> | Hin]%elem_of_cons; [done | by apply H].
      * intros H o Hin. apply H. by right.
Qed.

Lemma FindObject_is_Some name (l : list A) :
  is_Some (FindObject GetName name l) ↔ name ∈ map GetName l.
Proof.
  induction l as [| x l IH]; simpl.
  - split; [by intros [? ?] | by intros ?%elem_of_nil].
  - case_bool_decide as Hx.
    + split; [intros _; rewrite <- Hx; by left | eauto].
    + rewrite IH. split; [by right |].
      intros [? | ?]%elem_of_cons; [congruence | done].
Qed.

Lemma FindObject_map (f : A → A) name (l : list A) :
  (∀ o, GetName (f o) = GetName o) →
  FindObject GetName name (map f l) = f <$> FindObject GetName name l.
Proof.
  intros Hf. induction l as [| x l IH]; simpl; [done |].
  rewrite Hf. by case_bool_decide.
Qed.

Lemma RemoveFound_length name (l : list A) o :
  FindObject GetName name l = Some o →
  length l = S (length (RemoveFound GetName name l)).
Proof.
  induction l as [| x l IH]; simpl; [done |]. case_bool_decide as Hx; [done |].
  intros Hf. simpl. by rewrite (IH Hf).
Qed.

Lemma RemoveFound_Permutation name (l : list A) o :
  FindObject GetName name l = Some o →
  l ≡ₚ o :: RemoveFound GetName name l.
Proof.
  induction l as [| x l IH]; simpl; [done |]. case_bool_decide as Hx.
  - by intros [= ->].
  - intros Hf. rewrite (IH Hf) at 1. apply Permutation_swap.
Qed.

Lemma RemoveFound_filter name (P : A → Prop) `{!∀ x, Decision (P x)} (l : list A) o :
  FindObject GetName name l = Some o → ¬ P o →
  filter P (RemoveFound GetName name l) = filter P l.
Proof.
  induction l as [| x l IH]; simpl; [done |]. case_bool_decide as Hx.
  - intros [= ->] Ho. by rewrite filter_cons_False.
  - intros Hf Ho. rewrite !filter_cons, (IH Hf Ho). done.
Qed.
End lookup.

(** ** The required list *)

Lemma filter_all {A} (P : A → Prop) `{!∀ x, Decision (P x)} (l : list A) :
  (∀ x, x ∈ l → P x) → filter P l = l.
Proof.
  induction l as [| x l IH]; intros Hall; [done |].
  rewrite filter_cons_True by (apply Hall; by left).
  rewrite IH; [done |]. intros y Hy. apply Hall. by right.
Qed.

Lemma removeRequired_filter (opc : string) (rList : list string) rounds :
  length rList ≤ rounds →
  removeRequired rounds opc rList = filter (λ s, s ≠ opc) rList.
Proof.
  revert rList. induction rounds as [| rounds IH]; intros rList Hlen.
  - destruct rList; [done | simpl in Hlen; lia].
  - simpl. destruct (FindObject id opc rList) as [o |] eqn:Hfind.
    + pose proof (FindObject_Some id _ _ _ Hfind) as [_ Ho]. unfold id in Ho.
      pose proof (RemoveFound_length id _ _ _ Hfind) as Hl.
      rewrite IH by lia.
      apply (RemoveFound_filter id opc (λ s, s ≠ opc) rList o Hfind).
      intros Hne. by apply Hne.
    + symmetry. apply filter_all. intros s Hs.
      by apply (proj1 (FindObject_None id opc rList) Hfind s).
Qed.

(** ** The loops over the properties *)

Lemma foldl_processInt verbose opc arg l passed anyField out :
  ∃ out',
    foldl (processInt verbose opc arg) (passed, anyField, out) l =
    (passed ++ map (assignInt opc arg) l,
     anyField || existsb (λ ri, bool_decide (ri_title ri = opc)) l, out ++ out').
Proof.
  revert passed anyField out.
  induction l as [| ri l IH]; intros passed anyField out; simpl.
  - exists []. by rewrite !app_nil_r, orb_false_r.
  - unfold assignInt at 1. case_bool_decide as Ht; simpl.
    + destruct (IH (passed ++ [mkRooInt (ri_name ri) (ri_title ri) (ri_uniqueID ri)
                                 (cmdInt arg (ri_uniqueID ri))]) true
                   (out ++ trace verbose
                      [OStr "RooCmdConfig::process "; OStr (ri_name ri);
                       OStr "[Int_t]"; OStr " set to ";
                       OInt (cmdInt arg (ri_uniqueID ri))])) as [out' ->].
      eexists. rewrite <- !app_assoc. simpl. by rewrite orb_true_r.
    + destruct (IH (passed ++ [ri]) anyField out) as [out' ->].
      exists out'. by rewrite <- !app_assoc.
Qed.

Lemma foldl_processDouble verbose opc arg l passed anyField out :
  ∃ out',
    foldl (processDouble verbose opc arg) (passed, anyField, out) l =
    (passed ++ map (assignDouble opc arg) l,
     anyField || existsb (λ rd, bool_decide (rd_title rd = opc)) l, out ++ out').
Proof.
  revert passed anyField out.
  induction l as [| rd l IH]; intros passed anyField out; simpl.
  - exists []. by rewrite !app_nil_r, orb_false_r.
  - unfold assignDouble at 1. case_bool_decide as Ht; simpl.
    + destruct (IH (passed ++ [mkRooDouble (rd_name rd) (rd_title rd)
                                 (rd_uniqueID rd) (cmdDouble arg (rd_uniqueID rd))])
                   true
                   (out ++ trace verbose
                      [OStr "RooCmdConfig::process "; OStr (rd_name rd);
                       OStr "[Double_t]"; OStr " set to ";
                       ODouble (cmdDouble arg (rd_uniqueID rd))])) as [out' ->].
      eexists. rewrite <- !app_assoc. simpl. by rewrite orb_true_r.
    + destruct (IH (passed ++ [rd]) anyField out) as [out' ->].
      exists out'. by rewrite <- !app_assoc.
Qed.

Lemma foldl_processString verbose opc arg l passed anyField out :
  ∃ out',
    foldl (processString verbose opc arg) (passed, anyField, out) l =
    (passed ++ map (assignString opc arg) l,
     anyField || existsb (λ rs, bool_decide (rs_title rs = opc)) l, out ++ out').
Proof.
  revert passed anyField out.
  induction l as [| rs l IH]; intros passed anyField out; simpl.
  - exists []. by rewrite !app_nil_r, orb_false_r.
  - unfold assignString at 1. case_bool_decide as Ht; simpl.
    + match goal with
      | |- ∃ _, foldl _ (?p, true, ?o) l = _ =>
          destruct (IH p true o) as [out' ->]
      end.
      eexists. rewrite <- !app_assoc. simpl. by rewrite orb_true_r.
    + destruct (IH (passed ++ [rs]) anyField out) as [out' ->].
      exists out'. by rewrite <- !app_assoc.
Qed.

Lemma foldl_processObject verbose tag get opc l passed anyField out :
  ∃ out',
    foldl (processObject verbose tag get opc) (passed, anyField, out) l =
    (passed ++ map (assignObject get opc) l,
     anyField || existsb (λ os, bool_decide (ro_title os = opc)) l, out ++ out').
Proof.
  revert passed anyField out.
  induction l as [| os l IH]; intros passed anyField out; simpl.
  - exists []. by rewrite !app_nil_r, orb_false_r.
  - unfold assignObject at 1. case_bool_decide as Ht; simpl.
    + match goal with
      | |- ∃ _, foldl _ (?p, true, ?o) l = _ =>
          destruct (IH p true o) as [out' ->]
      end.
      eexists. rewrite <- !app_assoc. simpl. by rewrite orb_true_r.
    + destruct (IH (passed ++ [os]) anyField out) as [out' ->].
      exists out'. by rewrite <- !app_assoc.
Qed.

(** ** The argument itself *)

Lemma checkDependencies_eq opc this :
  ∃ out, checkDependencies opc this =
         (set_rList (_rList this ++ newlyRequired opc this) this, out).
Proof.
  unfold checkDependencies, newlyRequired.
  destruct (FindObject tn_name opc (_yList this)) as [dep |].
  - destruct (FindObject tn_name (tn_title dep) (_pList this)).
    + eexists. rewrite app_nil_r. by destruct this.
    + by eexists.
  - eexists. rewrite app_nil_r. by destruct this.
Qed.

Lemma checkMutexes_eq opc this :
  ∃ out, checkMutexes opc this =
         (set_fList (_fList this ++ newlyForbidden opc this) this, out).
Proof.
  unfold checkMutexes, newlyForbidden.
  destruct (FindObject tn_name opc (_mList this)) as [mutex |].
  - by eexists.
  - eexists. rewrite app_nil_r. by destruct this.
Qed.

Lemma findFields_eq opc arg this :
  ∃ out, findFields opc arg this =
         (recognized opc this,
          set_cList (map (assignObject (cmdSet arg) opc) (_cList this))
            (set_oList (map (assignObject (cmdObject arg) opc) (_oList this))
               (set_sList (map (assignString opc arg) (_sList this))
                  (set_dList (map (assignDouble opc arg) (_dList this))
                     (set_iList (map (assignInt opc arg) (_iList this)) this)))),
          out).
Proof.
  unfold findFields, recognized.
  edestruct (foldl_processInt (_verbose this) opc arg (_iList this) [])
    as [o1 H1]. rewrite H1. clear H1.
  cbn [set_iList _dList _verbose].
  edestruct (foldl_processDouble (_verbose this) opc arg (_dList this) [])
    as [o2 H2]. rewrite H2. clear H2.
  cbn [set_dList set_iList _sList].
  edestruct (foldl_processString (_verbose this) opc arg (_sList this) [])
    as [o3 H3]. rewrite H3. clear H3.
  cbn [set_sList set_dList set_iList _oList].
  edestruct (foldl_processObject (_verbose this) "[TObject]" (cmdObject arg) opc
               (_oList this) []) as [o4 H4]. rewrite H4. clear H4.
  cbn [set_oList set_sList set_dList set_iList _cList].
  edestruct (foldl_processObject (_verbose this) "[RooArgSet]" (cmdSet arg) opc
               (_cList this) []) as [o5 H5]. rewrite H5. clear H5.
  eexists. destruct this. reflexivity.
Qed.

(** The effect of [processOwn] in closed form. *)
Lemma processOwn_processedOwn opc arg this :
  ∃ out, processOwn opc arg this =
         (recognized opc this, processedOwn opc arg this, out).
Proof.
  unfold processOwn.
  destruct (checkDependencies_eq opc this) as [o1 ->].
  destruct (checkMutexes_eq opc
              (set_rList (_rList this ++ newlyRequired opc this) this)) as [o2 ->].
  destruct (findFields_eq opc arg
              (set_fList
                 (_fList (set_rList (_rList this ++ newlyRequired opc this) this)
                  ++ newlyForbidden opc
                       (set_rList (_rList this ++ newlyRequired opc this) this))
                 (set_rList (_rList this ++ newlyRequired opc this) this)))
    as [o3 ->].
  eexists. f_equal. f_equal.
  destruct this as [name verbose error allow iL dL sL oL cL rL fL mL yL pL].
  unfold processedOwn, newlyRequired, newlyForbidden. simpl.
  rewrite removeRequired_filter by done. reflexivity.
Qed.

(** ** Induction on arguments *)

Lemma RooCmdArg_induction (P : RooCmdArg → Prop) :
  (∀ arg, Forall P (subArgs arg) → P arg) → ∀ arg, P arg.
Proof.
  intros H.
  refine (fix IH (arg : RooCmdArg) : P arg := _).
  destruct arg as [n i d s o c p q l]. apply H. simpl.
  revert l.
  refine (fix go (l : list RooCmdArg) : Forall P l := _).
  destruct l as [| x l].
  - apply Forall_nil_2.
  - apply Forall_cons_2; [apply IH | apply go].
Qed.

(** ** One step of [process] *)

Lemma processNamed_eq name arg this :
  processNamed name arg this =
  match opcodeOf name with
  | None => (false, this, [])
  | Some opc =>
      match FindObject id opc (_fList this) with
      | Some _ =>
          (true, set_error true this,
           [CoutE [OStr (_name this); OStr " ERROR: argument "; OStr opc;
                   OStr " not allowed in this context"]])
      | None =>
          let '(anyField, this, out) := processOwn opc arg this in
          let '(depRet, this, out) :=
            if procSubArgs arg then
              foldl (processSubArg processNamed name (prefixSubArgs arg))
                    (false, this, out) (subArgs arg)
            else (false, this, out) in
          ((if anyField || _allowUndefined this then false else true) || depRet,
           this, out)
      end
  end.
Proof. by destruct arg. Qed.

(** An argument without a name is ignored. *)
Lemma processNamed_empty arg this :
  processNamed EmptyString arg this = (false, this, []).
Proof. by rewrite processNamed_eq. Qed.

(** A forbidden argument. *)
Lemma processNamed_forbidden name arg this o :
  name ≠ EmptyString → FindObject id name (_fList this) = Some o →
  processNamed name arg this =
  (true, set_error true this,
   [CoutE [OStr (_name this); OStr " ERROR: argument "; OStr name;
           OStr " not allowed in this context"]]).
Proof.
  intros Hname Hf. rewrite processNamed_eq. unfold opcodeOf.
  rewrite bool_decide_eq_false_2 by done. by rewrite Hf.
Qed.

(** An argument that is processed without sub-arguments. *)
Lemma processNamed_own name arg this :
  name ≠ EmptyString → FindObject id name (_fList this) = None →
  procSubArgs arg = false →
  ∃ out, processNamed name arg this =
         (negb (recognized name this || _allowUndefined this),
          processedOwn name arg this, out).
Proof.
  intros Hname Hf Hsub. rewrite processNamed_eq. unfold opcodeOf.
  rewrite bool_decide_eq_false_2 by done. rewrite Hf, Hsub.
  destruct (processOwn_processedOwn name arg this) as [out ->].
  exists out. cbn [_allowUndefined processedOwn].
  by destruct (recognized name this || _allowUndefined this).
Qed.

(** The parser after an argument that is processed, sub-arguments
    included. *)
Lemma processNamed_state name arg this :
  name ≠ EmptyString → FindObject id name (_fList this) = None →
  (processNamed name arg this).1.2 =
  if procSubArgs arg
  then (foldl (processSubArg processNamed name (prefixSubArgs arg))
              (false, processedOwn name arg this, []) (subArgs arg)).1.2
  else processedOwn name arg this.
Proof.
  intros Hname Hf. rewrite processNamed_eq. unfold opcodeOf.
  rewrite bool_decide_eq_false_2 by done. rewrite Hf.
  destruct (processOwn_processedOwn name arg this) as [out ->].
  destruct (procSubArgs arg); [| done].
  assert (∀ l b t o o',
            (foldl (processSubArg processNamed name (prefixSubArgs arg))
                   (b, t, o) l).1.2 =
            (foldl (processSubArg processNamed name (prefixSubArgs arg))
                   (b, t, o') l).1.2 ∧
            (foldl (processSubArg processNamed name (prefixSubArgs arg))
                   (b, t, o) l).1.1 =
            (foldl (processSubArg processNamed name (prefixSubArgs arg))
                   (b, t, o') l).1.1) as Hout.
  { induction l as [| x l IH]; intros b t o o'; [done |]. simpl.
    destruct (negb _); [| apply IH].
    destruct (processNamed _ x t) as [[r t'] o'']. apply IH. }
  destruct (foldl _ (false, processedOwn name arg this, out) (subArgs arg))
    as [[depRet this'] out'] eqn:Hfold.
  simpl. pose proof (proj1 (Hout (subArgs arg) false (processedOwn name arg this)
                              out [])) as Heq.
  rewrite Hfold in Heq. simpl in Heq. by rewrite Heq.
Qed.

(** ** Relations that every step of [process] keeps *)

Section relation.
Context (R : relation RooCmdConfig).
Context (Hrefl : Reflexive R) (Htrans : Transitive R).
Context (Herror : ∀ this, R this (set_error true this)).
Context (Hown : ∀ opc arg this, opc ≠ EmptyString →
                  FindObject id opc (_fList this) = None →
                  R this (processedOwn opc arg this)).

Lemma processSubArgs_keeps rec name prefix l st :
  Forall (λ sub, ∀ n t, R t (rec n sub t).1.2) l →
  R st.1.2 (foldl (processSubArg rec name prefix) st l).1.2.
Proof.
  revert st. induction l as [| x l IH]; intros st Hall; simpl; [done |].
  apply Forall_cons in Hall as [Hx Hall].
  etrans; [| by apply IH].
  destruct st as [[b t] o]. simpl. destruct (negb _); [| done].
  specialize (Hx (subArgName name prefix x) t).
  by destruct (rec _ x t) as [[r t'] o'].
Qed.

Lemma processNamed_keeps arg : ∀ name this, R this (processNamed name arg this).1.2.
Proof.
  induction arg as [arg IH] using RooCmdArg_induction. intros name this.
  destruct (decide (name = EmptyString)) as [-> | Hname].
  { by rewrite processNamed_empty. }
  destruct (FindObject id name (_fList this)) as [o |] eqn:Hf.
  { rewrite (processNamed_forbidden name arg this o) by done. apply Herror. }
  rewrite processNamed_state by done.
  destruct (procSubArgs arg); [| by apply Hown].
  etrans; [by apply (Hown name arg this) |].
  by apply (processSubArgs_keeps processNamed name (prefixSubArgs arg) (subArgs arg)
              (false, processedOwn name arg this, [])).
Qed.

Lemma processList_keeps l this : R this (processList l this).1.2.
Proof.
  unfold processList.
  cut (∀ st, R st.1.2
               (foldl (λ (st : bool * RooCmdConfig * list Line) arg,
                         let '(ret, this, out) := st in
                         let '(r, this, out') := process arg this in
                         (ret || r, this, out ++ out')) st l).1.2).
  { intros H. apply (H (false, this, [])). }
  induction l as [| x l IH]; intros st; simpl; [done |].
  etrans; [| apply IH]. destruct st as [[b t] o]. simpl.
  pose proof (processNamed_keeps x (cmdName x) t) as Hx. unfold process.
  by destruct (processNamed (cmdName x) x t) as [[r t'] o'].
Qed.
End relation.

(** ** A list of arguments *)

Lemma not_forbidden (name : string) (l : list string) :
  name ∉ l ↔ FindObject id name l = None.
Proof.
  rewrite FindObject_None. unfold id. split.
  - intros Hn o Ho ->. done.
  - intros Hn Hin. by apply (Hn name).
Qed.

Lemma processList_from (l : list RooCmdArg) b t o :
  (foldl (λ (st : bool * RooCmdConfig * list Line) arg,
            let '(ret, this, out) := st in
            let '(r, this, out') := process arg this in
            (ret || r, this, out ++ out')) (b, t, o) l).1.2
  = (processList l t).1.2.
Proof.
  unfold processList.
  cut (∀ b' o',
         (foldl (λ (st : bool * RooCmdConfig * list Line) arg,
                   let '(ret, this, out) := st in
                   let '(r, this, out') := process arg this in
                   (ret || r, this, out ++ out')) (b, t, o) l).1.2
         = (foldl (λ (st : bool * RooCmdConfig * list Line) arg,
                     let '(ret, this, out) := st in
                     let '(r, this, out') := process arg this in
                     (ret || r, this, out ++ out')) (b', t, o') l).1.2).
  { intros H. apply H. }
  revert b t o. induction l as [| x l IH]; intros b t o b' o'; simpl; [done |].
  destruct (process x t) as [[r t'] o'']. apply IH.
Qed.

Lemma processList_cons a l this :
  (processList (a :: l) this).1.2 = (processList l (process a this).1.2).1.2.
Proof.
  unfold processList at 1. simpl.
  destruct (process a this) as [[r t'] o'']. apply processList_from.
Qed.

Lemma processList_app l1 l2 this :
  (processList (l1 ++ l2) this).1.2
  = (processList l2 (processList l1 this).1.2).1.2.
Proof.
  revert this. induction l1 as [| a l1 IH]; intros this; [done |].
  simpl. by rewrite !processList_cons, IH.
Qed.

(** The state an argument without sub-arguments leaves. *)
Lemma process_own arg this :
  cmdName arg ≠ EmptyString → cmdName arg ∉ _fList this →
  procSubArgs arg = false →
  (process arg this).1.2 = processedOwn (cmdName arg) arg this ∧
  (process arg this).1.1
  = negb (recognized (cmdName arg) this || _allowUndefined this).
Proof.
  intros Hname Hf%not_forbidden Hsub. unfold process.
  by destruct (processNamed_own _ arg this Hname Hf Hsub) as [out ->].
Qed.

(** ** What the lists of the parser do while arguments are processed *)

Lemma pList_grows_own opc arg this :
  _pList this `prefix_of` _pList (processedOwn opc arg this).
Proof. simpl. by apply prefix_app_r. Qed.

Lemma processNamed_pList arg name this :
  _pList this `prefix_of` _pList (processNamed name arg this).1.2.
Proof.
  apply (processNamed_keeps (λ a b, _pList a `prefix_of` _pList b)).
  - by intros a.
  - intros a b c Hab Hbc. by etrans.
  - by intros t.
  - intros opc a t _ _. apply pList_grows_own.
Qed.

Lemma processList_pList l this :
  _pList this `prefix_of` _pList (processList l this).1.2.
Proof.
  apply (processList_keeps (λ a b, _pList a `prefix_of` _pList b)).
  - by intros a.
  - intros a b c Hab Hbc. by etrans.
  - by intros t.
  - intros opc a t _ _. apply pList_grows_own.
Qed.

Lemma processList_fList l this :
  _fList this `prefix_of` _fList (processList l this).1.2.
Proof.
  apply (processList_keeps (λ a b, _fList a `prefix_of` _fList b)).
  - by intros a.
  - intros a b c Hab Hbc. by etrans.
  - by intros t.
  - intros opc a t _ _. simpl. by apply prefix_app_r.
Qed.

Lemma hasProcessed_prefix name a b :
  _pList a `prefix_of` _pList b →
  hasProcessed name a = true → hasProcessed name b = true.
Proof.
  intros [k Hk]. unfold hasProcessed. rewrite Hk, FindObject_app.
  by destruct (FindObject tn_name name (_pList a)).
Qed.

Lemma hasProcessed_own opc arg this :
  hasProcessed opc (processedOwn opc arg this) = true.
Proof.
  unfold hasProcessed. simpl. rewrite FindObject_app.
  destruct (FindObject tn_name opc (_pList this)); [done |]. simpl.
  by rewrite bool_decide_eq_true_2.
Qed.

(** An argument that is not refused counts as processed, whatever its
    sub-arguments do. *)
Lemma hasProcessed_processNamed name arg this :
  name ≠ EmptyString → FindObject id name (_fList this) = None →
  hasProcessed name (processNamed name arg this).1.2 = true.
Proof.
  intros Hname Hf. rewrite processNamed_state by done.
  destruct (procSubArgs arg); [| apply hasProcessed_own].
  apply (hasProcessed_prefix name (processedOwn name arg this));
    [| apply hasProcessed_own].
  assert (Reflexive (λ a b, _pList a `prefix_of` _pList b)) as Hr
    by (by intros a).
  assert (Transitive (λ a b, _pList a `prefix_of` _pList b)) as Ht
    by (intros a b c Hab Hbc; by etrans).
  apply (processSubArgs_keeps (λ a b, _pList a `prefix_of` _pList b)
           Hr Ht processNamed name (prefixSubArgs arg) (subArgs arg)
           (false, processedOwn name arg this, [])).
  apply Forall_forall. intros sub _ n t. apply processNamed_pList.
Qed.

Lemma error_sticky l this :
  _error this = true → _error (processList l this).1.2 = true.
Proof.
  apply (processList_keeps (λ a b, _error a = true → _error b = true)).
  - by intros a.
  - intros a b c Hab Hbc Ha. by apply Hbc, Hab.
  - by intros t.
  - by intros opc arg t _ _.
Qed.

Lemma ok_required verbose this s :
  s ∈ _rList this → (ok verbose this).1 = false.
Proof.
  intros Hin. unfold ok. by destruct (_rList this); [apply elem_of_nil in Hin |].
Qed.

Lemma ok_error verbose this : _error this = true → (ok verbose this).1 = false.
Proof. intros He. unfold ok. rewrite He. by rewrite andb_false_r. Qed.

(** ** The commands that are handled *)

Lemma handled_eq name arg :
  handled name arg =
  match opcodeOf name with
  | None => []
  | Some opc =>
      (opc, arg) ::
      (if procSubArgs arg
       then concat (map (λ subArg,
                           if negb (bool_decide (cmdName subArg = EmptyString))
                           then handled (subArgName name (prefixSubArgs arg) subArg)
                                        subArg
                           else [])
                        (subArgs arg))
       else [])
  end.
Proof. by destruct arg. Qed.

Lemma elem_of_concat_map {A B} (f : A → list B) (l : list A) (y : B) :
  y ∈ concat (map f l) ↔ ∃ x, x ∈ l ∧ y ∈ f x.
Proof.
  induction l as [| a l IH]; simpl.
  - split; [by intros ?%elem_of_nil | by intros (x & ?%elem_of_nil & _)].
  - rewrite elem_of_app, IH. split.
    + intros [Hy | (x & Hx & Hy)]; [exists a | exists x]; split; try done.
      * by left.
      * by right.
    + intros (x & [-> | Hx]%elem_of_cons & Hy); [by left |]. right. by exists x.
Qed.

(** ** Definitions of properties *)

(** X15.  A property defined under a name that is not yet taken is
    accepted without a message, and the getter of its kind then returns the
    default value it was defined with, whatever fallback the caller passes;
    what the getter returns for any other name is as before.  This holds for
    integers, doubles, strings, objects and sets; for a string the getter
    returns null instead of an empty default when asked to. *)
Theorem define_then_get (this : RooCmdConfig) (name argName : string) (num : Z) :
  (∀ defVal d : Int_t,
     FindObject ri_name name (_iList this) = None →
     ∃ this', defineInt name argName num defVal this = (false, this', []) ∧
              getInt name d this' = defVal ∧
              ∀ other, other ≠ name → getInt other d this' = getInt other d this) ∧
  (∀ defVal d : Double_t,
     FindObject rd_name name (_dList this) = None →
     ∃ this', defineDouble name argName num defVal this = (false, this', []) ∧
              getDouble name d this' = defVal ∧
              ∀ other, other ≠ name →
                       getDouble other d this' = getDouble other d this) ∧
  (∀ (defVal : string) (appendMode : bool) (d : option string),
     FindObject rs_name name (_sList this) = None →
     ∃ this', defineString name argName num defVal appendMode this
                = (false, this', []) ∧
              getString name d false this' = Some defVal ∧
              getString name d true this'
                = (if bool_decide (defVal = EmptyString) then None else Some defVal) ∧
              ∀ other conv, other ≠ name →
                       getString other d conv this' = getString other d conv this) ∧
  (∀ (defVal : TObjectPtr) (isArray : bool) (d : TObjectPtr),
     FindObject ro_name name (_oList this) = None →
     ∃ this', defineObject name argName num defVal isArray this
                = (false, this', []) ∧
              getObject name d this' = defVal ∧
              ∀ other, other ≠ name →
                       getObject other d this' = getObject other d this) ∧
  (∀ defVal d : TObjectPtr,
     FindObject ro_name name (_cList this) = None →
     ∃ this', defineSet name argName num defVal this = (false, this', []) ∧
              getSet name d this' = defVal ∧
              ∀ other, other ≠ name → getSet other d this' = getSet other d this).
Proof.
  split_and!.
  - intros defVal d Hnew. unfold defineInt. rewrite Hnew. eexists.
    split; [done |]. unfold getInt. destruct this. simpl in *. split.
    + rewrite FindObject_app, Hnew. simpl. by rewrite bool_decide_eq_true_2.
    + intros other Hne. rewrite FindObject_app. simpl.
      rewrite bool_decide_eq_false_2 by congruence. by destruct (FindObject _ other _).
  - intros defVal d Hnew. unfold defineDouble. rewrite Hnew. eexists.
    split; [done |]. unfold getDouble. destruct this. simpl in *. split.
    + rewrite FindObject_app, Hnew. simpl. by rewrite bool_decide_eq_true_2.
    + intros other Hne. rewrite FindObject_app. simpl.
      rewrite bool_decide_eq_false_2 by congruence. by destruct (FindObject _ other _).
  - intros defVal appendMode d Hnew. unfold defineString. rewrite Hnew. eexists.
    split; [done |]. unfold getString. destruct this. simpl in *. split_and!.
    + rewrite FindObject_app, Hnew. simpl. by rewrite bool_decide_eq_true_2.
    + rewrite FindObject_app, Hnew. simpl. by rewrite bool_decide_eq_true_2.
    + intros other conv Hne. rewrite FindObject_app. simpl.
      rewrite bool_decide_eq_false_2 by congruence. by destruct (FindObject _ other _).
  - intros defVal isArray d Hnew. unfold defineObject. rewrite Hnew. eexists.
    split; [done |]. unfold getObject. destruct this. simpl in *. split.
    + rewrite FindObject_app, Hnew. simpl. rewrite bool_decide_eq_true_2 by done.
      by destruct defVal.
    + intros other Hne. rewrite FindObject_app. simpl.
      rewrite bool_decide_eq_false_2 by congruence. by destruct (FindObject _ other _).
  - intros defVal d Hnew. unfold defineSet. rewrite Hnew. eexists.
    split; [done |]. unfold getSet. destruct this. simpl in *. split.
    + rewrite FindObject_app, Hnew. simpl. rewrite bool_decide_eq_true_2 by done.
      by destruct defVal.
    + intros other Hne. rewrite FindObject_app. simpl.
      rewrite bool_decide_eq_false_2 by congruence. by destruct (FindObject _ other _).
Qed.

(** X15 for the integer property [maxIter] of [exampleConfig]. *)
Lemma define_then_get_witness :
  ∃ this', defineInt "maxIter" "MaxIter" 0 100 exampleConfig = (false, this', []) ∧
           getInt "maxIter" 7 this' = 100%Z ∧
           ∀ other, other ≠ "maxIter" →
                    getInt other 7 this' = getInt other 7 exampleConfig.
Proof.
  apply (proj1 (define_then_get exampleConfig "maxIter" "MaxIter" 0) 100%Z 7%Z).
  reflexivity.
Defined.

(** X16.  A name can be defined once for each kind of property.  Once a
    definition has been accepted, a second definition under the same name,
    whatever argument, slot and default it gives, is refused: the function
    returns true, writes one error, and leaves the parser as it is, so that
    the getter still returns the first default. *)
Theorem redefinition_refused (this this1 : RooCmdConfig) (name : string)
    (out1 : list Line) :
  (∀ a1 n1 (v1 : Int_t) a2 n2 v2 d,
     defineInt name a1 n1 v1 this = (false, this1, out1) →
     ∃ line, defineInt name a2 n2 v2 this1 = (true, this1, [CoutE line]) ∧
             getInt name d this1 = v1) ∧
  (∀ a1 n1 (v1 : Double_t) a2 n2 v2 d,
     defineDouble name a1 n1 v1 this = (false, this1, out1) →
     ∃ line, defineDouble name a2 n2 v2 this1 = (true, this1, [CoutE line]) ∧
             getDouble name d this1 = v1) ∧
  (∀ a1 n1 (v1 : string) m1 a2 n2 v2 m2 d,
     defineString name a1 n1 v1 m1 this = (false, this1, out1) →
     ∃ line, defineString name a2 n2 v2 m2 this1 = (true, this1, [CoutE line]) ∧
             getString name d false this1 = Some v1) ∧
  (∀ a1 n1 (v1 : TObjectPtr) m1 a2 n2 v2 m2 d,
     defineObject name a1 n1 v1 m1 this = (false, this1, out1) →
     ∃ line, defineObject name a2 n2 v2 m2 this1 = (true, this1, [CoutE line]) ∧
             getObject name d this1 = v1) ∧
  (∀ a1 n1 (v1 : TObjectPtr) a2 n2 v2 d,
     defineSet name a1 n1 v1 this = (false, this1, out1) →
     ∃ line, defineSet name a2 n2 v2 this1 = (true, this1, [CoutE line]) ∧
             getSet name d this1 = v1).
Proof.
  split_and!.
  - intros a1 n1 v1 a2 n2 v2 d. unfold defineInt at 1.
    destruct (FindObject ri_name name (_iList this)) eqn:Hnew; [done |].
    intros [= <- <-]. unfold defineInt, getInt. destruct this. simpl in *.
    rewrite FindObject_app, Hnew. simpl. rewrite bool_decide_eq_true_2 by done.
    by eexists.
  - intros a1 n1 v1 a2 n2 v2 d. unfold defineDouble at 1.
    destruct (FindObject rd_name name (_dList this)) eqn:Hnew; [done |].
    intros [= <- <-]. unfold defineDouble, getDouble. destruct this. simpl in *.
    rewrite FindObject_app, Hnew. simpl. rewrite bool_decide_eq_true_2 by done.
    by eexists.
  - intros a1 n1 v1 m1 a2 n2 v2 m2 d. unfold defineString at 1.
    destruct (FindObject rs_name name (_sList this)) eqn:Hnew; [done |].
    intros [= <- <-]. unfold defineString, getString. destruct this. simpl in *.
    rewrite FindObject_app, Hnew. simpl. rewrite bool_decide_eq_true_2 by done.
    by eexists.
  - intros a1 n1 v1 m1 a2 n2 v2 m2 d. unfold defineObject at 1.
    destruct (FindObject ro_name name (_oList this)) eqn:Hnew; [done |].
    intros [= <- <-]. unfold defineObject, getObject. destruct this. simpl in *.
    rewrite FindObject_app, Hnew. simpl. rewrite bool_decide_eq_true_2 by done.
    eexists. split; [done |]. by destruct v1.
  - intros a1 n1 v1 a2 n2 v2 d. unfold defineSet at 1.
    destruct (FindObject ro_name name (_cList this)) eqn:Hnew; [done |].
    intros [= <- <-]. unfold defineSet, getSet. destruct this. simpl in *.
    rewrite FindObject_app, Hnew. simpl. rewrite bool_decide_eq_true_2 by done.
    eexists. split; [done |]. by destruct v1.
Qed.

(** X16 for the integer property [maxIter] of [exampleConfig]. *)
Lemma redefinition_refused_witness :
  ∃ line,
    defineInt "maxIter" "Other" 1 5
      (set_iList (_iList exampleConfig ++ [mkRooInt "maxIter" "MaxIter" 0 100])
                 exampleConfig)
    = (true,
       set_iList (_iList exampleConfig ++ [mkRooInt "maxIter" "MaxIter" 0 100])
                 exampleConfig,
       [CoutE line]) ∧
    getInt "maxIter" 7
      (set_iList (_iList exampleConfig ++ [mkRooInt "maxIter" "MaxIter" 0 100])
                 exampleConfig) = 100%Z.
Proof.
  apply (proj1 (redefinition_refused exampleConfig _ "maxIter" [])
           "MaxIter" 0%Z 100%Z "Other" 1%Z 5%Z 7%Z).
  reflexivity.
Defined.

(** ** What processing keeps *)

Lemma sameDefinitions_refl : Reflexive sameDefinitions.
Proof. intros a. unfold sameDefinitions. by split_and!. Qed.

Lemma sameDefinitions_trans : Transitive sameDefinitions.
Proof.
  intros a b c (? & ? & ? & ? & ? & ? & ? & ? & ? & ?)
               (? & ? & ? & ? & ? & ? & ? & ? & ? & ?).
  unfold sameDefinitions. split_and!; congruence.
Qed.

Lemma sameDefinitions_processedOwn opc arg this :
  sameDefinitions this (processedOwn opc arg this).
Proof.
  unfold sameDefinitions, processedOwn. simpl. rewrite !map_map.
  split_and!; try done; apply map_ext; intros x.
  - unfold assignInt. by case_bool_decide.
  - unfold assignDouble. by case_bool_decide.
  - unfold assignString. case_bool_decide; [| done]. by destruct (_ && _).
  - unfold assignObject. by case_bool_decide.
  - unfold assignObject. by case_bool_decide.
Qed.

(** X17.  Processing arguments never changes what the parser is
    configured for.  Whatever list of arguments is processed, sub-arguments
    included, accepted or refused, the parser keeps its name and its flags
    [_verbose] and [_allowUndefined], the same properties of every kind in
    the same order, each with its name, the argument and slot it is read
    from and its mode, and the same mutex and dependency rules; only the
    values of the properties change. *)
Theorem process_keeps_definitions (argList : list RooCmdArg) (this : RooCmdConfig) :
  sameDefinitions this (processList argList this).1.2.
Proof.
  apply (processList_keeps sameDefinitions sameDefinitions_refl
           sameDefinitions_trans).
  - intros t. unfold sameDefinitions. by destruct t.
  - intros opc arg t _ _. apply sameDefinitions_processedOwn.
Qed.

(** ** Forbidden arguments *)

(** X18.  An argument whose name is on the forbidden list is refused:
    [process] returns true, sets [_error] and does nothing else; none of
    the fields of the argument is read, its sub-arguments are not processed
    and it does not count as processed.  From then on [ok] returns false,
    whatever is processed afterwards: nothing resets [_error]. *)
Theorem forbidden_argument_refused (arg : RooCmdArg) (this : RooCmdConfig) :
  cmdName arg ≠ EmptyString → cmdName arg ∈ _fList this →
  ∃ line,
    process arg this = (true, set_error true this, [CoutE line]) ∧
    ∀ (later : list RooCmdArg) (verbose : bool),
      (ok verbose (processList later (set_error true this)).1.2).1 = false.
Proof.
  intros Hname Hin.
  destruct (FindObject id (cmdName arg) (_fList this)) as [o |] eqn:Hf.
  2:{ exfalso. apply (proj1 (FindObject_None id _ _) Hf (cmdName arg) Hin). done. }
  unfold process. rewrite (processNamed_forbidden _ _ _ o) by done.
  eexists. split; [done |]. intros later verbose.
  apply ok_error, error_sticky. by destruct this.
Qed.

(** X18 for the argument [Serial], forbidden in a parser that has
    processed [NumCPU]. *)
Lemma forbidden_argument_refused_witness :
  ∃ line,
    process (simpleArg "Serial" 0 0%float)
            (set_fList ["Serial"] exampleConfig)
    = (true, set_error true (set_fList ["Serial"] exampleConfig), [CoutE line]) ∧
    ∀ (later : list RooCmdArg) (verbose : bool),
      (ok verbose
          (processList later
             (set_error true (set_fList ["Serial"] exampleConfig))).1.2).1 = false.
Proof.
  apply (forbidden_argument_refused (simpleArg "Serial" 0 0%float)
           (set_fList ["Serial"] exampleConfig)).
  - discriminate.
  - simpl. left.
Defined.

(** ** Reading what has been processed *)

(** X19.  After an argument without sub-arguments has been processed,
    the getters read the argument.  An integer or double property that is
    read from an argument of that name has the value in its slot of the
    argument, whatever it held before; a property read from another argument
    has the value it had; and for a name that is not defined the getter
    returns the fallback of the caller.  An object property that is not an
    array holds the object in its slot, null included; an array holds what
    it held and the object after it, unless that is null, and [getObject]
    returns the first object of the list. *)
Theorem process_then_get (arg : RooCmdArg) (this : RooCmdConfig) :
  cmdName arg ≠ EmptyString → cmdName arg ∉ _fList this →
  procSubArgs arg = false →
  (∀ name d,
     getInt name d (process arg this).1.2 =
     match FindObject ri_name name (_iList this) with
     | Some ri => if bool_decide (ri_title ri = cmdName arg)
                  then cmdInt arg (ri_uniqueID ri) else ri_value ri
     | None => d
     end) ∧
  (∀ name d,
     getDouble name d (process arg this).1.2 =
     match FindObject rd_name name (_dList this) with
     | Some rd => if bool_decide (rd_title rd = cmdName arg)
                  then cmdDouble arg (rd_uniqueID rd) else rd_value rd
     | None => d
     end) ∧
  (∀ name d,
     getObjectList name (process arg this).1.2 =
     match FindObject ro_name name (_oList this) with
     | Some ro => if bool_decide (ro_title ro = cmdName arg)
                  then (if ro_isArray ro then ro_list ro else [])
                       ++ option_list (cmdObject arg (ro_uniqueID ro))
                  else ro_list ro
     | None => []
     end ∧
     getObject name d (process arg this).1.2 =
     match FindObject ro_name name (_oList this) with
     | Some ro => if bool_decide (ro_title ro = cmdName arg)
                  then head ((if ro_isArray ro then ro_list ro else [])
                             ++ option_list (cmdObject arg (ro_uniqueID ro)))
                  else obj ro
     | None => d
     end).
Proof.
  intros Hname Hf Hsub.
  destruct (process_own arg this Hname Hf Hsub) as [-> _].
  split_and!.
  - intros name d. unfold getInt. simpl.
    rewrite FindObject_map
      by (intros o; unfold assignInt; by case_bool_decide).
    destruct (FindObject ri_name name (_iList this)) as [ri |]; [| done].
    simpl. unfold assignInt. by case_bool_decide.
  - intros name d. unfold getDouble. simpl.
    rewrite FindObject_map
      by (intros o; unfold assignDouble; by case_bool_decide).
    destruct (FindObject rd_name name (_dList this)) as [rd |]; [| done].
    simpl. unfold assignDouble. by case_bool_decide.
  - intros name d. unfold getObject, getObjectList. simpl.
    rewrite FindObject_map
      by (intros o; unfold assignObject; by case_bool_decide).
    destruct (FindObject ro_name name (_oList this)) as [ro |]; [| done].
    simpl. unfold assignObject. case_bool_decide; [| done].
    unfold setObj, obj. simpl.
    destruct (cmdObject arg (ro_uniqueID ro)); simpl; by rewrite ?app_nil_r.
Qed.

(** X19 for [NumCPU(4)] and the property [nCPU] of [exampleConfig]. *)
Lemma process_then_get_witness :
  getInt "nCPU" 0 (process (simpleArg "NumCPU" 4 0%float) exampleConfig).1.2 = 4%Z.
Proof.
  apply (proj1 (process_then_get (simpleArg "NumCPU" 4 0%float) exampleConfig
                  ltac:(discriminate) ltac:(apply not_elem_of_nil)
                  ltac:(reflexivity)) "nCPU" 0%Z).
Defined.

(** ** String properties *)

Lemma append_assoc (a b c : string) : (a +:+ b) +:+ c = a +:+ (b +:+ c).
Proof.
  induction a as [| x a IH]; [done |].
  change (String x ((a +:+ b) +:+ c) = String x (a +:+ (b +:+ c))).
  by rewrite IH.
Qed.

Lemma append_nonempty (a b : string) :
  b ≠ EmptyString → a +:+ b ≠ EmptyString.
Proof. by destruct a. Qed.

Lemma concat_snoc (sep : string) (l : list string) (s : string) :
  l ≠ [] →
  String.concat sep (l ++ [s]) = (String.concat sep l +:+ sep) +:+ s.
Proof.
  induction l as [| x l IH]; [done |]. intros _.
  destruct l as [| y l].
  { change (x +:+ (sep +:+ s) = (x +:+ sep) +:+ s). by rewrite append_assoc. }
  change (String.concat sep ((x :: y :: l) ++ [s]))
    with (x +:+ sep +:+ String.concat sep ((y :: l) ++ [s])).
  rewrite IH by done.
  change (String.concat sep (x :: y :: l))
    with (x +:+ sep +:+ String.concat sep (y :: l)).
  by rewrite !append_assoc.
Qed.

Lemma concat_nonempty (sep : string) (l : list string) :
  l ≠ [] → Forall (λ s, s ≠ EmptyString) l →
  String.concat sep l ≠ EmptyString.
Proof.
  destruct l as [| x l]; [done |]. intros _ [Hx _]%Forall_cons.
  destruct l; [done |].
  change (String.concat sep (x :: s :: l))
    with (x +:+ sep +:+ String.concat sep (s :: l)).
  by destruct x.
Qed.

Lemma foldl_assignString_fields A (l : list RooCmdArg) rs :
  rs_name (foldl (λ rs a, assignString A a rs) rs l) = rs_name rs ∧
  rs_title (foldl (λ rs a, assignString A a rs) rs l) = rs_title rs ∧
  rs_uniqueID (foldl (λ rs a, assignString A a rs) rs l) = rs_uniqueID rs ∧
  rs_appendMode (foldl (λ rs a, assignString A a rs) rs l) = rs_appendMode rs.
Proof.
  revert rs. induction l as [| a l IH]; intros rs; [done |]. simpl.
  destruct (IH (assignString A a rs)) as (-> & -> & -> & ->).
  unfold assignString. case_bool_decide; [| done]. by destruct (_ && _).
Qed.

(** The string properties after a list of arguments of one name. *)
Lemma processList_same_name A (l : list RooCmdArg) this :
  A ≠ EmptyString → A ∉ _fList this →
  FindObject tn_name A (_mList this) = None →
  Forall (λ a, cmdName a = A ∧ procSubArgs a = false) l →
  _sList (processList l this).1.2
  = map (λ rs, foldl (λ rs a, assignString A a rs) rs l) (_sList this).
Proof.
  intros HA. revert this.
  induction l as [| a l IH]; intros this Hf Hm Hall.
  { simpl. by rewrite map_id. }
  apply Forall_cons in Hall as [[Hn Hs] Hall]. rewrite processList_cons.
  assert (cmdName a ≠ EmptyString) as Hn' by congruence.
  assert (cmdName a ∉ _fList this) as Hf' by congruence.
  destruct (process_own a this Hn' Hf' Hs) as [-> _]. rewrite Hn.
  rewrite IH; [| | done | done].
  - simpl. by rewrite map_map.
  - simpl. unfold newlyForbidden. rewrite Hm. by rewrite app_nil_r.
Qed.

(** X20.  A string property in append mode collects what the arguments
    carry; without append mode the last argument wins.  After a list of
    arguments that all have the name the property is read from, that name
    being neither forbidden nor subject to a mutex rule, and each of which
    carries a string that is not empty in the slot of the property, an
    append-mode property holds the strings in the order of the arguments,
    separated by commas, after the value it had before unless that was
    empty; a property without append mode holds the string of the last
    argument. *)
Theorem string_property_appends (this : RooCmdConfig) (name : string)
    (rs : RooStringVar) (l : list RooCmdArg) (ss : list string)
    (d : option string) :
  FindObject rs_name name (_sList this) = Some rs →
  rs_title rs ≠ EmptyString → rs_title rs ∉ _fList this →
  FindObject tn_name (rs_title rs) (_mList this) = None →
  Forall (λ a, cmdName a = rs_title rs ∧ procSubArgs a = false) l →
  map (λ a, cmdString a (rs_uniqueID rs)) l = map Some ss →
  Forall (λ s, s ≠ EmptyString) ss →
  getString name d false (processList l this).1.2 =
  Some (if rs_appendMode rs
        then String.concat ","
               ((if bool_decide (rs_value rs = EmptyString) then []
                 else [rs_value rs]) ++ ss)
        else default (rs_value rs) (last ss)).
Proof.
  intros Hfind Ht Hf Hm Hall Hss Hne. unfold getString.
  rewrite (processList_same_name (rs_title rs)) by done.
  rewrite FindObject_map
    by (intros o; apply (foldl_assignString_fields (rs_title rs) l o)).
  rewrite Hfind. simpl. f_equal. clear Hfind Hf Hm.
  revert ss Hss Hne. induction l as [| a l IH] using rev_ind; intros ss Hss Hne.
  { destruct ss; [| done]. simpl. rewrite app_nil_r.
    destruct (rs_appendMode rs); [| done]. by case_bool_decide. }
  apply Forall_app in Hall as [Hall _].
  destruct ss as [| s ss _] using rev_ind.
  { rewrite map_app in Hss. by destruct (map _ l). }
  rewrite !map_app in Hss. simpl in Hss.
  apply app_inj_tail in Hss as [Hss [= Hs]].
  apply Forall_app in Hne as [Hne [Hs' _]%Forall_cons].
  specialize (IH Hall ss Hss Hne).
  rewrite foldl_app. simpl.
  destruct (foldl_assignString_fields (rs_title rs) l rs)
    as (_ & Htitle & Hid & Hmode).
  unfold assignString at 1. rewrite Htitle, Hid, Hmode, Hs, IH.
  rewrite bool_decide_eq_true_2 by done.
  rewrite last_snoc. simpl.
  destruct (rs_appendMode rs); [| by rewrite andb_false_r].
  rewrite andb_true_r, app_assoc.
  assert (Forall (λ s, s ≠ EmptyString)
            ((if bool_decide (rs_value rs = EmptyString) then []
              else [rs_value rs]) ++ ss)) as HL.
  { apply Forall_app. split; [| done].
    case_bool_decide; [done |]. by apply Forall_singleton. }
  revert HL.
  generalize ((if bool_decide (rs_value rs = EmptyString) then []
               else [rs_value rs]) ++ ss).
  intros L HL.
  destruct (decide (L = [])) as [-> | Hnil]; [done |].
  rewrite bool_decide_eq_false_2 by (by apply concat_nonempty).
  cbn [negb]. unfold Form2, Form_s. cbn [setVal rs_value default].
  by rewrite concat_snoc.
Qed.

(** X20 for two arguments [Name] that carry the strings a and b. *)
Lemma string_property_appends_witness :
  getString "names" None false
    (processList
       [mkCmdArg "Name" (λ _, 0%Z) (λ _, 0%float) (λ _, Some "a") (λ _, None)
                 (λ _, None) false false [];
        mkCmdArg "Name" (λ _, 0%Z) (λ _, 0%float) (λ _, Some "b") (λ _, None)
                 (λ _, None) false false []]
       (set_sList [mkRooStringVar "names" "Name" 0 EmptyString true]
                  (RooCmdConfig_new "fitTo"))).1.2
  = Some "a,b".
Proof.
  refine (string_property_appends
            (set_sList [mkRooStringVar "names" "Name" 0 EmptyString true]
                       (RooCmdConfig_new "fitTo"))
            "names" (mkRooStringVar "names" "Name" 0 EmptyString true)
            _ ["a"; "b"] None _ _ _ _ _ _ _).
  - reflexivity.
  - discriminate.
  - apply not_elem_of_nil.
  - reflexivity.
  - repeat constructor.
  - reflexivity.
  - repeat constructor; discriminate.
Defined.

(** ** What is written when the parser is not verbose *)

Lemma foldl_processInt_quiet opc arg l passed anyField out :
  foldl (processInt false opc arg) (passed, anyField, out) l =
  (passed ++ map (assignInt opc arg) l,
   anyField || existsb (λ ri, bool_decide (ri_title ri = opc)) l, out).
Proof.
  revert passed anyField out.
  induction l as [| ri l IH]; intros passed anyField out; simpl.
  - by rewrite !app_nil_r, orb_false_r.
  - unfold assignInt at 1. case_bool_decide as Ht; simpl; rewrite IH.
    + by rewrite <- !app_assoc, app_nil_r, orb_true_r.
    + by rewrite <- !app_assoc.
Qed.

Lemma foldl_processDouble_quiet opc arg l passed anyField out :
  foldl (processDouble false opc arg) (passed, anyField, out) l =
  (passed ++ map (assignDouble opc arg) l,
   anyField || existsb (λ rd, bool_decide (rd_title rd = opc)) l, out).
Proof.
  revert passed anyField out.
  induction l as [| rd l IH]; intros passed anyField out; simpl.
  - by rewrite !app_nil_r, orb_false_r.
  - unfold assignDouble at 1. case_bool_decide as Ht; simpl; rewrite IH.
    + by rewrite <- !app_assoc, app_nil_r, orb_true_r.
    + by rewrite <- !app_assoc.
Qed.

Lemma foldl_processString_quiet opc arg l passed anyField out :
  foldl (processString false opc arg) (passed, anyField, out) l =
  (passed ++ map (assignString opc arg) l,
   anyField || existsb (λ rs, bool_decide (rs_title rs = opc)) l, out).
Proof.
  revert passed anyField out.
  induction l as [| rs l IH]; intros passed anyField out; simpl.
  - by rewrite !app_nil_r, orb_false_r.
  - unfold assignString at 1. case_bool_decide as Ht; simpl; rewrite IH.
    + by rewrite <- !app_assoc, app_nil_r, orb_true_r.
    + by rewrite <- !app_assoc.
Qed.

Lemma foldl_processObject_quiet tag get opc l passed anyField out :
  foldl (processObject false tag get opc) (passed, anyField, out) l =
  (passed ++ map (assignObject get opc) l,
   anyField || existsb (λ os, bool_decide (ro_title os = opc)) l, out).
Proof.
  revert passed anyField out.
  induction l as [| os l IH]; intros passed anyField out; simpl.
  - by rewrite !app_nil_r, orb_false_r.
  - unfold assignObject at 1. case_bool_decide as Ht; simpl; rewrite IH.
    + by rewrite <- !app_assoc, app_nil_r, orb_true_r.
    + by rewrite <- !app_assoc.
Qed.

Lemma findFields_quiet opc arg this :
  _verbose this = false → (findFields opc arg this).2 = [].
Proof.
  intros Hv. unfold findFields. rewrite Hv.
  rewrite foldl_processInt_quiet. cbn [set_iList _dList].
  rewrite foldl_processDouble_quiet. cbn [set_dList set_iList _sList].
  rewrite foldl_processString_quiet. cbn [set_sList set_dList set_iList _oList].
  rewrite foldl_processObject_quiet.
  cbn [set_oList set_sList set_dList set_iList _cList].
  by rewrite foldl_processObject_quiet.
Qed.

(** A parser that is not verbose writes one line at most for an argument,
    the error for a command it does not know. *)
Lemma processOwn_quiet opc arg this :
  _verbose this = false →
  processOwn opc arg this =
  (recognized opc this, processedOwn opc arg this,
   if negb (recognized opc this) && negb (_allowUndefined this)
      && negb (bool_decide (opc = "MultiArg"))
   then [CoutE [OStr (_name this); OStr " ERROR: unrecognized command: ";
                OStr opc]]
   else []).
Proof.
  intros Hv.
  destruct (processOwn_processedOwn opc arg this) as [out Hown].
  rewrite Hown. f_equal.
  assert ((processOwn opc arg this).2 = out) as <- by (by rewrite Hown).
  clear Hown. unfold processOwn.
  assert ((checkDependencies opc this).2 = []) as H1.
  { unfold checkDependencies. rewrite Hv.
    destruct (FindObject tn_name opc (_yList this)) as [dep |]; [| done].
    by destruct (FindObject tn_name (tn_title dep) (_pList this)). }
  destruct (checkDependencies_eq opc this) as [o1 Hd]. rewrite Hd in H1 |- *.
  simpl in H1. subst o1.
  assert ((checkMutexes opc
             (set_rList (_rList this ++ newlyRequired opc this) this)).2 = [])
    as H2.
  { unfold checkMutexes. cbn [_verbose set_rList]. rewrite Hv.
    by destruct (FindObject tn_name opc _). }
  destruct (checkMutexes_eq opc
              (set_rList (_rList this ++ newlyRequired opc this) this))
    as [o2 Hm].
  rewrite Hm in H2 |- *. simpl in H2. subst o2.
  match goal with
  | |- context [findFields opc arg ?t] =>
      pose proof (findFields_quiet opc arg t Hv) as H3;
      destruct (findFields_eq opc arg t) as [o3 Hff];
      rewrite Hff in H3 |- *; simpl in H3; subst o3
  end.
  by destruct this.
Qed.

Lemma unrecognized_unchanged {A} (title : A → string) (f : A → A) opc (l : list A) :
  (∀ x, title x ≠ opc → f x = x) →
  existsb (λ x, bool_decide (title x = opc)) l = false →
  map f l = l.
Proof.
  intros Hf. induction l as [| x l IH]; simpl; [done |].
  intros [Hx Hl]%orb_false_elim. apply bool_decide_eq_false in Hx.
  by rewrite Hf, IH.
Qed.

(** X21.  A command that no property is read from is reported and
    nothing more.  When an argument without sub-arguments that is not
    forbidden has a name that no property of the parser is read from,
    [process] returns true unless undefined commands are allowed; a parser
    that is not verbose writes one error that names the command, and
    nothing if undefined commands are allowed or the command is
    [MultiArg], for which it returns true all the same.  No property
    changes its value and [_error] is not set; the command counts as
    processed. *)
Theorem unrecognized_command (arg : RooCmdArg) (this : RooCmdConfig) :
  cmdName arg ≠ EmptyString → cmdName arg ∉ _fList this →
  procSubArgs arg = false →
  recognized (cmdName arg) this = false → _verbose this = false →
  ∃ this',
    process arg this =
    (negb (_allowUndefined this), this',
     if negb (_allowUndefined this)
        && negb (bool_decide (cmdName arg = "MultiArg"))
     then [CoutE [OStr (_name this); OStr " ERROR: unrecognized command: ";
                  OStr (cmdName arg)]]
     else []) ∧
    _error this' = _error this ∧
    hasProcessed (cmdName arg) this' = true ∧
    _iList this' = _iList this ∧ _dList this' = _dList this ∧
    _sList this' = _sList this ∧ _oList this' = _oList this ∧
    _cList this' = _cList this.
Proof.
  intros Hname Hf%not_forbidden Hsub Hrec Hv.
  exists (processedOwn (cmdName arg) arg this). split.
  - unfold process. rewrite processNamed_eq. unfold opcodeOf.
    rewrite bool_decide_eq_false_2 by done. rewrite Hf, Hsub.
    rewrite processOwn_quiet by done. rewrite Hrec.
    cbn [_allowUndefined processedOwn negb andb orb].
    by destruct (_allowUndefined this).
  - split; [done |]. split; [apply hasProcessed_own |].
    unfold recognized in Hrec.
    apply orb_false_elim in Hrec as [Hrec Hc].
    apply orb_false_elim in Hrec as [Hrec Ho].
    apply orb_false_elim in Hrec as [Hrec Hs].
    apply orb_false_elim in Hrec as [Hi Hd].
    simpl. split_and!.
    + apply (unrecognized_unchanged ri_title _ (cmdName arg)); [| done].
      intros x Hx. unfold assignInt. by rewrite bool_decide_eq_false_2.
    + apply (unrecognized_unchanged rd_title _ (cmdName arg)); [| done].
      intros x Hx. unfold assignDouble. by rewrite bool_decide_eq_false_2.
    + apply (unrecognized_unchanged rs_title _ (cmdName arg)); [| done].
      intros x Hx. unfold assignString. by rewrite bool_decide_eq_false_2.
    + apply (unrecognized_unchanged ro_title _ (cmdName arg)); [| done].
      intros x Hx. unfold assignObject. by rewrite bool_decide_eq_false_2.
    + apply (unrecognized_unchanged ro_title _ (cmdName arg)); [| done].
      intros x Hx. unfold assignObject. by rewrite bool_decide_eq_false_2.
Qed.

(** X21 for the argument [Verbose], which [exampleConfig] does not
    know. *)
Lemma unrecognized_command_witness :
  ∃ this',
    process (simpleArg "Verbose" 1 0%float) exampleConfig =
    (true, this',
     [CoutE [OStr "fitTo"; OStr " ERROR: unrecognized command: ";
             OStr "Verbose"]]) ∧
    _error this' = false ∧
    hasProcessed "Verbose" this' = true ∧
    _iList this' = _iList exampleConfig ∧ _dList this' = _dList exampleConfig ∧
    _sList this' = _sList exampleConfig ∧ _oList this' = _oList exampleConfig ∧
    _cList this' = _cList exampleConfig.
Proof.
  refine (unrecognized_command (simpleArg "Verbose" 1 0%float) exampleConfig
            _ _ _ _ _).
  - discriminate.
  - apply not_elem_of_nil.
  - reflexivity.
  - reflexivity.
  - reflexivity.
Defined.

(** ** Processed, required and forbidden commands *)

Lemma done_with_refl n : Reflexive (done_with n).
Proof. intros a Ha. exact Ha. Qed.

Lemma done_with_trans n : Transitive (done_with n).
Proof. intros a b c Hab Hbc Ha. by apply Hbc, Hab. Qed.

Lemma done_with_error n this : done_with n this (set_error true this).
Proof. unfold done_with. by destruct this. Qed.

Lemma done_with_own n opc arg this :
  done_with n this (processedOwn opc arg this).
Proof.
  intros [Hp Hr]. split.
  - by apply (hasProcessed_prefix n this); [apply pList_grows_own |].
  - simpl. intros [Hne Hin]%list_elem_of_filter.
    apply elem_of_app in Hin as [Hin | Hin]; [done |].
    unfold newlyRequired in Hin.
    destruct (FindObject tn_name opc (_yList this)) as [dep |];
      [| by apply elem_of_nil in Hin].
    destruct (FindObject tn_name (tn_title dep) (_pList this)) eqn:Hdep;
      [by apply elem_of_nil in Hin |].
    apply list_elem_of_singleton in Hin as ->.
    unfold hasProcessed in Hp. by rewrite Hdep in Hp.
Qed.

Lemma done_with_processNamed n arg name this :
  done_with n this (processNamed name arg this).1.2.
Proof.
  apply (processNamed_keeps (done_with n) (done_with_refl n)
           (done_with_trans n)).
  - apply done_with_error.
  - intros opc a t _ _. apply done_with_own.
Qed.

Lemma done_with_processList n l this :
  done_with n this (processList l this).1.2.
Proof.
  apply (processList_keeps (done_with n) (done_with_refl n)
           (done_with_trans n)).
  - apply done_with_error.
  - intros opc a t _ _. apply done_with_own.
Qed.

Lemma processed_own_done opc arg this :
  hasProcessed opc (processedOwn opc arg this) = true ∧
  opc ∉ _rList (processedOwn opc arg this).
Proof.
  split; [apply hasProcessed_own |]. simpl.
  by intros [Hne _]%list_elem_of_filter.
Qed.

(** An argument that is not refused leaves its command processed and not
    required, whatever its sub-arguments do. *)
Lemma process_settles (arg : RooCmdArg) (this : RooCmdConfig) :
  cmdName arg ≠ EmptyString → FindObject id (cmdName arg) (_fList this) = None →
  hasProcessed (cmdName arg) (process arg this).1.2 = true ∧
  cmdName arg ∉ _rList (process arg this).1.2.
Proof.
  intros Hname Hf. unfold process.
  rewrite processNamed_state by done.
  destruct (procSubArgs arg); [| apply processed_own_done].
  apply (processSubArgs_keeps (done_with (cmdName arg))
           (done_with_refl _) (done_with_trans _)
           processNamed (cmdName arg) (prefixSubArgs arg) (subArgs arg)
           (false, processedOwn (cmdName arg) arg this, []));
    [| apply processed_own_done].
  apply Forall_forall. intros sub _ n t. apply done_with_processNamed.
Qed.

(** X22.  An argument that is accepted settles its command for good.
    When an argument with a name that is not forbidden has been processed,
    with or without sub-arguments, [hasProcessed] returns true for its name
    and the name is not on the list of required arguments; and both stay
    so whatever list of arguments is processed afterwards, even one with a
    dependency on that command. *)
Theorem processed_command_is_settled (arg : RooCmdArg) (this : RooCmdConfig)
    (later : list RooCmdArg) :
  cmdName arg ≠ EmptyString → cmdName arg ∉ _fList this →
  hasProcessed (cmdName arg)
    (processList later (process arg this).1.2).1.2 = true ∧
  cmdName arg ∉ _rList (processList later (process arg this).1.2).1.2.
Proof.
  intros Hname Hf%not_forbidden.
  apply (done_with_processList (cmdName arg) later (process arg this).1.2).
  by apply process_settles.
Qed.

(** X22 for [NumCPU], processed before [Range], which depends on it. *)
Lemma processed_command_is_settled_witness :
  hasProcessed "NumCPU"
    (processList [simpleArg "Range" 0 1%float]
       (process (simpleArg "NumCPU" 4 0%float) exampleConfig).1.2).1.2 = true ∧
  "NumCPU" ∉ _rList
    (processList [simpleArg "Range" 0 1%float]
       (process (simpleArg "NumCPU" 4 0%float) exampleConfig).1.2).1.2.
Proof.
  refine (processed_command_is_settled (simpleArg "NumCPU" 4 0%float)
            exampleConfig [simpleArg "Range" 0 1%float] _ _).
  - discriminate.
  - apply not_elem_of_nil.
Defined.

(** X23.  If [_error] is not set after a list of arguments has been
    processed, none of the arguments of the list was refused: every
    argument of the list that has a name has been processed, and its name
    is not on the list of required arguments. *)
Theorem no_error_all_processed (l : list RooCmdArg) (this : RooCmdConfig) :
  _error (processList l this).1.2 = false →
  ∀ a, a ∈ l → cmdName a ≠ EmptyString →
       hasProcessed (cmdName a) (processList l this).1.2 = true ∧
       cmdName a ∉ _rList (processList l this).1.2.
Proof.
  revert this. induction l as [| x l IH]; intros this Herr a Hin Hname.
  { by apply elem_of_nil in Hin. }
  rewrite processList_cons in Herr |- *.
  apply elem_of_cons in Hin as [-> | Hin]; [| by apply IH].
  destruct (FindObject id (cmdName x) (_fList this)) as [o |] eqn:Hf.
  - exfalso. unfold process in Herr.
    rewrite (processNamed_forbidden _ _ _ o Hname Hf) in Herr.
    rewrite error_sticky in Herr; [done |]. by destruct this.
  - apply (done_with_processList (cmdName x) l (process x this).1.2).
    by apply process_settles.
Qed.

(** X23 for the list [NumCPU], [Range] and its second argument. *)
Lemma no_error_all_processed_witness :
  hasProcessed "Range"
    (processList [simpleArg "NumCPU" 4 0%float; simpleArg "Range" 0 1%float]
                 exampleConfig).1.2 = true ∧
  "Range" ∉ _rList
    (processList [simpleArg "NumCPU" 4 0%float; simpleArg "Range" 0 1%float]
                 exampleConfig).1.2.
Proof.
  refine (no_error_all_processed
            [simpleArg "NumCPU" 4 0%float; simpleArg "Range" 0 1%float]
            exampleConfig _ (simpleArg "Range" 0 1%float) _ _).
  - reflexivity.
  - right. left.
  - discriminate.
Defined.

(** ** Dependencies and mutexes *)

(** X24.  A dependency is enforced through the list of required
    arguments, and only the first dependency registered for an argument
    counts.  When an argument without sub-arguments is processed whose
    first dependency names another command, that command is put on the
    required list if it has not been processed, so that [ok] returns false;
    if it has been processed, nothing is added.  Either way nothing but
    that one command is added: a second dependency registered for the same
    argument is never looked at. *)
Theorem dependency_enforced (arg : RooCmdArg) (this : RooCmdConfig)
    (dep : TNamed) :
  cmdName arg ≠ EmptyString → cmdName arg ∉ _fList this →
  procSubArgs arg = false →
  FindObject tn_name (cmdName arg) (_yList this) = Some dep →
  tn_title dep ≠ cmdName arg →
  (hasProcessed (tn_title dep) this = false →
     tn_title dep ∈ _rList (process arg this).1.2 ∧
     ∀ verbose, (ok verbose (process arg this).1.2).1 = false) ∧
  (hasProcessed (tn_title dep) this = true →
     _rList (process arg this).1.2
     = filter (λ s, s ≠ cmdName arg) (_rList this)) ∧
  (∀ s, s ∈ _rList (process arg this).1.2 →
        s ∈ _rList this ∨ s = tn_title dep).
Proof.
  intros Hname Hf Hsub Hdep Hne.
  destruct (process_own arg this Hname Hf Hsub) as [-> _].
  assert (_rList (processedOwn (cmdName arg) arg this)
          = filter (λ s, s ≠ cmdName arg)
              (_rList this ++
               if hasProcessed (tn_title dep) this then [] else [tn_title dep]))
    as ->.
  { simpl. unfold newlyRequired, hasProcessed. rewrite Hdep.
    by destruct (FindObject tn_name (tn_title dep) (_pList this)). }
  split_and!.
  - intros Hp.
    assert (tn_title dep ∈ _rList (processedOwn (cmdName arg) arg this)) as Hin.
    { simpl. unfold newlyRequired. rewrite Hdep.
      unfold hasProcessed in Hp.
      destruct (FindObject tn_name (tn_title dep) (_pList this)); [done |].
      apply list_elem_of_filter. split; [done |].
      apply elem_of_app. right. by left. }
    split; [| intros verbose; by apply (ok_required _ _ (tn_title dep))].
    rewrite Hp. apply list_elem_of_filter. split; [done |].
    apply elem_of_app. right. by left.
  - intros ->. by rewrite app_nil_r.
  - intros s [_ Hin]%list_elem_of_filter.
    apply elem_of_app in Hin as [Hin | Hin]; [by left |].
    destruct (hasProcessed (tn_title dep) this);
      [by apply elem_of_nil in Hin |].
    apply list_elem_of_singleton in Hin. by right.
Qed.

(** X24 for [Range], which needs [NumCPU], in [exampleConfig]. *)
Lemma dependency_enforced_witness :
  "NumCPU" ∈ _rList (process (simpleArg "Range" 0 1%float) exampleConfig).1.2 ∧
  ∀ verbose,
    (ok verbose (process (simpleArg "Range" 0 1%float) exampleConfig).1.2).1
    = false.
Proof.
  refine (proj1 (dependency_enforced (simpleArg "Range" 0 1%float) exampleConfig
                   (mkTNamed "Range" "NumCPU") _ _ _ _ _) _).
  - discriminate.
  - apply not_elem_of_nil.
  - reflexivity.
  - reflexivity.
  - discriminate.
  - reflexivity.
Defined.

Lemma processNamed_fList arg name this :
  _fList this `prefix_of` _fList (processNamed name arg this).1.2.
Proof.
  apply (processNamed_keeps (λ a b, _fList a `prefix_of` _fList b)).
  - by intros a.
  - intros a b c Hab Hbc. by etrans.
  - by intros t.
  - intros opc a t _ _. simpl. by apply prefix_app_r.
Qed.

(** X25.  A mutex is enforced through the list of forbidden arguments.
    Once an argument that is accepted has been processed, with or without
    sub-arguments, the command that the first mutex rule for its name
    excludes is forbidden for good: whatever is processed in between, an
    argument of that name is refused, [process] returns true for it and
    sets [_error], and [ok] returns false. *)
Theorem mutex_enforced (arg excluded : RooCmdArg) (this : RooCmdConfig)
    (mutex : TNamed) (later : list RooCmdArg) :
  cmdName arg ≠ EmptyString → cmdName arg ∉ _fList this →
  FindObject tn_name (cmdName arg) (_mList this) = Some mutex →
  cmdName excluded = tn_title mutex → cmdName excluded ≠ EmptyString →
  ∃ line,
    process excluded (processList later (process arg this).1.2).1.2
    = (true,
       set_error true (processList later (process arg this).1.2).1.2,
       [CoutE line]) ∧
    ∀ verbose,
      (ok verbose
          (process excluded
             (processList later (process arg this).1.2).1.2).1.2).1 = false.
Proof.
  intros Hname Hf%not_forbidden Hm Hex Hne.
  assert (cmdName excluded
            ∈ _fList (processList later (process arg this).1.2).1.2) as Hin.
  { eapply elem_of_prefix; [| apply processList_fList].
    unfold process. rewrite processNamed_state by done.
    assert (cmdName excluded ∈ _fList (processedOwn (cmdName arg) arg this))
      as Hown.
    { simpl. unfold newlyForbidden. rewrite Hm, Hex.
      apply elem_of_app. right. by left. }
    destruct (procSubArgs arg); [| done].
    eapply elem_of_prefix; [exact Hown |].
    assert (Reflexive (λ a b, _fList a `prefix_of` _fList b)) as Hr
      by (by intros a).
    assert (Transitive (λ a b, _fList a `prefix_of` _fList b)) as Ht
      by (intros a b c Hab Hbc; by etrans).
    apply (processSubArgs_keeps (λ a b, _fList a `prefix_of` _fList b)
             Hr Ht processNamed (cmdName arg) (prefixSubArgs arg) (subArgs arg)
             (false, processedOwn (cmdName arg) arg this, [])).
    apply Forall_forall. intros sub _ n t. apply processNamed_fList. }
  destruct (FindObject id (cmdName excluded)
              (_fList (processList later (process arg this).1.2).1.2))
    as [o |] eqn:Hfind.
  2:{ by apply not_forbidden in Hfind. }
  revert Hfind. generalize (processList later (process arg this).1.2).1.2.
  intros t Hfind.
  assert (process excluded t = processNamed (cmdName excluded) excluded t)
    as -> by done.
  rewrite (processNamed_forbidden _ _ _ o Hne Hfind).
  eexists. split; [done |]. intros verbose. apply ok_error. by destruct t.
Qed.

(** X25 for [NumCPU], which excludes [Serial], in [exampleConfig]. *)
Lemma mutex_enforced_witness :
  ∃ line,
    process (simpleArg "Serial" 0 0%float)
      (processList [simpleArg "Range" 0 1%float]
         (process (simpleArg "NumCPU" 4 0%float) exampleConfig).1.2).1.2
    = (true,
       set_error true
         (processList [simpleArg "Range" 0 1%float]
            (process (simpleArg "NumCPU" 4 0%float) exampleConfig).1.2).1.2,
       [CoutE line]) ∧
    ∀ verbose,
      (ok verbose
          (process (simpleArg "Serial" 0 0%float)
             (processList [simpleArg "Range" 0 1%float]
                (process (simpleArg "NumCPU" 4 0%float)
                         exampleConfig).1.2).1.2).1.2).1 = false.
Proof.
  refine (mutex_enforced (simpleArg "NumCPU" 4 0%float)
            (simpleArg "Serial" 0 0%float) exampleConfig
            (mkTNamed "NumCPU" "Serial") [simpleArg "Range" 0 1%float]
            _ _ _ _ _).
  - discriminate.
  - apply not_elem_of_nil.
  - reflexivity.
  - reflexivity.
  - discriminate.
Defined.

(** ** Lists of commands *)

Section removal.
Context {A : Type} (GetName : A → string).

Lemma RemoveFound_absent name (l : list A) :
  FindObject GetName name l = None → RemoveFound GetName name l = l.
Proof.
  induction l as [| x l IH]; simpl; [done |]. case_bool_decide; [done |].
  intros Hf. by rewrite IH.
Qed.

Lemma RemoveFound_sublist name (l : list A) :
  RemoveFound GetName name l `sublist_of` l.
Proof.
  induction l as [| x l IH]; simpl; [done |]. case_bool_decide.
  - by apply sublist_cons.
  - by apply sublist_skip.
Qed.

Lemma RemoveFound_named name n (l : list A) :
  filter (λ c, GetName c = n) (RemoveFound GetName name l)
  = drop (if bool_decide (name = n) then 1 else 0)
         (filter (λ c, GetName c = n) l).
Proof.
  induction l as [| x l IH]; simpl.
  { by case_bool_decide. }
  destruct (decide (GetName x = name)) as [Hx | Hx].
  - rewrite (bool_decide_eq_true_2 (GetName x = name)) by done.
    destruct (decide (name = n)) as [Hn | Hn].
    + rewrite (bool_decide_eq_true_2 (name = n)) by done.
      rewrite filter_cons_True by congruence. done.
    + rewrite (bool_decide_eq_false_2 (name = n)) by done.
      rewrite filter_cons_False by (intros Hc; apply Hn; congruence). done.
  - rewrite (bool_decide_eq_false_2 (GetName x = name)) by done.
    rewrite !filter_cons, IH.
    destruct (decide (GetName x = n)) as [Hc | Hc]; [| done].
    rewrite (bool_decide_eq_false_2 (name = n)) by congruence. done.
Qed.
End removal.

Lemma strip_fold_named (names : list string) (l : list RooCmdArg) n :
  filter (λ c, cmdName c = n)
    (foldl (λ cmdList name,
              match FindObject cmdName name cmdList with
              | Some _ => RemoveFound cmdName name cmdList
              | None => cmdList
              end) l names)
  = drop (length (filter (λ x, x = n) names)) (filter (λ c, cmdName c = n) l) ∧
  foldl (λ cmdList name,
           match FindObject cmdName name cmdList with
           | Some _ => RemoveFound cmdName name cmdList
           | None => cmdList
           end) l names `sublist_of` l.
Proof.
  revert l. induction names as [| name names IH]; intros l; simpl; [done |].
  assert (match FindObject cmdName name l with
          | Some _ => RemoveFound cmdName name l
          | None => l
          end = RemoveFound cmdName name l) as ->.
  { destruct (FindObject cmdName name l) eqn:Hf; [done |].
    by rewrite RemoveFound_absent. }
  destruct (IH (RemoveFound cmdName name l)) as [-> Hsub]. split.
  - rewrite RemoveFound_named, drop_drop, filter_cons.
    case_bool_decide; case_decide; done.
  - etrans; [exact Hsub |]. apply RemoveFound_sublist.
Qed.

Lemma filter_fold (names : list string) (remove : bool)
    (filterList l : list RooCmdArg) :
  ∃ added,
    foldl (λ (st : list RooCmdArg * list RooCmdArg) name,
             let '(filterList, cmdInList) := st in
             match FindObject cmdName name cmdInList with
             | Some cmd =>
                 let cmdInList :=
                   if remove then RemoveFound cmdName name cmdInList
                   else cmdInList in
                 (filterList ++ [cmd], cmdInList)
             | None => (filterList, cmdInList)
             end) (filterList, l) names
    = (filterList ++ added,
       if remove
       then foldl (λ cmdList name,
                     match FindObject cmdName name cmdList with
                     | Some _ => RemoveFound cmdName name cmdList
                     | None => cmdList
                     end) l names
       else l) ∧
    Forall (λ c, c ∈ l ∧ cmdName c ∈ names) added ∧
    (remove = true →
     added ++ foldl (λ cmdList name,
                       match FindObject cmdName name cmdList with
                       | Some _ => RemoveFound cmdName name cmdList
                       | None => cmdList
                       end) l names ≡ₚ l).
Proof.
  revert filterList l.
  induction names as [| name names IH]; intros filterList l; cbn [foldl].
  { exists []. rewrite app_nil_r. split; [by destruct remove |]. done. }
  destruct (FindObject cmdName name l) as [cmd |] eqn:Hf.
  - destruct (IH (filterList ++ [cmd])
                (if remove then RemoveFound cmdName name l else l))
      as (added & Heq & Hall & Hperm).
    exists (cmd :: added).
    destruct (FindObject_Some cmdName _ _ _ Hf) as [Hin Hn].
    split_and!.
    + etrans; [exact Heq |]. rewrite <- app_assoc. by destruct remove.
    + apply Forall_cons. split; [split; [done | rewrite Hn; by left] |].
      eapply Forall_impl; [exact Hall |]. intros c [Hc Hc']. split; [| by right].
      destruct remove; [| done].
      by apply (elem_of_sublist _ _ _ Hc (RemoveFound_sublist cmdName name l)).
    + intros ->. rewrite (RemoveFound_Permutation cmdName name l cmd Hf) at 2.
      simpl. f_equiv. by apply Hperm.
  - destruct (IH filterList l) as (added & Heq & Hall & Hperm).
    exists added. split_and!; [exact Heq | | done].
    eapply Forall_impl; [exact Hall |]. intros c [Hc Hc']. split; [done |].
    by right.
Qed.

Lemma filterCmdList_eq (l : list RooCmdArg) (names : string) (remove : bool) :
  ∃ added,
    filterCmdList l (Some names) remove
    = (added, if remove then stripCmdList l (Some names) else l) ∧
    Forall (λ c, c ∈ l ∧ cmdName c ∈ Split names) added ∧
    (remove = true → added ++ stripCmdList l (Some names) ≡ₚ l).
Proof.
  destruct (filter_fold (Split names) remove [] l) as (added & Heq & Hall & Hperm).
  exists added. split_and!; [exact Heq | exact Hall | exact Hperm].
Qed.

(** X26.  [filterCmdList] moves commands, it neither loses nor copies
    one.  With [removeFromInList] set, the commands returned together with
    the commands left in the input list are the commands of the input list,
    each as often as it was there; the commands left are in the order they
    were in.  Every command returned is a command of the input list and has
    one of the names listed.  Without [removeFromInList] the input list is
    left as it is.  For a null list of names nothing is returned. *)
Theorem filterCmdList_moves (cmdInList : list RooCmdArg) (cmdNameList : string) :
  (filterCmdList cmdInList (Some cmdNameList) true).1
    ++ (filterCmdList cmdInList (Some cmdNameList) true).2 ≡ₚ cmdInList ∧
  (filterCmdList cmdInList (Some cmdNameList) true).2 `sublist_of` cmdInList ∧
  (∀ remove,
     Forall (λ c, c ∈ cmdInList ∧ cmdName c ∈ Split cmdNameList)
            (filterCmdList cmdInList (Some cmdNameList) remove).1) ∧
  (filterCmdList cmdInList (Some cmdNameList) false).2 = cmdInList ∧
  (∀ remove, filterCmdList cmdInList None remove = ([], cmdInList)).
Proof.
  split_and!.
  - destruct (filterCmdList_eq cmdInList cmdNameList true)
      as (added & -> & _ & Hperm). by apply Hperm.
  - destruct (filterCmdList_eq cmdInList cmdNameList true)
      as (added & -> & _ & _).
    apply (strip_fold_named (Split cmdNameList) cmdInList EmptyString).
  - intros remove.
    by destruct (filterCmdList_eq cmdInList cmdNameList remove)
      as (added & -> & Hall & _).
  - by destruct (filterCmdList_eq cmdInList cmdNameList false)
      as (added & -> & _ & _).
  - done.
Qed.

(** X27.  [stripCmdList] takes out one command for each time a name is
    listed, not every command of that name.  If a name is listed k times,
    the first k commands of that name are taken out of the list and the
    later ones stay; the commands that stay are in the order they were in,
    and the list is the one [filterCmdList] leaves when it removes.  For a
    null list of names the list stays as it is. *)
Theorem stripCmdList_removes_first (cmdList : list RooCmdArg)
    (cmdsToPurge : string) :
  (∀ n, filter (λ c, cmdName c = n) (stripCmdList cmdList (Some cmdsToPurge))
        = drop (length (filter (λ x, x = n) (Split cmdsToPurge)))
               (filter (λ c, cmdName c = n) cmdList)) ∧
  stripCmdList cmdList (Some cmdsToPurge) `sublist_of` cmdList ∧
  stripCmdList cmdList (Some cmdsToPurge)
    = (filterCmdList cmdList (Some cmdsToPurge) true).2 ∧
  stripCmdList cmdList None = cmdList.
Proof.
  split_and!.
  - intros n. apply strip_fold_named.
  - apply (strip_fold_named (Split cmdsToPurge) cmdList EmptyString).
  - by destruct (filterCmdList_eq cmdList cmdsToPurge true)
      as (added & -> & _ & _).
  - done.
Qed.

(** ** Decoding a double on the fly *)

Section decode.
Context (cmdArgName : string) (idx : Z).

Lemma decoding_own name arg t v :
  decoding cmdArgName idx t v →
  decoding cmdArgName idx (processedOwn name arg t)
           (decodeStep cmdArgName idx v (name, arg)).
Proof.
  intros (Hf & Hm & Hd). unfold decoding, decodeStep. simpl.
  unfold newlyForbidden. rewrite Hf, Hm, Hd. simpl. split_and!; [done | done |].
  unfold assignDouble. simpl. by case_bool_decide.
Qed.

Lemma decoding_processNamed arg : ∀ name t v,
  decoding cmdArgName idx t v →
  decoding cmdArgName idx (processNamed name arg t).1.2
           (foldl (decodeStep cmdArgName idx) v (handled name arg)).
Proof.
  induction arg as [arg IH] using RooCmdArg_induction. intros name t v Hdec.
  rewrite handled_eq.
  destruct (decide (name = EmptyString)) as [-> | Hname].
  { by rewrite processNamed_empty. }
  unfold opcodeOf. rewrite bool_decide_eq_false_2 by done.
  assert (FindObject id name (_fList t) = None) as Hf.
  { destruct Hdec as (-> & _). done. }
  rewrite processNamed_state by done. cbn [foldl].
  pose proof (decoding_own name arg t v Hdec) as Hown.
  destruct (procSubArgs arg); [| done].
  revert Hown.
  generalize (processedOwn name arg t) (decodeStep cmdArgName idx v (name, arg)).
  generalize false (@nil Line).
  induction IH as [| sub subs Hsub _ IHsubs]; intros b o t' v' Hdec'; [done |].
  simpl. rewrite foldl_app. destruct (bool_decide (cmdName sub = EmptyString)).
  - simpl. by apply IHsubs.
  - simpl.
    specialize (Hsub (subArgName name (prefixSubArgs arg) sub) t' v' Hdec').
    destruct (processNamed _ sub t') as [[r t''] o'']. by apply IHsubs.
Qed.

Lemma decoding_processList args : ∀ t v,
  decoding cmdArgName idx t v →
  decoding cmdArgName idx (processList args t).1.2
           (foldl (decodeStep cmdArgName idx) v
                  (concat (map (λ a, handled (cmdName a) a) args))).
Proof.
  induction args as [| a args IH]; intros t v Hdec; [done |].
  rewrite processList_cons. simpl. rewrite foldl_app. apply IH.
  by apply decoding_processNamed.
Qed.

Lemma foldl_upd_last (hs : list (string * RooCmdArg)) v :
  foldl (decodeStep cmdArgName idx) v hs =
  match last (filter (λ p, p.1 = cmdArgName) hs) with
  | Some p => cmdDouble p.2 idx
  | None => v
  end.
Proof.
  induction hs as [| p hs IH] using rev_ind; [done |].
  rewrite foldl_app, filter_app. simpl. unfold decodeStep at 1.
  destruct (decide (cmdArgName = p.1)) as [Hp | Hp].
  - rewrite bool_decide_eq_true_2 by done.
    rewrite filter_cons_True by done. by rewrite filter_nil, last_snoc.
  - rewrite bool_decide_eq_false_2 by done.
    rewrite filter_cons_False by congruence. by rewrite filter_nil, app_nil_r.
Qed.

End decode.

(** X28.  [decodeDoubleOnTheFly] returns the double in the slot [idx]
    of the last command of the name [cmdArgName] among the commands that
    are handled, and [defVal] if there is none.  The commands handled are
    the arguments that have a name, in order, each followed by its
    sub-arguments if it asks for them to be processed, under their names
    or their prefixed names; an argument of another name or without a name
    changes nothing and causes no failure.  The caller ID plays no part. *)
Theorem decodeDoubleOnTheFly_last (callerID cmdArgName : string) (idx : Z)
    (defVal : Double_t) (args : list RooCmdArg) :
  decodeDoubleOnTheFly callerID cmdArgName idx defVal args =
  match last (filter (λ p, p.1 = cmdArgName)
                (concat (map (λ a, handled (cmdName a) a) args))) with
  | Some p => cmdDouble p.2 idx
  | None => defVal
  end.
Proof.
  rewrite <- foldl_upd_last. unfold decodeDoubleOnTheFly.
  destruct (decoding_processList cmdArgName idx args
              (defineDouble "theDouble" cmdArgName idx defVal
                 (allowUndefined true (RooCmdConfig_new callerID))).1.2 defVal)
    as (_ & _ & Hd); [done |].
  unfold getDouble. rewrite Hd. simpl. done.
Qed.

(** ** The value [process] returns *)

Lemma existsb_title {A B} (title : A → string) (key : A → B) (proj : B → string)
    opc (l : list A) :
  (∀ x, proj (key x) = title x) →
  existsb (λ x, bool_decide (title x = opc)) l
  = existsb (λ k, bool_decide (proj k = opc)) (map key l).
Proof.
  intros Hk. induction l as [| x l IH]; simpl; [done |]. by rewrite Hk, IH.
Qed.

Lemma recognized_same opc a b :
  sameDefinitions a b → recognized opc a = recognized opc b.
Proof.
  intros (_ & _ & _ & Hi & Hd & Hs & Ho & Hc & _). unfold recognized.
  rewrite (existsb_title ri_title
             (λ ri, (ri_name ri, ri_title ri, ri_uniqueID ri)) (λ k, k.1.2)
             opc (_iList a)) by done.
  rewrite (existsb_title ri_title
             (λ ri, (ri_name ri, ri_title ri, ri_uniqueID ri)) (λ k, k.1.2)
             opc (_iList b)) by done.
  rewrite (existsb_title rd_title
             (λ rd, (rd_name rd, rd_title rd, rd_uniqueID rd)) (λ k, k.1.2)
             opc (_dList a)) by done.
  rewrite (existsb_title rd_title
             (λ rd, (rd_name rd, rd_title rd, rd_uniqueID rd)) (λ k, k.1.2)
             opc (_dList b)) by done.
  rewrite (existsb_title rs_title
             (λ rs, (rs_name rs, rs_title rs, rs_uniqueID rs, rs_appendMode rs))
             (λ k, k.1.1.2) opc (_sList a)) by done.
  rewrite (existsb_title rs_title
             (λ rs, (rs_name rs, rs_title rs, rs_uniqueID rs, rs_appendMode rs))
             (λ k, k.1.1.2) opc (_sList b)) by done.
  rewrite (existsb_title ro_title
             (λ ro, (ro_name ro, ro_title ro, ro_uniqueID ro, ro_isArray ro))
             (λ k, k.1.1.2) opc (_oList a)) by done.
  rewrite (existsb_title ro_title
             (λ ro, (ro_name ro, ro_title ro, ro_uniqueID ro, ro_isArray ro))
             (λ k, k.1.1.2) opc (_oList b)) by done.
  rewrite (existsb_title ro_title
             (λ ro, (ro_name ro, ro_title ro, ro_uniqueID ro, ro_isArray ro))
             (λ k, k.1.1.2) opc (_cList a)) by done.
  rewrite (existsb_title ro_title
             (λ ro, (ro_name ro, ro_title ro, ro_uniqueID ro, ro_isArray ro))
             (λ k, k.1.1.2) opc (_cList b)) by done.
  by rewrite Hi, Hd, Hs, Ho, Hc.
Qed.

Lemma processNamed_sameDefinitions arg name this :
  sameDefinitions this (processNamed name arg this).1.2.
Proof.
  apply (processNamed_keeps sameDefinitions sameDefinitions_refl
           sameDefinitions_trans).
  - intros t. unfold sameDefinitions. by destruct t.
  - intros opc a t _ _. apply sameDefinitions_processedOwn.
Qed.

(** What [process] returns for an argument that is not refused. *)
Lemma processNamed_ret name arg this :
  name ≠ EmptyString → FindObject id name (_fList this) = None →
  (processNamed name arg this).1.1 =
  negb (recognized name this || _allowUndefined this)
  || (if procSubArgs arg
      then (foldl (processSubArg processNamed name (prefixSubArgs arg))
                  (false, processedOwn name arg this, []) (subArgs arg)).1.1
      else false).
Proof.
  intros Hname Hf. rewrite processNamed_eq. unfold opcodeOf.
  rewrite bool_decide_eq_false_2 by done. rewrite Hf.
  destruct (processOwn_processedOwn name arg this) as [out ->].
  assert (∀ l b t o o',
            (foldl (processSubArg processNamed name (prefixSubArgs arg))
                   (b, t, o) l).1 =
            (foldl (processSubArg processNamed name (prefixSubArgs arg))
                   (b, t, o') l).1) as Hout.
  { induction l as [| x l IH]; intros b t o o'; [done |]. simpl.
    destruct (negb _); [| apply IH].
    destruct (processNamed _ x t) as [[r t'] o'']. apply IH. }
  assert (∀ l b t o,
            _allowUndefined
              (foldl (processSubArg processNamed name (prefixSubArgs arg))
                     (b, t, o) l).1.2 = _allowUndefined t) as Hallow.
  { induction l as [| x l IH]; intros b t o; [done |]. simpl.
    destruct (negb _); [| apply IH].
    pose proof (processNamed_sameDefinitions x
                  (subArgName name (prefixSubArgs arg) x) t) as (_ & _ & Ha & _).
    destruct (processNamed _ x t) as [[r t'] o'']. rewrite IH. by simpl in Ha. }
  destruct (procSubArgs arg).
  - specialize (Hout (subArgs arg) false (processedOwn name arg this) out []).
    specialize (Hallow (subArgs arg) false (processedOwn name arg this) out).
    destruct (foldl _ (false, processedOwn name arg this, out) (subArgs arg))
      as [[depRet this'] out'].
    rewrite <- Hout. simpl in *. rewrite Hallow.
    by destruct (recognized name this || _allowUndefined this).
  - simpl. rewrite orb_false_r.
    by destruct (recognized name this || _allowUndefined this).
Qed.

Lemma processList_ret_cons a l this :
  (processList (a :: l) this).1.1
  = (process a this).1.1 || (processList l (process a this).1.2).1.1.
Proof.
  unfold processList at 1. simpl.
  destruct (process a this) as [[r t] o]. simpl.
  unfold processList.
  cut (∀ b o',
         (foldl (λ (st : bool * RooCmdConfig * list Line) arg,
                   let '(ret, this, out) := st in
                   let '(r, this, out') := process arg this in
                   (ret || r, this, out ++ out')) (b, t, o') l).1.1
         = b || (foldl (λ (st : bool * RooCmdConfig * list Line) arg,
                          let '(ret, this, out) := st in
                          let '(r, this, out') := process arg this in
                          (ret || r, this, out ++ out')) (false, t, []) l).1.1).
  { intros H. apply H. }
  clear. revert t. induction l as [| x l IH]; intros t b o'; simpl.
  { by rewrite orb_false_r. }
  destruct (process x t) as [[r t'] o'']. rewrite (IH t' (b || r)).
  rewrite (IH t' r). by rewrite orb_assoc.
Qed.

(** An argument for which [process] returns false. *)
Lemma processNamed_false arg : ∀ name this,
  (processNamed name arg this).1.1 = false →
  _error (processNamed name arg this).1.2 = _error this ∧
  (_allowUndefined this = false →
   ∀ p, p ∈ handled name arg → recognized p.1 this = true).
Proof.
  induction arg as [arg IH] using RooCmdArg_induction. intros name this Hret.
  destruct (decide (name = EmptyString)) as [-> | Hname].
  { rewrite processNamed_empty. split; [done |]. intros _ p Hp.
    destruct arg. by apply elem_of_nil in Hp. }
  destruct (FindObject id name (_fList this)) as [o |] eqn:Hf.
  { by rewrite (processNamed_forbidden name arg this o) in Hret. }
  rewrite processNamed_ret in Hret by done.
  apply orb_false_elim in Hret as [Hown Hsub].
  apply negb_false_iff in Hown.
  rewrite processNamed_state by done.
  assert (∀ p, p ∈ handled name arg →
            p.1 = name ∨
            procSubArgs arg = true ∧
            ∃ sub, sub ∈ subArgs arg ∧ cmdName sub ≠ EmptyString ∧
                   p ∈ handled (subArgName name (prefixSubArgs arg) sub) sub)
    as Hhandled.
  { intros p. rewrite handled_eq. unfold opcodeOf.
    rewrite bool_decide_eq_false_2 by done.
    intros [-> | Hp]%elem_of_cons; [by left |]. right.
    destruct (procSubArgs arg); [| by apply elem_of_nil in Hp].
    split; [done |].
    apply elem_of_concat_map in Hp as (sub & Hsub' & Hp).
    exists sub. destruct (decide (cmdName sub = EmptyString)) as [He | He].
    - rewrite bool_decide_eq_true_2 in Hp by done. by apply elem_of_nil in Hp.
    - rewrite bool_decide_eq_false_2 in Hp by done. done. }
  destruct (procSubArgs arg).
  2:{ split; [done |]. intros Ha p [-> | [? _]]%Hhandled; [| done].
      rewrite Ha in Hown. by rewrite orb_false_r in Hown. }
  assert (sameDefinitions this (processedOwn name arg this)) as Hsame
    by apply sameDefinitions_processedOwn.
  assert (_error (processedOwn name arg this) = _error this) as Herr by done.
  revert Hsub Hsame Herr.
  generalize (processedOwn name arg this). intros t Hsub Hsame Herr.
  cut (_error
         (foldl (processSubArg processNamed name (prefixSubArgs arg))
                (false, t, []) (subArgs arg)).1.2 = _error t ∧
       (_allowUndefined t = false →
        ∀ sub, sub ∈ subArgs arg → cmdName sub ≠ EmptyString →
               ∀ p, p ∈ handled (subArgName name (prefixSubArgs arg) sub) sub →
                    recognized p.1 t = true)).
  { intros [He Hrec]. split; [congruence |]. intros Ha p Hp.
    destruct (Hhandled p Hp) as [-> | (_ & sub & Hin & Hne & Hp')].
    - rewrite Ha in Hown. by rewrite orb_false_r in Hown.
    - rewrite (recognized_same _ _ _ Hsame). apply (Hrec) with sub; try done.
      destruct Hsame as (_ & _ & <- & _). done. }
  clear Hhandled Hown. revert Hsub. generalize (@nil Line). revert t Hsame Herr.
  induction IH as [| sub subs Hsub' _ IHsubs]; intros t Hsame Herr o Hsub.
  { split; [done |]. intros _ sub Hin. by apply elem_of_nil in Hin. }
  simpl in Hsub |- *.
  destruct (decide (cmdName sub = EmptyString)) as [He | He].
  - rewrite bool_decide_eq_true_2 in Hsub |- * by done. simpl in Hsub |- *.
    destruct (IHsubs t Hsame Herr o Hsub) as [He' Hrec]. split; [done |].
    intros Ha s [-> | Hin]%elem_of_cons Hne p Hp; [done |].
    by apply (Hrec Ha s).
  - rewrite bool_decide_eq_false_2 in Hsub |- * by done. simpl in Hsub |- *.
    specialize (Hsub' (subArgName name (prefixSubArgs arg) sub) t).
    pose proof (processNamed_sameDefinitions sub
                  (subArgName name (prefixSubArgs arg) sub) t) as Hsame'.
    destruct (processNamed (subArgName name (prefixSubArgs arg) sub) sub t)
      as [[r t'] o'] eqn:Hp. simpl in Hsub', Hsame'.
    assert (r = false) as ->.
    { destruct r; [| done]. exfalso. revert Hsub. clear.
      generalize (o ++ o'). revert t'.
      induction subs as [| x l IH]; intros t' o''; [done |]. simpl.
      destruct (negb _); [| apply IH].
      destruct (processNamed _ x t') as [[r t''] o''']. apply IH. }
    destruct (Hsub' eq_refl) as [He1 Hrec1].
    destruct (IHsubs t' (sameDefinitions_trans _ _ _ Hsame Hsame') (eq_trans He1 Herr)
                (o ++ o') Hsub) as [He2 Hrec2].
    split; [congruence |].
    intros Ha s [-> | Hin]%elem_of_cons Hne p Hp'.
    + by apply Hrec1.
    + rewrite (recognized_same _ _ _ Hsame'). apply (Hrec2) with s; try done.
      destruct Hsame' as (_ & _ & <- & _). done.
Qed.

(** X29.  When [process] returns false for a list of arguments, nothing
    was refused and nothing was unknown: [_error] is as it was before, and
    unless undefined commands are allowed, every command that was handled,
    the sub-arguments that are processed included, is one that some
    property of the parser is read from. *)
Theorem process_false_all_recognized (l : list RooCmdArg) (this : RooCmdConfig) :
  (processList l this).1.1 = false →
  _error (processList l this).1.2 = _error this ∧
  (_allowUndefined this = false →
   ∀ p, p ∈ concat (map (λ a, handled (cmdName a) a) l) →
        recognized p.1 this = true).
Proof.
  revert this. induction l as [| a l IH]; intros this Hret.
  { split; [done |]. intros _ p Hp. by apply elem_of_nil in Hp. }
  rewrite processList_ret_cons in Hret.
  apply orb_false_elim in Hret as [Ha Hl].
  rewrite processList_cons.
  destruct (processNamed_false a (cmdName a) this Ha) as [He1 Hrec1].
  destruct (IH _ Hl) as [He2 Hrec2].
  pose proof (processNamed_sameDefinitions a (cmdName a) this) as Hsame.
  unfold process in *. split; [by rewrite He2 |].
  intros Hallow p Hp. simpl in Hp.
  apply elem_of_app in Hp as [Hp | Hp]; [by apply Hrec1 |].
  rewrite (recognized_same _ _ _ Hsame). apply Hrec2; [| done].
  destruct Hsame as (_ & _ & <- & _). done.
Qed.

(** X29 for [NumCPU] and [Range] in [exampleConfig]. *)
Lemma process_false_all_recognized_witness :
  _error (processList [simpleArg "NumCPU" 4 0%float; simpleArg "Range" 0 1%float]
                      exampleConfig).1.2 = _error exampleConfig ∧
  (_allowUndefined exampleConfig = false →
   ∀ p, p ∈ concat (map (λ a, handled (cmdName a) a)
                      [simpleArg "NumCPU" 4 0%float; simpleArg "Range" 0 1%float]) →
        recognized p.1 exampleConfig = true).
Proof.
  apply (process_false_all_recognized
           [simpleArg "NumCPU" 4 0%float; simpleArg "Range" 0 1%float]
           exampleConfig).
  reflexivity.
Defined.
